(** * Bytecode emission of the HHBBC back end (hphp/hhbbc/emit.cpp)

    A shallow embedding of the emitter: block ordering, the per-instruction
    encoder with its stack/FPI bookkeeping, forward-jump fixups, the
    exception-region flattener and the unit driver, followed by the
    properties of the emitted unit. *)

From Stdlib Require Import ZArith List Lia Bool String Sorting.Permutation.
From stdpp Require Import base list strings relations sorting.
Import ListNotations.

Local Open Scope Z_scope.

(** ** Results of fallible code

    The emitter has no recoverable errors: a failed [assert]/[always_assert]
    aborts, and indexing a vector out of range or calling [back()] on an
    empty one is undefined.  Both end the run. *)

Inductive Failure : Type :=
| AssertionFailed
| UndefinedBehaviour.

Inductive Res (A : Type) : Type :=
| Ok (a : A)
| Fatal (f : Failure).

Arguments Ok {A} a.
Arguments Fatal {A} f.

(** ** Fixed-width integers and their little-endian images *)

Definition byte_at (k : Z) (v : Z) : Z := Z.land (Z.shiftr v (8 * k)) 255.

Definition int32_bytes (v : Z) : list Z :=
  [byte_at 0 v; byte_at 1 v; byte_at 2 v; byte_at 3 v].

Definition int64_bytes (v : Z) : list Z :=
  int32_bytes v ++ int32_bytes (Z.shiftr v 32).

Definition to_int32 (v : Z) : Z := (v + 2 ^ 31) mod 2 ^ 32 - 2 ^ 31.

Definition fits_int32 (v : Z) : bool := (- 2 ^ 31 <=? v) && (v <? 2 ^ 31).

Definition le_uint32 (bs : list Z) : Z :=
  match bs with
  | [b0; b1; b2; b3] => b0 + 2 ^ 8 * b1 + 2 ^ 16 * b2 + 2 ^ 24 * b3
  | _ => 0
  end.

(** The signed 32-bit value stored at byte position [pos] of a stream. *)
Definition read_int32 (bc : list Z) (pos : Z) : Z :=
  to_int32 (le_uint32 (take 4 (drop (Z.to_nat pos) bc))).

(** Overwrite [length new] bytes of [bc] from position [pos] on. *)
Definition overwrite (pos : nat) (new : list Z) (bc : list Z) : list Z :=
  take pos bc ++ new ++ drop (pos + length new) bc.

(** ** The sink: [UnitEmitter]

    Only the members the emitter calls are modelled: the byte stream, the
    literal tables and the source-location table. *)

Record SrcLoc : Type := mkSrcLoc {
  sl_start : Z * Z;
  sl_past : Z * Z;
}.

Record UnitEmitter : Type := mkUE {
  m_bc : list Z;
  m_litstrs : list string;
  m_arrays : list string;
  m_sourceLocs : list (SrcLoc * Z);
}.

Definition bcPos (u : UnitEmitter) : Z := Z.of_nat (length (m_bc u)).

Definition emitBytes (bs : list Z) (u : UnitEmitter) : UnitEmitter :=
  mkUE (m_bc u ++ bs) (m_litstrs u) (m_arrays u) (m_sourceLocs u).

Definition emitByte (v : Z) : UnitEmitter -> UnitEmitter := emitBytes [byte_at 0 v].
Definition emitInt32 (v : Z) : UnitEmitter -> UnitEmitter := emitBytes (int32_bytes v).
Definition emitInt64 (v : Z) : UnitEmitter -> UnitEmitter := emitBytes (int64_bytes v).
Definition emitDouble (bits : Z) : UnitEmitter -> UnitEmitter := emitBytes (int64_bytes bits).

(** Modelled from the spec: [UnitEmitter::emitIVA] is not part of the emitter's
    source; an IVA is a single byte when the value fits in 7 bits, otherwise
    4 bytes with the high bit of the first byte set. *)
Definition iva_bytes (v : Z) : list Z :=
  if (0 <=? v) && (v <? 128) then [v]
  else [Z.lor 128 (Z.land v 127); byte_at 0 (Z.shiftr v 7);
        byte_at 1 (Z.shiftr v 7); byte_at 2 (Z.shiftr v 7)].

Definition emitIVA (v : Z) : UnitEmitter -> UnitEmitter := emitBytes (iva_bytes v).

(** [emitInt32(val, atOffset)]: back-patching inside the stream. *)
Definition emitInt32_at (v : Z) (pos : Z) (u : UnitEmitter) : Res UnitEmitter :=
  if (0 <=? pos) && (pos + 4 <=? bcPos u) then
    Ok (mkUE (overwrite (Z.to_nat pos) (int32_bytes v) (m_bc u))
             (m_litstrs u) (m_arrays u) (m_sourceLocs u))
  else Fatal UndefinedBehaviour.

Fixpoint index_of (s : string) (tbl : list string) : option nat :=
  match tbl with
  | [] => None
  | t :: tbl' => if String.eqb s t then Some 0%nat
                 else option_map S (index_of s tbl')
  end.

(** Modelled from the spec: interning returns the id of the literal in the
    sink's table, adding it when it is new. *)
Definition intern (s : string) (tbl : list string) : Z * list string :=
  match index_of s tbl with
  | Some i => (Z.of_nat i, tbl)
  | None => (Z.of_nat (length tbl), tbl ++ [s])
  end.

Definition mergeLitstr (s : string) (u : UnitEmitter) : Z * UnitEmitter :=
  let '(i, t) := intern s (m_litstrs u) in
  (i, mkUE (m_bc u) t (m_arrays u) (m_sourceLocs u)).

Definition mergeArray (a : string) (u : UnitEmitter) : Z * UnitEmitter :=
  let '(i, t) := intern a (m_arrays u) in
  (i, mkUE (m_bc u) (m_litstrs u) t (m_sourceLocs u)).

Definition recordSourceLocation (loc : SrcLoc) (off : Z) (u : UnitEmitter)
  : UnitEmitter :=
  mkUE (m_bc u) (m_litstrs u) (m_arrays u) (m_sourceLocs u ++ [(loc, off)]).

(** ** The opcode table

    [OPCODES] (hphp/runtime/vm/hhbc.h) lists, for each opcode, its immediates,
    its inputs, its outputs and its flags; the emitter is generated from it
    through the [O] macro.  The table is an input of this development. *)

Inductive PopKind : Type :=
| POP_NOV | POP_ONE | POP_TWO | POP_THREE
| POP_MFINAL | POP_F_MFINAL | POP_C_MFINAL | POP_V_MFINAL
| POP_CMANY | POP_SMANY | POP_FMANY | POP_CVUMANY.

Inductive PushKind : Type :=
| PUSH_NOV | PUSH_ONE | PUSH_TWO | PUSH_THREE | PUSH_INS_1.

Class OpcodeTable : Type := {
  Op : Type;
  Op_eq_dec :: EqDecision Op;
  (* the opcodes the emitter names *)
  OpNop : Op;
  OpEntryNop : Op;
  OpJmp : Op;
  OpJmpNS : Op;
  OpDefCls : Op;
  OpDefClsNop : Op;
  OpFCall : Op;
  OpFCallD : Op;
  (* columns of the table *)
  op_inputs : Op -> PopKind;
  op_outputs : Op -> PushKind;
  op_TF : Op -> bool;
  (* classification helpers of hhbc.h *)
  isRet : Op -> bool;
  isFPush : Op -> bool;
  isFCallStar : Op -> bool;
  (* the byte [emitOp] writes *)
  op_byte : Op -> Z;
  (* runtime constants *)
  kInvalidOffset : Z;
  SrcLoc_isValid : SrcLoc -> bool;
}.

(** ** The IR (hphp/hhbbc/representation.h), as far as the emitter reads it *)

Definition BlockId : Type := nat.
Definition LocalId : Type := N.

Definition INT_MAX : N := 2147483647.

Inductive MemberCode : Type :=
| MEC | MPC | MEL | MPL | MET | MPT | MQT | MEI | MW.

Record MKey : Type := mkMKey {
  mcode : MemberCode;
  mk_idx : Z;
  mk_local : LocalId;
  mk_litstr : string;
  mk_int64 : Z;
}.

Record LocalRange : Type := mkLocalRange {
  lr_first : LocalId;
  lr_restCount : N;
}.

(** An immediate together with its value; the list of an instruction's
    immediates is in the order of the opcode's schema. *)
Inductive Imm : Type :=
| BLA (targets : list BlockId)
| SLA (targets : list (string * BlockId))
| ILA (iterTab : list (Z * Z))
| IVA (arg : Z)
| I64A (arg : Z)
| LA (loc : LocalId)
| IA (iter : Z)
| CAR (slot : Z)
| CAW (slot : Z)
| DA (dbl : Z)
| SA (str : string)
| RATA (rat : list Z)
| AA (arr : string)
| OA (subop : Z)
| BA (target : BlockId)
| VSA (keys : list string)
| KA (mkey : MKey)
| LAR (locrange : LocalRange).

Inductive BlockSection : Type := Main | Fault.

Inductive ExnInfo : Type :=
| CatchRegion (catchEntry : BlockId) (iterId : Z) (itRef : bool)
| FaultRegion (faultEntry : BlockId) (iterId : Z) (itRef : bool).

(** Exception nodes form a tree through their parent pointers; a node is
    identified by its [exn_id]. *)
#[warnings="-register-all"] Inductive ExnNode : Type :=
| mkExnNode (exn_id : nat) (depth : Z) (parent : option ExnNode) (info : ExnInfo).

Definition exn_id (n : ExnNode) : nat := let 'mkExnNode i _ _ _ := n in i.
Definition depth (n : ExnNode) : Z := let 'mkExnNode _ d _ _ := n in d.
Definition parent (n : ExnNode) : option ExnNode := let 'mkExnNode _ _ p _ := n in p.
Definition info (n : ExnNode) : ExnInfo := let 'mkExnNode _ _ _ i := n in i.

Definition ExnNodePtr : Type := option ExnNode.

Record Local : Type := mkLocal {
  loc_id : LocalId;
  killed : bool;
  loc_name : option string;
}.

Record Param : Type := mkParam {
  dvEntryPoint : option BlockId;
}.

Section Emitter.

Context {tbl : OpcodeTable}.

Record Bytecode : Type := mkBytecode {
  op : Op;
  imms : list Imm;
  srcLoc : Z;
}.

(** A block is identified with its position in [blocks]: block ids are dense.
    [None] stands for [NoBlockId]. *)
Record Block : Type := mkBlock {
  hhbcs : list Bytecode;
  section : BlockSection;
  fallthrough : option BlockId;
  fallthroughNS : bool;
  factoredExits : list BlockId;
  exnNode : ExnNodePtr;
}.

Record Func : Type := mkFunc {
  func_name : string;
  locals : list Local;
  params : list Param;
  blocks : list Block;
  srcLocs : list SrcLoc;
}.

(** [rpoSortFromMain] and [rpoSortAddDVs] (hphp/hhbbc/cfg.h). *)
Class Cfg : Type := {
  rpoSortFromMain : Func -> list BlockId;
  rpoSortAddDVs : Func -> list BlockId;
}.

Context {cfg : Cfg}.

(** ** Block order *)

Definition section_rank (s : BlockSection) : Z :=
  match s with Main => 0 | Fault => 1 end.

Definition block_section (f : Func) (b : BlockId) : BlockSection :=
  match blocks f !! b with
  | Some blk => section blk
  | None => Main
  end.

(** [std::stable_sort] on the section: elements are inserted from the right,
    each before the first element of a strictly greater section. *)
Fixpoint insert_by_section (f : Func) (b : BlockId) (l : list BlockId)
  : list BlockId :=
  match l with
  | [] => [b]
  | c :: l' =>
      if section_rank (block_section f c) <? section_rank (block_section f b)
      then c :: insert_by_section f b l'
      else b :: c :: l'
  end.

Definition stable_sort_by_section (f : Func) (l : list BlockId) : list BlockId :=
  foldr (insert_by_section f) [] l.

(** [withDVs.erase(std::find(begin, end, x), end)] *)
Fixpoint erase_from (x : BlockId) (l : list BlockId) : list BlockId :=
  match l with
  | [] => []
  | y :: l' => if decide (y = x) then [] else y :: erase_from x l'
  end.

Definition is_single_nop (b : Block) : bool :=
  match hhbcs b with
  | [i] => bool_decide (op i = OpNop)
  | _ => false
  end.

Definition set_hhbcs (b : Block) (code : list Bytecode) : Block :=
  mkBlock code (section b) (fallthrough b) (fallthroughNS b) (factoredExits b)
          (exnNode b).

Definition set_blocks (f : Func) (bs : list Block) : Func :=
  mkFunc (func_name f) (locals f) (params f) bs (srcLocs f).

Definition EntryNop : Bytecode := mkBytecode OpEntryNop [] (-1).

(** The blocks of the layout before the sort: the main reverse postorder
    followed by the DV blocks. *)
Definition order_blocks_unsorted (sorted withDVs : list BlockId)
  : Res (list BlockId) :=
  match sorted with
  | [] => Fatal UndefinedBehaviour
  | front :: _ => Ok (sorted ++ erase_from front withDVs)
  end.

Definition order_blocks (f : Func) : Res (list BlockId * Func) :=
  match order_blocks_unsorted (rpoSortFromMain f) (rpoSortAddDVs f) with
  | Fatal e => Fatal e
  | Ok l =>
      match stable_sort_by_section f l with
      | [] => Fatal UndefinedBehaviour
      | (front :: _) as sorted =>
          match blocks f !! front with
          | None => Fatal UndefinedBehaviour
          | Some blk =>
              if is_single_nop blk
              then Ok (sorted,
                       set_blocks f (<[front := set_hhbcs blk [EntryNop]]> (blocks f)))
              else Ok (sorted, f)
          end
      end
  end.

(** ** Exception-node helpers *)

Definition entry (eh : ExnNode) : BlockId :=
  match info eh with
  | CatchRegion c _ _ => c
  | FaultRegion f _ _ => f
  end.

(** The loop of [handleEquivalent]; dereferencing a null node is undefined. *)
Fixpoint handleEquivalent_loop (eh1 eh2 : ExnNode) {struct eh1} : Res bool :=
  if bool_decide (entry eh1 = entry eh2) then
    match eh1, eh2 with
    | mkExnNode _ _ None _, mkExnNode _ _ None _ => Ok true
    | mkExnNode _ _ (Some p1) _, mkExnNode _ _ (Some p2) _ =>
        handleEquivalent_loop p1 p2
    | _, _ => Fatal UndefinedBehaviour
    end
  else Ok false.

Definition handleEquivalent (eh1 eh2 : ExnNodePtr) : Res bool :=
  match eh1, eh2 with
  | None, None => Ok true
  | Some n1, Some n2 =>
      if bool_decide (depth n1 = depth n2) then handleEquivalent_loop n1 n2
      else Ok false
  | _, _ => Ok false
  end.

(** [while (eh->depth > d) eh = eh->parent;] *)
Fixpoint ascend_to_depth (eh : ExnNode) (d : Z) {struct eh} : Res ExnNode :=
  if d <? depth eh then
    match eh with
    | mkExnNode _ _ (Some p) _ => ascend_to_depth p d
    | mkExnNode _ _ None _ => Fatal UndefinedBehaviour
    end
  else Ok eh.

(** [while (!handleEquivalent(eh1, eh2)) { eh1 = eh1->parent; eh2 = eh2->parent; }] *)
Fixpoint commonParent_loop (eh1 : ExnNode) (eh2 : ExnNodePtr) {struct eh1}
  : Res ExnNodePtr :=
  match handleEquivalent (Some eh1) eh2 with
  | Fatal e => Fatal e
  | Ok true => Ok (Some eh1)
  | Ok false =>
      match eh2 with
      | None => Fatal UndefinedBehaviour
      | Some n2 =>
          match eh1 with
          | mkExnNode _ _ (Some p1) _ => commonParent_loop p1 (parent n2)
          | mkExnNode _ _ None _ =>
              match parent n2 with
              | None => Ok None
              | Some _ => Fatal UndefinedBehaviour
              end
          end
      end
  end.

Definition commonParent (eh1 eh2 : ExnNodePtr) : Res ExnNodePtr :=
  match eh1, eh2 with
  | Some n1, Some n2 =>
      match ascend_to_depth n1 (depth n2) with
      | Fatal e => Fatal e
      | Ok n1' =>
          match ascend_to_depth n2 (depth n1') with
          | Fatal e => Fatal e
          | Ok n2' => commonParent_loop n1' (Some n2')
          end
      end
  | _, _ => Ok None
  end.

(** ** State of [emit_bytecode] *)

Record FPI : Type := mkFPI {
  fpushOff : Z;
  fpiEndOff : Z;
  fpDelta : Z;
}.

Record JmpFixup : Type := mkJmpFixup {
  instrOff : Z;
  jmpImmedOff : Z;
}.

Record BlockInfo : Type := mkBlockInfo {
  offset : Z;
  past : Z;
  regionsToPop : Z;
  forwardJumps : list JmpFixup;
  expectedStackDepth : option Z;
  expectedFPIDepth : option Z;
}.

Record EmitBcInfo : Type := mkEmitBcInfo {
  blockOrder : list BlockId;
  maxStackDepth : Z;
  maxFpiDepth : Z;
  containsCalls : bool;
  fpiRegions : list FPI;
  blockInfo : list BlockInfo;
}.

(** What happened so far, newest first: a block was started, an expected
    depth was set, an opcode was written, a branch immediate was written.
    The emitter never reads it; the properties of a run are stated on it. *)
Inductive Event : Type :=
| EvBlock (b : BlockId) (off : Z) (stackDepth fpiDepth : Z)
| EvExpect (b : BlockId) (stackDepth fpiDepth : Z)
| EvOp (off : Z) (inst : Bytecode) (stackDepth : Z)
| EvBranch (instrOff jmpImmedOff : Z) (target : BlockId).

(** [ue] and [euState.defClsMap] live for the whole unit; the other fields
    are the locals of one [emit_bytecode] call.  The top of [fpiStack] is the
    head of the list. *)
Record EmitState : Type := mkState {
  ue : UnitEmitter;
  defClsMap : list Z;
  ret : EmitBcInfo;
  currentStackDepth : Z;
  fpiStack : list FPI;
  lastOff : Z;
  history : list Event;
}.

Definition M (A : Type) : Type := EmitState -> Res (A * EmitState).

#[global] Instance Res_ret : MRet Res := fun A a => Ok a.
#[global] Instance Res_bind : MBind Res := fun A B k r =>
  match r with
  | Ok a => k a
  | Fatal e => Fatal e
  end.

#[global] Instance Res_fmap : FMap Res := fun A B g r =>
  match r with
  | Ok a => Ok (g a)
  | Fatal e => Fatal e
  end.

#[global] Instance M_ret : MRet M := fun A a s => Ok (a, s).
#[global] Instance M_bind : MBind M := fun A B k c s =>
  match c s with
  | Ok (a, s') => k a s'
  | Fatal e => Fatal e
  end.

Definition fail {A : Type} (e : Failure) : M A := fun _ => Fatal e.
Definition get : M EmitState := fun s => Ok (s, s).
Definition put (s : EmitState) : M unit := fun _ => Ok (tt, s).
Definition gets {A : Type} (f : EmitState -> A) : M A := fun s => Ok (f s, s).
Definition modify (f : EmitState -> EmitState) : M unit := fun s => Ok (tt, f s).
Definition lift {A : Type} (r : Res A) : M A := fun s =>
  match r with
  | Ok a => Ok (a, s)
  | Fatal e => Fatal e
  end.

Definition assert (b : bool) : M unit :=
  if b then mret tt else fail AssertionFailed.

(** Indexing a vector or dereferencing a block pointer. *)
Definition at_index {A : Type} (l : list A) (i : nat) : M A :=
  match l !! i with
  | Some a => mret a
  | None => fail UndefinedBehaviour
  end.

Definition when (b : bool) (c : M unit) : M unit := if b then c else mret tt.

Fixpoint for_each {A : Type} (l : list A) (body : A -> M unit) : M unit :=
  match l with
  | [] => mret tt
  | a :: l' => body a ;; for_each l' body
  end.

Fixpoint repeat_n (n : nat) (c : M unit) : M unit :=
  match n with
  | O => mret tt
  | S k => c ;; repeat_n k c
  end.

(** Field updates *)

Definition set_ue (u : UnitEmitter) (s : EmitState) : EmitState :=
  mkState u (defClsMap s) (ret s) (currentStackDepth s) (fpiStack s) (lastOff s)
          (history s).
Definition set_defClsMap (m : list Z) (s : EmitState) : EmitState :=
  mkState (ue s) m (ret s) (currentStackDepth s) (fpiStack s) (lastOff s)
          (history s).
Definition set_ret (r : EmitBcInfo) (s : EmitState) : EmitState :=
  mkState (ue s) (defClsMap s) r (currentStackDepth s) (fpiStack s) (lastOff s)
          (history s).
Definition set_currentStackDepth (d : Z) (s : EmitState) : EmitState :=
  mkState (ue s) (defClsMap s) (ret s) d (fpiStack s) (lastOff s) (history s).
Definition set_fpiStack (st : list FPI) (s : EmitState) : EmitState :=
  mkState (ue s) (defClsMap s) (ret s) (currentStackDepth s) st (lastOff s)
          (history s).
Definition set_lastOff (o : Z) (s : EmitState) : EmitState :=
  mkState (ue s) (defClsMap s) (ret s) (currentStackDepth s) (fpiStack s) o
          (history s).
Definition log (e : Event) (s : EmitState) : EmitState :=
  mkState (ue s) (defClsMap s) (ret s) (currentStackDepth s) (fpiStack s)
          (lastOff s) (e :: history s).

Definition set_maxStackDepth (d : Z) (r : EmitBcInfo) : EmitBcInfo :=
  mkEmitBcInfo (blockOrder r) d (maxFpiDepth r) (containsCalls r) (fpiRegions r)
               (blockInfo r).
Definition set_maxFpiDepth (d : Z) (r : EmitBcInfo) : EmitBcInfo :=
  mkEmitBcInfo (blockOrder r) (maxStackDepth r) d (containsCalls r)
               (fpiRegions r) (blockInfo r).
Definition set_containsCalls (c : bool) (r : EmitBcInfo) : EmitBcInfo :=
  mkEmitBcInfo (blockOrder r) (maxStackDepth r) (maxFpiDepth r) c (fpiRegions r)
               (blockInfo r).
Definition set_fpiRegions (l : list FPI) (r : EmitBcInfo) : EmitBcInfo :=
  mkEmitBcInfo (blockOrder r) (maxStackDepth r) (maxFpiDepth r) (containsCalls r)
               l (blockInfo r).
Definition set_blockInfo (l : list BlockInfo) (r : EmitBcInfo) : EmitBcInfo :=
  mkEmitBcInfo (blockOrder r) (maxStackDepth r) (maxFpiDepth r) (containsCalls r)
               (fpiRegions r) l.

Definition set_offset (o : Z) (i : BlockInfo) : BlockInfo :=
  mkBlockInfo o (past i) (regionsToPop i) (forwardJumps i)
              (expectedStackDepth i) (expectedFPIDepth i).
Definition set_past (p : Z) (i : BlockInfo) : BlockInfo :=
  mkBlockInfo (offset i) p (regionsToPop i) (forwardJumps i)
              (expectedStackDepth i) (expectedFPIDepth i).
Definition set_regionsToPop (n : Z) (i : BlockInfo) : BlockInfo :=
  mkBlockInfo (offset i) (past i) n (forwardJumps i)
              (expectedStackDepth i) (expectedFPIDepth i).
Definition set_forwardJumps (l : list JmpFixup) (i : BlockInfo) : BlockInfo :=
  mkBlockInfo (offset i) (past i) (regionsToPop i) l
              (expectedStackDepth i) (expectedFPIDepth i).
Definition set_expectedStackDepth (d : option Z) (i : BlockInfo) : BlockInfo :=
  mkBlockInfo (offset i) (past i) (regionsToPop i) (forwardJumps i)
              d (expectedFPIDepth i).
Definition set_expectedFPIDepth (d : option Z) (i : BlockInfo) : BlockInfo :=
  mkBlockInfo (offset i) (past i) (regionsToPop i) (forwardJumps i)
              (expectedStackDepth i) d.

(** Sink calls inside the state *)

Definition ue_do (f : UnitEmitter -> UnitEmitter) : M unit :=
  modify (fun s => set_ue (f (ue s)) s).

Definition ue_merge (f : UnitEmitter -> Z * UnitEmitter) : M Z :=
  fun s => let '(i, u) := f (ue s) in Ok (i, set_ue u s).

Definition get_blockInfo (id : BlockId) : M BlockInfo :=
  s ← get; at_index (blockInfo (ret s)) id.

(** [blockInfo[id] = g(blockInfo[id])] *)
Definition update_blockInfo (id : BlockId) (g : BlockInfo -> BlockInfo) : M unit :=
  i ← get_blockInfo id;
  modify (fun s => set_ret (set_blockInfo (<[id := g i]> (blockInfo (ret s))) (ret s)) s).

(** ** [emit_bytecode] and its local functions *)

Definition to_uint32 (v : Z) : Z := v mod 2 ^ 32.

Definition map_local (f : Func) (id : LocalId) : Res LocalId :=
  match locals f !! N.to_nat id with
  | None => Fatal UndefinedBehaviour
  | Some loc =>
      if killed loc then Fatal AssertionFailed
      else if (loc_id loc <=? id)%N then Ok (loc_id loc)
      else Fatal AssertionFailed
  end.

Definition end_fpi (off : Z) : M unit :=
  s ← get;
  match fpiStack s with
  | [] => fail UndefinedBehaviour
  | fpi :: rest =>
      put (set_fpiStack rest
             (set_ret (set_fpiRegions
                         (fpiRegions (ret s)
                            ++ [mkFPI (fpushOff fpi) off (fpDelta fpi)])
                         (ret s)) s))
  end.

Definition fpiStack_size (s : EmitState) : Z := Z.of_nat (length (fpiStack s)).

Definition set_expected_depth (id : BlockId) : M unit :=
  info ← get_blockInfo id;
  s ← get;
  modify (log (EvExpect id (currentStackDepth s) (fpiStack_size s)));;
  match expectedStackDepth info with
  | Some d => assert (bool_decide (d = to_uint32 (currentStackDepth s)))
  | None =>
      update_blockInfo id
        (set_expectedStackDepth (Some (to_uint32 (currentStackDepth s))))
  end;;
  match expectedFPIDepth info with
  | Some d => assert (bool_decide (d = fpiStack_size s))
  | None => update_blockInfo id (set_expectedFPIDepth (Some (fpiStack_size s)))
  end.

(** [make_member_key] followed by [encode_member_key]: the tag byte and the
    payload of the variant. *)
Definition mcode_tag (m : MemberCode) : Z :=
  match m with
  | MEC => 0 | MPC => 1 | MEL => 2 | MPL => 3 | MET => 4
  | MPT => 5 | MQT => 6 | MEI => 7 | MW => 8
  end.

Definition emit_member_key (f : Func) (mkey : MKey) : M unit :=
  match mcode mkey with
  | MEC | MPC =>
      ue_do (emitByte (mcode_tag (mcode mkey)));; ue_do (emitIVA (mk_idx mkey))
  | MEL | MPL =>
      l ← lift (map_local f (mk_local mkey));
      ue_do (emitByte (mcode_tag (mcode mkey)));;
      ue_do (emitIVA (to_int32 (Z.of_N l)))
  | MET | MPT | MQT =>
      ue_do (emitByte (mcode_tag (mcode mkey)));;
      i ← ue_merge (mergeLitstr (mk_litstr mkey));
      ue_do (emitInt32 i)
  | MEI =>
      ue_do (emitByte (mcode_tag (mcode mkey)));;
      ue_do (emitInt64 (mk_int64 mkey))
  | MW => ue_do (emitByte (mcode_tag (mcode mkey)))
  end.

Definition emit_vsa (keys : list string) : M unit :=
  ue_do (emitInt32 (Z.of_nat (length keys)));;
  for_each keys (fun k => i ← ue_merge (mergeLitstr k); ue_do (emitInt32 i)).

Definition push_forwardJump (fx : JmpFixup) (i : BlockInfo) : BlockInfo :=
  set_forwardJumps (forwardJumps i ++ [fx]) i.

Definition emit_branch (startOffset : Z) (id : BlockId) : M unit :=
  set_expected_depth id;;
  info ← get_blockInfo id;
  s ← get;
  modify (log (EvBranch startOffset (bcPos (ue s)) id));;
  if bool_decide (offset info ≠ kInvalidOffset) then
    ue_do (emitInt32 (offset info - startOffset))
  else
    update_blockInfo id (push_forwardJump (mkJmpFixup startOffset (bcPos (ue s))));;
    ue_do (emitInt32 0).

Definition emit_switch (startOffset : Z) (targets : list BlockId) : M unit :=
  ue_do (emitInt32 (Z.of_nat (length targets)));;
  for_each targets (emit_branch startOffset).

(** The cases before the last one, then [-1] and the last (default) case;
    an empty table makes [targets.size() - 1] wrap around. *)
Definition emit_sswitch (startOffset : Z) (targets : list (string * BlockId))
  : M unit :=
  ue_do (emitInt32 (Z.of_nat (length targets)));;
  match last targets with
  | None => fail UndefinedBehaviour
  | Some dflt =>
      for_each (removelast targets) (fun t =>
        i ← ue_merge (mergeLitstr (fst t));
        ue_do (emitInt32 i);;
        emit_branch startOffset (snd t));;
      ue_do (emitInt32 (-1));;
      emit_branch startOffset (snd dflt)
  end.

Definition emit_itertab (iterTab : list (Z * Z)) : M unit :=
  ue_do (emitInt32 (Z.of_nat (length iterTab)));;
  for_each iterTab (fun kv =>
    ue_do (emitInt32 (fst kv));; ue_do (emitInt32 (snd kv))).

Definition emit_lar (f : Func) (range : LocalRange) : M unit :=
  let lastId := (N.modulo (lr_first range + lr_restCount range) (2 ^ 32))%N in
  (if (lastId <? N.of_nat (length (locals f)))%N then mret tt
   else fail AssertionFailed);;
  first ← lift (map_local f (lr_first range));
  last ← lift (map_local f lastId);
  assert (bool_decide (to_uint32 (Z.of_N last - Z.of_N first)
                       = Z.of_N (lr_restCount range)));;
  ue_do (emitIVA (Z.of_N first));;
  ue_do (emitIVA (Z.of_N (lr_restCount range))).

Definition emit_imm (f : Func) (startOffset : Z) (imm : Imm) : M unit :=
  match imm with
  | BLA targets => emit_switch startOffset targets
  | SLA targets => emit_sswitch startOffset targets
  | ILA iterTab => emit_itertab iterTab
  | IVA arg => ue_do (emitIVA arg)
  | I64A arg => ue_do (emitInt64 arg)
  | LA loc => l ← lift (map_local f loc); ue_do (emitIVA (Z.of_N l))
  | IA iter => ue_do (emitIVA iter)
  | CAR slot => ue_do (emitIVA slot)
  | CAW slot => ue_do (emitIVA slot)
  | DA dbl => ue_do (emitDouble dbl)
  | SA str => i ← ue_merge (mergeLitstr str); ue_do (emitInt32 i)
  | RATA rat => ue_do (emitBytes rat)
  | AA arr => i ← ue_merge (mergeArray arr); ue_do (emitInt32 i)
  | OA subop => ue_do (emitByte subop)
  | BA target => emit_branch startOffset target
  | VSA keys => emit_vsa keys
  | KA mkey => emit_member_key f mkey
  | LAR locrange => emit_lar f locrange
  end.

(** [data.arg##n]: the [n]-th immediate of the instruction. *)
Definition arg (n : nat) (inst : Bytecode) : Z :=
  match imms inst !! Nat.pred n with
  | Some (IVA v) => v
  | Some (I64A v) => v
  | _ => 0
  end.

(** [data.keys.size()] *)
Fixpoint keys_of (l : list Imm) : list string :=
  match l with
  | [] => []
  | VSA keys :: _ => keys
  | _ :: l' => keys_of l'
  end.

Definition keys_size (inst : Bytecode) : Z :=
  Z.of_nat (length (keys_of (imms inst))).

(** The arguments of the [pop] calls of [POP_##inputs], as [int32_t]. *)
Definition pops (inst : Bytecode) : list Z :=
  match op_inputs (op inst) with
  | POP_NOV => []
  | POP_ONE => [1]
  | POP_TWO => [2]
  | POP_THREE => [3]
  | POP_MFINAL => [to_int32 (arg 1 inst)]
  | POP_F_MFINAL => [to_int32 (arg 2 inst)]
  | POP_C_MFINAL | POP_V_MFINAL => [1; to_int32 (arg 1 inst)]
  | POP_CMANY | POP_FMANY | POP_CVUMANY => [to_int32 (arg 1 inst)]
  | POP_SMANY => [to_int32 (keys_size inst)]
  end.

Definition pushes (inst : Bytecode) : list Z :=
  match op_outputs (op inst) with
  | PUSH_NOV => []
  | PUSH_ONE => [1]
  | PUSH_TWO => [2]
  | PUSH_THREE => [3]
  | PUSH_INS_1 => [1]
  end.

(** Signed overflow of [currentStackDepth] is undefined. *)
Definition pop (n : Z) : M unit :=
  s ← get;
  let d := currentStackDepth s - n in
  (if fits_int32 d then mret tt else fail UndefinedBehaviour);;
  put (set_currentStackDepth d s);;
  assert (0 <=? d).

Definition push (n : Z) : M unit :=
  s ← get;
  let d := currentStackDepth s + n in
  (if fits_int32 d then mret tt else fail UndefinedBehaviour);;
  put (set_currentStackDepth d s);;
  when (maxStackDepth (ret s) <? to_uint32 d)
       (modify (fun s => set_ret (set_maxStackDepth (to_uint32 d) (ret s)) s)).

Definition fpush (startOffset : Z) : M unit :=
  modify (fun s =>
    set_fpiStack (mkFPI startOffset kInvalidOffset (currentStackDepth s)
                    :: fpiStack s) s);;
  modify (fun s =>
    set_ret (set_maxFpiDepth (Z.max (maxFpiDepth (ret s)) (fpiStack_size s))
               (ret s)) s).

Definition fcall (startOffset : Z) : M unit := end_fpi startOffset.

Definition ret_assert : M unit :=
  s ← get; assert (bool_decide (currentStackDepth s = 1)).

Definition defcls (startOffset : Z) (inst : Bytecode) : M unit :=
  let id := Z.to_nat (arg 1 inst) in
  s ← get;
  o ← at_index (defClsMap s) id;
  assert (bool_decide (o = kInvalidOffset));;
  modify (fun s => set_defClsMap (<[id := startOffset]> (defClsMap s)) s).

Definition defclsnop (startOffset : Z) (inst : Bytecode) : M unit :=
  let id := Z.to_nat (arg 1 inst) in
  s ← get;
  o ← at_index (defClsMap s) id;
  assert (bool_decide (o = kInvalidOffset));;
  modify (fun s => set_defClsMap (<[id := startOffset]> (defClsMap s)) s).

Definition srcLoc_of (f : Func) (ix : Z) : M SrcLoc :=
  if 0 <=? ix then at_index (srcLocs f) (Z.to_nat ix)
  else mret (mkSrcLoc (0, 0) (0, 0)).

Definition emit_srcloc (f : Func) (startOffset : Z) (inst : Bytecode) : M unit :=
  sl ← srcLoc_of f (srcLoc inst);
  when (SrcLoc_isValid sl) (ue_do (recordSourceLocation sl startOffset)).

(** The body generated by the [O] macro for the opcode of [inst]. *)
Definition emit_opcode (f : Func) (startOffset : Z) (inst : Bytecode) : M unit :=
  when (bool_decide (op inst = OpDefCls)) (defcls startOffset inst);;
  when (bool_decide (op inst = OpDefClsNop)) (defclsnop startOffset inst);;
  when (isRet (op inst)) ret_assert;;
  modify (fun s => log (EvOp startOffset inst (currentStackDepth s)) s);;
  ue_do (emitByte (op_byte (op inst)));;
  for_each (pops inst) pop;;
  for_each (pushes inst) push;;
  for_each (imms inst) (emit_imm f startOffset);;
  when (isFPush (op inst)) (fpush startOffset);;
  when (isFCallStar (op inst)) (fcall startOffset);;
  when (op_TF (op inst)) (modify (set_currentStackDepth 0));;
  when (bool_decide (op inst = OpFCall) || bool_decide (op inst = OpFCallD))
       (modify (fun s => set_ret (set_containsCalls true (ret s)) s));;
  emit_srcloc f startOffset inst.

Definition emit_inst (f : Func) (inst : Bytecode) : M unit :=
  s ← get;
  let startOffset := bcPos (ue s) in
  put (set_lastOff startOffset s);;
  if bool_decide (op inst ≠ OpNop) then emit_opcode f startOffset inst
  else mret tt.

Definition Jmp (target : BlockId) : Bytecode := mkBytecode OpJmp [BA target] (-1).
Definition JmpNS (target : BlockId) : Bytecode := mkBytecode OpJmpNS [BA target] (-1).

Definition exn_depth (eh : ExnNodePtr) : Z :=
  match eh with
  | Some n => depth n
  | None => 0
  end.

(** The body of the loop over [ret.blockOrder]; [next] is [blockIt[1]], if
    there is one. *)
Definition emit_block (f : Func) (b : BlockId) (next : option BlockId) : M unit :=
  blk ← at_index (blocks f) b;
  s ← get;
  update_blockInfo b (set_offset (bcPos (ue s)));;
  info ← get_blockInfo b;
  for_each (forwardJumps info) (fun fixup =>
    s ← get;
    u ← lift (emitInt32_at (offset info - instrOff fixup) (jmpImmedOff fixup) (ue s));
    put (set_ue u s));;
  when (bool_decide (expectedStackDepth info = None))
       (update_blockInfo b (set_expectedStackDepth (Some 0)));;
  info ← get_blockInfo b;
  modify (set_currentStackDepth (to_int32 (default 0 (expectedStackDepth info))));;
  when (bool_decide (expectedFPIDepth info = None))
       (update_blockInfo b (set_expectedFPIDepth (Some 0)));;
  info ← get_blockInfo b;
  let expFPI := default 0 (expectedFPIDepth info) in
  s ← get;
  assert (expFPI <=? fpiStack_size s);;
  repeat_n (Z.to_nat (fpiStack_size s - expFPI))
           (s ← get; end_fpi (lastOff s));;
  s ← get;
  modify (log (EvBlock b (offset info) (currentStackDepth s) (fpiStack_size s)));;
  for_each (hhbcs blk) (emit_inst f);;
  s ← get;
  update_blockInfo b (set_past (bcPos (ue s)));;
  match fallthrough blk with
  | None => mret tt
  | Some ft =>
      set_expected_depth ft;;
      if bool_decide (next ≠ Some ft) then
        emit_inst f (if fallthroughNS blk then JmpNS ft else Jmp ft);;
        ftblk ← at_index (blocks f) ft;
        parent ← lift (commonParent (exnNode ftblk) (exnNode blk));
        let n := match exnNode blk with
                 | Some eh => to_int32 (to_uint32 (depth eh - exn_depth parent))
                 | None => 0
                 end in
        update_blockInfo b (set_regionsToPop n);;
        assert (0 <=? n)
      else mret tt
  end.

Fixpoint emit_blocks (f : Func) (order : list BlockId) : M unit :=
  match order with
  | [] => mret tt
  | b :: rest => emit_block f b (head rest);; emit_blocks f rest
  end.

Definition default_BlockInfo : BlockInfo :=
  mkBlockInfo kInvalidOffset kInvalidOffset 0 [] None None.

(** The state [emit_bytecode] starts from, given the sink, the unit state
    and the chosen block order. *)
Definition enter_func (f : Func) (order : list BlockId) (s : EmitState)
  : EmitState :=
  mkState (ue s) (defClsMap s)
          (mkEmitBcInfo order 0 0 false []
             (replicate (length (blocks f)) default_BlockInfo))
          0 [] 0 (history s).

Definition emit_bytecode (f : Func) : M (EmitBcInfo * Func) :=
  '(order, f') ← lift (order_blocks f);
  modify (enter_func f' order);;
  emit_blocks f' order;;
  s ← get;
  repeat_n (length (fpiStack s)) (s ← get; end_fpi (lastOff s));;
  s ← get;
  mret (ret s, f').

(** ** Local ids *)

Definition set_loc_id (i : LocalId) (l : Local) : Local :=
  mkLocal i (killed l) (loc_name l).

Fixpoint assign_local_ids (id : N) (ls : list Local) : list Local :=
  match ls with
  | [] => []
  | loc :: rest =>
      if killed loc then set_loc_id INT_MAX loc :: assign_local_ids id rest
      else set_loc_id id loc :: assign_local_ids (id + 1)%N rest
  end.

(** The loop of [emit_init_func]; [fe.init] only fills in sink metadata. *)
Definition emit_init_func (f : Func) : Func :=
  mkFunc (func_name f) (assign_local_ids 0%N (locals f)) (params f) (blocks f)
         (srcLocs f).

(** ** The exception-region table *)

(** Regions live in an arena in creation order; a region is identified by
    its position there, and [eh_parent] is such a position. *)
Record EHRegion : Type := mkEHRegion {
  eh_node : ExnNode;
  eh_parent : option nat;
  eh_start : Z;
  eh_past : Z;
}.

Inductive EHType : Type := Catch | FaultHandler.

Record EHEnt : Type := mkEHEnt {
  m_type : EHType;
  m_base : Z;
  m_past : Z;
  m_iterId : Z;
  m_itRef : bool;
  m_handler : Z;
  m_end : Z;
  m_parentIndex : Z;
}.

(** [exnMap] is kept sorted by node, as a [std::map] is; nodes are compared
    by their ids.  [activeList] is in vector order, the root first. *)
Record EHState : Type := mkEHState {
  regions_arena : list EHRegion;
  exnMap : list (nat * list nat);
  activeList : list ExnNode;
}.

Fixpoint exnMap_find (k : nat) (m : list (nat * list nat)) : list nat :=
  match m with
  | [] => []
  | (k', rs) :: m' => if Nat.eqb k k' then rs else exnMap_find k m'
  end.

Fixpoint exnMap_push_back (k : nat) (r : nat) (m : list (nat * list nat))
  : list (nat * list nat) :=
  match m with
  | [] => [(k, [r])]
  | (k', rs) :: m' =>
      if Nat.ltb k k' then (k, [r]) :: m
      else if Nat.eqb k k' then (k', rs ++ [r]) :: m'
      else (k', rs) :: exnMap_push_back k r m'
  end.

Definition set_eh_past (p : Z) (r : EHRegion) : EHRegion :=
  mkEHRegion (eh_node r) (eh_parent r) (eh_start r) p.

Definition pop_active (past : Z) (st : EHState) : Res EHState :=
  match last (activeList st) with
  | None => Fatal UndefinedBehaviour
  | Some p =>
      match last (exnMap_find (exn_id p) (exnMap st)) with
      | None => Fatal UndefinedBehaviour
      | Some r =>
          match regions_arena st !! r with
          | None => Fatal UndefinedBehaviour
          | Some reg =>
              Ok (mkEHState (<[r := set_eh_past past reg]> (regions_arena st))
                            (exnMap st) (removelast (activeList st)))
          end
      end
  end.

Definition push_active (p : ExnNode) (start : Z) (st : EHState) : Res EHState :=
  parent ← match last (activeList st) with
           | None => Ok None
           | Some top =>
               match last (exnMap_find (exn_id top) (exnMap st)) with
               | None => Fatal UndefinedBehaviour
               | Some r => Ok (Some r)
               end
           end;
  let r := length (regions_arena st) in
  Ok (mkEHState (regions_arena st ++ [mkEHRegion p parent start kInvalidOffset])
                (exnMap_push_back (exn_id p) r (exnMap st))
                (activeList st ++ [p])).

Fixpoint exn_path_from (n : ExnNode) : list ExnNode :=
  match n with
  | mkExnNode _ _ None _ => [n]
  | mkExnNode _ _ (Some p) _ => exn_path_from p ++ [n]
  end.

Definition exn_path (n : ExnNodePtr) : list ExnNode :=
  match n with
  | None => []
  | Some n => exn_path_from n
  end.

Fixpoint shared_prefix (r1 r2 : list ExnNode) : nat :=
  match r1, r2 with
  | a :: r1', b :: r2' =>
      if Nat.eqb (exn_id a) (exn_id b) then S (shared_prefix r1' r2') else O
  | _, _ => O
  end.

Fixpoint iter_res {A : Type} (n : nat) (step : A -> Res A) (a : A) : Res A :=
  match n with
  | O => Ok a
  | S k => a' ← step a; iter_res k step a'
  end.

Fixpoint fold_res {A B : Type} (step : B -> A -> Res A) (l : list B) (a : A)
  : Res A :=
  match l with
  | [] => Ok a
  | b :: l' => a' ← step b a; fold_res step l' a'
  end.

Definition same_nodes (l1 l2 : list ExnNode) : bool :=
  bool_decide (map exn_id l1 = map exn_id l2).

(** One iteration of the walk over [info.blockOrder]. *)
Definition eh_walk_block (f : Func) (info : EmitBcInfo) (b : BlockId)
    (st : EHState) : Res EHState :=
  match blocks f !! b, blockInfo info !! b with
  | Some blk, Some bi =>
      match exnNode blk with
      | None => iter_res (length (activeList st)) (pop_active (offset bi)) st
      | Some _ =>
          let current := exn_path (exnNode blk) in
          let prefix := shared_prefix current (activeList st) in
          st ← iter_res (length (activeList st) - prefix) (pop_active (offset bi)) st;
          st ← fold_res (fun p => push_active p (offset bi)) (drop prefix current) st;
          st ← iter_res (Z.to_nat (regionsToPop bi)) (pop_active (past bi)) st;
          match last (activeList st) with
          | None => Ok st
          | Some top =>
              if same_nodes (exn_path (Some top)) (activeList st) then Ok st
              else Fatal AssertionFailed
          end
      end
  | _, _ => Fatal UndefinedBehaviour
  end.

Definition eh_walk (f : Func) (info : EmitBcInfo) : Res EHState :=
  st ← fold_res (eh_walk_block f info) (blockOrder info) (mkEHState [] [] []);
  match activeList st with
  | [] => Ok st
  | _ :: _ =>
      match last (blockOrder info) with
      | None => Fatal UndefinedBehaviour
      | Some b =>
          match blockInfo info !! b with
          | None => Fatal UndefinedBehaviour
          | Some bi => iter_res (length (activeList st)) (pop_active (past bi)) st
          end
      end
  end.

(** [for (p = r->parent; p != nullptr; p = p->parent) if (p == a) return true;]
    Parents are created before their children, so the walk takes at most
    as many steps as there are regions. *)
Fixpoint reaches (arena : list EHRegion) (fuel : nat) (a : nat) (p : option nat)
  : bool :=
  match fuel, p with
  | S k, Some q =>
      if Nat.eqb q a then true
      else reaches arena k a (arena !! q ≫= eh_parent)
  | _, _ => false
  end.

Definition is_ancestor (arena : list EHRegion) (a b : nat) : bool :=
  reaches arena (length arena) a (arena !! b ≫= eh_parent).

(** The order of the sort, without its debug check. *)
Definition eh_less (arena : list EHRegion) (a b : nat) : bool :=
  match arena !! a, arena !! b with
  | Some ra, Some rb =>
      if Nat.eqb a b then false
      else if eh_start ra =? eh_start rb then
        if eh_past ra =? eh_past rb then is_ancestor arena a b
        else eh_past rb <? eh_past ra
      else eh_start ra <? eh_start rb
  | _, _ => false
  end.

(** The comparator as compiled in a debug build: regions with the same
    extents must be related. *)
Definition eh_compare (arena : list EHRegion) (a b : nat) : Res bool :=
  match arena !! a, arena !! b with
  | Some ra, Some rb =>
      if Nat.eqb a b then Ok false
      else if eh_start ra =? eh_start rb then
        if eh_past ra =? eh_past rb then
          if is_ancestor arena a b then Ok true
          else if is_ancestor arena b a then Ok false
          else Fatal AssertionFailed
        else Ok (eh_past rb <? eh_past ra)
      else Ok (eh_start ra <? eh_start rb)
  | _, _ => Fatal UndefinedBehaviour
  end.

(** [std::sort], as an insertion sort: each element is put before the first
    element it is less than. *)
Fixpoint sort_insert (cmp : nat -> nat -> Res bool) (x : nat) (l : list nat)
  : Res (list nat) :=
  match l with
  | [] => Ok [x]
  | y :: l' =>
      lt ← cmp x y;
      if lt : bool then Ok (x :: y :: l')
      else l'' ← sort_insert cmp x l'; Ok (y :: l'')
  end.

Fixpoint std_sort (cmp : nat -> nat -> Res bool) (l : list nat) : Res (list nat) :=
  match l with
  | [] => Ok []
  | x :: l' => s ← std_sort cmp l'; sort_insert cmp x s
  end.

Record EHTable : Type := mkEHTable {
  ehtab : list EHEnt;
  parentIndexMap : list (nat * Z);
}.

Fixpoint parentIndexMap_find (r : nat) (m : list (nat * Z)) : option Z :=
  match m with
  | [] => None
  | (r', i) :: m' => if Nat.eqb r r' then Some i else parentIndexMap_find r m'
  end.

Definition emit_eh_region (arena : list EHRegion) (r : nat)
    (blockInfo : list BlockInfo) (t : EHTable) : Res EHTable :=
  match arena !! r with
  | None => Fatal UndefinedBehaviour
  | Some region =>
      if eh_start region =? eh_past region then Ok t
      else if negb (eh_start region <=? eh_past region) then Fatal AssertionFailed
      else if bool_decide (eh_start region = kInvalidOffset)
              || bool_decide (eh_past region = kInvalidOffset)
      then Fatal AssertionFailed
      else
        parentIndex ← match eh_parent region with
                      | Some p =>
                          match parentIndexMap_find p (parentIndexMap t) with
                          | Some i => Ok i
                          | None => Fatal AssertionFailed
                          end
                      | None => Ok (-1)
                      end;
        '(ty, entryBlock, iterId, itRef) ←
            Ok (match info (eh_node region) with
                | CatchRegion c i r => (Catch, c, i, r)
                | FaultRegion fl i r => (FaultHandler, fl, i, r)
                end);
        match blockInfo !! entryBlock with
        | None => Fatal UndefinedBehaviour
        | Some bi =>
            Ok (mkEHTable
                  (ehtab t ++ [mkEHEnt ty (eh_start region) (eh_past region)
                                       iterId itRef (offset bi) kInvalidOffset
                                       parentIndex])
                  ((r, Z.of_nat (length (ehtab t))) :: parentIndexMap t))
        end
  end.

Definition flatten_exnMap (m : list (nat * list nat)) : list nat :=
  concat (map snd m).

Definition emit_ehent_tree (f : Func) (info : EmitBcInfo) : Res EHTable :=
  st ← eh_walk f info;
  regions ← std_sort (eh_compare (regions_arena st)) (flatten_exnMap (exnMap st));
  fold_res (fun r => emit_eh_region (regions_arena st) r (blockInfo info))
           regions (mkEHTable [] []).

(** ** The unit driver *)

Record FuncEmitter : Type := mkFuncEmitter {
  fe_name : string;
  fe_containsCalls : bool;
  fpitab : list FPI;
  funcletOffs : list (option Z);
  fe_ehtab : list EHEnt;
}.

(** Of [emit_locals_and_params], the funclet offsets of the parameters. *)
Fixpoint param_funcletOffs (info : EmitBcInfo) (ps : list Param)
  : Res (list (option Z)) :=
  match ps with
  | [] => Ok []
  | p :: ps' =>
      o ← match dvEntryPoint p with
          | None => Ok None
          | Some dv =>
              match blockInfo info !! dv with
              | Some bi => Ok (Some (offset bi))
              | None => Fatal UndefinedBehaviour
              end
          end;
      os ← param_funcletOffs info ps';
      Ok (o :: os)
  end.

Definition emit_finish_func (f : Func) (info : EmitBcInfo) : Res FuncEmitter :=
  offs ← param_funcletOffs info (params f);
  t ← emit_ehent_tree f info;
  Ok (mkFuncEmitter (func_name f) (containsCalls info) (fpiRegions info) offs
                    (ehtab t)).

Record ClassConst : Type := mkClassConst {
  (* [None]: abstract; [Some true]: a value of type [KindOfUninit] *)
  cconst_val : option bool;
}.

Record PhpClass : Type := mkPhpClass {
  cls_name : string;
  constants : list ClassConst;
  methods : list Func;
}.

Record PhpUnit : Type := mkPhpUnit {
  pseudomain : Func;
  classes : list PhpClass;
  funcs : list Func;
}.

(** The unit under construction: the emitter state, the offset of every
    pre-class emitter created so far and the finished function emitters. *)
Record UnitState : Type := mkUnitState {
  us_emit : EmitState;
  preClassOffsets : list Z;
  funcEmitters : list FuncEmitter;
}.

(** [emit_bytecode] followed by [emit_finish_func]. *)
Definition emit_body (f : Func) (us : UnitState) : Res UnitState :=
  match emit_bytecode f (us_emit us) with
  | Fatal e => Fatal e
  | Ok ((info, f'), s) =>
      fe ← emit_finish_func f' info;
      Ok (mkUnitState s (preClassOffsets us) (funcEmitters us ++ [fe]))
  end.

Definition emit_func (f : Func) (us : UnitState) : Res UnitState :=
  emit_body (emit_init_func f) us.

Definition emit_pseudomain (u : PhpUnit) (us : UnitState) : Res UnitState :=
  emit_body (pseudomain u) us.

Definition s_86cinit : string := "86cinit".

Definition needs86cinit (cls : PhpClass) : bool :=
  existsb (fun c => bool_decide (cconst_val c = Some true)) (constants cls).

Definition emit_class (cls : PhpClass) (us : UnitState) : Res UnitState :=
  let us := mkUnitState (us_emit us)
                        (preClassOffsets us ++ [bcPos (ue (us_emit us))])
                        (funcEmitters us) in
  fold_res (fun m us =>
              if negb (needs86cinit cls) && String.eqb (func_name m) s_86cinit
              then Ok us
              else emit_func m us)
           (methods cls) us.

(** The final loop of [emit_unit]: [ue->pce(id)->setOffset(defClsMap[id])]. *)
Fixpoint set_preclass_offsets (defClsMap pces : list Z) : list Z :=
  match defClsMap, pces with
  | o :: m', p :: ps' =>
      (if bool_decide (o ≠ kInvalidOffset) then o else p)
        :: set_preclass_offsets m' ps'
  | _, _ => pces
  end.

Definition emit_unit (u : PhpUnit) : Res UnitState :=
  let state :=
    mkState (mkUE [] [] [] []) (replicate (length (classes u)) kInvalidOffset)
            (mkEmitBcInfo [] 0 0 false [] []) 0 [] 0 [] in
  us ← emit_pseudomain u (mkUnitState state [] []);
  us ← fold_res emit_class (classes u) us;
  us ← fold_res emit_func (funcs u) us;
  Ok (mkUnitState (us_emit us)
                  (set_preclass_offsets (defClsMap (us_emit us)) (preClassOffsets us))
                  (funcEmitters us)).

End Emitter.

(** ** A small opcode table

    Enough opcodes to run the emitter on concrete functions. *)

Module Demo.

Inductive op : Type :=
| Nop | EntryNop | Jmp | JmpNS | JmpZ | DefCls | DefClsNop
| FPushFuncD | FCall | FCallD | RetC | Int | PopC | Throw | CGetL.

#[global] Instance op_eq_dec : EqDecision op.
Proof. solve_decision. Defined.

Definition code (o : op) : Z :=
  match o with
  | Nop => 0 | EntryNop => 1 | Jmp => 2 | JmpNS => 3 | JmpZ => 4 | DefCls => 5
  | DefClsNop => 6 | FPushFuncD => 7 | FCall => 8 | FCallD => 9 | RetC => 10
  | Int => 11 | PopC => 12 | Throw => 13 | CGetL => 14
  end.

#[global] Instance table : OpcodeTable := {|
  Op := op;
  OpNop := Nop;
  OpEntryNop := EntryNop;
  OpJmp := Jmp;
  OpJmpNS := JmpNS;
  OpDefCls := DefCls;
  OpDefClsNop := DefClsNop;
  OpFCall := FCall;
  OpFCallD := FCallD;
  op_inputs := fun o => match o with
                        | JmpZ | RetC | PopC | Throw => POP_ONE
                        | FCall | FCallD => POP_FMANY
                        | _ => POP_NOV
                        end;
  op_outputs := fun o => match o with
                         | Int | FCall | FCallD | CGetL => PUSH_ONE
                         | _ => PUSH_NOV
                         end;
  op_TF := fun o => match o with
                    | Jmp | JmpNS | RetC | Throw => true
                    | _ => false
                    end;
  isRet := fun o => match o with RetC => true | _ => false end;
  isFPush := fun o => match o with FPushFuncD => true | _ => false end;
  isFCallStar := fun o => match o with FCall | FCallD => true | _ => false end;
  op_byte := code;
  kInvalidOffset := 2147483647;
  SrcLoc_isValid := fun _ => false;
|}.

Definition bc (o : op) (i : list Imm) : Bytecode := mkBytecode o i (-1).

Definition blk (c : list Bytecode) (ft : option BlockId) : Block :=
  mkBlock c Main ft false [] None.

Definition live : Local := mkLocal 0%N false None.
Definition dead : Local := mkLocal 0%N true None.

(** Four locals, the second of them killed. *)
Definition f_locals : Func :=
  mkFunc "locals" [live; dead; live; live] [] [] [].

(** Two main blocks and a block reachable only from a DV entry point. *)
Definition f_dv : Func :=
  mkFunc "dv" [] [mkParam (Some 2%nat)]
         [blk [bc Int [I64A 1]] (Some 1%nat);
          blk [bc RetC []] None;
          blk [bc Int [I64A 7]; bc PopC []] (Some 0%nat)] [].

(** A forward branch: block 0 ends with [JmpZ] to block 2, block 1 lies
    between them. *)
Definition f_branch : Func :=
  mkFunc "branch" [] []
         [blk [bc Int [I64A 1]; bc JmpZ [BA 2%nat]] (Some 1%nat);
          blk [bc Int [I64A 2]; bc PopC []] (Some 2%nat);
          blk [bc Int [I64A 3]; bc RetC []] None] [].

(** Reverse postorders for the functions above: the blocks in the order of
    their ids, except for [f_dv], whose DV block comes first in the second
    traversal. *)
#[global] Instance cfg : Cfg := {|
  rpoSortFromMain := fun f =>
    if String.eqb (func_name f) "dv" then [0; 1]%nat
    else seq 0 (length (blocks f));
  rpoSortAddDVs := fun f =>
    if String.eqb (func_name f) "dv" then [2; 0; 1]%nat
    else seq 0 (length (blocks f));
|}.

Definition state0 : EmitState :=
  mkState (mkUE [] [] [] []) [] (mkEmitBcInfo [] 0 0 false [] []) 0 [] 0 [].

(** A fault region around blocks 0 to 2 with a catch region nested in it:
    the catch region covers block 0 and the empty block 1, and a second,
    empty catch region sits on block 2. *)
Definition exn_fault : ExnNode := mkExnNode 0 1 None (FaultRegion 5%nat 0 false).
Definition exn_catch : ExnNode :=
  mkExnNode 1 2 (Some exn_fault) (CatchRegion 4%nat 0 false).
Definition exn_catch2 : ExnNode :=
  mkExnNode 2 2 (Some exn_fault) (CatchRegion 4%nat 0 false).

Definition blk_in (c : list Bytecode) (ft : option BlockId) (n : ExnNode) : Block :=
  mkBlock c Main ft false [] (Some n).

Definition f_regions : Func :=
  mkFunc "regions" [] []
         [blk_in [bc Int [I64A 1]; bc PopC []] (Some 1%nat) exn_catch;
          blk_in [bc Int [I64A 2]; bc PopC []] (Some 2%nat) exn_catch;
          blk_in [] (Some 3%nat) exn_catch2;
          blk [bc Int [I64A 3]; bc RetC []] None;
          blk [bc Int [I64A 4]; bc RetC []] None;
          mkBlock [bc Int [I64A 5]; bc RetC []] Fault None false [] None] [].

(** The state a run ends in. *)
Definition final {A : Type} (r : Res (A * EmitState)) : EmitState :=
  match r with
  | Ok (_, s) => s
  | Fatal _ => state0
  end.

(** What [emit_bytecode] returns for a function emitted into an empty
    unit. *)
Definition info_of (f : Func) : EmitBcInfo :=
  match emit_bytecode f state0 with
  | Ok ((i, _), _) => i
  | Fatal _ => mkEmitBcInfo [] 0 0 false [] []
  end.

Definition result_of (f : Func) : EmitBcInfo * Func :=
  match emit_bytecode f state0 with
  | Ok (r, _) => r
  | Fatal _ => (mkEmitBcInfo [] 0 0 false [] [], f)
  end.

(** Two nested calls: the inner one is closed by its [FCall], the outer one
    is still open when the block ends with [Throw]. *)
Definition f_calls : Func :=
  mkFunc "calls" [] []
         [blk [bc FPushFuncD [IVA 0]; bc FPushFuncD [IVA 0]; bc FCall [IVA 0];
               bc Throw []] None;
          blk [bc Int [I64A 3]; bc RetC []] None] [].

(** A unit of two classes: the pseudomain defines the second one, a method
    of the second class the first one. *)
Definition f_main : Func :=
  mkFunc "main" [] []
         [blk [bc DefCls [IVA 1]; bc Int [I64A 1]; bc RetC []] None] [].

Definition f_method : Func :=
  mkFunc "m" [] []
         [blk [bc DefClsNop [IVA 0]; bc Int [I64A 2]; bc RetC []] None] [].

Definition unit_classes : PhpUnit :=
  mkPhpUnit f_main [mkPhpClass "A" [] []; mkPhpClass "B" [] [f_method]] [].

Definition unit_of (u : PhpUnit) : UnitState :=
  match emit_unit u with
  | Ok us => us
  | Fatal _ => mkUnitState state0 [] []
  end.

(** A function whose entry block is a single [Nop]. *)
Definition f_nop : Func :=
  mkFunc "nop" [] []
         [blk [bc Nop []] (Some 1%nat);
          blk [bc Int [I64A 1]; bc RetC []] None] [].

Definition layout_of (f : Func) : list BlockId * Func :=
  match order_blocks f with
  | Ok p => p
  | Fatal _ => ([], f)
  end.

(** What [emit_bytecode] returns for a function emitted after others. *)
Definition result_from (s : EmitState) (f : Func) : EmitBcInfo * Func :=
  match emit_bytecode f s with
  | Ok (r, _) => r
  | Fatal _ => (mkEmitBcInfo [] 0 0 false [] [], f)
  end.

(** The state after [f_dv] has been emitted into an empty unit. *)
Definition after_dv : EmitState := final (emit_bytecode f_dv state0).

(** A unit with two classes that both have an [86cinit] method; only the
    second one has a constant that needs it. *)
Definition f_cinit : Func :=
  mkFunc "86cinit" [] [] [blk [bc Int [I64A 1]; bc RetC []] None] [].

Definition f_plain : Func :=
  mkFunc "plain" [] [] [blk [bc Int [I64A 2]; bc RetC []] None] [].

Definition unit_funcs : PhpUnit :=
  mkPhpUnit f_branch
            [mkPhpClass "A" [mkClassConst (Some false)] [f_cinit; f_plain];
             mkPhpClass "B" [mkClassConst (Some true)] [f_cinit]]
            [f_calls].

(** The regions the walk over the layout of a function creates. *)
Definition walk_of (f : Func) : EHState :=
  match eh_walk f (info_of f) with
  | Ok st => st
  | Fatal _ => mkEHState [] [] []
  end.

Definition table_of (f : Func) : EHTable :=
  match emit_ehent_tree f (info_of f) with
  | Ok t => t
  | Fatal _ => mkEHTable [] []
  end.

End Demo.

(** ** Specification vocabulary *)

Section Vocabulary.

Context {tbl : OpcodeTable}.

(** Number of live locals among the first [n]. *)
Fixpoint live_before (ls : list Local) (n : nat) {struct n} : N :=
  match n, ls with
  | S k, l :: ls' => ((if killed l then 0 else 1) + live_before ls' k)%N
  | _, _ => 0%N
  end.

Context {cfg : Cfg}.

Definition in_section (f : Func) (s : BlockSection) (b : BlockId) : Prop :=
  block_section f b = s.

#[global] Instance in_section_dec f s b : Decision (in_section f s b).
Proof. unfold in_section. solve_decision. Defined.

(** The DV blocks in the words of the specification: the second reverse
    postorder without the main entry and without the blocks of the main
    list that occur before it. *)
Fixpoint dv_blocks_spec (sorted : list BlockId) (front : BlockId)
    (withDVs : list BlockId) : list BlockId :=
  match withDVs with
  | [] => []
  | x :: l =>
      if decide (x = front) then l
      else if decide (x ∈ sorted) then dv_blocks_spec sorted front l
      else x :: dv_blocks_spec sorted front l
  end.

Definition order_blocks_spec (f : Func) : list BlockId :=
  match rpoSortFromMain f with
  | [] => []
  | front :: rest =>
      stable_sort_by_section f
        ((front :: rest) ++ dv_blocks_spec (front :: rest) front (rpoSortAddDVs f))
  end.

(** A change of the sink alone that appends [bs] to the byte stream. *)
Definition sink_appends (bs : list Z) (s s' : EmitState) : Prop :=
  exists u, s' = set_ue u s /\ m_bc u = m_bc (ue s) ++ bs.

(** What the emission of an immediate does to the state, one step at a
    time: it writes to the sink or it emits a branch. *)
Inductive imm_step (startOffset : Z) : EmitState -> EmitState -> Prop :=
| imm_step_sink s s' bs :
    sink_appends bs s s' -> imm_step startOffset s s'
| imm_step_branch s s' id :
    emit_branch startOffset id s = Ok (tt, s') -> imm_step startOffset s s'.

Definition imm_steps (startOffset : Z) : EmitState -> EmitState -> Prop :=
  rtc (imm_step startOffset).

(** The bytes of a member key after its tag. *)
Definition mkey_payload (f : Func) (mkey : MKey) (bs : list Z) : Prop :=
  match mcode mkey with
  | MEC | MPC => bs = iva_bytes (mk_idx mkey)
  | MEL | MPL =>
      exists l, map_local f (mk_local mkey) = Ok l /\
                bs = iva_bytes (to_int32 (Z.of_N l))
  | MET | MPT | MQT => exists id, bs = int32_bytes id
  | MEI => bs = int64_bytes (mk_int64 mkey)
  | MW => bs = []
  end.

(** The bytes an immediate contributes to the stream, by kind. *)
Definition imm_payload (f : Func) (imm : Imm) (bs : list Z) : Prop :=
  match imm with
  | BLA targets =>
      exists offs, length offs = length targets /\
        bs = int32_bytes (Z.of_nat (length targets))
             ++ concat (map int32_bytes offs)
  | SLA targets =>
      exists cases dflt, length cases = length (removelast targets) /\
        bs = int32_bytes (Z.of_nat (length targets))
             ++ concat (map (fun c => int32_bytes (fst c) ++ int32_bytes (snd c))
                            cases)
             ++ int32_bytes (-1) ++ int32_bytes dflt
  | ILA iterTab =>
      bs = int32_bytes (Z.of_nat (length iterTab))
           ++ concat (map (fun kv => int32_bytes (fst kv) ++ int32_bytes (snd kv))
                          iterTab)
  | IVA v | IA v | CAR v | CAW v => bs = iva_bytes v
  | I64A v | DA v => bs = int64_bytes v
  | LA loc => exists l, map_local f loc = Ok l /\ bs = iva_bytes (Z.of_N l)
  | SA _ | AA _ => exists id, bs = int32_bytes id
  | RATA rat => bs = rat
  | OA subop => bs = [byte_at 0 subop]
  | BA _ => exists off, bs = int32_bytes off
  | VSA keys =>
      exists ids, length ids = length keys /\
        bs = int32_bytes (Z.of_nat (length keys)) ++ concat (map int32_bytes ids)
  | KA mkey =>
      exists rest, mkey_payload f mkey rest /\
                   bs = byte_at 0 (mcode_tag (mcode mkey)) :: rest
  | LAR range =>
      exists first, map_local f (lr_first range) = Ok first /\
        bs = iva_bytes (Z.of_N first) ++ iva_bytes (Z.of_N (lr_restCount range))
  end.

(** [blockInfo[id] = info] *)
Definition set_block (id : BlockId) (info : BlockInfo) (s : EmitState)
  : EmitState :=
  set_ret (set_blockInfo (<[id := info]> (blockInfo (ret s))) (ret s)) s.

(** The block info after a [set_expected_depth] at depths [d] and [fsz]. *)
Definition expect_info (d fsz : Z) (info : BlockInfo) : BlockInfo :=
  mkBlockInfo (offset info) (past info) (regionsToPop info) (forwardJumps info)
              (Some (to_uint32 d)) (Some fsz).

Definition after_expect (id : BlockId) (info : BlockInfo) (s : EmitState)
  : EmitState :=
  set_block id (expect_info (currentStackDepth s) (fpiStack_size s) info)
            (log (EvExpect id (currentStackDepth s) (fpiStack_size s)) s).

(** The fixups of a block, applied to the sink. *)
Fixpoint apply_fixups (off : Z) (fj : list JmpFixup) (u : UnitEmitter)
  : Res UnitEmitter :=
  match fj with
  | [] => Ok u
  | fx :: fj' =>
      u' ← emitInt32_at (off - instrOff fx) (jmpImmedOff fx) u;
      apply_fixups off fj' u'
  end.

(** The info of a block once it has become the next to be emitted at
    offset [off]. *)
Definition block_entry_info (off : Z) (info : BlockInfo) : BlockInfo :=
  mkBlockInfo off (past info) (regionsToPop info) (forwardJumps info)
              (Some (default 0 (expectedStackDepth info)))
              (Some (default 0 (expectedFPIDepth info))).

(** The state of a block start, before FPI regions are closed: the sink
    after the fixups is [u]. *)
Definition block_begin_state (b : BlockId) (info : BlockInfo) (u : UnitEmitter)
    (s : EmitState) : EmitState :=
  set_currentStackDepth (to_int32 (default 0 (expectedStackDepth info)))
    (set_block b (block_entry_info (bcPos (ue s)) info) (set_ue u s)).

(** What [emit_block] does after the instructions of the block. *)
Definition block_end (f : Func) (b : BlockId) (blk : Block)
    (next : option BlockId) (s s' : EmitState) : Prop :=
  exists info, blockInfo (ret s) !! b = Some info /\
    let s9 := set_block b (set_past (bcPos (ue s)) info) s in
    match fallthrough blk with
    | None => s' = s9
    | Some ft =>
        exists s10, set_expected_depth ft s9 = Ok (tt, s10) /\
          if bool_decide (next ≠ Some ft) then
            exists s11 info11 n,
              emit_inst f (if fallthroughNS blk then JmpNS ft else Jmp ft) s10
                = Ok (tt, s11) /\
              blockInfo (ret s11) !! b = Some info11 /\
              0 <= n /\
              s' = set_block b (set_regionsToPop n info11) s11
          else s' = s10
    end.

(** The state in which an instruction is emitted: [lastOff] is its start. *)
Definition inst_begin (s : EmitState) : EmitState :=
  set_lastOff (bcPos (ue s)) s.

(** The state after the opcode of [inst] has been written. *)
Definition op_emitted (inst : Bytecode) (s : EmitState) : EmitState :=
  set_ue (emitByte (op_byte (op inst)) (ue s))
         (log (EvOp (lastOff s) inst (currentStackDepth s)) s).

(** The stream of [s'] is the stream of [s] followed by [bs]. *)
Definition stream_grows (bs : list Z) (s s' : EmitState) : Prop :=
  m_bc (ue s') = m_bc (ue s) ++ bs.

(** *** Stack depths *)

Definition event_depth_ok (ev : Event) : Prop :=
  match ev with
  | EvBlock _ _ d _ => 0 <= d
  | EvExpect _ d _ => 0 <= d
  | EvOp _ inst d => 0 <= d /\ (isRet (op inst) = true -> d = 1)
  | EvBranch _ _ _ => True
  end.

(** The block and the depths of an event that sets or uses the expected
    depths of a block. *)
Definition expected_of (ev : Event) : option (BlockId * Z * Z) :=
  match ev with
  | EvBlock b _ d f => Some (b, d, f)
  | EvExpect b d f => Some (b, d, f)
  | _ => None
  end.

Definition expected_view (s : EmitState) : list (option Z * option Z) :=
  (fun i => (expectedStackDepth i, expectedFPIDepth i)) <$> blockInfo (ret s).

(** The events [new] of the function being emitted against the current
    depth [d] and the expected depths [view] of its blocks. *)
Record depth_inv (new : list Event) (d : Z) (view : list (option Z * option Z))
  : Prop := mkDepthInv {
  di_depth : 0 <= d < 2 ^ 31;
  di_events : Forall event_depth_ok new;
  di_range : forall b esd efd v,
    view !! b = Some (esd, efd) -> esd = Some v -> 0 <= v < 2 ^ 31;
  di_recorded : forall ev b d' f',
    ev ∈ new -> expected_of ev = Some (b, d', f') ->
    view !! b = Some (Some d', Some f');
  di_set : forall b esd efd,
    view !! b = Some (esd, efd) -> esd <> None \/ efd <> None ->
    exists ev d' f', ev ∈ new /\ expected_of ev = Some (b, d', f');
  di_unset : forall l1 l2 b off d' f',
    new = l2 ++ EvBlock b off d' f' :: l1 ->
    (forall ev d'' f'', ev ∈ l1 -> expected_of ev <> Some (b, d'', f'')) ->
    d' = 0 /\ f' = 0;
}.

Definition depth_state (h0 : list Event) (s : EmitState) : Prop :=
  exists new, history s = new ++ h0 /\
    depth_inv new (currentStackDepth s) (expected_view s).

(** *** Class definitions *)

Definition is_defcls (o : Op) : Prop := o = OpDefCls \/ o = OpDefClsNop.

Definition is_op_event (ev : Event) : Prop :=
  match ev with
  | EvOp _ _ _ => True
  | _ => False
  end.

(** A step that writes no opcode: it leaves [defClsMap] alone and does not
    shrink the stream. *)
Definition quiet (s s' : EmitState) : Prop :=
  defClsMap s' = defClsMap s /\
  bcPos (ue s) <= bcPos (ue s') /\
  exists evs, history s' = evs ++ history s /\ Forall (fun ev => ~ is_op_event ev) evs.

(** No byte offset below [pos] is the sentinel [kInvalidOffset]. *)
Definition offsets_valid (pos : Z) : Prop := ~ (0 <= kInvalidOffset < pos).

(** The class an event defines, if it is a [DefCls] or [DefClsNop]. *)
Definition defcls_id (ev : Event) : option nat :=
  match ev with
  | EvOp _ inst _ =>
      if bool_decide (op inst = OpDefCls) || bool_decide (op inst = OpDefClsNop)
      then Some (Z.to_nat (arg 1 inst)) else None
  | _ => None
  end.

Definition defcls_ids (h : list Event) : list nat := omap defcls_id h.

(** [defClsMap] has [n] entries; every [DefCls]/[DefClsNop] written so far
    lies inside the stream, and, as long as no offset of the stream is the
    sentinel, its offset is what [defClsMap] holds for its class and no class
    has been defined twice. *)
Definition defcls_inv (n : nat) (s : EmitState) : Prop :=
  length (defClsMap s) = n /\
  (forall off inst d,
    EvOp off inst d ∈ history s -> is_defcls (op inst) ->
    0 <= off < bcPos (ue s) /\
    (offsets_valid (bcPos (ue s)) ->
     defClsMap s !! Z.to_nat (arg 1 inst) = Some off)) /\
  (offsets_valid (bcPos (ue s)) -> NoDup (defcls_ids (history s))).

(** The unit under construction: [k] pre-class emitters exist. *)
Definition unit_inv (n k : nat) (us : UnitState) : Prop :=
  defcls_inv n (us_emit us) /\ length (preClassOffsets us) = k.

(** *** FPI regions *)

(** [FCall] and [FCallD], the opcodes that set [containsCalls]. *)
Definition is_call_op (o : Op) : bool :=
  bool_decide (o = OpFCall) || bool_decide (o = OpFCallD).

(** The regions closed at [off] from the entries [closed] of the stack. *)
Definition closed_at (off : Z) (closed : list FPI) : list FPI :=
  map (fun e => mkFPI (fpushOff e) off (fpDelta e)) closed.

(** A region closed before another one ends before the other one starts, or
    lies inside it. *)
Definition closes_before (r1 r2 : FPI) : Prop :=
  fpiEndOff r1 <= fpushOff r2 \/
  (fpushOff r2 < fpushOff r1 /\ fpiEndOff r1 <= fpiEndOff r2).

Definition well_parenthesized (l : list FPI) : Prop :=
  forall i j r1 r2, (i < j)%nat -> l !! i = Some r1 -> l !! j = Some r2 ->
    closes_before r1 r2.

(** The start offsets of all FPI entries, open or closed. *)
Definition opens (s : EmitState) : list Z :=
  fpushOff <$> (fpiStack s ++ fpiRegions (ret s)).

Record fpi_inv (s : EmitState) : Prop := mk_fpi_inv {
  fpi_last : lastOff s <= bcPos (ue s);
  fpi_sorted :
    StronglySorted (fun e1 e2 => fpushOff e2 < fpushOff e1) (fpiStack s);
  fpi_open :
    Forall (fun e => fpushOff e <= lastOff s /\ fpushOff e < bcPos (ue s))
           (fpiStack s);
  fpi_closed :
    Forall (fun r => fpushOff r < fpiEndOff r <= lastOff s)
           (fpiRegions (ret s));
  fpi_nest : well_parenthesized (fpiRegions (ret s));
  fpi_mixed :
    forall r e, r ∈ fpiRegions (ret s) -> e ∈ fpiStack s ->
      fpiEndOff r <= fpushOff e \/ fpushOff e < fpushOff r;
}.

(** No open entry was pushed by the last instruction. *)
Definition cold (s : EmitState) : Prop :=
  Forall (fun e => fpushOff e < lastOff s) (fpiStack s).

(** Between two blocks: the last instruction pushed no entry, or the next
    block expects the FPI stack as it is. *)
Definition ready (s : EmitState) (next : option BlockId) : Prop :=
  cold s \/
  exists b info, next = Some b /\ blockInfo (ret s) !! b = Some info /\
    expectedFPIDepth info = Some (fpiStack_size s).

(** A step that touches neither the FPI stack, the regions nor [lastOff],
    does not shrink the stream and writes no opcode. *)
Definition calm (s s' : EmitState) : Prop :=
  fpiStack s' = fpiStack s /\
  fpiRegions (ret s') = fpiRegions (ret s) /\
  lastOff s' = lastOff s /\
  bcPos (ue s) <= bcPos (ue s') /\
  exists evs, history s' = evs ++ history s /\
    Forall (fun ev => ~ is_op_event ev) evs.

(** The FPush instructions written since the history [h0] are the entries of
    the FPI stack and of the regions. *)
Definition fpi_hist (h0 : list Event) (s : EmitState) : Prop :=
  exists new, history s = new ++ h0 /\
    (forall off inst d, EvOp off inst d ∈ new -> isFPush (op inst) = true ->
       off ∈ opens s) /\
    (forall off, off ∈ opens s ->
       exists inst d, EvOp off inst d ∈ new /\ isFPush (op inst) = true).

(** What the emitter relies on for FPI regions: no opcode both pushes and
    calls, a jump pushes nothing, and a block that does not fall through
    does not end with a push. *)
Definition inst_fpi_ok (inst : Bytecode) : bool :=
  negb (isFPush (op inst) && isFCallStar (op inst)).

Definition block_closes (blk : Block) : bool :=
  match fallthrough blk, last (hhbcs blk) with
  | Some _, _ => true
  | None, Some inst => negb (isFPush (op inst))
  | None, None => false
  end.

Definition fpi_wellformed (f : Func) : bool :=
  negb (isFPush OpJmp) && negb (isFPush OpJmpNS) &&
  forallb (fun blk => block_closes blk && forallb inst_fpi_ok (hhbcs blk))
          (blocks f).

(** *** Branch immediates *)

(** What branches read of the block table: offsets and pending fixups. *)
Definition jump_view (s : EmitState) : list (Z * list JmpFixup) :=
  (fun i => (offset i, forwardJumps i)) <$> blockInfo (ret s).

Definition is_jump_event (ev : Event) : Prop :=
  match ev with
  | EvBranch _ _ _ | EvBlock _ _ _ _ => True
  | _ => False
  end.

(** A step that only appends to the stream, keeps offsets and fixups and
    starts neither a block nor a branch. *)
Definition mild (s s' : EmitState) : Prop :=
  (exists bs, m_bc (ue s') = m_bc (ue s) ++ bs) /\
  jump_view s' = jump_view s /\
  exists evs, history s' = evs ++ history s /\
    Forall (fun ev => ~ is_jump_event ev) evs.

(** The immediates of two branches do not overlap. *)
Definition slots_apart (ev1 ev2 : Event) : Prop :=
  match ev1, ev2 with
  | EvBranch _ p1 _, EvBranch _ p2 _ => p1 + 4 <= p2 \/ p2 + 4 <= p1
  | _, _ => True
  end.

(** The state of the branches [new] written so far, when the blocks [D]
    have been started and the blocks [L] are still to come. *)
Record branch_inv (new : list Event) (D L : list BlockId) (s : EmitState)
  : Prop := mk_branch_inv {
  br_site :
    forall io po T, EvBranch io po T ∈ new ->
      0 <= io <= po /\ po + 4 <= bcPos (ue s);
  br_imm :
    forall io po T, EvBranch io po T ∈ new ->
      exists info, blockInfo (ret s) !! T = Some info /\
        (offset info = kInvalidOffset ->
         mkJmpFixup io po ∈ forwardJumps info) /\
        (offset info <> kInvalidOffset -> bcPos (ue s) < 2 ^ 31 ->
         read_int32 (m_bc (ue s)) po = offset info - io);
  br_fixup :
    forall T info fx, blockInfo (ret s) !! T = Some info ->
      fx ∈ forwardJumps info ->
      EvBranch (instrOff fx) (jmpImmedOff fx) T ∈ new;
  br_offset :
    forall T info, blockInfo (ret s) !! T = Some info ->
      offset info = kInvalidOffset \/ 0 <= offset info <= bcPos (ue s);
  br_todo :
    forall T info, T ∈ L -> blockInfo (ret s) !! T = Some info ->
      offset info = kInvalidOffset;
  br_block :
    forall b off d fd, EvBlock b off d fd ∈ new ->
      (b ∉ L) /\
      exists info, blockInfo (ret s) !! b = Some info /\
        offset info = off /\ 0 <= off <= bcPos (ue s);
  br_done :
    forall b, b ∈ D -> exists off d fd, EvBlock b off d fd ∈ new;
  br_apart :
    forall ev1 ev2, ev1 ∈ new -> ev2 ∈ new -> ev1 = ev2 \/ slots_apart ev1 ev2;
}.

Definition branch_state (h0 : list Event) (D L : list BlockId)
    (s : EmitState) : Prop :=
  exists new, history s = new ++ h0 /\ branch_inv new D L s.

(** The events a run from [s] to [s'] has added. *)
Definition new_events (s s' : EmitState) : list Event :=
  take (length (history s') - length (history s)) (history s').

(** Every branch of [evs] goes to a block of [order]. *)
Definition targets_emitted (evs : list Event) (order : list BlockId) : bool :=
  forallb (fun ev => match ev with
                     | EvBranch _ _ T => bool_decide (T ∈ order)
                     | _ => true
                     end) evs.

(** *** Exception regions *)

(** Parents are created before their children. *)
Definition wf_arena (arena : list EHRegion) : Prop :=
  forall r reg p, arena !! r = Some reg -> eh_parent reg = Some p -> (p < r)%nat.

(** [a] is [p] or lies above it on the chain of parents. *)
Inductive on_chain (arena : list EHRegion) (a : nat) : option nat -> Prop :=
| on_chain_here : on_chain arena a (Some a)
| on_chain_up q reg :
    arena !! q = Some reg -> on_chain arena a (eh_parent reg) ->
    on_chain arena a (Some q).

Definition nonempty_region (arena : list EHRegion) (r : nat) : bool :=
  match arena !! r with
  | Some reg => negb (eh_start reg =? eh_past reg)
  | None => false
  end.

(** The regions that get an entry, in the order of the table. *)
Definition emitted_regions (arena : list EHRegion) (regions : list nat)
  : list nat :=
  filter (fun r => nonempty_region arena r = true) regions.

(** The arena and the sorted regions [emit_ehent_tree] works on. *)
Definition eh_regions (f : Func) (info : EmitBcInfo)
  : Res (list EHRegion * list nat) :=
  st ← eh_walk f info;
  regions ← std_sort (eh_compare (regions_arena st)) (flatten_exnMap (exnMap st));
  Ok (regions_arena st, regions).

Definition walk_inv (st : EHState) : Prop :=
  wf_arena (regions_arena st) /\
  flatten_exnMap (exnMap st) ≡ₚ seq 0 (length (regions_arena st)).

(** What the table holds once the regions [done] have been handled. *)
Definition table_inv (arena : list EHRegion) (done : list nat) (t : EHTable)
  : Prop :=
  let em := emitted_regions arena done in
  length (ehtab t) = length em /\
  (forall r i, parentIndexMap_find r (parentIndexMap t) = Some i ->
     exists j, i = Z.of_nat j /\ em !! j = Some r) /\
  (forall k e, ehtab t !! k = Some e ->
     exists r reg, em !! k = Some r /\ arena !! r = Some reg /\
       m_base e = eh_start reg /\ m_past e = eh_past reg /\
       m_base e < m_past e /\
       m_base e <> kInvalidOffset /\ m_past e <> kInvalidOffset /\
       match eh_parent reg with
       | None => m_parentIndex e = -1
       | Some p =>
           exists i, m_parentIndex e = Z.of_nat i /\ (i < k)%nat /\
                     em !! i = Some p
       end).

Definition strictly_sorted (arena : list EHRegion) (l : list nat) : Prop :=
  StronglySorted (fun a b => eh_less arena a b = true) l.

(** *** Exception trees *)

(** Depths do not grow towards the root and are not negative. *)
Fixpoint depths_ordered (n : ExnNode) : bool :=
  match n with
  | mkExnNode _ d None _ => 0 <=? d
  | mkExnNode _ d (Some p) _ => (depth p <=? d) && depths_ordered p
  end.

(** *** The layout of the blocks *)

(** Where a block lies in the stream and how many regions its jump pops. *)
Definition range_view (s : EmitState) : list (Z * Z * Z) :=
  (fun i => (offset i, past i, regionsToPop i)) <$> blockInfo (ret s).

(** What the emission of an instruction does to the stream and to the
    block table: bytes are appended, no block is moved, the layout stays,
    and a fixup that is new points into the appended bytes. *)
Definition steady (s s' : EmitState) : Prop :=
  (exists bs, m_bc (ue s') = m_bc (ue s) ++ bs) /\
  range_view s' = range_view s /\
  blockOrder (ret s') = blockOrder (ret s) /\
  forall T info' fx,
    blockInfo (ret s') !! T = Some info' -> fx ∈ forwardJumps info' ->
    (exists info, blockInfo (ret s) !! T = Some info /\
                  fx ∈ forwardJumps info) \/
    (bcPos (ue s) <= jmpImmedOff fx /\ jmpImmedOff fx + 4 <= bcPos (ue s')).

(** The bytes before [start] are [bc0], and no pending fixup points into
    them. *)
Definition kept (start : Z) (bc0 : list Z) (s : EmitState) : Prop :=
  start <= bcPos (ue s) /\
  take (Z.to_nat start) (m_bc (ue s)) = bc0 /\
  forall T info fx,
    blockInfo (ret s) !! T = Some info -> fx ∈ forwardJumps info ->
    start <= jmpImmedOff fx.

(** Where block [b] lies in the stream. *)
Definition block_range (r : EmitBcInfo) (b : BlockId) : option (Z * Z) :=
  (fun i => (offset i, past i)) <$> blockInfo r !! b.

(** The blocks [D], in the order they were emitted, lie one after the other
    between [start] and [hi]. *)
Definition ranges (start hi : Z) (D : list BlockId) (r : EmitBcInfo) : Prop :=
  (forall b, b ∈ D ->
     exists o p, block_range r b = Some (o, p) /\
       start <= o /\ o <= p /\ p <= hi) /\
  (forall i b b' o p o' p',
     D !! i = Some b -> D !! S i = Some b' ->
     block_range r b = Some (o, p) -> block_range r b' = Some (o', p') ->
     p <= o') /\
  (forall b o p, head D = Some b -> block_range r b = Some (o, p) ->
     o = start).

(** The layout while the blocks are emitted: the block order and the size
    of the block table are fixed, and the blocks emitted so far lie in
    order. *)
Definition lay (order : list BlockId) (len : nat) (start hi : Z)
    (D : list BlockId) (s : EmitState) : Prop :=
  blockOrder (ret s) = order /\ length (blockInfo (ret s)) = len /\
  hi <= bcPos (ue s) /\ ranges start hi D (ret s).

(** *** The functions of a unit *)

(** The methods of a class that get a function emitter: [86cinit] is left
    out unless a constant of the class needs it. *)
Definition emitted_methods (cls : PhpClass) : list Func :=
  List.filter (fun m => negb (negb (needs86cinit cls)
                              && String.eqb (func_name m) s_86cinit))
              (methods cls).

(** *** Handlers of exception regions *)

(** The entry [e] belongs to a region of the arena: it has the region's
    extent, its handler is the offset of the entry block of the region's
    node, its kind and iterator are those of the node, and it has no end
    offset. *)
Definition handler_ok (arena : list EHRegion) (bis : list BlockInfo)
    (e : EHEnt) : Prop :=
  exists r reg bi,
    arena !! r = Some reg /\
    m_base e = eh_start reg /\ m_past e = eh_past reg /\
    bis !! entry (eh_node reg) = Some bi /\
    m_handler e = offset bi /\ m_end e = kInvalidOffset /\
    (m_type e, m_iterId e, m_itRef e)
    = match info (eh_node reg) with
      | CatchRegion _ i r => (Catch, i, r)
      | FaultRegion _ i r => (FaultHandler, i, r)
      end.

(** The region starts at the offset of a block of the layout whose node is
    the region's node or lies below it. *)
Definition region_starts (f : Func) (info : EmitBcInfo) (reg : EHRegion)
  : Prop :=
  exists b blk bi,
    b ∈ blockOrder info /\ blocks f !! b = Some blk /\
    blockInfo info !! b = Some bi /\
    eh_start reg = offset bi /\
    exn_id (eh_node reg) ∈ map exn_id (exn_path (exnNode blk)).

(** *** Jump tables *)

(** The branches among some events: instruction offset, position of the
    immediate and target. *)
Definition branch_of (ev : Event) : option (Z * Z * BlockId) :=
  match ev with
  | EvBranch io po T => Some (io, po, T)
  | _ => None
  end.

Definition branch_events (h : list Event) : list (Z * Z * BlockId) :=
  omap branch_of h.

(** *** Peak depths *)

(** The stack depth and the FPI depth an event records. *)
Definition stack_depth_of (ev : Event) : option Z :=
  match ev with
  | EvBlock _ _ d _ => Some d
  | EvExpect _ d _ => Some d
  | EvOp _ _ d => Some d
  | EvBranch _ _ _ => None
  end.

Definition fpi_depth_of (ev : Event) : option Z :=
  match ev with
  | EvBlock _ _ _ fd => Some fd
  | EvExpect _ _ fd => Some fd
  | _ => None
  end.

(** No instruction of [f] pops a negative number of cells. *)
Definition pops_nonneg (f : Func) : Prop :=
  Forall (fun blk =>
            Forall (fun inst => Forall (fun n => 0 <= n) (pops inst)) (hhbcs blk))
         (blocks f).

(** [maxStackDepth] is above the current depth, the expected depths of the
    blocks and the depths of the events [new]. *)
Record stack_peak (new : list Event) (s : EmitState) : Prop := mkStackPeak {
  sp_range : 0 <= currentStackDepth s < 2 ^ 31;
  sp_depth : currentStackDepth s <= maxStackDepth (ret s);
  sp_expected : forall b esd efd d,
    expected_view s !! b = Some (esd, efd) -> esd = Some d ->
    0 <= d < 2 ^ 31 /\ d <= maxStackDepth (ret s);
  sp_events : forall ev d,
    ev ∈ new -> stack_depth_of ev = Some d -> d <= maxStackDepth (ret s);
}.

Definition stack_state (h0 : list Event) (s : EmitState) : Prop :=
  exists new, history s = new ++ h0 /\ stack_peak new s.

(** [maxFpiDepth] is above the size of the FPI stack and the FPI depths of
    the events [new]. *)
Record fpi_peak (new : list Event) (s : EmitState) : Prop := mkFpiPeak {
  fp_depth : fpiStack_size s <= maxFpiDepth (ret s);
  fp_events : forall ev d,
    ev ∈ new -> fpi_depth_of ev = Some d -> d <= maxFpiDepth (ret s);
}.

Definition fpi_state (h0 : list Event) (s : EmitState) : Prop :=
  exists new, history s = new ++ h0 /\ fpi_peak new s.

(** *** Calls *)

Definition is_call_event (ev : Event) : bool :=
  match ev with
  | EvOp _ inst _ => is_call_op (op inst)
  | _ => false
  end.

(** [containsCalls] against the events [new]; [pending] is set between the
    opcode of a call and the update of the flag. *)
Definition calls_state (pending : bool) (h0 : list Event) (s : EmitState)
  : Prop :=
  exists new, history s = new ++ h0 /\
    containsCalls (ret s) || pending = existsb is_call_event new.

End Vocabulary.

(** * Properties *)

Section LocalIds.

Context {tbl : OpcodeTable} {cfg : Cfg}.

(** ** Local ids *)

Lemma live_before_le ls n : (live_before ls n <= N.of_nat n)%N.
Proof.
  revert ls; induction n as [|n IH]; intros [|l ls]; simpl; try lia.
  specialize (IH ls). destruct (killed l); lia.
Qed.

Lemma live_before_mono ls n m :
  (n <= m)%nat -> (live_before ls n <= live_before ls m)%N.
Proof.
  revert ls m; induction n as [|n IH]; intros ls m Hle; simpl; [lia|].
  destruct ls as [|l ls]; [destruct m; simpl; lia|].
  destruct m as [|m]; [lia|]. simpl.
  specialize (IH ls m ltac:(lia)). lia.
Qed.

Lemma live_before_S ls n l :
  ls !! n = Some l -> killed l = false ->
  live_before ls (S n) = (live_before ls n + 1)%N.
Proof.
  revert ls; induction n as [|n IH]; intros [|l0 ls] Hl Hk; simplify_eq/=.
  - rewrite Hk. destruct ls; lia.
  - rewrite (IH ls Hl Hk). simpl. lia.
Qed.

Lemma assign_local_ids_lookup ls k i loc :
  ls !! i = Some loc ->
  assign_local_ids k ls !! i
  = Some (set_loc_id (if killed loc then INT_MAX
                      else (k + live_before ls i)%N) loc).
Proof.
  revert k i; induction ls as [|l ls IH]; intros k i Hl; [done|].
  destruct i as [|i]; simplify_eq/=.
  - destruct (killed loc); simpl; [done|]. f_equal. f_equal. lia.
  - destruct (killed l) eqn:Hk; simpl; rewrite (IH _ _ Hl);
      f_equal; f_equal; destruct (killed loc); lia.
Qed.

Lemma assign_local_ids_lookup_inv ls k i loc' :
  assign_local_ids k ls !! i = Some loc' ->
  exists loc, ls !! i = Some loc /\
    loc' = set_loc_id (if killed loc then INT_MAX
                       else (k + live_before ls i)%N) loc.
Proof.
  revert k i; induction ls as [|l ls IH]; intros k i Hl; [done|].
  destruct ((l :: ls) !! i) as [loc|] eqn:E.
  - exists loc. split; [done|].
    rewrite (assign_local_ids_lookup _ _ _ _ E) in Hl. congruence.
  - apply lookup_ge_None in E. apply lookup_lt_Some in Hl.
    assert (Hlen : forall k ls, length (assign_local_ids k ls) = length ls).
    { clear. intros k ls; revert k; induction ls as [|l ls IH]; intros k; [done|].
      simpl. destruct (killed l); simpl; by rewrite IH. }
    rewrite Hlen in Hl. lia.
Qed.

Lemma map_local_init_inv f id v :
  map_local (emit_init_func f) id = Ok v ->
  exists loc, locals f !! N.to_nat id = Some loc /\ killed loc = false /\
              v = live_before (locals f) (N.to_nat id).
Proof.
  unfold map_local, emit_init_func; simpl.
  destruct (assign_local_ids 0 (locals f) !! N.to_nat id) as [loc'|] eqn:E; [|done].
  apply assign_local_ids_lookup_inv in E as (loc & Hl & ->).
  simpl. destruct (killed loc) eqn:Hk; [done|].
  case_match; [|done]. intros [= <-]. exists loc. split_and!; [done..|lia].
Qed.

Lemma map_local_init f id loc :
  locals f !! N.to_nat id = Some loc -> killed loc = false ->
  map_local (emit_init_func f) id = Ok (live_before (locals f) (N.to_nat id)).
Proof.
  intros Hl Hk. unfold map_local, emit_init_func; simpl.
  rewrite (assign_local_ids_lookup _ _ _ _ Hl). simpl. rewrite Hk.
  pose proof (live_before_le (locals f) (N.to_nat id)).
  case_match eqn:E; [f_equal; lia|]. apply N.leb_gt in E. lia.
Qed.

(** C9 (as amended): after [emit_init_func] a killed local holds the sentinel
    and a live local the number of live locals before it; [map_local id] is
    that number, it is at most [id], and applying [map_local] again gives
    the same result exactly when [map_local id = id]. *)
Theorem map_local_after_init f id v :
  map_local (emit_init_func f) id = Ok v ->
  (forall i loc, locals (emit_init_func f) !! i = Some loc ->
     loc_id loc = if killed loc then INT_MAX else live_before (locals f) i) /\
  v = live_before (locals f) (N.to_nat id) /\
  (v <= id)%N /\
  (map_local (emit_init_func f) v = Ok v <-> v = id).
Proof.
  intros Hm. split_and!.
  - intros i loc' Hl. simpl in Hl.
    apply assign_local_ids_lookup_inv in Hl as (loc & _ & ->).
    simpl. destruct (killed loc); [done|lia].
  - by apply map_local_init_inv in Hm as (? & ? & ? & ?).
  - apply map_local_init_inv in Hm as (? & ? & ? & ->).
    pose proof (live_before_le (locals f) (N.to_nat id)). lia.
  - split; [|by intros ->].
    intros Hv.
    apply map_local_init_inv in Hm as (loc & Hl & Hk & Hid).
    apply map_local_init_inv in Hv as (locv & Hlv & Hkv & Hvv).
    pose proof (live_before_le (locals f) (N.to_nat id)) as Hle.
    destruct (decide (v = id)) as [|Hne]; [done|exfalso].
    assert (Hlt : (S (N.to_nat v) <= N.to_nat id)%nat) by lia.
    apply (live_before_mono (locals f)) in Hlt.
    rewrite (live_before_S _ _ _ Hlv Hkv) in Hlt. lia.
Qed.

End LocalIds.

Lemma map_local_after_init_witness :
  map_local (emit_init_func Demo.f_locals) 3%N = Ok 2%N /\
  (2 <= 3)%N /\
  (map_local (emit_init_func Demo.f_locals) 2%N = Ok 2%N <-> 2%N = 3%N).
Proof.
  pose proof (map_local_after_init Demo.f_locals 3%N 2%N eq_refl) as (_ & _ & H1 & H2).
  split; [reflexivity|]. split; assumption.
Defined.

(** C9 (as stated) fails: with the second of four locals killed,
    [map_local 3 = 2] but [map_local 2 = 1]. *)
Lemma map_local_not_idempotent :
  ~ (forall id v, map_local (emit_init_func Demo.f_locals) id = Ok v ->
                  map_local (emit_init_func Demo.f_locals) v = Ok v).
Proof.
  intros H. specialize (H 3%N 2%N eq_refl). vm_compute in H. discriminate.
Qed.

(** ** Block order *)

Section BlockOrder.

Context {tbl : OpcodeTable} {cfg : Cfg}.

Lemma insert_by_section_Main f b l :
  block_section f b = Main -> insert_by_section f b l = b :: l.
Proof.
  intros Hb. destruct l as [|c l]; simpl; [done|].
  rewrite Hb. simpl. case_match eqn:E; [|done].
  apply Z.ltb_lt in E. destruct (block_section f c); simpl in E; lia.
Qed.

Lemma insert_by_section_Fault f b mains faults :
  block_section f b = Fault ->
  Forall (in_section f Main) mains -> Forall (in_section f Fault) faults ->
  insert_by_section f b (mains ++ faults) = mains ++ b :: faults.
Proof.
  intros Hb Hm Hf. induction Hm as [|c mains Hc Hm IH]; simpl.
  - destruct Hf as [|c faults Hc Hf]; simpl; [done|].
    unfold in_section in Hc. by rewrite Hb, Hc.
  - unfold in_section in Hc. rewrite Hb, Hc. simpl. by rewrite IH.
Qed.

Lemma stable_sort_by_section_filter f l :
  stable_sort_by_section f l
  = filter (in_section f Main) l ++ filter (in_section f Fault) l.
Proof.
  induction l as [|b l IH]; [done|].
  change (stable_sort_by_section f (b :: l))
    with (insert_by_section f b (stable_sort_by_section f l)).
  rewrite IH. rewrite !filter_cons.
  destruct (block_section f b) eqn:Hb.
  - rewrite insert_by_section_Main by done.
    rewrite decide_True by done. rewrite decide_False; [done|].
    unfold in_section. congruence.
  - rewrite insert_by_section_Fault; [| done | |].
    + rewrite decide_False by (unfold in_section; congruence).
      by rewrite decide_True by done.
    + apply Forall_forall. intros x Hx. by apply list_elem_of_filter in Hx as [? _].
    + apply Forall_forall. intros x Hx. by apply list_elem_of_filter in Hx as [? _].
Qed.

Lemma erase_from_prefix x l :
  (x ∉ erase_from x l) /\
  exists rest, l = erase_from x l ++ rest /\ (rest = [] \/ head rest = Some x).
Proof.
  induction l as [|y l [IH1 (rest & IH2 & IH3)]]; simpl.
  - split; [by apply not_elem_of_nil|]. exists []. by split; [|left].
  - destruct (decide (y = x)) as [->|Hne].
    + split; [by apply not_elem_of_nil|]. exists (x :: l). by split; [|right].
    + split; [rewrite not_elem_of_cons; by split|].
      exists rest. split; [|done]. simpl. by f_equal.
Qed.

(** C2 (as amended): the emitted order is the main reverse postorder followed
    by the part of the second reverse postorder that precedes the main entry,
    then stable-sorted by section: the Main blocks of that list in their
    order, followed by its Fault blocks in their order; a main entry of
    section Main is first. *)
Theorem order_blocks_layout f order f' :
  order_blocks f = Ok (order, f') ->
  exists front rest dv after,
    rpoSortFromMain f = front :: rest /\
    rpoSortAddDVs f = dv ++ after /\
    (front ∉ dv) /\ (after = [] \/ head after = Some front) /\
    let S := (front :: rest) ++ dv in
    order = stable_sort_by_section f S /\
    order = filter (in_section f Main) S ++ filter (in_section f Fault) S /\
    (block_section f front = Main -> head order = Some front).
Proof.
  unfold order_blocks, order_blocks_unsorted.
  destruct (rpoSortFromMain f) as [|front rest] eqn:HM; [done|].
  set (S := (front :: rest) ++ erase_from front (rpoSortAddDVs f)).
  destruct (stable_sort_by_section f S) as [|b l] eqn:Hs; [done|].
  intros H.
  assert (order = b :: l) as ->.
  { destruct (blocks f !! b); [|done]. destruct (is_single_nop _); by simplify_eq. }
  clear H.
  destruct (erase_from_prefix front (rpoSortAddDVs f)) as (Hnin & after & Hsplit & Hafter).
  exists front, rest, (erase_from front (rpoSortAddDVs f)), after.
  split_and!; try done.
  - fold S. by rewrite <- Hs, stable_sort_by_section_filter.
  - intros Hfront. fold S. rewrite <- Hs, stable_sort_by_section_filter.
    unfold S. simpl. rewrite filter_cons, decide_True by done. done.
Qed.

End BlockOrder.

Lemma order_blocks_layout_witness :
  exists front rest dv after,
    rpoSortFromMain Demo.f_dv = front :: rest /\
    rpoSortAddDVs Demo.f_dv = dv ++ after /\
    (front ∉ dv) /\ (after = [] \/ head after = Some front) /\
    let S := (front :: rest) ++ dv in
    [0; 1; 2]%nat = stable_sort_by_section Demo.f_dv S /\
    [0; 1; 2]%nat = filter (in_section Demo.f_dv Main) S
                    ++ filter (in_section Demo.f_dv Fault) S /\
    (block_section Demo.f_dv front = Main -> head [0; 1; 2]%nat = Some front).
Proof.
  exact (order_blocks_layout Demo.f_dv [0; 1; 2]%nat Demo.f_dv eq_refl).
Defined.

(** C2 (as stated) fails: the code keeps the blocks of the second reverse
    postorder that come before the main entry; removing the main entry and
    what precedes it leaves other blocks. *)
Lemma order_blocks_not_spec :
  fst <$> order_blocks Demo.f_dv = Ok [0; 1; 2]%nat /\
  order_blocks_spec Demo.f_dv = [0; 1; 2; 1]%nat /\
  fst <$> order_blocks Demo.f_dv <> Ok (order_blocks_spec Demo.f_dv).
Proof. split_and!; [reflexivity | reflexivity | discriminate]. Qed.

(** ** Reasoning about runs *)

Section Runs.

Context {tbl : OpcodeTable} {cfg : Cfg}.

Lemma bind_Ok {A B : Type} (c : M A) (k : A -> M B) s b s' :
  (c ≫= k) s = Ok (b, s') ->
  exists a s1, c s = Ok (a, s1) /\ k a s1 = Ok (b, s').
Proof.
  unfold mbind, M_bind. destruct (c s) as [[a s1]|]; [|done]. eauto.
Qed.

Lemma mret_Ok {A : Type} (a : A) s b s' :
  (mret a : M A) s = Ok (b, s') -> b = a /\ s' = s.
Proof. by intros [= <- <-]. Qed.

Lemma get_Ok s a s' : get s = Ok (a, s') -> a = s /\ s' = s.
Proof. by intros [= <- <-]. Qed.

Lemma gets_Ok {A : Type} (f : EmitState -> A) s a s' :
  gets f s = Ok (a, s') -> a = f s /\ s' = s.
Proof. by intros [= <- <-]. Qed.

Lemma put_Ok x s s' : put x s = Ok (tt, s') -> s' = x.
Proof. by intros [= <-]. Qed.

Lemma modify_Ok f s s' : modify f s = Ok (tt, s') -> s' = f s.
Proof. by intros [= <-]. Qed.

Lemma fail_Ok {A : Type} e s (r : A * EmitState) : fail e s = Ok r -> False.
Proof. done. Qed.

Lemma assert_Ok b s s' : assert b s = Ok (tt, s') -> b = true /\ s' = s.
Proof. destruct b; [by intros [= <-]|done]. Qed.

Lemma lift_Ok {A : Type} (r : Res A) s a s' :
  lift r s = Ok (a, s') -> r = Ok a /\ s' = s.
Proof. destruct r; [by intros [= <- <-]|done]. Qed.

Lemma at_index_Ok {A : Type} (l : list A) i s a s' :
  at_index l i s = Ok (a, s') -> l !! i = Some a /\ s' = s.
Proof. unfold at_index. destruct (l !! i); [by intros [= <- <-]|done]. Qed.

Lemma when_Ok b c s s' :
  when b c s = Ok (tt, s') ->
  (b = true /\ c s = Ok (tt, s')) \/ (b = false /\ s' = s).
Proof. destruct b; [by left|intros [= <-]; by right]. Qed.

Lemma for_each_rel {A : Type} (R : EmitState -> EmitState -> Prop)
    (l : list A) (body : A -> M unit) :
  (forall s, R s s) ->
  (forall s1 s2 s3, R s1 s2 -> R s2 s3 -> R s1 s3) ->
  (forall a s s', a ∈ l -> body a s = Ok (tt, s') -> R s s') ->
  forall s s', for_each l body s = Ok (tt, s') -> R s s'.
Proof.
  intros Hrefl Htrans. induction l as [|a l IH]; intros Hbody s s' H.
  - injection H as <-. apply Hrefl.
  - simpl in H. apply bind_Ok in H as ([] & s1 & H1 & H2).
    eapply Htrans.
    + eapply Hbody; [left|done].
    + eapply IH; [|done]. intros. eapply Hbody; [by right|done].
Qed.

Lemma for_each_inv {A : Type} (I : EmitState -> Prop)
    (l : list A) (body : A -> M unit) :
  (forall a s s', a ∈ l -> I s -> body a s = Ok (tt, s') -> I s') ->
  forall s s', I s -> for_each l body s = Ok (tt, s') -> I s'.
Proof.
  induction l as [|a l IH]; intros Hbody s s' Hs H.
  - by injection H as <-.
  - simpl in H. apply bind_Ok in H as ([] & s1 & H1 & H2).
    eapply IH; [|eapply Hbody; [left|done..]|done].
    intros. eapply Hbody; [by right|done..].
Qed.

Lemma repeat_n_inv (I : EmitState -> Prop) (n : nat) (c : M unit) :
  (forall s s', I s -> c s = Ok (tt, s') -> I s') ->
  forall s s', I s -> repeat_n n c s = Ok (tt, s') -> I s'.
Proof.
  intros Hc. induction n as [|n IH]; intros s s' Hs H.
  - by injection H as <-.
  - simpl in H. apply bind_Ok in H as ([] & s1 & H1 & H2). eauto.
Qed.

End Runs.

(** Decompose a successful run [H : c s = Ok (a, s')] of straight-line code
    into the runs of its parts.  [run_split] stops at the calls that change
    the state; [run_step] also resolves [put], [modify] and [ue_do]. *)
Ltac run_pure H :=
  lazymatch type of H with
  | @mret _ _ _ _ _ = Ok _ => apply mret_Ok in H as [? ?]; subst
  | get _ = Ok _ => apply get_Ok in H as [? ?]; subst
  | gets _ _ = Ok _ => apply gets_Ok in H as [? ?]; subst
  | fail _ _ = Ok _ => by apply fail_Ok in H
  | assert _ _ = Ok _ =>
      let E := fresh "Hassert" in apply assert_Ok in H as [E ?]; subst
  | lift _ _ = Ok _ =>
      let E := fresh "Hlift" in apply lift_Ok in H as [E ?]; subst
  | at_index _ _ _ = Ok _ =>
      let E := fresh "Hat" in apply at_index_Ok in H as [E ?]; subst
  end.

Ltac run_split H :=
  cbv beta zeta in H;
  lazymatch type of H with
  | (_ ≫= _) _ = Ok _ =>
      let a := fresh "a" in
      let s1 := fresh "s" in
      let H1 := fresh H in
      apply bind_Ok in H as (a & s1 & H1 & H);
      lazymatch type of a with unit => destruct a | _ => idtac end;
      run_split H1; try run_split H
  | when ?b _ _ = Ok _ =>
      let E := fresh "Hwhen" in
      apply when_Ok in H as [[E H]|[E ?]]; [try run_split H | subst]
  | (if ?b then _ else _) _ = Ok _ =>
      let E := fresh "Hif" in
      destruct b eqn:E; try run_split H
  | _ => try run_pure H
  end.

Ltac run_step H :=
  cbv beta zeta in H;
  lazymatch type of H with
  | (_ ≫= _) _ = Ok _ =>
      let a := fresh "a" in
      let s1 := fresh "s" in
      let H1 := fresh H in
      apply bind_Ok in H as (a & s1 & H1 & H);
      lazymatch type of a with unit => destruct a | _ => idtac end;
      run_step H1; try run_step H
  | when ?b _ _ = Ok _ =>
      let E := fresh "Hwhen" in
      apply when_Ok in H as [[E H]|[E ?]]; [try run_step H | subst]
  | (if ?b then _ else _) _ = Ok _ =>
      let E := fresh "Hif" in
      destruct b eqn:E; try run_step H
  | put _ _ = Ok _ => apply put_Ok in H; subst
  | modify _ _ = Ok _ => apply modify_Ok in H; subst
  | ue_do _ _ = Ok _ => apply modify_Ok in H; subst
  | _ => try run_pure H
  end.

(** ** Immediates *)

Section Immediates.

Context {tbl : OpcodeTable} {cfg : Cfg}.

Lemma imm_steps_trans so s1 s2 s3 :
  imm_steps so s1 s2 -> imm_steps so s2 s3 -> imm_steps so s1 s3.
Proof. apply rtc_trans. Qed.

Lemma imm_steps_refl so s : imm_steps so s s.
Proof. apply rtc_refl. Qed.

Lemma ue_do_emitBytes_appends bs s s' :
  ue_do (emitBytes bs) s = Ok (tt, s') -> sink_appends bs s s'.
Proof. intros [= <-]. by eexists. Qed.

Lemma ue_merge_mergeLitstr_appends str s i s' :
  ue_merge (mergeLitstr str) s = Ok (i, s') -> sink_appends [] s s'.
Proof.
  unfold ue_merge, mergeLitstr. destruct (intern _ _) as [j t].
  intros [= <- <-]. eexists. split; [done|]. simpl. by rewrite app_nil_r.
Qed.

Lemma ue_merge_mergeArray_appends a s i s' :
  ue_merge (mergeArray a) s = Ok (i, s') -> sink_appends [] s s'.
Proof.
  unfold ue_merge, mergeArray. destruct (intern _ _) as [j t].
  intros [= <- <-]. eexists. split; [done|]. simpl. by rewrite app_nil_r.
Qed.

Lemma sink_appends_steps so bs s s' : sink_appends bs s s' -> imm_steps so s s'.
Proof. intros H. apply rtc_once. by eapply imm_step_sink. Qed.

Lemma emit_branch_steps so id s s' :
  emit_branch so id s = Ok (tt, s') -> imm_steps so s s'.
Proof. intros H. apply rtc_once. by eapply imm_step_branch. Qed.

Lemma ue_do_steps so bs s s' :
  ue_do (emitBytes bs) s = Ok (tt, s') -> imm_steps so s s'.
Proof. intros H. eapply sink_appends_steps, ue_do_emitBytes_appends, H. Qed.

Lemma ue_merge_litstr_steps so str s i s' :
  ue_merge (mergeLitstr str) s = Ok (i, s') -> imm_steps so s s'.
Proof. intros H. eapply sink_appends_steps, ue_merge_mergeLitstr_appends, H. Qed.

Lemma ue_merge_array_steps so a s i s' :
  ue_merge (mergeArray a) s = Ok (i, s') -> imm_steps so s s'.
Proof. intros H. eapply sink_appends_steps, ue_merge_mergeArray_appends, H. Qed.

End Immediates.

Create HintDb steps.

#[global] Hint Resolve ue_do_steps ue_merge_litstr_steps ue_merge_array_steps
  emit_branch_steps : steps.

(** Chain the runs in the context into one sequence of steps. *)
Ltac step_of H :=
  first [ eapply ue_do_steps, H
        | eapply ue_merge_litstr_steps, H
        | eapply ue_merge_array_steps, H
        | eapply emit_branch_steps, H ].

Ltac steps_chain :=
  match goal with
  | |- imm_steps _ ?s ?s => apply imm_steps_refl
  | H : ?c ?s = Ok (_, ?s1) |- imm_steps ?so ?s ?s' =>
      apply (imm_steps_trans so s s1 s'); [step_of H | clear H; steps_chain]
  end.

Section ImmediateSteps.

Context {tbl : OpcodeTable} {cfg : Cfg}.

Lemma for_each_steps {A : Type} so (l : list A) (body : A -> M unit) s s' :
  (forall a s s', body a s = Ok (tt, s') -> imm_steps so s s') ->
  for_each l body s = Ok (tt, s') -> imm_steps so s s'.
Proof.
  intros Hbody. apply (for_each_rel (imm_steps so)).
  - apply imm_steps_refl.
  - apply imm_steps_trans.
  - intros. by eapply Hbody.
Qed.

Lemma emit_imm_steps f so imm s s' :
  emit_imm f so imm s = Ok (tt, s') -> imm_steps so s s'.
Proof.
  destruct imm; simpl; intros H.
  - (* BLA *) unfold emit_switch in H. run_split H.
    eapply imm_steps_trans; [step_of H0|].
    eapply for_each_steps; [|done]. intros ? ? ? Hb. step_of Hb.
  - (* SLA *) unfold emit_sswitch in H. run_split H.
    destruct (last targets); [|done]. run_split H.
    eapply imm_steps_trans; [step_of H0|].
    apply (imm_steps_trans so s0 s1 s'); [|steps_chain].
    eapply for_each_steps; [|done].
    intros a sa sb Hb. run_split Hb. steps_chain.
  - (* ILA *) unfold emit_itertab in H. run_split H.
    eapply imm_steps_trans; [step_of H0|].
    eapply for_each_steps; [|done].
    intros a s1 s2 Hb. run_split Hb. steps_chain.
  - step_of H.
  - step_of H.
  - run_split H. step_of H.
  - step_of H.
  - step_of H.
  - step_of H.
  - step_of H.
  - run_split H. steps_chain.
  - step_of H.
  - run_split H. steps_chain.
  - step_of H.
  - step_of H.
  - (* VSA *) unfold emit_vsa in H. run_split H.
    eapply imm_steps_trans; [step_of H0|].
    eapply for_each_steps; [|done].
    intros a s1 s2 Hb. run_split Hb. steps_chain.
  - (* KA *) unfold emit_member_key in H.
    destruct (mcode mkey); run_split H.
    all: steps_chain.
  - (* LAR *) unfold emit_lar in H. run_split H. steps_chain.
Qed.

End ImmediateSteps.

(** ** Expected depths and branches *)

Section Branches.

Context {tbl : OpcodeTable} {cfg : Cfg}.

Lemma BlockInfo_eta i :
  mkBlockInfo (offset i) (past i) (regionsToPop i) (forwardJumps i)
              (expectedStackDepth i) (expectedFPIDepth i) = i.
Proof. by destruct i. Qed.

Lemma EmitBcInfo_eta r :
  mkEmitBcInfo (blockOrder r) (maxStackDepth r) (maxFpiDepth r) (containsCalls r)
               (fpiRegions r) (blockInfo r) = r.
Proof. by destruct r. Qed.

Lemma EmitState_eta s :
  mkState (ue s) (defClsMap s) (ret s) (currentStackDepth s) (fpiStack s)
          (lastOff s) (history s) = s.
Proof. by destruct s. Qed.

Lemma set_block_same id info s :
  blockInfo (ret s) !! id = Some info -> set_block id info s = s.
Proof.
  intros H. unfold set_block, set_ret, set_blockInfo.
  rewrite list_insert_id by done. by rewrite EmitBcInfo_eta, EmitState_eta.
Qed.

Lemma set_block_set_block id i1 i2 s :
  set_block id i2 (set_block id i1 s) = set_block id i2 s.
Proof.
  unfold set_block, set_ret, set_blockInfo. simpl.
  by rewrite list_insert_insert_eq.
Qed.

Lemma update_blockInfo_Ok id g s s' :
  update_blockInfo id g s = Ok (tt, s') ->
  exists info, blockInfo (ret s) !! id = Some info /\ s' = set_block id (g info) s.
Proof.
  unfold update_blockInfo, get_blockInfo. intros H. run_step H. eauto.
Qed.

Lemma get_blockInfo_Ok id s info s' :
  get_blockInfo id s = Ok (info, s') ->
  blockInfo (ret s) !! id = Some info /\ s' = s.
Proof. unfold get_blockInfo. intros H. run_step H. eauto. Qed.

Lemma set_expected_depth_Ok id s s' :
  set_expected_depth id s = Ok (tt, s') ->
  exists info, blockInfo (ret s) !! id = Some info /\
    (expectedStackDepth info = None \/
     expectedStackDepth info = Some (to_uint32 (currentStackDepth s))) /\
    (expectedFPIDepth info = None \/
     expectedFPIDepth info = Some (fpiStack_size s)) /\
    s' = after_expect id info s.
Proof.
  unfold set_expected_depth. intros H.
  apply bind_Ok in H as (info & s1 & H1 & H).
  apply get_blockInfo_Ok in H1 as [Hinfo ->].
  apply bind_Ok in H as (s0 & s1 & H1 & H). apply get_Ok in H1 as [-> ->].
  apply bind_Ok in H as ([] & s1 & H1 & H). apply modify_Ok in H1 as ->.
  apply bind_Ok in H as ([] & s1 & H1 & H).
  exists info. split; [done|]. unfold after_expect.
  assert (Hlen : (id < length (blockInfo (ret s)))%nat) by by eapply lookup_lt_Some.
  destruct info as [o p r fj esd efd]; simpl in *.
  destruct esd as [d|]; destruct efd as [d'|].
  - apply assert_Ok in H1 as [Hd%bool_decide_eq_true ->].
    apply assert_Ok in H as [Hd'%bool_decide_eq_true ->].
    subst. split_and!; [by right..|]. by rewrite set_block_same.
  - apply assert_Ok in H1 as [Hd%bool_decide_eq_true ->]. subst.
    apply update_blockInfo_Ok in H as (info & Hi & ->).
    simpl in Hi. rewrite Hinfo in Hi. injection Hi as <-.
    split_and!; [by right|by left|done].
  - apply update_blockInfo_Ok in H1 as (info & Hi & ->).
    simpl in Hi. rewrite Hinfo in Hi. injection Hi as <-.
    apply assert_Ok in H as [Hd'%bool_decide_eq_true ->]. subst.
    split_and!; [by left|by right|done].
  - apply update_blockInfo_Ok in H1 as (info & Hi & ->).
    simpl in Hi. rewrite Hinfo in Hi. injection Hi as <-.
    apply update_blockInfo_Ok in H as (info & Hi & ->).
    simpl in Hi. rewrite list_lookup_insert_eq in Hi by done.
    injection Hi as <-. rewrite set_block_set_block.
    split_and!; [by left..|done].
Qed.

Lemma emit_branch_Ok so id s s' :
  emit_branch so id s = Ok (tt, s') ->
  exists info, blockInfo (ret s) !! id = Some info /\
    (expectedStackDepth info = None \/
     expectedStackDepth info = Some (to_uint32 (currentStackDepth s))) /\
    (expectedFPIDepth info = None \/
     expectedFPIDepth info = Some (fpiStack_size s)) /\
    let info' := expect_info (currentStackDepth s) (fpiStack_size s) info in
    let s2 := log (EvBranch so (bcPos (ue s)) id) (after_expect id info s) in
    (offset info <> kInvalidOffset /\
     s' = set_ue (emitInt32 (offset info - so) (ue s)) s2) \/
    (offset info = kInvalidOffset /\
     s' = set_ue (emitInt32 0 (ue s))
            (set_block id
               (push_forwardJump (mkJmpFixup so (bcPos (ue s))) info') s2)).
Proof.
  unfold emit_branch. intros H.
  apply bind_Ok in H as ([] & s1 & H1 & H).
  apply set_expected_depth_Ok in H1 as (info & Hinfo & Hsd & Hfd & ->).
  exists info. split_and!; [done..|].
  assert (Hlen : (id < length (blockInfo (ret s)))%nat) by by eapply lookup_lt_Some.
  apply bind_Ok in H as (info1 & s1 & H1 & H).
  apply get_blockInfo_Ok in H1 as [Hinfo1 ->].
  simpl in Hinfo1.
  rewrite list_lookup_insert_eq in Hinfo1 by done. injection Hinfo1 as <-.
  apply bind_Ok in H as (s0 & s1 & H1 & H). apply get_Ok in H1 as [-> ->].
  apply bind_Ok in H as ([] & s1 & H1 & H). apply modify_Ok in H1 as ->.
  simpl in H.
  destruct (bool_decide (offset info <> kInvalidOffset)) eqn:Hif.
  - left. apply bool_decide_eq_true in Hif. apply modify_Ok in H as ->. done.
  - right. apply bool_decide_eq_false in Hif.
    split; [by destruct (decide (offset info = kInvalidOffset)); [|exfalso; auto]|].
    apply bind_Ok in H as ([] & s1 & H1 & H).
    apply update_blockInfo_Ok in H1 as (info1 & Hi & ->).
    simpl in Hi. rewrite list_lookup_insert_eq in Hi by done. injection Hi as <-.
    apply modify_Ok in H as ->. done.
Qed.

End Branches.

(** ** The primitives of the encoder, state by state *)

Section Primitives.

Context {tbl : OpcodeTable} {cfg : Cfg}.

Lemma pop_Ok n s s' :
  pop n s = Ok (tt, s') ->
  s' = set_currentStackDepth (currentStackDepth s - n) s /\
  0 <= currentStackDepth s - n < 2 ^ 31.
Proof.
  unfold pop. intros H. run_step H. split; [done|].
  apply Z.leb_le in Hassert. unfold fits_int32 in Hif.
  apply andb_true_iff in Hif as [_ Hlt%Z.ltb_lt]. lia.
Qed.

Lemma push_Ok n s s' :
  push n s = Ok (tt, s') ->
  let d := currentStackDepth s + n in
  s' = set_ret (set_maxStackDepth (Z.max (maxStackDepth (ret s)) (to_uint32 d))
                  (ret s))
         (set_currentStackDepth d s) /\
  - 2 ^ 31 <= d < 2 ^ 31.
Proof.
  unfold push. intros H. run_step H.
  - split.
    + apply Z.ltb_lt in Hwhen. simpl. by rewrite Z.max_r by lia.
    + unfold fits_int32 in Hif.
      apply andb_true_iff in Hif as [?%Z.leb_le ?%Z.ltb_lt]. lia.
  - split.
    + apply Z.ltb_ge in Hwhen. rewrite Z.max_l by lia.
      unfold set_ret, set_maxStackDepth. simpl. by rewrite EmitBcInfo_eta.
    + unfold fits_int32 in Hif.
      apply andb_true_iff in Hif as [?%Z.leb_le ?%Z.ltb_lt]. lia.
Qed.

Lemma fpush_Ok so s s' :
  fpush so s = Ok (tt, s') ->
  s' = set_ret (set_maxFpiDepth
                  (Z.max (maxFpiDepth (ret s)) (fpiStack_size s + 1)) (ret s))
         (set_fpiStack (mkFPI so kInvalidOffset (currentStackDepth s) :: fpiStack s)
            s).
Proof.
  unfold fpush. intros H. run_step H. unfold fpiStack_size. simpl.
  do 3 f_equal. lia.
Qed.

Lemma end_fpi_Ok off s s' :
  end_fpi off s = Ok (tt, s') ->
  exists fpi rest, fpiStack s = fpi :: rest /\
    s' = set_fpiStack rest
           (set_ret (set_fpiRegions
                       (fpiRegions (ret s)
                          ++ [mkFPI (fpushOff fpi) off (fpDelta fpi)])
                       (ret s)) s).
Proof.
  unfold end_fpi. intros H. run_step H.
  destruct (fpiStack s) as [|fpi rest]; [done|].
  run_step H. eauto.
Qed.

Lemma ret_assert_Ok s s' :
  ret_assert s = Ok (tt, s') -> s' = s /\ currentStackDepth s = 1.
Proof.
  unfold ret_assert. intros H. run_step H.
  by apply bool_decide_eq_true in Hassert.
Qed.

Lemma defcls_Ok so inst s s' :
  defcls so inst s = Ok (tt, s') ->
  defClsMap s !! Z.to_nat (arg 1 inst) = Some kInvalidOffset /\
  s' = set_defClsMap (<[Z.to_nat (arg 1 inst) := so]> (defClsMap s)) s.
Proof.
  unfold defcls. intros H. run_step H.
  apply bool_decide_eq_true in Hassert. by subst.
Qed.

Lemma defclsnop_defcls so inst : defclsnop so inst = defcls so inst.
Proof. reflexivity. Qed.

Lemma emit_srcloc_Ok f so inst s s' :
  emit_srcloc f so inst s = Ok (tt, s') -> sink_appends [] s s'.
Proof.
  unfold emit_srcloc, srcLoc_of. intros H.
  apply bind_Ok in H as (sl & s1 & H1 & H).
  assert (s1 = s) as ->.
  { destruct (0 <=? srcLoc inst); [by apply at_index_Ok in H1 as [_ ->]|].
    by apply mret_Ok in H1 as [_ ->]. }
  apply when_Ok in H as [[_ H]|[_ ->]].
  - apply modify_Ok in H as ->. eexists. split; [done|]. simpl. by rewrite app_nil_r.
  - exists (ue s). split; [by destruct s|]. by rewrite app_nil_r.
Qed.

(** *** Growth of the stream *)

Lemma stream_grows_refl s : stream_grows [] s s.
Proof. unfold stream_grows. by rewrite app_nil_r. Qed.

Lemma stream_grows_trans b1 b2 s1 s2 s3 :
  stream_grows b1 s1 s2 -> stream_grows b2 s2 s3 ->
  stream_grows (b1 ++ b2) s1 s3.
Proof. unfold stream_grows. intros H1 H2. by rewrite H2, H1, app_assoc. Qed.

Lemma sink_appends_grows bs s s' : sink_appends bs s s' -> stream_grows bs s s'.
Proof. by intros (u & -> & ?). Qed.

Lemma ue_do_grows bs s s' :
  ue_do (emitBytes bs) s = Ok (tt, s') -> stream_grows bs s s'.
Proof. intros H. by apply sink_appends_grows, ue_do_emitBytes_appends. Qed.

Lemma mergeLitstr_grows str s i s' :
  ue_merge (mergeLitstr str) s = Ok (i, s') -> stream_grows [] s s'.
Proof. intros H. by eapply sink_appends_grows, ue_merge_mergeLitstr_appends. Qed.

Lemma mergeArray_grows a s i s' :
  ue_merge (mergeArray a) s = Ok (i, s') -> stream_grows [] s s'.
Proof. intros H. by eapply sink_appends_grows, ue_merge_mergeArray_appends. Qed.

Lemma emit_branch_grows so id s s' :
  emit_branch so id s = Ok (tt, s') ->
  exists off, stream_grows (int32_bytes off) s s'.
Proof.
  intros H. apply emit_branch_Ok in H as (info & _ & _ & _ & [[_ ->]|[_ ->]]);
    eexists; reflexivity.
Qed.

Lemma for_each_grows {A B : Type} (P : A -> B -> Prop) (chunk : B -> list Z)
    (l : list A) (body : A -> M unit) s s' :
  (forall a s s', body a s = Ok (tt, s') ->
     exists b, P a b /\ stream_grows (chunk b) s s') ->
  for_each l body s = Ok (tt, s') ->
  exists bs, Forall2 P l bs /\ stream_grows (concat (map chunk bs)) s s'.
Proof.
  intros Hbody. revert s. induction l as [|a l IH]; intros s H.
  - injection H as <-. exists []. split; [constructor|apply stream_grows_refl].
  - simpl in H. apply bind_Ok in H as ([] & s1 & H1 & H).
    apply Hbody in H1 as (b & Hb & Hg). apply IH in H as (bs & Hbs & Hg').
    exists (b :: bs). split; [by constructor|].
    simpl. by eapply stream_grows_trans.
Qed.

End Primitives.

(** Turn the runs of sink calls in the context into facts on the stream
    and solve a goal on the final stream with them. *)
Ltac grow_of H :=
  first [ apply ue_do_grows in H
        | apply mergeLitstr_grows in H
        | apply mergeArray_grows in H
        | let off := fresh "off" in apply emit_branch_grows in H as [off H] ].

Ltac grows_solve :=
  unfold stream_grows in *;
  repeat match goal with
         | H : m_bc (ue ?s) = _ |- context [m_bc (ue ?s)] => rewrite H; clear H
         end;
  rewrite <- ?app_assoc; simpl; rewrite ?app_nil_r; try reflexivity.

(** ** The bytes of an instruction *)

Section InstructionBytes.

Context {tbl : OpcodeTable} {cfg : Cfg}.

Lemma emit_member_key_payload f mkey s s' :
  emit_member_key f mkey s = Ok (tt, s') ->
  exists rest, mkey_payload f mkey rest /\
    stream_grows (byte_at 0 (mcode_tag (mcode mkey)) :: rest) s s'.
Proof.
  unfold emit_member_key, mkey_payload. intros H.
  destruct (mcode mkey); run_split H;
    repeat match goal with
           | H : _ _ = Ok (_, _) |- _ => grow_of H
           end.
  all: eexists; split; [|grows_solve]; eauto.
Qed.

Lemma emit_imm_payload f so imm s s' :
  emit_imm f so imm s = Ok (tt, s') ->
  exists bs, imm_payload f imm bs /\ stream_grows bs s s'.
Proof.
  destruct imm; simpl; intros H.
  - (* BLA *) unfold emit_switch in H. run_split H. grow_of H0.
    apply (for_each_grows (fun _ _ => True) int32_bytes) in H as (offs & Hl & Hg).
    + exists (int32_bytes (Z.of_nat (length targets)) ++ concat (map int32_bytes offs)).
      split; [|grows_solve]. exists offs. split; [|done].
      symmetry. by eapply Forall2_length.
    + intros a sa sb Hb. grow_of Hb. eauto.
  - (* SLA *) unfold emit_sswitch in H. run_split H.
    destruct (last targets) as [dflt|]; [|done]. run_split H.
    grow_of H0. grow_of H2. grow_of H.
    apply (for_each_grows (fun _ _ => True)
             (fun c : Z * Z => int32_bytes (fst c) ++ int32_bytes (snd c)))
      in H1 as (cases & Hl & Hg).
    + eexists. split; [exists cases, off; split; [|reflexivity]|grows_solve].
      symmetry. by eapply Forall2_length.
    + intros a sa sb Hb. run_split Hb. grow_of Hb0. grow_of Hb1. grow_of Hb.
      exists (a0, off0). split; [done|]. grows_solve.
  - (* ILA *) unfold emit_itertab in H. run_split H. grow_of H0.
    apply (for_each_grows eq
             (fun kv : Z * Z => int32_bytes (fst kv) ++ int32_bytes (snd kv)))
      in H as (tab & Hl & Hg).
    + eexists. split; [reflexivity|].
      assert (iterTab = tab) as <-.
      { clear -Hl. induction Hl; by simplify_eq. }
      grows_solve.
    + intros a sa sb Hb. run_split Hb. grow_of Hb0. grow_of Hb.
      exists a. split; [done|]. grows_solve.
  - grow_of H. eauto.
  - grow_of H. eauto.
  - run_split H. grow_of H. eauto.
  - grow_of H. eauto.
  - grow_of H. eauto.
  - grow_of H. eauto.
  - grow_of H. eauto.
  - run_split H. grow_of H0. grow_of H. eexists. split; [by eexists|grows_solve].
  - grow_of H. eauto.
  - run_split H. grow_of H0. grow_of H. eexists. split; [by eexists|grows_solve].
  - grow_of H. eauto.
  - grow_of H. eauto.
  - (* VSA *) unfold emit_vsa in H. run_split H. grow_of H0.
    apply (for_each_grows (fun _ _ => True) int32_bytes) in H as (ids & Hl & Hg).
    + eexists. split; [exists ids; split; [|reflexivity]|grows_solve].
      symmetry. by eapply Forall2_length.
    + intros a sa sb Hb. run_split Hb. grow_of Hb0. grow_of Hb.
      exists a0. split; [done|]. grows_solve.
  - (* KA *) apply emit_member_key_payload in H as (rest & Hp & Hg). eauto.
  - (* LAR *) unfold emit_lar in H. run_split H. grow_of H1. grow_of H.
    eexists. split; [eexists; split; [done|reflexivity]|grows_solve].
Qed.

End InstructionBytes.

(** ** The structure of [emit_inst] *)

Section InstructionStructure.

Context {tbl : OpcodeTable} {cfg : Cfg}.

Lemma emit_opcode_Ok f inst s s' :
  emit_opcode f (lastOff s) inst s = Ok (tt, s') ->
  exists s1 s2 s3 s4 s5 s6 s7,
    when (bool_decide (op inst = OpDefCls)) (defcls (lastOff s) inst) s
      = Ok (tt, s1) /\
    when (bool_decide (op inst = OpDefClsNop)) (defcls (lastOff s) inst) s1
      = Ok (tt, s2) /\
    (isRet (op inst) = true -> currentStackDepth s2 = 1) /\
    lastOff s2 = lastOff s /\
    for_each (pops inst) pop (op_emitted inst s2) = Ok (tt, s3) /\
    for_each (pushes inst) push s3 = Ok (tt, s4) /\
    for_each (imms inst) (emit_imm f (lastOff s)) s4 = Ok (tt, s5) /\
    when (isFPush (op inst)) (fpush (lastOff s)) s5 = Ok (tt, s6) /\
    when (isFCallStar (op inst)) (fcall (lastOff s)) s6 = Ok (tt, s7) /\
    let s8 := if op_TF (op inst) then set_currentStackDepth 0 s7 else s7 in
    let s9 := if is_call_op (op inst)
              then set_ret (set_containsCalls true (ret s8)) s8 else s8 in
    emit_srcloc f (lastOff s) inst s9 = Ok (tt, s').
Proof.
  unfold emit_opcode. intros H.
  apply bind_Ok in H as ([] & s1 & H1 & H).
  apply bind_Ok in H as ([] & s2 & H2 & H).
  rewrite defclsnop_defcls in H2.
  assert (lastOff s2 = lastOff s) as Hlast.
  { apply when_Ok in H1 as [[_ [_ ->]%defcls_Ok]|[_ ->]];
    apply when_Ok in H2 as [[_ [_ ->]%defcls_Ok]|[_ ->]]; done. }
  apply bind_Ok in H as ([] & s2' & Hret & H).
  assert (s2' = s2 /\ (isRet (op inst) = true -> currentStackDepth s2 = 1))
    as [-> Hr].
  { apply when_Ok in Hret as [[_ Hret]|[E ->]].
    - by apply ret_assert_Ok in Hret as [-> ?].
    - split; [done|]. by rewrite E. }
  apply bind_Ok in H as ([] & s3'' & Hlog & H). apply modify_Ok in Hlog as ->.
  apply bind_Ok in H as ([] & s3' & Hop & H). apply modify_Ok in Hop as ->.
  apply bind_Ok in H as ([] & s3 & H3 & H).
  apply bind_Ok in H as ([] & s4 & H4 & H).
  apply bind_Ok in H as ([] & s5 & H5 & H).
  apply bind_Ok in H as ([] & s6 & H6 & H).
  apply bind_Ok in H as ([] & s7 & H7 & H).
  apply bind_Ok in H as ([] & s8 & H8 & H).
  apply bind_Ok in H as ([] & s9 & H9 & H).
  exists s1, s2, s3, s4, s5, s6, s7. split_and!; try done.
  { unfold op_emitted. by rewrite Hlast. }
  assert (s8 = if op_TF (op inst) then set_currentStackDepth 0 s7 else s7) as ->.
  { apply when_Ok in H8 as [[-> H8]|[-> ->]]; [|done]. by apply modify_Ok in H8. }
  simpl. unfold is_call_op.
  apply when_Ok in H9 as [[-> H9]|[-> ->]]; [|done]. by apply modify_Ok in H9 as ->.
Qed.

Lemma emit_inst_Ok f inst s s' :
  emit_inst f inst s = Ok (tt, s') ->
  (op inst = OpNop /\ s' = inst_begin s) \/
  (op inst <> OpNop /\
   emit_opcode f (lastOff (inst_begin s)) inst (inst_begin s) = Ok (tt, s')).
Proof.
  unfold emit_inst. intros H.
  apply bind_Ok in H as (s0 & s1 & H1 & H). apply get_Ok in H1 as [-> ->].
  simpl in H. apply bind_Ok in H as ([] & s1 & H1 & H). apply put_Ok in H1 as ->.
  destruct (bool_decide (op inst <> OpNop)) eqn:E.
  - apply bool_decide_eq_true in E. by right.
  - apply bool_decide_eq_false in E. apply mret_Ok in H as [_ ->].
    left. split; [|done]. by destruct (decide (op inst = OpNop)).
Qed.

(** Calls that leave the sink alone. *)
Lemma for_each_same_ue {A : Type} (l : list A) (body : A -> M unit) s s' :
  (forall a s s', body a s = Ok (tt, s') -> ue s' = ue s) ->
  for_each l body s = Ok (tt, s') -> ue s' = ue s.
Proof.
  intros Hbody H.
  apply (for_each_rel (fun s s' => ue s' = ue s)) in H; try done.
  - intros ? ? ? H1 H2. by rewrite H2.
  - intros. by eapply Hbody.
Qed.

Lemma pop_same_ue n s s' : pop n s = Ok (tt, s') -> ue s' = ue s.
Proof. by intros [-> _]%pop_Ok. Qed.

Lemma push_same_ue n s s' : push n s = Ok (tt, s') -> ue s' = ue s.
Proof. by intros [-> _]%push_Ok. Qed.

Lemma when_defcls_same_ue b so inst s s' :
  when b (defcls so inst) s = Ok (tt, s') -> ue s' = ue s.
Proof. intros [[_ [_ ->]%defcls_Ok]|[_ ->]]%when_Ok; done. Qed.

Lemma when_fpush_same_ue b so s s' :
  when b (fpush so) s = Ok (tt, s') -> ue s' = ue s.
Proof. intros [[_ ->%fpush_Ok]|[_ ->]]%when_Ok; done. Qed.

Lemma when_fcall_same_ue b so s s' :
  when b (fcall so) s = Ok (tt, s') -> ue s' = ue s.
Proof. intros [[_ (? & ? & _ & ->)%end_fpi_Ok]|[_ ->]]%when_Ok; done. Qed.

(** C6 (as amended): emitting an instruction whose opcode is not [Nop]
    appends the opcode byte followed by the payload of its immediates in
    schema order; emitting a [Nop] appends nothing. *)
Theorem emit_inst_bytes f inst s s' :
  emit_inst f inst s = Ok (tt, s') ->
  (op inst = OpNop -> m_bc (ue s') = m_bc (ue s)) /\
  (op inst <> OpNop ->
   exists chunks, Forall2 (imm_payload f) (imms inst) chunks /\
     m_bc (ue s') = m_bc (ue s) ++ byte_at 0 (op_byte (op inst)) :: concat chunks).
Proof.
  intros [[Hnop ->]|[Hop H]]%emit_inst_Ok.
  { split; [done|]. intros Hne. by destruct Hne. }
  split; [intros Hnop; by destruct Hop|]. intros _.
  apply emit_opcode_Ok in H
    as (s1 & s2 & s3 & s4 & s5 & s6 & s7 & H1 & H2 & _ & _ & H3 & H4 & H5 & H6 & H7 & H8).
  simpl in H8.
  apply when_defcls_same_ue in H1.
  apply when_defcls_same_ue in H2.
  apply (for_each_same_ue _ _ _ _ pop_same_ue) in H3.
  apply (for_each_same_ue _ _ _ _ push_same_ue) in H4.
  apply (for_each_grows (imm_payload f) (fun bs => bs)) in H5 as (chunks & Hch & Hg);
    [|intros; by eapply emit_imm_payload].
  apply when_fpush_same_ue in H6. apply when_fcall_same_ue in H7.
  apply emit_srcloc_Ok, sink_appends_grows in H8.
  exists chunks. split; [done|].
  unfold stream_grows in *. rewrite H8, app_nil_r.
  assert (ue (if is_call_op (op inst)
              then set_ret (set_containsCalls true
                     (ret (if op_TF (op inst) then set_currentStackDepth 0 s7 else s7)))
                     (if op_TF (op inst) then set_currentStackDepth 0 s7 else s7)
              else if op_TF (op inst) then set_currentStackDepth 0 s7 else s7)
          = ue s7) as ->.
  { by destruct (is_call_op _), (op_TF _). }
  rewrite H7, H6, Hg, H4, H3. simpl. rewrite H2, H1. simpl.
  rewrite map_id. by rewrite <- app_assoc.
Qed.

End InstructionStructure.

Lemma emit_inst_bytes_witness :
  let s' := Demo.final (emit_inst Demo.f_dv (Demo.bc Demo.Int [I64A 1]) Demo.state0) in
  emit_inst Demo.f_dv (Demo.bc Demo.Int [I64A 1]) Demo.state0 = Ok (tt, s') /\
  exists chunks,
    Forall2 (imm_payload Demo.f_dv) [I64A 1] chunks /\
    m_bc (ue s') = [] ++ byte_at 0 11 :: concat chunks.
Proof.
  split; [reflexivity|].
  apply (emit_inst_bytes Demo.f_dv (Demo.bc Demo.Int [I64A 1]) Demo.state0 _ eq_refl).
  discriminate.
Defined.

(** C6 (as stated) fails: a [Nop] is dropped, its opcode byte is not
    written. *)
Lemma nop_emits_no_opcode_byte :
  ~ (forall inst s s',
       emit_inst Demo.f_dv inst s = Ok (tt, s') ->
       exists payload,
         m_bc (ue s') = m_bc (ue s) ++ byte_at 0 (op_byte (op inst)) :: payload).
Proof.
  intros H.
  destruct (H (Demo.bc Demo.Nop []) Demo.state0 _ eq_refl) as [payload Hp].
  simpl in Hp. discriminate.
Qed.

(** ** The order of the exception regions *)

Section RegionOrder.

Context {tbl : OpcodeTable} {cfg : Cfg}.

Lemma res_bind_Ok {A B : Type} (r : Res A) (k : A -> Res B) b :
  r ≫= k = Ok b -> exists a, r = Ok a /\ k a = Ok b.
Proof. destruct r as [a|]; [|done]. eauto. Qed.

Lemma reaches_on_chain arena fuel a p :
  reaches arena fuel a p = true -> on_chain arena a p.
Proof.
  revert p. induction fuel as [|k IH]; intros [q|] H; try done.
  simpl in H. destruct (Nat.eqb q a) eqn:E.
  - apply Nat.eqb_eq in E as ->. constructor.
  - destruct (arena !! q) as [reg|] eqn:Hq; simpl in H.
    + eapply on_chain_up; [done|]. by apply IH.
    + by destruct k.
Qed.

Lemma on_chain_reaches arena a p :
  wf_arena arena -> on_chain arena a p ->
  forall fuel, (forall q, p = Some q -> (q < fuel)%nat) ->
  reaches arena fuel a p = true.
Proof.
  intros Hwf. induction 1 as [|q reg Hq Hch IH]; intros fuel Hfuel.
  - specialize (Hfuel a eq_refl). destruct fuel; [lia|].
    simpl. by rewrite Nat.eqb_refl.
  - specialize (Hfuel q eq_refl). destruct fuel as [|k]; [lia|].
    simpl. destruct (Nat.eqb q a); [done|]. rewrite Hq. simpl.
    apply IH. intros p Hp. specialize (Hwf _ _ _ Hq Hp). lia.
Qed.

Lemma on_chain_le arena a p :
  wf_arena arena -> on_chain arena a p -> forall q, p = Some q -> (a <= q)%nat.
Proof.
  intros Hwf. induction 1 as [|q reg Hq Hch IH]; intros q' [= <-]; [lia|].
  destruct (eh_parent reg) as [p|] eqn:Hp; [|inversion Hch].
  specialize (IH p eq_refl). specialize (Hwf _ _ _ Hq Hp). lia.
Qed.

Lemma on_chain_trans arena a b p :
  on_chain arena b p -> on_chain arena a (Some b) -> on_chain arena a p.
Proof. induction 1; intros Hab; [done|]. eapply on_chain_up; eauto. Qed.

Lemma is_ancestor_on_chain arena a b :
  wf_arena arena ->
  is_ancestor arena a b = true <->
  exists reg, arena !! b = Some reg /\ on_chain arena a (eh_parent reg).
Proof.
  intros Hwf. unfold is_ancestor. split.
  - intros H. apply reaches_on_chain in H.
    destruct (arena !! b) as [reg|] eqn:Hb; simpl in H; [eauto|inversion H].
  - intros (reg & Hb & Hch). rewrite Hb. simpl.
    apply on_chain_reaches; [done..|].
    intros q Hq. specialize (Hwf _ _ _ Hb Hq).
    apply lookup_lt_Some in Hb. lia.
Qed.

Lemma is_ancestor_lt arena a b :
  wf_arena arena -> is_ancestor arena a b = true -> (a < b)%nat.
Proof.
  intros Hwf (reg & Hb & Hch)%is_ancestor_on_chain; [|done].
  destruct (eh_parent reg) as [p|] eqn:Hp; [|inversion Hch].
  pose proof (on_chain_le _ _ _ Hwf Hch p eq_refl).
  specialize (Hwf _ _ _ Hb Hp). lia.
Qed.

Lemma is_ancestor_trans arena a b c :
  wf_arena arena ->
  is_ancestor arena a b = true -> is_ancestor arena b c = true ->
  is_ancestor arena a c = true.
Proof.
  intros Hwf Hab Hbc.
  apply is_ancestor_on_chain in Hab as (rb & Hb & Hab); [|done].
  apply is_ancestor_on_chain in Hbc as (rc & Hc & Hbc); [|done].
  apply is_ancestor_on_chain; [done|]. exists rc. split; [done|].
  eapply on_chain_trans; [done|]. by eapply on_chain_up.
Qed.

Lemma eh_less_irrefl arena a : eh_less arena a a = false.
Proof.
  unfold eh_less. destruct (arena !! a); [|done]. by rewrite Nat.eqb_refl.
Qed.

Lemma eh_less_true arena a b :
  eh_less arena a b = true <->
  exists ra rb, arena !! a = Some ra /\ arena !! b = Some rb /\ a <> b /\
    (eh_start ra < eh_start rb \/
     (eh_start ra = eh_start rb /\
      (eh_past rb < eh_past ra \/
       (eh_past ra = eh_past rb /\ is_ancestor arena a b = true)))).
Proof.
  unfold eh_less. split.
  - destruct (arena !! a) as [ra|]; [|done].
    destruct (arena !! b) as [rb|]; [|done].
    destruct (Nat.eqb_spec a b); [done|].
    destruct (Z.eqb_spec (eh_start ra) (eh_start rb)).
    + destruct (Z.eqb_spec (eh_past ra) (eh_past rb)).
      * intros H. exists ra, rb. split_and!; try done. right. split; [done|].
        right. done.
      * intros H%Z.ltb_lt. exists ra, rb. split_and!; try done. right. split; [done|].
        by left.
    + intros H%Z.ltb_lt. exists ra, rb. split_and!; try done. by left.
  - intros (ra & rb & -> & -> & Hne & H).
    destruct (Nat.eqb_spec a b); [done|].
    destruct (Z.eqb_spec (eh_start ra) (eh_start rb)).
    + destruct (Z.eqb_spec (eh_past ra) (eh_past rb)).
      * destruct H as [|[_ [|[_ ?]]]]; [lia|lia|done].
      * apply Z.ltb_lt. destruct H as [|[_ [|[? ?]]]]; lia.
    + apply Z.ltb_lt. destruct H as [|[? _]]; lia.
Qed.

Lemma eh_less_trans arena a b c :
  wf_arena arena ->
  eh_less arena a b = true -> eh_less arena b c = true ->
  eh_less arena a c = true.
Proof.
  intros Hwf.
  rewrite !eh_less_true.
  intros (ra & rb & Ha & Hb & Hab & H1) (rb' & rc & Hb' & Hc & Hbc & H2).
  rewrite Hb in Hb'. injection Hb' as <-.
  exists ra, rc. split_and!; [done..| |].
  - intros ->. rewrite Ha in Hc. injection Hc as <-.
    destruct H1 as [|[? [|[? H1]]]]; destruct H2 as [|[? [|[? H2]]]]; try lia.
    apply is_ancestor_lt in H1, H2; try done. lia.
  - destruct H1 as [|[? [|[? H1]]]]; destruct H2 as [|[? [|[? H2]]]]; try lia.
    right. split; [lia|]. right. split; [lia|]. by eapply is_ancestor_trans.
Qed.

Lemma eh_less_asym arena a b :
  wf_arena arena -> eh_less arena a b = true -> eh_less arena b a = false.
Proof.
  intros Hwf Hab. destruct (eh_less arena b a) eqn:Hba; [|done].
  pose proof (eh_less_trans _ _ _ _ Hwf Hab Hba) as H.
  by rewrite eh_less_irrefl in H.
Qed.

Lemma eh_compare_Ok arena a b v :
  eh_compare arena a b = Ok v -> v = eh_less arena a b.
Proof.
  unfold eh_compare, eh_less.
  destruct (arena !! a), (arena !! b); try done.
  repeat case_match; by intros [= <-].
Qed.

Lemma eh_compare_false arena a b :
  eh_compare arena a b = Ok false -> a <> b -> eh_less arena b a = true.
Proof.
  unfold eh_compare, eh_less. intros H Hne.
  destruct (arena !! a) as [ra|], (arena !! b) as [rb|]; try done.
  destruct (Nat.eqb_spec a b) as [|_]; [done|].
  destruct (Nat.eqb_spec b a) as [|_]; [by subst|].
  rewrite (Z.eqb_sym (eh_start rb)), (Z.eqb_sym (eh_past rb)).
  destruct (Z.eqb_spec (eh_start ra) (eh_start rb)).
  - destruct (Z.eqb_spec (eh_past ra) (eh_past rb)).
    + destruct (is_ancestor arena a b); [done|].
      by destruct (is_ancestor arena b a).
    + injection H as H. apply Z.ltb_ge in H. apply Z.ltb_lt. lia.
  - injection H as H. apply Z.ltb_ge in H. apply Z.ltb_lt. lia.
Qed.

Lemma eh_less_compare arena a b :
  eh_less arena a b = true -> eh_compare arena a b = Ok true.
Proof.
  unfold eh_compare, eh_less.
  destruct (arena !! a) as [ra|], (arena !! b) as [rb|]; try done.
  repeat case_match; try done; by intros ->.
Qed.

(** *** The sort *)

Lemma sort_insert_sorted arena x l l' :
  wf_arena arena ->
  sort_insert (eh_compare arena) x l = Ok l' ->
  strictly_sorted arena l -> x ∉ l ->
  strictly_sorted arena l' /\ l' ≡ₚ x :: l.
Proof.
  intros Hwf. revert l'. induction l as [|y l IH]; intros l' H Hs Hx.
  - injection H as <-. split; [|done]. by repeat constructor.
  - simpl in H. apply res_bind_Ok in H as (lt & Hcmp & H).
    apply not_elem_of_cons in Hx as [Hxy Hx].
    apply StronglySorted_inv in Hs as [Hs Hy].
    destruct lt.
    + injection H as <-. split; [|done].
      apply eh_compare_Ok in Hcmp. symmetry in Hcmp.
      constructor; [by constructor|].
      constructor; [done|].
      eapply Forall_impl; [exact Hy|]. intros z Hz. by eapply eh_less_trans.
    + apply res_bind_Ok in H as (l'' & Hins & [= <-]).
      destruct (IH _ Hins Hs Hx) as [Hs' Hp].
      split; [|by rewrite Hp; apply Permutation_swap].
      constructor; [done|].
      rewrite Hp. constructor; [|done]. by apply eh_compare_false.
Qed.

Lemma std_sort_sorted arena l l' :
  wf_arena arena ->
  std_sort (eh_compare arena) l = Ok l' -> NoDup l ->
  strictly_sorted arena l' /\ l' ≡ₚ l.
Proof.
  intros Hwf. revert l'. induction l as [|x l IH]; intros l' H Hnd.
  - injection H as <-. split; [constructor|done].
  - simpl in H. apply res_bind_Ok in H as (s & Hs & H).
    apply NoDup_cons in Hnd as [Hx Hnd].
    destruct (IH _ Hs Hnd) as [Hss Hp].
    apply sort_insert_sorted in H as [H1 H2]; [|done..|by rewrite Hp].
    split; [done|]. by rewrite H2, Hp.
Qed.

Lemma std_sort_fixpoint arena l :
  strictly_sorted arena l -> std_sort (eh_compare arena) l = Ok l.
Proof.
  induction 1 as [|x l Hs IH Hx]; [done|].
  simpl. rewrite IH. simpl.
  destruct l as [|y l]; [done|]. simpl.
  apply Forall_cons in Hx as [Hxy _].
  by rewrite (eh_less_compare _ _ _ Hxy).
Qed.

Lemma strictly_sorted_filter arena (P : nat -> Prop) `{!forall x, Decision (P x)} l :
  strictly_sorted arena l -> strictly_sorted arena (filter P l).
Proof.
  induction 1 as [|x l Hs IH Hx]; [constructor|].
  rewrite filter_cons. case_decide; [|done].
  constructor; [done|].
  apply Forall_forall. intros y Hy%list_elem_of_filter.
  rewrite Forall_forall in Hx. apply Hx. tauto.
Qed.

Lemma strictly_sorted_lookup arena l i j a b :
  wf_arena arena -> strictly_sorted arena l ->
  l !! i = Some a -> l !! j = Some b ->
  ((i < j)%nat <-> eh_less arena a b = true).
Proof.
  intros Hwf Hs Hi Hj.
  assert (Hlt : forall i j a b, l !! i = Some a -> l !! j = Some b ->
                  (i < j)%nat -> eh_less arena a b = true).
  { clear i j a b Hi Hj. induction Hs as [|x l Hs IH Hx]; intros i j a b Hi Hj Hij.
    - done.
    - destruct j as [|j]; [lia|]. destruct i as [|i]; simplify_eq/=.
      + rewrite Forall_forall in Hx. apply Hx. by eapply list_elem_of_lookup_2.
      + eapply IH; [done..|lia]. }
  split; [by eapply Hlt|].
  intros Hab. destruct (Nat.lt_trichotomy i j) as [|[->|Hji]]; [done|..].
  - simplify_eq. by rewrite eh_less_irrefl in Hab.
  - pose proof (Hlt _ _ _ _ Hj Hi Hji) as Hba.
    by rewrite (eh_less_asym _ _ _ Hwf Hab) in Hba.
Qed.

End RegionOrder.

(** ** The walk over the layout and the table *)

Section RegionTable.

Context {tbl : OpcodeTable} {cfg : Cfg}.

Lemma iter_res_inv {A : Type} (I : A -> Prop) n (step : A -> Res A) a a' :
  (forall a a', I a -> step a = Ok a' -> I a') ->
  I a -> iter_res n step a = Ok a' -> I a'.
Proof.
  intros Hstep. revert a. induction n as [|n IH]; intros a Ha H.
  - by injection H as <-.
  - simpl in H. apply res_bind_Ok in H as (a1 & H1 & H). eauto.
Qed.

Lemma fold_res_inv {A B : Type} (I : A -> Prop) (step : B -> A -> Res A) l a a' :
  (forall b a a', I a -> step b a = Ok a' -> I a') ->
  I a -> fold_res step l a = Ok a' -> I a'.
Proof.
  intros Hstep. revert a. induction l as [|b l IH]; intros a Ha H.
  - by injection H as <-.
  - simpl in H. apply res_bind_Ok in H as (a1 & H1 & H). eauto.
Qed.

Lemma fold_res_prefix_inv {A B : Type} (I : list B -> A -> Prop)
    (step : B -> A -> Res A) l a a' :
  (forall pre b a a', I pre a -> step b a = Ok a' -> I (pre ++ [b]) a') ->
  I [] a -> fold_res step l a = Ok a' -> I l a'.
Proof.
  intros Hstep.
  assert (Hgen : forall pre a, I pre a -> fold_res step l a = Ok a' -> I (pre ++ l) a').
  { induction l as [|b l IH]; intros pre a0 Ha H.
    - injection H as <-. by rewrite app_nil_r.
    - simpl in H. apply res_bind_Ok in H as (a1 & H1 & H).
      rewrite cons_middle, app_assoc. eauto. }
  apply (Hgen []).
Qed.

Lemma exnMap_find_flatten k m r :
  r ∈ exnMap_find k m -> r ∈ flatten_exnMap m.
Proof.
  unfold flatten_exnMap. induction m as [|[k' rs] m IH]; simpl; [done|].
  intros H. apply elem_of_app. destruct (Nat.eqb k k'); [by left|right; auto].
Qed.

Lemma exnMap_push_back_flatten k r m :
  flatten_exnMap (exnMap_push_back k r m) ≡ₚ r :: flatten_exnMap m.
Proof.
  unfold flatten_exnMap. induction m as [|[k' rs] m IH]; simpl; [done|].
  destruct (Nat.ltb k k'); [done|].
  destruct (Nat.eqb k k'); simpl.
  - rewrite <- app_assoc. simpl.
    by rewrite <- Permutation_middle.
  - rewrite IH. by rewrite <- Permutation_middle.
Qed.

Lemma last_elem_of {A : Type} (l : list A) x : last l = Some x -> x ∈ l.
Proof.
  intros H. apply last_Some in H as [l' ->]. apply elem_of_app. right. by left.
Qed.

Lemma walk_inv_find_lt st k r :
  walk_inv st -> last (exnMap_find k (exnMap st)) = Some r ->
  (r < length (regions_arena st))%nat.
Proof.
  intros [_ Hp] H%last_elem_of%exnMap_find_flatten.
  rewrite Hp in H. apply elem_of_seq in H. lia.
Qed.

Lemma pop_active_inv past st st' :
  walk_inv st -> pop_active past st = Ok st' -> walk_inv st'.
Proof.
  intros [Hwf Hp]. unfold pop_active.
  destruct (last (activeList st)); [|done].
  destruct (last (exnMap_find _ _)) as [r|]; [|done].
  destruct (regions_arena st !! r) as [reg|] eqn:Hr; [|done].
  intros [= <-]. split; simpl.
  - intros q rq p Hq Hpq.
    destruct (decide (r = q)) as [->|Hne].
    + rewrite list_lookup_insert_eq in Hq by (by eapply lookup_lt_Some).
      injection Hq as <-. by eapply Hwf.
    + rewrite list_lookup_insert_ne in Hq by done. by eapply Hwf.
  - by rewrite length_insert.
Qed.

Lemma push_active_inv p start st st' :
  walk_inv st -> push_active p start st = Ok st' -> walk_inv st'.
Proof.
  intros Hinv. pose proof Hinv as [Hwf Hp]. unfold push_active.
  intros (parent & Hparent & [= <-])%res_bind_Ok. split; simpl.
  - intros q rq pq Hq Hpq.
    apply lookup_app_Some in Hq as [Hq|[Hlen Hq]]; [by eapply Hwf|].
    destruct (q - length (regions_arena st))%nat eqn:E; [|done].
    injection Hq as <-. simpl in Hpq. subst parent.
    destruct (last (activeList st)) as [top|]; [|done].
    destruct (last (exnMap_find _ _)) as [r|] eqn:Hl; [|done].
    injection Hparent as ->.
    pose proof (walk_inv_find_lt _ _ _ Hinv Hl). lia.
  - rewrite exnMap_push_back_flatten, Hp, length_app. simpl.
    rewrite Nat.add_1_r, seq_S. simpl. by rewrite Permutation_cons_append.
Qed.

Lemma eh_walk_block_inv f info b st st' :
  walk_inv st -> eh_walk_block f info b st = Ok st' -> walk_inv st'.
Proof.
  intros Hinv. unfold eh_walk_block.
  destruct (blocks f !! b) as [blk|]; [|done].
  destruct (blockInfo info !! b) as [bi|]; [|done].
  destruct (exnNode blk) as [n|].
  - intros (st1 & H1 & H)%res_bind_Ok.
    apply res_bind_Ok in H as (st2 & H2 & H).
    apply res_bind_Ok in H as (st3 & H3 & H).
    assert (walk_inv st3) as Hinv3.
    { eapply (iter_res_inv walk_inv); [| |exact H3].
      { intros ? ?. apply pop_active_inv. }
      eapply (fold_res_inv walk_inv); [| |exact H2].
      { intros ? ? ? ?. by apply push_active_inv. }
      eapply (iter_res_inv walk_inv); [| |exact H1]; [|done].
      intros ? ?. apply pop_active_inv. }
    destruct (last (activeList st3)); [|by injection H as <-].
    destruct (same_nodes _ _); [by injection H as <-|done].
  - intros H. eapply (iter_res_inv walk_inv); [| |exact H]; [|done].
    intros ? ?. apply pop_active_inv.
Qed.

Lemma eh_walk_inv f info st : eh_walk f info = Ok st -> walk_inv st.
Proof.
  unfold eh_walk. intros (st1 & H1 & H)%res_bind_Ok.
  assert (walk_inv st1) as Hinv.
  { eapply (fold_res_inv walk_inv); [| |exact H1].
    - intros ? ? ? ?. by apply eh_walk_block_inv.
    - split; [by intros ? ? ? ?|done]. }
  destruct (activeList st1); [by injection H as <-|].
  destruct (last (blockOrder info)); [|done].
  destruct (blockInfo info !! _); [|done].
  eapply (iter_res_inv walk_inv); [| |exact H]; [|done].
  intros ? ?. apply pop_active_inv.
Qed.

Lemma eh_regions_sorted f info arena regions :
  eh_regions f info = Ok (arena, regions) ->
  wf_arena arena /\ strictly_sorted arena regions.
Proof.
  unfold eh_regions. intros (st & Hw & H)%res_bind_Ok.
  apply res_bind_Ok in H as (rs & Hs & [= <- <-]).
  apply eh_walk_inv in Hw as [Hwf Hp]. split; [done|].
  eapply std_sort_sorted; [done..|].
  rewrite Hp. apply NoDup_seq.
Qed.

Lemma emit_ehent_tree_regions f info t :
  emit_ehent_tree f info = Ok t ->
  exists arena regions,
    eh_regions f info = Ok (arena, regions) /\
    fold_res (fun r => emit_eh_region arena r (blockInfo info)) regions
             (mkEHTable [] []) = Ok t.
Proof.
  unfold emit_ehent_tree, eh_regions.
  intros (st & Hw & H)%res_bind_Ok. apply res_bind_Ok in H as (rs & Hs & H).
  exists (regions_arena st), rs. rewrite Hw. simpl. rewrite Hs. done.
Qed.

Lemma emitted_regions_snoc arena pre r :
  emitted_regions arena (pre ++ [r])
  = emitted_regions arena pre ++ (if nonempty_region arena r then [r] else []).
Proof.
  unfold emitted_regions. rewrite filter_app. f_equal.
  rewrite filter_cons, filter_nil. destruct (nonempty_region arena r); by case_decide.
Qed.

Lemma emit_eh_region_inv arena bis pre r t t' :
  table_inv arena pre t -> emit_eh_region arena r bis t = Ok t' ->
  table_inv arena (pre ++ [r]) t'.
Proof.
  intros (Hlen & Hmap & Htab). unfold emit_eh_region.
  destruct (arena !! r) as [reg|] eqn:Hr; [|done].
  unfold table_inv. rewrite emitted_regions_snoc. unfold nonempty_region. rewrite Hr.
  destruct (Z.eqb_spec (eh_start reg) (eh_past reg)) as [Heq|Hne]; simpl.
  { intros [= <-]. rewrite app_nil_r. done. }
  destruct (Z.leb_spec (eh_start reg) (eh_past reg)) as [Hle|]; [simpl|done].
  destruct (bool_decide (eh_start reg = kInvalidOffset)) eqn:E1; [done|].
  destruct (bool_decide (eh_past reg = kInvalidOffset)) eqn:E2; [done|].
  apply bool_decide_eq_false in E1, E2. simpl.
  intros (parentIndex & Hpi & H)%res_bind_Ok.
  set (entry := match info (eh_node reg) with
                | CatchRegion c i r0 => (Catch, c, i, r0)
                | FaultRegion fl i r0 => (FaultHandler, fl, i, r0)
                end) in H.
  destruct entry as [[[ty entryBlock] iterId] itRef]. simpl in H.
  destruct (bis !! entryBlock) as [bi|]; [|done].
  injection H as <-. simpl. split_and!.
  - rewrite !length_app. simpl. lia.
  - intros r' i. destruct (Nat.eqb_spec r' r) as [->|Hr'].
    + intros [= <-]. exists (length (ehtab t)). split; [done|].
      rewrite Hlen. by rewrite lookup_app_r, Nat.sub_diag.
    + intros (j & -> & Hj)%Hmap. exists j. split; [done|].
      by apply lookup_app_l_Some.
  - intros k e Hk. apply lookup_app_Some in Hk as [Hk|[Hge Hk]].
    + destruct (Htab _ _ Hk) as (r' & reg' & Hem & Hreg & Hb & Hp & Hlt & Hv1 & Hv2 & Hpar).
      exists r', reg'. split_and!; try done; [by apply lookup_app_l_Some|].
      destruct (eh_parent reg'); [|done].
      destruct Hpar as (i & ? & ? & ?). exists i. split_and!; try done.
      by apply lookup_app_l_Some.
    + destruct (k - length (ehtab t))%nat eqn:Ek; [|done].
      injection Hk as <-. simpl.
      assert (k = length (ehtab t)) as -> by lia.
      exists r, reg. split_and!; try done; [|lia|].
      { rewrite Hlen. by rewrite lookup_app_r, Nat.sub_diag. }
      destruct (eh_parent reg) as [p|].
      * destruct (parentIndexMap_find p (parentIndexMap t)) as [i|] eqn:Hf; [|done].
        injection Hpi as <-. destruct (Hmap _ _ Hf) as (j & -> & Hj).
        exists j. split_and!; [done| |by apply lookup_app_l_Some].
        apply lookup_lt_Some in Hj. lia.
      * by injection Hpi as <-.
Qed.

Lemma emit_regions_table_inv arena bis regions t :
  fold_res (fun r => emit_eh_region arena r bis) regions (mkEHTable [] []) = Ok t ->
  table_inv arena regions t.
Proof.
  apply (fold_res_prefix_inv (table_inv arena)).
  - intros pre r t0 t1. apply emit_eh_region_inv.
  - split_and!; [done|done|]. intros k e Hk. done.
Qed.

End RegionTable.

Section RegionTheorems.

Context {tbl : OpcodeTable} {cfg : Cfg}.

(** C4: the entries of the EH table are in the order of the sort (an
    emitted region comes before another exactly when it is less), sorting
    the emitted regions again changes nothing, and the parent index of an
    entry is the index of the earlier entry of its parent region, or -1 for
    a region without parent. *)
Theorem eh_table_order f info t :
  emit_ehent_tree f info = Ok t ->
  exists arena regions,
    eh_regions f info = Ok (arena, regions) /\
    let em := emitted_regions arena regions in
    length (ehtab t) = length em /\
    (forall i j a b, em !! i = Some a -> em !! j = Some b ->
       ((i < j)%nat <-> eh_less arena a b = true)) /\
    std_sort (eh_compare arena) em = Ok em /\
    (forall k e, ehtab t !! k = Some e ->
       exists r reg, em !! k = Some r /\ arena !! r = Some reg /\
         m_base e = eh_start reg /\ m_past e = eh_past reg /\
         match eh_parent reg with
         | None => m_parentIndex e = -1
         | Some p =>
             exists i, m_parentIndex e = Z.of_nat i /\ (i < k)%nat /\
                       em !! i = Some p
         end).
Proof.
  intros (arena & regions & Hreg & Hfold)%emit_ehent_tree_regions.
  exists arena, regions. split; [done|].
  destruct (eh_regions_sorted _ _ _ _ Hreg) as [Hwf Hsorted].
  apply emit_regions_table_inv in Hfold as (Hlen & _ & Htab).
  assert (strictly_sorted arena (emitted_regions arena regions)) as Hem.
  { by apply strictly_sorted_filter. }
  simpl. split_and!; [done| | |].
  - intros i j a b. by apply strictly_sorted_lookup.
  - by apply std_sort_fixpoint.
  - intros k e Hk.
    destruct (Htab _ _ Hk) as (r & reg & ? & ? & ? & ? & _ & _ & _ & ?).
    exists r, reg. done.
Qed.

(** C10: a region with [start = past] gets neither an entry nor an index,
    and every entry of the table has [base < past] with both offsets
    valid. *)
Theorem eh_table_skips_empty f info t :
  emit_ehent_tree f info = Ok t ->
  exists arena regions,
    eh_regions f info = Ok (arena, regions) /\
    length (ehtab t) = length (emitted_regions arena regions) /\
    (forall r reg, arena !! r = Some reg -> eh_start reg = eh_past reg ->
       (r ∉ emitted_regions arena regions) /\
       parentIndexMap_find r (parentIndexMap t) = None) /\
    (forall e, e ∈ ehtab t ->
       m_base e < m_past e /\
       m_base e <> kInvalidOffset /\ m_past e <> kInvalidOffset).
Proof.
  intros (arena & regions & Hreg & Hfold)%emit_ehent_tree_regions.
  exists arena, regions. split; [done|].
  apply emit_regions_table_inv in Hfold as (Hlen & Hmap & Htab).
  split_and!; [done| |].
  - intros r reg Hr Heq.
    assert (r ∉ emitted_regions arena regions) as Hnin.
    { intros [Hne _]%list_elem_of_filter. unfold nonempty_region in Hne.
      rewrite Hr in Hne. apply negb_true_iff, Z.eqb_neq in Hne. done. }
    split; [done|].
    destruct (parentIndexMap_find r (parentIndexMap t)) as [i|] eqn:Hf; [|done].
    destruct (Hmap _ _ Hf) as (j & _ & Hj). exfalso. apply Hnin.
    by eapply list_elem_of_lookup_2.
  - intros e [k Hk]%list_elem_of_lookup.
    destruct (Htab _ _ Hk) as (r & reg & _ & _ & _ & _ & ? & ? & ? & _). done.
Qed.

End RegionTheorems.

Lemma eh_table_order_witness :
  let f := Demo.f_regions in
  let t := Demo.table_of f in
  map (fun e => (m_base e, m_past e, m_parentIndex e)) (ehtab t)
  = [(0, 20, -1); (0, 20, 0)] /\
  exists arena regions,
    eh_regions f (Demo.info_of f) = Ok (arena, regions) /\
    let em := emitted_regions arena regions in
    length (ehtab t) = length em /\
    (forall i j a b, em !! i = Some a -> em !! j = Some b ->
       ((i < j)%nat <-> eh_less arena a b = true)) /\
    std_sort (eh_compare arena) em = Ok em /\
    (forall k e, ehtab t !! k = Some e ->
       exists r reg, em !! k = Some r /\ arena !! r = Some reg /\
         m_base e = eh_start reg /\ m_past e = eh_past reg /\
         match eh_parent reg with
         | None => m_parentIndex e = -1
         | Some p =>
             exists i, m_parentIndex e = Z.of_nat i /\ (i < k)%nat /\
                       em !! i = Some p
         end).
Proof.
  split; [vm_compute; reflexivity|].
  apply (eh_table_order Demo.f_regions (Demo.info_of Demo.f_regions)).
  vm_compute. reflexivity.
Defined.

Lemma eh_table_skips_empty_witness :
  let f := Demo.f_regions in
  let t := Demo.table_of f in
  exists arena regions,
    eh_regions f (Demo.info_of f) = Ok (arena, regions) /\
    length (ehtab t) = length (emitted_regions arena regions) /\
    (forall r reg, arena !! r = Some reg -> eh_start reg = eh_past reg ->
       (r ∉ emitted_regions arena regions) /\
       parentIndexMap_find r (parentIndexMap t) = None) /\
    (forall e, e ∈ ehtab t ->
       m_base e < m_past e /\
       m_base e <> kInvalidOffset /\ m_past e <> kInvalidOffset).
Proof.
  apply (eh_table_skips_empty Demo.f_regions (Demo.info_of Demo.f_regions)).
  vm_compute. reflexivity.
Defined.

(** ** The structure of [emit_block] *)

Section BlockStructure.

Context {tbl : OpcodeTable} {cfg : Cfg}.

Lemma set_ue_set_ue u1 u2 s : set_ue u2 (set_ue u1 s) = set_ue u2 s.
Proof. done. Qed.

Lemma set_ue_same s : set_ue (ue s) s = s.
Proof. by destruct s. Qed.

Lemma fixups_Ok off fj s s' :
  for_each fj (fun fixup =>
    s ← get;
    u ← lift (emitInt32_at (off - instrOff fixup) (jmpImmedOff fixup) (ue s));
    put (set_ue u s)) s = Ok (tt, s') ->
  exists u, apply_fixups off fj (ue s) = Ok u /\ s' = set_ue u s.
Proof.
  revert s. induction fj as [|fx fj IH]; intros s H.
  - apply mret_Ok in H as [_ ->]. exists (ue s). by rewrite set_ue_same.
  - simpl in H. apply bind_Ok in H as ([] & s1 & H1 & H).
    apply bind_Ok in H1 as (s0 & s2 & Hg & H1). apply get_Ok in Hg as [-> ->].
    apply bind_Ok in H1 as (u & s2 & Hl & H1). apply lift_Ok in Hl as [Hu ->].
    apply put_Ok in H1 as ->.
    apply IH in H as (u' & Hu' & ->). simpl in Hu'.
    exists u'. split; [|done]. simpl. by rewrite Hu.
Qed.

Lemma emit_block_Ok f b next s s' :
  emit_block f b next s = Ok (tt, s') ->
  exists blk info u s6 s8,
    blocks f !! b = Some blk /\
    blockInfo (ret s) !! b = Some info /\
    apply_fixups (bcPos (ue s)) (forwardJumps info) (ue s) = Ok u /\
    default 0 (expectedFPIDepth info) <= fpiStack_size s /\
    repeat_n (Z.to_nat (fpiStack_size s - default 0 (expectedFPIDepth info)))
             (s ← get; end_fpi (lastOff s)) (block_begin_state b info u s)
      = Ok (tt, s6) /\
    for_each (hhbcs blk) (emit_inst f)
             (log (EvBlock b (bcPos (ue s)) (currentStackDepth s6)
                     (fpiStack_size s6)) s6) = Ok (tt, s8) /\
    block_end f b blk next s8 s'.
Proof.
  unfold emit_block. intros H.
  apply bind_Ok in H as (blk & s1 & H1 & H). apply at_index_Ok in H1 as [Hblk ->].
  apply bind_Ok in H as (s0 & s1 & H1 & H). apply get_Ok in H1 as [-> ->].
  apply bind_Ok in H as ([] & s1 & H1 & H).
  apply update_blockInfo_Ok in H1 as (info & Hinfo & ->).
  assert (Hlen : (b < length (blockInfo (ret s)))%nat) by by eapply lookup_lt_Some.
  apply bind_Ok in H as (info1 & s1 & H1 & H).
  apply get_blockInfo_Ok in H1 as [Hinfo1 ->]. simpl in Hinfo1.
  rewrite list_lookup_insert_eq in Hinfo1 by done. injection Hinfo1 as <-.
  apply bind_Ok in H as ([] & s2 & H1 & H).
  apply fixups_Ok in H1 as (u & Hu & ->). simpl in Hu.
  apply bind_Ok in H as ([] & s3 & H1 & H).
  apply bind_Ok in H as (info2 & s3' & H2 & H).
  apply get_blockInfo_Ok in H2 as [Hinfo2 ->].
  apply bind_Ok in H as ([] & s4 & H2 & H). apply modify_Ok in H2 as ->.
  apply bind_Ok in H as ([] & s5 & H2 & H).
  apply bind_Ok in H as (info3 & s5' & H3 & H).
  apply get_blockInfo_Ok in H3 as [Hinfo3 ->].
  apply bind_Ok in H as (s0 & s5' & H3 & H). apply get_Ok in H3 as [-> ->].
  apply bind_Ok in H as ([] & s5' & H3 & H). apply assert_Ok in H3 as [Hle ->].
  apply bind_Ok in H as ([] & s6 & H6 & H).
  apply bind_Ok in H as (s0 & s6' & H3 & H). apply get_Ok in H3 as [-> ->].
  apply bind_Ok in H as ([] & s7 & H7 & H). apply modify_Ok in H7 as ->.
  apply bind_Ok in H as ([] & s8 & H8 & H).
  apply bind_Ok in H as (s0 & s8' & H3 & H). apply get_Ok in H3 as [-> ->].
  apply bind_Ok in H as ([] & s9 & H9 & H).
  apply update_blockInfo_Ok in H9 as (info9 & Hinfo9 & ->).
  (* the info of the block after the defaults *)
  assert (s5 = block_begin_state b info u s /\
          info3 = block_entry_info (bcPos (ue s)) info) as [-> ->].
  { unfold block_begin_state, block_entry_info.
    destruct info as [o p r fj esd efd]. simpl in *.
    destruct esd as [d|]; destruct efd as [d'|]; simpl in *.
    - apply mret_Ok in H1 as [_ ->]. simpl in Hinfo2.
      rewrite list_lookup_insert_eq in Hinfo2 by done. injection Hinfo2 as <-.
      apply mret_Ok in H2 as [_ ->]. simpl in Hinfo3.
      rewrite list_lookup_insert_eq in Hinfo3 by done. injection Hinfo3 as <-.
      done.
    - apply mret_Ok in H1 as [_ ->]. simpl in Hinfo2.
      rewrite list_lookup_insert_eq in Hinfo2 by done. injection Hinfo2 as <-.
      apply update_blockInfo_Ok in H2 as (i & Hi & ->). simpl in Hi.
      rewrite list_lookup_insert_eq in Hi by done. injection Hi as <-.
      simpl in Hinfo3. rewrite list_lookup_insert_eq in Hinfo3
        by (by rewrite length_insert).
      injection Hinfo3 as <-. unfold set_block. simpl.
      by rewrite list_insert_insert_eq.
    - apply update_blockInfo_Ok in H1 as (i & Hi & ->). simpl in Hi.
      rewrite list_lookup_insert_eq in Hi by done. injection Hi as <-.
      simpl in Hinfo2. rewrite list_lookup_insert_eq in Hinfo2
        by (by rewrite length_insert).
      injection Hinfo2 as <-.
      apply mret_Ok in H2 as [_ ->]. simpl in Hinfo3.
      rewrite list_lookup_insert_eq in Hinfo3 by (by rewrite length_insert).
      injection Hinfo3 as <-. unfold set_block. simpl.
      by rewrite list_insert_insert_eq.
    - apply update_blockInfo_Ok in H1 as (i & Hi & ->). simpl in Hi.
      rewrite list_lookup_insert_eq in Hi by done. injection Hi as <-.
      simpl in Hinfo2. rewrite list_lookup_insert_eq in Hinfo2
        by (by rewrite length_insert).
      injection Hinfo2 as <-.
      apply update_blockInfo_Ok in H2 as (i & Hi & ->). simpl in Hi.
      rewrite list_lookup_insert_eq in Hi by (by rewrite length_insert).
      injection Hi as <-.
      simpl in Hinfo3. rewrite list_lookup_insert_eq in Hinfo3
        by (by rewrite !length_insert).
      injection Hinfo3 as <-. unfold set_block. simpl.
      by rewrite !list_insert_insert_eq. }
  apply Z.leb_le in Hle. simpl in Hle.
  exists blk, info, u, s6, s8. split_and!; try done.
  exists info9. split; [done|]. simpl.
  destruct (fallthrough blk) as [ft|]; [|by apply mret_Ok in H as [_ ->]].
  apply bind_Ok in H as ([] & s10 & H10 & H).
  exists s10. split; [done|].
  destruct (bool_decide (next <> Some ft)); [|by apply mret_Ok in H as [_ ->]].
  apply bind_Ok in H as ([] & s11 & H11 & H).
  apply bind_Ok in H as (ftblk & s11' & H12 & H). apply at_index_Ok in H12 as [_ ->].
  apply bind_Ok in H as (parent & s11' & H12 & H). apply lift_Ok in H12 as [_ ->].
  simpl in H. apply bind_Ok in H as ([] & s12 & H12 & H).
  apply update_blockInfo_Ok in H12 as (info11 & Hinfo11 & ->).
  apply assert_Ok in H as [Hn%Z.leb_le ->].
  eexists s11, info11, _. split_and!; done.
Qed.

End BlockStructure.

(** ** Stack depths *)

Section StackDepth.

Context {tbl : OpcodeTable} {cfg : Cfg}.

Lemma to_uint32_small d : 0 <= d < 2 ^ 32 -> to_uint32 d = d.
Proof. intros. unfold to_uint32. by apply Z.mod_small. Qed.

Lemma to_int32_small d : - 2 ^ 31 <= d < 2 ^ 31 -> to_int32 d = d.
Proof. intros. unfold to_int32. rewrite Z.mod_small; lia. Qed.

Lemma expected_view_set_block b info s :
  expected_view (set_block b info s)
  = <[b := (expectedStackDepth info, expectedFPIDepth info)]> (expected_view s).
Proof. unfold expected_view. simpl. by rewrite list_fmap_insert. Qed.

Lemma expected_view_lookup b info s :
  blockInfo (ret s) !! b = Some info ->
  expected_view s !! b = Some (expectedStackDepth info, expectedFPIDepth info).
Proof. intros H. unfold expected_view. by rewrite list_lookup_fmap, H. Qed.

Lemma expected_view_set_block_same b info info' s :
  blockInfo (ret s) !! b = Some info ->
  expectedStackDepth info' = expectedStackDepth info ->
  expectedFPIDepth info' = expectedFPIDepth info ->
  expected_view (set_block b info' s) = expected_view s.
Proof.
  intros H H1 H2. rewrite expected_view_set_block, H1, H2.
  apply list_insert_id. by apply expected_view_lookup.
Qed.

Lemma depth_inv_depth new d d' view :
  depth_inv new d view -> 0 <= d' < 2 ^ 31 -> depth_inv new d' view.
Proof. intros [] ?. by constructor. Qed.

Lemma cons_eq_app_block (ev : Event) new l1 l2 b off d f :
  (forall b off d f, ev <> EvBlock b off d f) ->
  ev :: new = l2 ++ EvBlock b off d f :: l1 ->
  exists l2', l2 = ev :: l2' /\ new = l2' ++ EvBlock b off d f :: l1.
Proof.
  intros Hev H. destruct l2 as [|e l2]; simplify_eq/=.
  - by destruct (Hev b off d f).
  - eauto.
Qed.

Lemma depth_inv_other ev new d view :
  depth_inv new d view -> expected_of ev = None -> event_depth_ok ev ->
  depth_inv (ev :: new) d view.
Proof.
  intros [Hd He Hr Hrec Hset Hun] Hnone Hok. constructor; try done.
  - by constructor.
  - intros ev' b d' f' [->|Hin]%elem_of_cons Hexp; [congruence|eauto].
  - intros b esd efd Hb Hne. destruct (Hset _ _ _ Hb Hne) as (ev' & d' & f' & ? & ?).
    exists ev', d', f'. split; [by right|done].
  - intros l1 l2 b off d' f' Heq Hl1.
    apply cons_eq_app_block in Heq as (l2' & -> & ->); [by eapply Hun|].
    intros ? ? ? ? ->. done.
Qed.

Lemma depth_inv_expect b f new d view esd efd :
  depth_inv new d view ->
  view !! b = Some (esd, efd) ->
  esd = None \/ esd = Some d -> efd = None \/ efd = Some f ->
  depth_inv (EvExpect b d f :: new) d (<[b := (Some d, Some f)]> view).
Proof.
  intros [Hd He Hr Hrec Hset Hun] Hb Hesd Hefd.
  assert (Hlt : (b < length view)%nat) by by eapply lookup_lt_Some.
  constructor; try done.
  - constructor; [simpl; lia|done].
  - intros b' esd' efd' v Hb' ->.
    destruct (decide (b = b')) as [<-|Hne].
    + rewrite list_lookup_insert_eq in Hb' by done. by simplify_eq.
    + rewrite list_lookup_insert_ne in Hb' by done. by eapply Hr.
  - intros ev b' d' f' [->|Hin]%elem_of_cons Hexp.
    + simpl in Hexp. simplify_eq. by rewrite list_lookup_insert_eq.
    + destruct (decide (b = b')) as [<-|Hne].
      * rewrite list_lookup_insert_eq by done.
        specialize (Hrec _ _ _ _ Hin Hexp). rewrite Hb in Hrec.
        injection Hrec as -> ->. destruct Hesd, Hefd; by simplify_eq.
      * rewrite list_lookup_insert_ne by done. eauto.
  - intros b' esd' efd' Hb' Hne'.
    destruct (decide (b = b')) as [<-|Hne].
    + exists (EvExpect b d f), d, f. split; [by left|done].
    + rewrite list_lookup_insert_ne in Hb' by done.
      destruct (Hset _ _ _ Hb' Hne') as (ev' & d' & f' & ? & ?).
      exists ev', d', f'. split; [by right|done].
  - intros l1 l2 b' off d' f' Heq Hl1.
    apply cons_eq_app_block in Heq as (l2' & -> & ->); [by eapply Hun|done].
Qed.

Lemma depth_inv_block b off new d view esd efd :
  depth_inv new d view ->
  view !! b = Some (esd, efd) ->
  depth_inv (EvBlock b off (default 0 esd) (default 0 efd) :: new)
            (default 0 esd)
            (<[b := (Some (default 0 esd), Some (default 0 efd))]> view).
Proof.
  intros [Hd He Hr Hrec Hset Hun] Hb.
  assert (Hlt : (b < length view)%nat) by by eapply lookup_lt_Some.
  assert (HD : 0 <= default 0 esd < 2 ^ 31).
  { destruct esd as [v|]; simpl; [by eapply Hr|lia]. }
  constructor; try done.
  - constructor; [simpl; lia|done].
  - intros b' esd' efd' v Hb' ->.
    destruct (decide (b = b')) as [<-|Hne].
    + rewrite list_lookup_insert_eq in Hb' by done. by simplify_eq.
    + rewrite list_lookup_insert_ne in Hb' by done. by eapply Hr.
  - intros ev b' d' f' [->|Hin]%elem_of_cons Hexp.
    + simpl in Hexp. simplify_eq. by rewrite list_lookup_insert_eq.
    + destruct (decide (b = b')) as [<-|Hne].
      * rewrite list_lookup_insert_eq by done.
        specialize (Hrec _ _ _ _ Hin Hexp). rewrite Hb in Hrec.
        by injection Hrec as -> ->.
      * rewrite list_lookup_insert_ne by done. eauto.
  - intros b' esd' efd' Hb' Hne'.
    destruct (decide (b = b')) as [<-|Hne].
    + eexists (EvBlock b off _ _), _, _. split; [by left|done].
    + rewrite list_lookup_insert_ne in Hb' by done.
      destruct (Hset _ _ _ Hb' Hne') as (ev' & d' & f' & ? & ?).
      exists ev', d', f'. split; [by right|done].
  - intros l1 l2 b' off' d' f' Heq Hl1.
    destruct l2 as [|e l2]; simplify_eq/=; [|by eapply Hun].
    destruct esd as [v|], efd as [w|]; simpl; try done;
      destruct (Hset _ _ _ Hb) as (ev & d'' & f'' & Hin & Hexp);
      try (by left); try (by right); by destruct (Hl1 _ _ _ Hin Hexp).
Qed.

(** *** The steps of the emitter *)

Lemma depth_state_frame h0 s s' :
  depth_state h0 s -> history s' = history s ->
  currentStackDepth s' = currentStackDepth s ->
  expected_view s' = expected_view s -> depth_state h0 s'.
Proof. intros (new & Hh & Hinv) H1 H2 H3. exists new. by rewrite H1, H2, H3. Qed.

Lemma depth_state_set_depth h0 s d :
  depth_state h0 s -> 0 <= d < 2 ^ 31 ->
  depth_state h0 (set_currentStackDepth d s).
Proof.
  intros (new & Hh & Hinv) Hd. exists new. split; [done|].
  by eapply depth_inv_depth.
Qed.

Lemma depth_state_sink h0 bs s s' :
  depth_state h0 s -> sink_appends bs s s' -> depth_state h0 s'.
Proof. intros Hs (u & -> & _). by apply (depth_state_frame h0 s). Qed.

Lemma depth_state_expect h0 id s s' :
  depth_state h0 s -> set_expected_depth id s = Ok (tt, s') -> depth_state h0 s'.
Proof.
  intros (new & Hh & Hinv) (info & Hinfo & Hsd & Hfd & ->)%set_expected_depth_Ok.
  pose proof (di_depth _ _ _ Hinv) as Hd.
  exists (EvExpect id (currentStackDepth s) (fpiStack_size s) :: new).
  split; [simpl; by rewrite Hh|].
  unfold after_expect. rewrite expected_view_set_block. simpl.
  rewrite to_uint32_small in * by lia.
  eapply depth_inv_expect; [done|by apply expected_view_lookup|done..].
Qed.

Lemma depth_state_branch h0 so id s s' :
  depth_state h0 s -> emit_branch so id s = Ok (tt, s') -> depth_state h0 s'.
Proof.
  intros (new & Hh & Hinv) (info & Hinfo & Hsd & Hfd & H)%emit_branch_Ok.
  pose proof (di_depth _ _ _ Hinv) as Hd.
  exists (EvBranch so (bcPos (ue s)) id
          :: EvExpect id (currentStackDepth s) (fpiStack_size s) :: new).
  assert (depth_inv
            (EvBranch so (bcPos (ue s)) id
             :: EvExpect id (currentStackDepth s) (fpiStack_size s) :: new)
            (currentStackDepth s)
            (<[id := (Some (currentStackDepth s), Some (fpiStack_size s))]>
               (expected_view s))) as Hinv'.
  { apply depth_inv_other; [|done..].
    rewrite to_uint32_small in * by lia.
    eapply depth_inv_expect; [done|by apply expected_view_lookup|done..]. }
  destruct H as [[_ ->]|[_ ->]]; (split; [simpl; by rewrite Hh|]).
  - unfold after_expect. simpl.
    change (expected_view _) with
      (expected_view (set_block id
         (expect_info (currentStackDepth s) (fpiStack_size s) info) s)).
    rewrite expected_view_set_block. simpl.
    by rewrite to_uint32_small by lia.
  - unfold after_expect. simpl.
    change (expected_view _) with
      (expected_view (set_block id
         (push_forwardJump (mkJmpFixup so (bcPos (ue s)))
            (expect_info (currentStackDepth s) (fpiStack_size s) info))
         (set_block id
            (expect_info (currentStackDepth s) (fpiStack_size s) info) s))).
    rewrite set_block_set_block, expected_view_set_block. simpl.
    by rewrite to_uint32_small by lia.
Qed.

Lemma depth_state_imm_steps h0 so s s' :
  imm_steps so s s' -> depth_state h0 s -> depth_state h0 s'.
Proof.
  induction 1 as [|s1 s2 s3 Hstep _ IH]; [done|].
  intros Hs. apply IH. destruct Hstep.
  - by eapply depth_state_sink.
  - by eapply depth_state_branch.
Qed.

Lemma depth_state_pop h0 n s s' :
  depth_state h0 s -> pop n s = Ok (tt, s') -> depth_state h0 s'.
Proof. intros Hs [-> Hd]%pop_Ok. by apply depth_state_set_depth. Qed.

Lemma depth_state_push h0 n s s' :
  0 <= n -> depth_state h0 s -> push n s = Ok (tt, s') -> depth_state h0 s'.
Proof.
  intros Hn Hs [-> Hd]%push_Ok.
  destruct Hs as (new & Hh & Hinv). pose proof (di_depth _ _ _ Hinv).
  eapply depth_state_frame; [apply (depth_state_set_depth h0 s); [by exists new|]|..];
    [|done..]. lia.
Qed.

Lemma pushes_nonneg inst n : n ∈ pushes inst -> 0 <= n.
Proof.
  unfold pushes. destruct (op_outputs (op inst));
    rewrite ?elem_of_cons, ?elem_of_nil; intros H; intuition lia.
Qed.

Lemma depth_state_when_defcls h0 b so inst s s' :
  depth_state h0 s -> when b (defcls so inst) s = Ok (tt, s') ->
  depth_state h0 s'.
Proof.
  intros Hs [[_ [_ ->]%defcls_Ok]|[_ ->]]%when_Ok; [|done].
  by apply (depth_state_frame h0 s).
Qed.

Lemma depth_state_end_fpi h0 off s s' :
  depth_state h0 s -> end_fpi off s = Ok (tt, s') -> depth_state h0 s'.
Proof.
  intros Hs (fpi & rest & _ & ->)%end_fpi_Ok.
  by apply (depth_state_frame h0 s).
Qed.

Lemma depth_state_emit_inst h0 f inst s s' :
  depth_state h0 s -> emit_inst f inst s = Ok (tt, s') -> depth_state h0 s'.
Proof.
  intros Hs [[_ ->]|[Hop H]]%emit_inst_Ok;
    [by apply (depth_state_frame h0 s)|].
  assert (depth_state h0 (inst_begin s)) as Hb
    by by apply (depth_state_frame h0 s).
  clear Hs.
  apply emit_opcode_Ok in H
    as (s1 & s2 & s3 & s4 & s5 & s6 & s7 & H1 & H2 & Hret & Hlast
        & H3 & H4 & H5 & H6 & H7 & H8).
  apply (depth_state_when_defcls h0) in H1; [|done]. clear Hb.
  apply (depth_state_when_defcls h0) in H2; [|done]. clear H1.
  assert (depth_state h0 (op_emitted inst s2)) as Hop2.
  { destruct H2 as (new & Hh & Hinv).
    exists (EvOp (lastOff s2) inst (currentStackDepth s2) :: new).
    split; [simpl; by rewrite Hh|].
    apply depth_inv_other; [done..|]. simpl.
    pose proof (di_depth _ _ _ Hinv). split; [lia|done]. }
  clear H2.
  apply (for_each_inv (depth_state h0)) in H3;
    [|by intros; eapply depth_state_pop|done].
  clear Hop2.
  apply (for_each_inv (depth_state h0)) in H4; [| |done].
  2: { intros n ? ? Hn ? ?. eapply depth_state_push; [|done..].
       by eapply pushes_nonneg. }
  clear H3.
  apply (for_each_steps (lastOff (inst_begin s))) in H5;
    [|by intros; eapply emit_imm_steps].
  apply (depth_state_imm_steps h0) in H5; [|done]. clear H4.
  assert (depth_state h0 s6) as Hs6.
  { apply when_Ok in H6 as [[_ ->%fpush_Ok]|[_ ->]]; [|done].
    by apply (depth_state_frame h0 s5). }
  clear H5.
  assert (depth_state h0 s7) as Hs7.
  { apply when_Ok in H7 as [[_ H7]|[_ ->]]; [|done].
    by eapply depth_state_end_fpi. }
  clear Hs6.
  simpl in H8. apply emit_srcloc_Ok in H8.
  eapply depth_state_sink; [|done].
  assert (depth_state h0 (if op_TF (op inst) then set_currentStackDepth 0 s7 else s7))
    as Hs8.
  { destruct (op_TF (op inst)); [|done]. apply depth_state_set_depth; [done|lia]. }
  destruct (is_call_op (op inst)); [|done].
  by eapply depth_state_frame; [exact Hs8|..].
Qed.

End StackDepth.

(** ** Closing FPI regions *)

Section ClosingRegions.

Context {tbl : OpcodeTable} {cfg : Cfg}.

Lemma repeat_end_fpi_Ok n s s' :
  repeat_n n (s ← get; end_fpi (lastOff s)) s = Ok (tt, s') ->
  exists closed rest,
    fpiStack s = closed ++ rest /\ length closed = n /\
    s' = set_fpiStack rest
           (set_ret (set_fpiRegions
                       (fpiRegions (ret s) ++ closed_at (lastOff s) closed)
                       (ret s)) s).
Proof.
  revert s. induction n as [|n IH]; intros s H.
  - apply mret_Ok in H as [_ ->]. exists [], (fpiStack s). split_and!; [done..|].
    unfold closed_at. simpl. rewrite app_nil_r.
    unfold set_ret, set_fpiRegions, set_fpiStack. simpl.
    by rewrite EmitBcInfo_eta, EmitState_eta.
  - simpl in H. apply bind_Ok in H as ([] & s1 & H1 & H).
    apply bind_Ok in H1 as (s0 & s1' & Hg & H1). apply get_Ok in Hg as [-> ->].
    apply end_fpi_Ok in H1 as (fpi & rest & Hst & ->).
    apply IH in H as (closed & rest' & Hst' & Hlen & ->). simpl in *.
    exists (fpi :: closed), rest'. split_and!.
    + rewrite Hst, Hst'. done.
    + simpl. by rewrite Hlen.
    + unfold set_fpiStack, set_ret, set_fpiRegions. simpl.
      by rewrite <- app_assoc.
Qed.

End ClosingRegions.

Section StackDepthBlocks.

Context {tbl : OpcodeTable} {cfg : Cfg}.

Lemma depth_state_block_end h0 f b blk next s s' :
  depth_state h0 s -> block_end f b blk next s s' -> depth_state h0 s'.
Proof.
  intros Hs (info & Hinfo & H). simpl in H.
  assert (depth_state h0 (set_block b (set_past (bcPos (ue s)) info) s)) as Hs9.
  { apply (depth_state_frame h0 s); [done..|].
    by apply (expected_view_set_block_same _ info). }
  destruct (fallthrough blk) as [ft|]; [|by subst].
  destruct H as (s10 & H10 & H).
  apply (depth_state_expect h0) in H10; [|done].
  destruct (bool_decide (next <> Some ft)); [|by subst].
  destruct H as (s11 & info11 & n & H11 & Hinfo11 & _ & ->).
  apply (depth_state_emit_inst h0) in H11; [|done].
  apply (depth_state_frame h0 s11); [done..|].
  by apply (expected_view_set_block_same _ info11).
Qed.

Lemma depth_state_emit_block h0 f b next s s' :
  depth_state h0 s -> emit_block f b next s = Ok (tt, s') -> depth_state h0 s'.
Proof.
  intros (new & Hh & Hinv)
    (blk & info & u & s6 & s8 & Hblk & Hinfo & Hu & Hle & H6 & H8 & Hend)%emit_block_Ok.
  eapply depth_state_block_end; [|done].
  eapply (for_each_inv (depth_state h0)); [| |exact H8].
  { intros inst sa sb _. apply depth_state_emit_inst. }
  apply repeat_end_fpi_Ok in H6 as (closed & rest & Hst & Hlen & ->).
  assert (0 <= default 0 (expectedStackDepth info) < 2 ^ 31) as Hrange.
  { destruct (expectedStackDepth info) as [v|] eqn:E; simpl; [|lia].
    eapply (di_range _ _ _ Hinv); [by apply expected_view_lookup|done]. }
  simpl in Hst.
  assert (Z.of_nat (length rest) = default 0 (expectedFPIDepth info)) as Hf6.
  { unfold fpiStack_size in *.
    apply (f_equal length) in Hst. rewrite length_app in Hst. lia. }
  exists (EvBlock b (bcPos (ue s)) (default 0 (expectedStackDepth info))
                  (default 0 (expectedFPIDepth info)) :: new).
  split.
  { simpl. unfold fpiStack_size. simpl.
    rewrite (to_int32_small (default 0 (expectedStackDepth info))) by lia.
    rewrite Hf6. rewrite Hh. done. }
  simpl. rewrite (to_int32_small (default 0 (expectedStackDepth info))) by lia.
  change (expected_view _) with
    (expected_view (set_block b (block_entry_info (bcPos (ue s)) info) s)).
  rewrite expected_view_set_block. simpl.
  eapply depth_inv_block; [exact Hinv|by apply expected_view_lookup].
Qed.

Lemma depth_state_emit_blocks h0 f order s s' :
  depth_state h0 s -> emit_blocks f order s = Ok (tt, s') -> depth_state h0 s'.
Proof.
  revert s. induction order as [|b order IH]; intros s Hs H.
  - by apply mret_Ok in H as [_ ->].
  - simpl in H. apply bind_Ok in H as ([] & s1 & H1 & H).
    eapply IH; [|done]. by eapply depth_state_emit_block.
Qed.

Lemma expected_view_enter f order s b esd efd :
  expected_view (enter_func f order s) !! b = Some (esd, efd) ->
  esd = None /\ efd = None.
Proof.
  unfold expected_view. simpl. rewrite list_lookup_fmap.
  destruct (replicate (length (blocks f)) default_BlockInfo !! b) as [i|] eqn:E;
    [|done].
  apply lookup_replicate in E as [-> _]. by intros [= <- <-].
Qed.

Lemma depth_state_enter h0 f order s :
  history s = h0 -> depth_state h0 (enter_func f order s).
Proof.
  intros Hh. exists []. split; [done|]. constructor.
  - simpl. lia.
  - constructor.
  - intros b esd efd v [-> _]%expected_view_enter. done.
  - intros ev b d' f' Hin. by apply elem_of_nil in Hin.
  - intros b esd efd [-> ->]%expected_view_enter Hne. by destruct Hne.
  - intros l1 l2 b off d' f' Heq. by destruct l2.
Qed.

Lemma emit_bytecode_Ok f s r f' s' :
  emit_bytecode f s = Ok ((r, f'), s') ->
  exists order s1,
    order_blocks f = Ok (order, f') /\
    emit_blocks f' order (enter_func f' order s) = Ok (tt, s1) /\
    repeat_n (length (fpiStack s1)) (s ← get; end_fpi (lastOff s)) s1
      = Ok (tt, s') /\
    r = ret s'.
Proof.
  unfold emit_bytecode. intros H.
  apply bind_Ok in H as ([order f0] & s0 & H1 & H). apply lift_Ok in H1 as [Ho ->].
  apply bind_Ok in H as ([] & s0 & H1 & H). apply modify_Ok in H1 as ->.
  apply bind_Ok in H as ([] & s1 & H1 & H).
  apply bind_Ok in H as (sg & s1' & Hg & H). apply get_Ok in Hg as [-> ->].
  apply bind_Ok in H as ([] & s2 & H2 & H).
  apply bind_Ok in H as (sg & s2' & Hg & H). apply get_Ok in Hg as [-> ->].
  apply mret_Ok in H as [[= -> ->] ->]. eauto 10.
Qed.

Lemma emit_bytecode_depth f s r s' :
  emit_bytecode f s = Ok (r, s') -> depth_state (history s) s'.
Proof.
  destruct r as [r f'].
  intros (order & s1 & _ & H1 & H2 & _)%emit_bytecode_Ok.
  apply (depth_state_emit_blocks (history s)) in H1;
    [|by apply depth_state_enter].
  apply repeat_end_fpi_Ok in H2 as (closed & rest & _ & _ & ->).
  by apply (depth_state_frame _ s1).
Qed.

End StackDepthBlocks.

Section DepthTheorems.

Context {tbl : OpcodeTable} {cfg : Cfg}.

(** C7: in a run of [emit_bytecode] the tracked depth is non-negative at
    every block start, at every opcode written and after every [pop]; an
    opcode of the return family is written at depth one only; a [pop] below
    zero and a return at another depth end the run with a failed
    assertion. *)
Theorem stack_depth_safety f s r s' :
  emit_bytecode f s = Ok (r, s') ->
  (exists new, history s' = new ++ history s /\ Forall event_depth_ok new) /\
  0 <= currentStackDepth s' /\
  (forall n st st', pop n st = Ok (tt, st') -> 0 <= currentStackDepth st') /\
  (forall n st, - 2 ^ 31 <= currentStackDepth st - n < 0 ->
     pop n st = Fatal AssertionFailed) /\
  (forall st, currentStackDepth st <> 1 -> ret_assert st = Fatal AssertionFailed).
Proof.
  intros (new & Hh & Hinv)%emit_bytecode_depth. split_and!.
  - exists new. split; [done|]. apply (di_events _ _ _ Hinv).
  - pose proof (di_depth _ _ _ Hinv). lia.
  - intros n st st' [-> ?]%pop_Ok. simpl. lia.
  - intros n st Hn. unfold pop, mbind, M_bind, get. simpl.
    unfold fits_int32.
    destruct (Z.leb_spec (- 2 ^ 31) (currentStackDepth st - n)); [|lia].
    destruct (Z.ltb_spec (currentStackDepth st - n) (2 ^ 31)); [|lia].
    simpl. destruct (Z.leb_spec 0 (currentStackDepth st - n)); [lia|done].
  - intros st Hne. unfold ret_assert, mbind, M_bind, get. simpl.
    by rewrite bool_decide_eq_false_2.
Qed.

(** C3: the depths at all [set_expected_depth] calls for a block and the
    depths with which the block is started are the same, for the stack and
    for the FPI stack; a block whose expected depths have not been set when
    it is started is started with both depths 0. *)
Theorem expected_depth_agreement f s r s' :
  emit_bytecode f s = Ok (r, s') ->
  exists new, history s' = new ++ history s /\
    (forall ev1 ev2 b d1 f1 d2 f2,
       ev1 ∈ new -> ev2 ∈ new ->
       expected_of ev1 = Some (b, d1, f1) -> expected_of ev2 = Some (b, d2, f2) ->
       d1 = d2 /\ f1 = f2) /\
    (forall l1 l2 b off d fd,
       new = l2 ++ EvBlock b off d fd :: l1 ->
       (forall ev d' f', ev ∈ l1 -> expected_of ev <> Some (b, d', f')) ->
       d = 0 /\ fd = 0).
Proof.
  intros (new & Hh & Hinv)%emit_bytecode_depth.
  exists new. split_and!; [done| |].
  - intros ev1 ev2 b d1 f1 d2 f2 H1 H2 E1 E2.
    pose proof (di_recorded _ _ _ Hinv _ _ _ _ H1 E1) as R1.
    pose proof (di_recorded _ _ _ Hinv _ _ _ _ H2 E2) as R2.
    rewrite R1 in R2. by injection R2.
  - apply (di_unset _ _ _ Hinv).
Qed.

End DepthTheorems.

Lemma stack_depth_safety_witness :
  let s' := Demo.final (emit_bytecode Demo.f_branch Demo.state0) in
  (exists new, history s' = new ++ history Demo.state0 /\
               Forall event_depth_ok new) /\
  0 <= currentStackDepth s' /\
  (forall n st st', pop n st = Ok (tt, st') -> 0 <= currentStackDepth st') /\
  (forall n st, - 2 ^ 31 <= currentStackDepth st - n < 0 ->
     pop n st = Fatal AssertionFailed) /\
  (forall st, currentStackDepth st <> 1 -> ret_assert st = Fatal AssertionFailed).
Proof.
  apply (stack_depth_safety Demo.f_branch Demo.state0
           (Demo.result_of Demo.f_branch)).
  vm_compute. reflexivity.
Defined.

Lemma expected_depth_agreement_witness :
  let s' := Demo.final (emit_bytecode Demo.f_branch Demo.state0) in
  exists new, history s' = new ++ history Demo.state0 /\
    (forall ev1 ev2 b d1 f1 d2 f2,
       ev1 ∈ new -> ev2 ∈ new ->
       expected_of ev1 = Some (b, d1, f1) -> expected_of ev2 = Some (b, d2, f2) ->
       d1 = d2 /\ f1 = f2) /\
    (forall l1 l2 b off d fd,
       new = l2 ++ EvBlock b off d fd :: l1 ->
       (forall ev d' f', ev ∈ l1 -> expected_of ev <> Some (b, d', f')) ->
       d = 0 /\ fd = 0).
Proof.
  apply (expected_depth_agreement Demo.f_branch Demo.state0
           (Demo.result_of Demo.f_branch)).
  vm_compute. reflexivity.
Defined.

(** ** Class definition offsets *)

Section DefCls.

Context {tbl : OpcodeTable} {cfg : Cfg}.

Lemma quiet_refl s : quiet s s.
Proof. split_and!; [done|lia|]. exists []. by split. Qed.

Lemma quiet_trans s1 s2 s3 : quiet s1 s2 -> quiet s2 s3 -> quiet s1 s3.
Proof.
  intros (Hd1 & Hb1 & evs1 & Hh1 & He1) (Hd2 & Hb2 & evs2 & Hh2 & He2).
  split_and!; [congruence|lia|].
  exists (evs2 ++ evs1). split; [by rewrite Hh2, Hh1, app_assoc|].
  by apply Forall_app.
Qed.

(** A change that keeps [defClsMap], the history and the length of the
    stream. *)
Lemma quiet_same s s' :
  defClsMap s' = defClsMap s -> history s' = history s ->
  bcPos (ue s') = bcPos (ue s) -> quiet s s'.
Proof. intros H1 H2 H3. split_and!; [done|lia|]. exists []. by split. Qed.

Lemma bcPos_emitBytes bs u : bcPos (emitBytes bs u) = bcPos u + Z.of_nat (length bs).
Proof. unfold bcPos. simpl. rewrite length_app. lia. Qed.

Lemma quiet_sink bs s s' : sink_appends bs s s' -> quiet s s'.
Proof.
  intros (u & -> & Hu). split_and!; [done| |exists []; by split].
  unfold bcPos. simpl. rewrite Hu, length_app. lia.
Qed.

Lemma quiet_expect id s s' : set_expected_depth id s = Ok (tt, s') -> quiet s s'.
Proof.
  intros (info & _ & _ & _ & ->)%set_expected_depth_Ok.
  split_and!; [done|simpl; lia|].
  eexists [_]. split; [done|].
  repeat first [apply List.Forall_nil | apply List.Forall_cons; [simpl; tauto|]].
Qed.

Lemma quiet_branch so id s s' : emit_branch so id s = Ok (tt, s') -> quiet s s'.
Proof.
  intros (info & _ & _ & _ & [[_ ->]|[_ ->]])%emit_branch_Ok.
  all: split_and!; [done|unfold bcPos; simpl; rewrite ?length_app; simpl; lia|].
  all: eexists [_; _]; split; [done|].
  all: repeat first [apply List.Forall_nil | apply List.Forall_cons; [simpl; tauto|]].
Qed.

Lemma quiet_imm_steps so s s' : imm_steps so s s' -> quiet s s'.
Proof.
  induction 1 as [|s1 s2 s3 Hstep _ IH]; [apply quiet_refl|].
  eapply quiet_trans; [|done]. destruct Hstep.
  - by eapply quiet_sink.
  - by eapply quiet_branch.
Qed.

Lemma quiet_pop n s s' : pop n s = Ok (tt, s') -> quiet s s'.
Proof. intros [-> _]%pop_Ok. by apply quiet_same. Qed.

Lemma quiet_push n s s' : push n s = Ok (tt, s') -> quiet s s'.
Proof. intros [-> _]%push_Ok. by apply quiet_same. Qed.

Lemma quiet_end_fpi off s s' : end_fpi off s = Ok (tt, s') -> quiet s s'.
Proof. intros (? & ? & _ & ->)%end_fpi_Ok. by apply quiet_same. Qed.

Lemma quiet_for_each {A : Type} (l : list A) (body : A -> M unit) s s' :
  (forall a s s', body a s = Ok (tt, s') -> quiet s s') ->
  for_each l body s = Ok (tt, s') -> quiet s s'.
Proof.
  intros Hbody. apply (for_each_rel quiet).
  - apply quiet_refl.
  - apply quiet_trans.
  - intros. by eapply Hbody.
Qed.

Lemma defcls_ids_quiet evs h :
  Forall (fun ev => ~ is_op_event ev) evs ->
  defcls_ids (evs ++ h) = defcls_ids h.
Proof.
  intros Hevs. unfold defcls_ids. rewrite omap_app.
  replace (omap defcls_id evs) with (@nil nat); [done|].
  induction Hevs as [|ev evs Hev _ IH]; [done|].
  destruct ev; simpl in *; tauto.
Qed.

Lemma defcls_ids_elem n h :
  n ∈ defcls_ids h ->
  exists off inst d, EvOp off inst d ∈ h /\ is_defcls (op inst) /\
    n = Z.to_nat (arg 1 inst).
Proof.
  unfold defcls_ids. intros (ev & Hin & Hid)%list_elem_of_omap.
  destruct ev as [| |off inst d|]; try done. simpl in Hid.
  destruct (bool_decide (op inst = OpDefCls)) eqn:E1;
    [|destruct (bool_decide (op inst = OpDefClsNop)) eqn:E2]; simpl in Hid;
    try done; injection Hid as <-; exists off, inst, d; split_and!; try done.
  - left. by apply bool_decide_eq_true in E1.
  - right. by apply bool_decide_eq_true in E2.
Qed.

Lemma defcls_inv_quiet n s s' : defcls_inv n s -> quiet s s' -> defcls_inv n s'.
Proof.
  intros (Hlen & Hinv & Hnd) (Hd & Hb & evs & Hh & Hevs).
  split_and!; [by rewrite Hd| |].
  - intros off inst d Hin Hdef.
    rewrite Hh in Hin. apply elem_of_app in Hin as [Hin|Hin].
    + rewrite Forall_forall in Hevs. by destruct (Hevs _ Hin).
    + destruct (Hinv _ _ _ Hin Hdef) as [Hlt Hmap].
      split; [lia|]. intros Hle. rewrite Hd. apply Hmap.
      unfold offsets_valid in *. lia.
  - intros Hv. rewrite Hh, defcls_ids_quiet by done. apply Hnd.
    unfold offsets_valid in *. lia.
Qed.

(** The part of an instruction up to its opcode byte. *)
Lemma defcls_inv_head n inst s s1 s2 :
  defcls_inv n s -> lastOff s = bcPos (ue s) ->
  when (bool_decide (op inst = OpDefCls)) (defcls (lastOff s) inst) s
    = Ok (tt, s1) ->
  when (bool_decide (op inst = OpDefClsNop)) (defcls (lastOff s) inst) s1
    = Ok (tt, s2) ->
  defcls_inv n (op_emitted inst s2).
Proof.
  intros (Hlen & Hinv & Hnd) Hlast H1 H2.
  set (N := Z.to_nat (arg 1 inst)).
  assert (history s2 = history s /\ ue s2 = ue s /\ lastOff s2 = lastOff s /\
          length (defClsMap s2) = length (defClsMap s) /\
          (forall n, n <> N -> defClsMap s2 !! n = defClsMap s !! n) /\
          (is_defcls (op inst) ->
           defClsMap s !! N = Some kInvalidOffset /\
           defClsMap s2 !! N = Some (lastOff s)) /\
          (~ is_defcls (op inst) -> defClsMap s2 = defClsMap s))
    as (Hh & Hue & Hl & Hlen2 & Hother & Hdef & Hnodef).
  { apply when_Ok in H1 as [[E1 [Hk1 ->]%defcls_Ok]|[E1 ->]];
    apply when_Ok in H2 as [[E2 [Hk2 ->]%defcls_Ok]|[E2 ->]]; simpl in *;
      fold N in Hk1 || idtac; fold N in Hk2 || idtac.
    - apply bool_decide_eq_true in E1.
      split_and!; try done.
      + by rewrite !length_insert.
      + intros k Hk. by rewrite !list_lookup_insert_ne.
      + intros _. split; [done|].
        rewrite list_lookup_insert_eq; [done|].
        rewrite length_insert. by eapply lookup_lt_Some.
      + intros Hn. destruct Hn. by left.
    - apply bool_decide_eq_true in E1.
      split_and!; try done.
      + by rewrite length_insert.
      + intros k Hk. by rewrite list_lookup_insert_ne.
      + intros _. split; [done|].
        rewrite list_lookup_insert_eq; [done|by eapply lookup_lt_Some].
      + intros Hn. destruct Hn. by left.
    - apply bool_decide_eq_true in E2.
      split_and!; try done.
      + by rewrite length_insert.
      + intros k Hk. by rewrite list_lookup_insert_ne.
      + intros _. split; [done|].
        rewrite list_lookup_insert_eq; [done|by eapply lookup_lt_Some].
      + intros Hn. destruct Hn. by right.
    - split_and!; try done.
      apply bool_decide_eq_false in E1, E2. by intros [|]. }
  assert (bcPos (ue (op_emitted inst s2)) = bcPos (ue s) + 1) as Hpos.
  { unfold op_emitted, bcPos. simpl. rewrite Hue, length_app. simpl. lia. }
  assert (0 <= bcPos (ue s)) as Hpos0 by (unfold bcPos; lia).
  assert (forall off inst' d, offsets_valid (bcPos (ue s) + 1) ->
            EvOp off inst' d ∈ history s -> is_defcls (op inst') ->
            is_defcls (op inst) -> Z.to_nat (arg 1 inst') <> N) as Hfresh.
  { intros off inst' d Hv Hin Hdef' Hd HN.
    destruct (Hinv _ _ _ Hin Hdef') as [Hlt Hmap].
    unfold offsets_valid in *. specialize (Hmap ltac:(lia)).
    destruct (Hdef Hd) as [Hk _].
    rewrite HN, Hk in Hmap. injection Hmap as Hoff. lia. }
  split_and!; [by rewrite <- Hlen, <- Hlen2| |].
  - intros off inst' d Hin Hdef'. rewrite Hpos.
    change (defClsMap (op_emitted inst s2)) with (defClsMap s2).
    change (history (op_emitted inst s2))
      with (EvOp (lastOff s2) inst (currentStackDepth s2) :: history s2) in Hin.
    apply elem_of_cons in Hin as [[= -> -> ->]|Hin].
    + split; [lia|]. intros Hle. rewrite Hl. fold N. by apply Hdef.
    + rewrite Hh in Hin. destruct (Hinv _ _ _ Hin Hdef') as [Hlt Hmap].
      split; [lia|]. intros Hle.
      destruct (decide (is_defcls (op inst))) as [Hd|Hd].
      * rewrite Hother; [|by eapply Hfresh].
        apply Hmap. unfold offsets_valid in *. lia.
      * rewrite (Hnodef Hd). apply Hmap. unfold offsets_valid in *. lia.
  - rewrite Hpos. intros Hv.
    change (history (op_emitted inst s2))
      with (EvOp (lastOff s2) inst (currentStackDepth s2) :: history s2).
    rewrite Hh.
    assert (NoDup (defcls_ids (history s))) as Hnd'.
    { apply Hnd. unfold offsets_valid in *. lia. }
    unfold defcls_ids in *. cbn [omap list_omap defcls_id].
    destruct (bool_decide (op inst = OpDefCls) || bool_decide (op inst = OpDefClsNop))
      eqn:E; [|done].
    assert (is_defcls (op inst)) as Hd.
    { apply orb_true_iff in E as [E|E]; apply bool_decide_eq_true in E;
        [by left|by right]. }
    apply NoDup_cons. split; [|done].
    intros (off & inst' & d & Hin & Hdef' & HN)%defcls_ids_elem.
    by eapply Hfresh.
Qed.

Lemma defcls_inv_emit_inst n f inst s s' :
  defcls_inv n s -> emit_inst f inst s = Ok (tt, s') -> defcls_inv n s'.
Proof.
  intros Hs [[_ ->]|[Hop H]]%emit_inst_Ok.
  { eapply defcls_inv_quiet; [done|]. by apply quiet_same. }
  assert (defcls_inv n (inst_begin s)) as Hb.
  { eapply defcls_inv_quiet; [done|]. by apply quiet_same. }
  apply emit_opcode_Ok in H
    as (s1 & s2 & s3 & s4 & s5 & s6 & s7 & H1 & H2 & Hret & Hlast
        & H3 & H4 & H5 & H6 & H7 & H8).
  pose proof (defcls_inv_head _ _ _ _ _ Hb eq_refl H1 H2) as Hinv.
  eapply defcls_inv_quiet; [exact Hinv|].
  eapply quiet_trans; [by eapply (quiet_for_each _ _ _ _ quiet_pop), H3|].
  eapply quiet_trans; [by eapply (quiet_for_each _ _ _ _ quiet_push), H4|].
  eapply quiet_trans.
  { eapply quiet_imm_steps, for_each_steps; [|exact H5].
    intros. by eapply emit_imm_steps. }
  eapply (quiet_trans _ s6).
  { apply when_Ok in H6 as [[_ ->%fpush_Ok]|[_ ->]]; [by apply quiet_same|].
    apply quiet_refl. }
  eapply (quiet_trans _ s7).
  { apply when_Ok in H7 as [[_ H7]|[_ ->]]; [by eapply quiet_end_fpi|].
    apply quiet_refl. }
  simpl in H8. apply emit_srcloc_Ok, quiet_sink in H8.
  eapply quiet_trans; [|exact H8].
  destruct (op_TF (op inst)), (is_call_op (op inst)); by apply quiet_same.
Qed.

Lemma overwrite_length pos new (bc : list Z) :
  (pos + length new <= length bc)%nat ->
  length (overwrite pos new bc) = length bc.
Proof.
  intros H. unfold overwrite.
  rewrite !length_app, length_take, length_drop. lia.
Qed.

Lemma emitInt32_at_length v pos u u' :
  emitInt32_at v pos u = Ok u' -> bcPos u' = bcPos u.
Proof.
  unfold emitInt32_at.
  destruct ((0 <=? pos) && (pos + 4 <=? bcPos u)) eqn:E; [|done].
  apply andb_true_iff in E as [H0%Z.leb_le H4%Z.leb_le].
  intros [= <-]. unfold bcPos in *. cbn [m_bc].
  rewrite overwrite_length; [done|]. cbn [length int32_bytes]. lia.
Qed.

Lemma apply_fixups_length off fj u u' :
  apply_fixups off fj u = Ok u' -> bcPos u' = bcPos u.
Proof.
  revert u. induction fj as [|fx fj IH]; intros u H.
  - by injection H as <-.
  - simpl in H. apply res_bind_Ok in H as (u1 & H1 & H).
    apply IH in H. apply emitInt32_at_length in H1. lia.
Qed.

Lemma defcls_inv_block_end n f b blk next s s' :
  defcls_inv n s -> block_end f b blk next s s' -> defcls_inv n s'.
Proof.
  intros Hs (info & Hinfo & H). cbv zeta in H.
  assert (defcls_inv n (set_block b (set_past (bcPos (ue s)) info) s)) as Hs9.
  { eapply defcls_inv_quiet; [done|]. by apply quiet_same. }
  destruct (fallthrough blk) as [ft|]; [|by rewrite H].
  destruct H as (s10 & H10 & H).
  assert (defcls_inv n s10) as Hs10.
  { eapply defcls_inv_quiet; [exact Hs9|]. by eapply quiet_expect. }
  destruct (bool_decide (next <> Some ft)); [|by rewrite H].
  destruct H as (s11 & info11 & k & H11 & Hinfo11 & _ & ->).
  apply (defcls_inv_emit_inst n) in H11; [|done].
  eapply defcls_inv_quiet; [exact H11|]. by apply quiet_same.
Qed.

Lemma defcls_inv_emit_block n f b next s s' :
  defcls_inv n s -> emit_block f b next s = Ok (tt, s') -> defcls_inv n s'.
Proof.
  intros Hs
    (blk & info & u & s6 & s8 & Hblk & Hinfo & Hu & Hle & H6 & H8 & Hend)%emit_block_Ok.
  eapply defcls_inv_block_end; [|done].
  eapply (for_each_inv (defcls_inv n)); [| |exact H8].
  { intros inst sa sb _. apply defcls_inv_emit_inst. }
  apply repeat_end_fpi_Ok in H6 as (closed & rest & Hst & Hlen & ->).
  eapply defcls_inv_quiet; [done|].
  apply apply_fixups_length in Hu.
  split_and!; [done|simpl; lia|].
  eexists [_]. split; [done|].
  repeat first [apply List.Forall_nil | apply List.Forall_cons; [simpl; tauto|]].
Qed.

Lemma defcls_inv_emit_blocks n f order s s' :
  defcls_inv n s -> emit_blocks f order s = Ok (tt, s') -> defcls_inv n s'.
Proof.
  revert s. induction order as [|b order IH]; intros s Hs H.
  - by apply mret_Ok in H as [_ ->].
  - simpl in H. apply bind_Ok in H as ([] & s1 & H1 & H).
    eapply IH; [|done]. by eapply defcls_inv_emit_block.
Qed.

Lemma defcls_inv_emit_bytecode n f s r s' :
  defcls_inv n s -> emit_bytecode f s = Ok (r, s') -> defcls_inv n s'.
Proof.
  destruct r as [r f'].
  intros Hs (order & s1 & _ & H1 & H2 & _)%emit_bytecode_Ok.
  apply (defcls_inv_emit_blocks n) in H1.
  - apply repeat_end_fpi_Ok in H2 as (closed & rest & _ & _ & ->).
    eapply defcls_inv_quiet; [done|]. by apply quiet_same.
  - eapply defcls_inv_quiet; [done|]. by apply quiet_same.
Qed.

Lemma unit_inv_emit_body n k f us us' :
  unit_inv n k us -> emit_body f us = Ok us' -> unit_inv n k us'.
Proof.
  intros [Hs Hk] H. unfold emit_body in H.
  destruct (emit_bytecode f (us_emit us)) as [[[info f'] s]|] eqn:E; [|done].
  apply res_bind_Ok in H as (fe & _ & [= <-]).
  split; [|done]. simpl. by eapply defcls_inv_emit_bytecode.
Qed.

Lemma unit_inv_emit_class n k cls us us' :
  unit_inv n k us -> emit_class cls us = Ok us' -> unit_inv n (S k) us'.
Proof.
  intros [Hs Hk] H. unfold emit_class in H.
  eapply (fold_res_inv (unit_inv n (S k))); [| |exact H].
  - intros m a a' Ha Hm. cbv beta in Hm.
    destruct (negb (needs86cinit cls) && String.eqb (func_name m) s_86cinit).
    + by injection Hm as <-.
    + by eapply unit_inv_emit_body.
  - split; [done|]. simpl. rewrite length_app. simpl. lia.
Qed.

Lemma set_preclass_offsets_lookup m pces n o :
  length pces = length m -> m !! n = Some o -> o <> kInvalidOffset ->
  set_preclass_offsets m pces !! n = Some o.
Proof.
  revert pces n. induction m as [|o' m IH]; intros [|p pces] n Hlen Hn Ho;
    try done.
  destruct n as [|n]; simpl in *.
  - injection Hn as ->. by rewrite bool_decide_eq_true_2.
  - apply IH; [lia|done..].
Qed.

(** Defining a class that already has a valid offset stops the emitter. *)
Lemma defcls_twice so inst s o :
  defClsMap s !! Z.to_nat (arg 1 inst) = Some o -> o <> kInvalidOffset ->
  defcls so inst s = Fatal AssertionFailed.
Proof.
  intros Hk Ho. unfold defcls, at_index, assert, get, fail.
  unfold mbind, M_bind. rewrite Hk. unfold mret, M_ret.
  by rewrite bool_decide_eq_false_2.
Qed.

Lemma emit_unit_inv u us :
  emit_unit u = Ok us ->
  exists us0,
    unit_inv (length (classes u)) (length (classes u)) us0 /\
    us = mkUnitState (us_emit us0)
           (set_preclass_offsets (defClsMap (us_emit us0)) (preClassOffsets us0))
           (funcEmitters us0).
Proof.
  unfold emit_unit. intros (us1 & H1 & H)%res_bind_Ok.
  apply res_bind_Ok in H as (us2 & H2 & H).
  apply res_bind_Ok in H as (us3 & H3 & [= <-]).
  exists us3. split; [|done].
  set (n := length (classes u)).
  assert (unit_inv n 0 us1) as Hu1.
  { eapply unit_inv_emit_body; [|exact H1]. split; [|done].
    split_and!; simpl.
    - by rewrite length_replicate.
    - intros ??? Hin. by apply elem_of_nil in Hin.
    - intros _. apply NoDup_nil_2. }
  assert (unit_inv n n us2) as Hu2.
  { apply (fold_res_prefix_inv (fun pre => unit_inv n (length pre))
             emit_class (classes u) us1 us2); [|done..].
    intros pre cls a a' Ha Hc. rewrite length_app. simpl.
    replace (length pre + 1)%nat with (S (length pre)) by lia.
    by eapply unit_inv_emit_class. }
  eapply (fold_res_inv (unit_inv n n)); [|exact Hu2|exact H3].
  intros f a a' Ha. apply unit_inv_emit_body. done.
Qed.


End DefCls.


(** ** FPI regions *)

Section FpiRegions.

Context {tbl : OpcodeTable} {cfg : Cfg}.

Lemma calm_of_quiet s s' :
  quiet s s' -> fpiStack s' = fpiStack s ->
  fpiRegions (ret s') = fpiRegions (ret s) -> lastOff s' = lastOff s ->
  calm s s'.
Proof. intros (_ & Hb & Hh) ???. by split_and!. Qed.

Lemma calm_refl s : calm s s.
Proof. split_and!; [done..|lia|]. exists []. by split. Qed.

Lemma calm_trans s1 s2 s3 : calm s1 s2 -> calm s2 s3 -> calm s1 s3.
Proof.
  intros (Ha1 & Hb1 & Hc1 & Hd1 & evs1 & Hh1 & He1)
         (Ha2 & Hb2 & Hc2 & Hd2 & evs2 & Hh2 & He2).
  split_and!; [congruence..|lia|].
  exists (evs2 ++ evs1). split; [by rewrite Hh2, Hh1, app_assoc|].
  by apply Forall_app.
Qed.

(** A change to other fields only. *)
Lemma calm_same s s' :
  fpiStack s' = fpiStack s -> fpiRegions (ret s') = fpiRegions (ret s) ->
  lastOff s' = lastOff s -> bcPos (ue s') = bcPos (ue s) ->
  history s' = history s -> calm s s'.
Proof. intros ?? ? Hb ?. split_and!; [done..|lia|]. exists []. by split. Qed.

Lemma calm_sink bs s s' : sink_appends bs s s' -> calm s s'.
Proof.
  intros H. apply calm_of_quiet; [by eapply quiet_sink|..];
    by destruct H as (u & -> & _).
Qed.

Lemma calm_expect id s s' : set_expected_depth id s = Ok (tt, s') -> calm s s'.
Proof.
  intros H. apply calm_of_quiet; [by eapply quiet_expect|..];
    by apply set_expected_depth_Ok in H as (info & _ & _ & _ & ->).
Qed.

Lemma calm_branch so id s s' : emit_branch so id s = Ok (tt, s') -> calm s s'.
Proof.
  intros H. apply calm_of_quiet; [by eapply quiet_branch|..];
    by apply emit_branch_Ok in H as (info & _ & _ & _ & [[_ ->]|[_ ->]]).
Qed.

Lemma calm_imm_steps so s s' : imm_steps so s s' -> calm s s'.
Proof.
  induction 1 as [|s1 s2 s3 Hstep _ IH]; [apply calm_refl|].
  eapply calm_trans; [|done]. destruct Hstep.
  - by eapply calm_sink.
  - by eapply calm_branch.
Qed.

Lemma calm_pop n s s' : pop n s = Ok (tt, s') -> calm s s'.
Proof. intros [-> _]%pop_Ok. by apply calm_same. Qed.

Lemma calm_push n s s' : push n s = Ok (tt, s') -> calm s s'.
Proof. intros [-> _]%push_Ok. by apply calm_same. Qed.

Lemma calm_for_each {A : Type} (l : list A) (body : A -> M unit) s s' :
  (forall a s s', body a s = Ok (tt, s') -> calm s s') ->
  for_each l body s = Ok (tt, s') -> calm s s'.
Proof.
  intros Hbody. apply (for_each_rel calm).
  - apply calm_refl.
  - apply calm_trans.
  - intros. by eapply Hbody.
Qed.

Lemma calm_defcls b so inst s s' :
  when b (defcls so inst) s = Ok (tt, s') -> calm s s'.
Proof.
  intros [[_ [_ ->]%defcls_Ok]|[_ ->]]%when_Ok; [by apply calm_same|].
  apply calm_refl.
Qed.

Lemma opens_calm s s' : calm s s' -> opens s' = opens s.
Proof. intros (Ha & Hb & _). unfold opens. by rewrite Ha, Hb. Qed.

Lemma cold_calm s s' : cold s -> calm s s' -> cold s'.
Proof. intros Hc (Ha & _ & Hl & _). unfold cold. by rewrite Ha, Hl. Qed.

Lemma fpi_inv_still s s' :
  fpi_inv s -> fpiStack s' = fpiStack s ->
  fpiRegions (ret s') = fpiRegions (ret s) -> lastOff s' = lastOff s ->
  bcPos (ue s) <= bcPos (ue s') -> fpi_inv s'.
Proof.
  intros [H1 H2 H3 H4 H5 H6] Ha Hb Hl Hpos.
  constructor; rewrite ?Ha, ?Hb, ?Hl; try done; [lia|].
  eapply Forall_impl; [exact H3|]. simpl. intros e ?. lia.
Qed.

Lemma fpi_inv_calm s s' : fpi_inv s -> calm s s' -> fpi_inv s'.
Proof. intros Hs (Ha & Hb & Hl & Hpos & _). by eapply fpi_inv_still. Qed.

Lemma fpi_hist_calm h0 s s' : fpi_hist h0 s -> calm s s' -> fpi_hist h0 s'.
Proof.
  intros (new & Hh & Hin & Hout) Hc.
  pose proof (opens_calm _ _ Hc) as Ho.
  destruct Hc as (_ & _ & _ & _ & evs & Hh' & Hevs).
  exists (evs ++ new). split; [by rewrite Hh', Hh, app_assoc|].
  rewrite Ho. split.
  - intros off inst d [Hev|Hev]%elem_of_app Hp; [|by eapply Hin].
    rewrite Forall_forall in Hevs. by destruct (Hevs _ Hev).
  - intros off (inst & d & Hev & Hp)%Hout.
    exists inst, d. split; [|done]. apply elem_of_app. by right.
Qed.

(** The start of an instruction. *)
Lemma fpi_inv_begin s : fpi_inv s -> fpi_inv (inst_begin s) /\ cold (inst_begin s).
Proof.
  intros [H1 H2 H3 H4 H5 H6]. split; [constructor|]; simpl; try done.
  all: first [ eapply Forall_impl; [exact H3|]; simpl; intros e ?; lia
             | eapply Forall_impl; [exact H4|]; simpl; intros e ?; lia ].
Qed.

Lemma fpi_hist_ext h0 s s' evs :
  fpi_hist h0 s -> history s' = evs ++ history s ->
  (forall off inst d, EvOp off inst d ∈ evs -> isFPush (op inst) = true ->
     off ∈ opens s') ->
  (forall x, x ∈ opens s -> x ∈ opens s') ->
  (forall x, x ∈ opens s' ->
     x ∈ opens s \/
     exists inst d, EvOp x inst d ∈ evs /\ isFPush (op inst) = true) ->
  fpi_hist h0 s'.
Proof.
  intros (new & Hh & Hin & Hout) Hh' Hevs Hkeep Hback.
  exists (evs ++ new). split; [by rewrite Hh', Hh, app_assoc|]. split.
  - intros off inst d [Hev|Hev]%elem_of_app Hp; [by eapply Hevs|].
    apply Hkeep. by eapply Hin.
  - intros off [Hold|(inst & d & Hev & Hp)]%Hback.
    + apply Hout in Hold as (inst & d & Hev & Hp).
      exists inst, d. split; [|done]. apply elem_of_app. by right.
    + exists inst, d. split; [|done]. apply elem_of_app. by left.
Qed.

Lemma fpi_hist_same h0 s s' :
  fpi_hist h0 s -> history s' = history s -> opens s' = opens s ->
  fpi_hist h0 s'.
Proof.
  intros Hs Hh Ho. apply (fpi_hist_ext h0 s s' []); try done.
  - intros ??? Hin. by apply elem_of_nil in Hin.
  - intros x. by rewrite Ho.
  - intros x. rewrite Ho. by left.
Qed.

(** Closing the top of the FPI stack at [lastOff]. *)
Lemma fpi_close_one s s' e rest :
  fpi_inv s -> cold s -> fpiStack s = e :: rest -> fpiStack s' = rest ->
  fpiRegions (ret s')
    = fpiRegions (ret s) ++ [mkFPI (fpushOff e) (lastOff s) (fpDelta e)] ->
  lastOff s' = lastOff s -> bcPos (ue s') = bcPos (ue s) ->
  fpi_inv s' /\ cold s'.
Proof.
  intros [H1 H2 H3 H4 H5 H6] Hc Hst Hst' Hregs Hl Hpos.
  unfold cold in *. rewrite Hst in *.
  apply StronglySorted_inv in H2 as [Hsorted Hbelow].
  apply Forall_cons in H3 as [He Hopen].
  apply Forall_cons in Hc as [Hce Hcold].
  split; [constructor|]; rewrite ?Hst', ?Hregs, ?Hl, ?Hpos; try done.
  - apply Forall_app. split; [done|].
    apply List.Forall_cons; [simpl; lia|apply List.Forall_nil].
  - intros i j r1 r2 Hij Hi Hj.
    destruct (decide (j < length (fpiRegions (ret s)))%nat) as [Hlt|Hge].
    + rewrite lookup_app_l in Hi, Hj by lia. exact (H5 i j r1 r2 Hij Hi Hj).
    + rewrite lookup_app_r in Hj by lia.
      destruct (j - length (fpiRegions (ret s)))%nat as [|k] eqn:Hk;
        [|by destruct k].
      injection Hj as <-.
      rewrite lookup_app_l in Hi by lia.
      assert (r1 ∈ fpiRegions (ret s)) as Hr1 by (by eapply list_elem_of_lookup_2).
      rewrite Forall_forall in H4. specialize (H4 _ Hr1).
      assert (e ∈ e :: rest) as Htop by (apply elem_of_cons; by left).
      destruct (H6 r1 e Hr1 Htop) as [Hd|Hn]; [by left|].
      right. simpl. lia.
  - intros r e' [Hr|Hr]%elem_of_app He'.
    + apply H6; [done|]. apply elem_of_cons. by right.
    + apply list_elem_of_singleton in Hr as ->. right. simpl.
      rewrite Forall_forall in Hbelow. by apply Hbelow.
Qed.

Lemma fpi_hist_close_one h0 s s' e rest off :
  fpi_hist h0 s -> fpiStack s = e :: rest -> fpiStack s' = rest ->
  fpiRegions (ret s')
    = fpiRegions (ret s) ++ [mkFPI (fpushOff e) off (fpDelta e)] ->
  history s' = history s -> fpi_hist h0 s'.
Proof.
  intros Hs Hst Hst' Hregs Hh.
  assert (forall x, x ∈ opens s' <-> x ∈ opens s) as Ho.
  { intros x. unfold opens. rewrite Hst, Hst', Hregs, !fmap_app, !fmap_cons.
    cbn [fpushOff]. rewrite fmap_nil.
    repeat first [rewrite elem_of_app | rewrite elem_of_cons
                 | rewrite elem_of_nil].
    tauto. }
  apply (fpi_hist_ext h0 s s' []); try done.
  - intros ??? Hin. by apply elem_of_nil in Hin.
  - intros x. by rewrite Ho.
  - intros x. rewrite Ho. by left.
Qed.

(** Pushing an entry for the instruction that starts at [lastOff]. *)
Lemma fpi_fpush s s' x d :
  fpi_inv s -> cold s -> lastOff s < bcPos (ue s) ->
  fpiStack s' = mkFPI (lastOff s) x d :: fpiStack s ->
  fpiRegions (ret s') = fpiRegions (ret s) ->
  lastOff s' = lastOff s -> bcPos (ue s') = bcPos (ue s) ->
  fpi_inv s'.
Proof.
  intros [H1 H2 H3 H4 H5 H6] Hc Hlt Hst Hregs Hl Hpos.
  constructor; rewrite ?Hst, ?Hregs, ?Hl, ?Hpos; try done.
  - apply SSorted_cons; [done|]. exact Hc.
  - apply List.Forall_cons; [simpl; lia|done].
  - intros r e Hr [->|He]%elem_of_cons; [|by apply H6].
    left. simpl. rewrite Forall_forall in H4. specialize (H4 _ Hr). lia.
Qed.

Lemma calm_tail f so inst s7 s' :
  emit_srcloc f so inst
    (let s8 := if op_TF (op inst) then set_currentStackDepth 0 s7 else s7 in
     if is_call_op (op inst)
     then set_ret (set_containsCalls true (ret s8)) s8 else s8)
    = Ok (tt, s') ->
  calm s7 s'.
Proof.
  intros H%emit_srcloc_Ok%calm_sink.
  eapply calm_trans; [|exact H]. cbv zeta.
  destruct (op_TF (op inst)), (is_call_op (op inst)); by apply calm_same.
Qed.

Lemma fpi_emit_inst h0 f inst s s' :
  fpi_inv s -> fpi_hist h0 s -> inst_fpi_ok inst = true ->
  emit_inst f inst s = Ok (tt, s') ->
  fpi_inv s' /\ fpi_hist h0 s' /\ (isFPush (op inst) = false -> cold s').
Proof.
  intros Hinv Hh Hok H.
  destruct (fpi_inv_begin s Hinv) as [Hb Hcold].
  assert (fpi_hist h0 (inst_begin s)) as Hhb by (by apply (fpi_hist_same h0 s)).
  apply emit_inst_Ok in H as [[Hop ->]|[Hop H]]; [done|].
  apply emit_opcode_Ok in H
    as (s1 & s2 & s3 & s4 & s5 & s6 & s7 & H1 & H2 & _ & _
        & H3 & H4 & H5 & H6 & H7 & H8).
  apply calm_tail in H8.
  remember (inst_begin s) as sb eqn:Esb.
  assert (lastOff sb = bcPos (ue sb)) as Hlb by (by subst sb).
  clear Esb Hinv Hh s.
  assert (calm sb s2) as C2 by (eapply calm_trans; by eapply calm_defcls).
  pose proof (fpi_inv_calm _ _ Hb C2) as Hi2.
  pose proof (cold_calm _ _ Hcold C2) as Hc2.
  pose proof (fpi_hist_calm _ _ _ Hhb C2) as Hh2.
  destruct C2 as (_ & _ & Hl2 & Hp2 & _).
  remember (op_emitted inst s2) as so eqn:Eso.
  assert (fpiStack so = fpiStack s2 /\ fpiRegions (ret so) = fpiRegions (ret s2)
          /\ lastOff so = lastOff s2 /\ bcPos (ue so) = bcPos (ue s2) + 1
          /\ history so = EvOp (lastOff s2) inst (currentStackDepth s2) :: history s2)
    as (Hso1 & Hso2 & Hso3 & Hso4 & Hso5).
  { subst so. split_and!; try done.
    unfold op_emitted, bcPos. simpl. rewrite length_app. simpl. lia. }
  assert (opens so = opens s2) as Hoo by (unfold opens; by rewrite Hso1, Hso2).
  assert (fpi_inv so) as Hio by (apply (fpi_inv_still s2); [done..|lia]).
  assert (cold so) as Hco by (unfold cold; by rewrite Hso1, Hso3).
  assert (calm so s5) as C5.
  { eapply calm_trans; [by eapply (calm_for_each _ _ _ _ calm_pop), H3|].
    eapply calm_trans; [by eapply (calm_for_each _ _ _ _ calm_push), H4|].
    eapply calm_imm_steps, for_each_steps; [|exact H5].
    intros. by eapply emit_imm_steps. }
  clear Eso H1 H2 H3 H4 H5 s1 s3 s4.
  pose proof (fpi_inv_calm _ _ Hio C5) as Hi5.
  pose proof (cold_calm _ _ Hco C5) as Hc5.
  pose proof (opens_calm _ _ C5) as Ho5.
  destruct C5 as (Hst5 & Hr5 & Hl5 & Hp5 & evs & Hh5 & Hevs).
  assert (lastOff s5 = lastOff sb) as Hl5b by congruence.
  assert (lastOff s5 < bcPos (ue s5)) as Hlt5 by lia.
  destruct (isFPush (op inst)) eqn:EP.
  - assert (isFCallStar (op inst) = false) as EC.
    { unfold inst_fpi_ok in Hok. rewrite EP in Hok.
      by destruct (isFCallStar (op inst)). }
    rewrite EC in H7. injection H7 as <-.
    apply fpush_Ok in H6.
    assert (fpiStack s6
              = mkFPI (lastOff s5) kInvalidOffset (currentStackDepth s5)
                  :: fpiStack s5) as Hst6 by (subst s6; simpl; by rewrite Hl5b).
    assert (fpiRegions (ret s6) = fpiRegions (ret s5)) as Hr6 by (by subst s6).
    assert (lastOff s6 = lastOff s5) as Hl6 by (by subst s6).
    assert (bcPos (ue s6) = bcPos (ue s5)) as Hp6 by (by subst s6).
    assert (history s6 = history s5) as Hh6 by (by subst s6).
    clear H6.
    assert (forall x, x ∈ opens s6 <-> x = lastOff s2 \/ x ∈ opens s2) as Ho6.
    { intros x.
      assert (opens s6 = lastOff s5 :: opens s5) as ->
        by (unfold opens; by rewrite Hst6, Hr6).
      by rewrite elem_of_cons, Ho5, Hoo, Hl5, Hso3. }
    assert (fpi_inv s6) as Hi6 by (by eapply fpi_fpush).
    assert (fpi_hist h0 s6) as Hh6'.
    { apply (fpi_hist_ext h0 s2 s6
               (evs ++ [EvOp (lastOff s2) inst (currentStackDepth s2)]));
        [done| | | |].
      - by rewrite Hh6, Hh5, Hso5, <- app_assoc.
      - intros off i d [Hev|Hev]%elem_of_app _.
        + rewrite Forall_forall in Hevs. by destruct (Hevs _ Hev).
        + apply list_elem_of_singleton in Hev. injection Hev as -> -> ->.
          apply Ho6. by left.
      - intros x Hx. apply Ho6. by right.
      - intros x [->|Hx]%Ho6; [|by left]. right.
        exists inst, (currentStackDepth s2). split; [|done].
        apply elem_of_app. right. by apply list_elem_of_singleton. }
    split_and!; [by eapply fpi_inv_calm|by eapply fpi_hist_calm|done].
  - injection H6 as <-.
    assert (fpi_hist h0 so) as Hho.
    { apply (fpi_hist_ext h0 s2 so
               [EvOp (lastOff s2) inst (currentStackDepth s2)]); [done..| | |].
      - intros off i d Hev Hp. apply list_elem_of_singleton in Hev.
        injection Hev as -> -> ->. congruence.
      - intros x. by rewrite Hoo.
      - intros x. rewrite Hoo. by left. }
    assert (fpi_hist h0 s5) as Hh5'.
    { apply (fpi_hist_ext h0 so s5 evs); [done..| | |].
      - intros off i d Hev. rewrite Forall_forall in Hevs.
        by destruct (Hevs _ Hev).
      - intros x. by rewrite Ho5.
      - intros x. rewrite Ho5. by left. }
    assert (fpi_inv s7 /\ cold s7 /\ fpi_hist h0 s7) as (Hi7 & Hc7 & Hh7).
    { rewrite <- Hl5b in H7.
      apply when_Ok in H7 as [[_ H7]|[_ ->]]; [|done].
      unfold fcall in H7. apply end_fpi_Ok in H7 as (e & rest & Hst & ->).
      match goal with
      | |- fpi_inv ?x /\ _ =>
          destruct (fpi_close_one s5 x e rest Hi5 Hc5 Hst eq_refl eq_refl
                      eq_refl eq_refl) as [Hi7 Hc7]
      end.
      split_and!; [done..|]. by eapply fpi_hist_close_one. }
    split_and!; [by eapply fpi_inv_calm|by eapply fpi_hist_calm|].
    intros _. by eapply cold_calm.
Qed.

Lemma fpi_close_loop h0 n s s' :
  fpi_inv s -> cold s -> fpi_hist h0 s ->
  repeat_n n (s ← get; end_fpi (lastOff s)) s = Ok (tt, s') ->
  fpi_inv s' /\ cold s' /\ fpi_hist h0 s'.
Proof.
  intros Hi Hc Hh.
  apply (repeat_n_inv (fun s => fpi_inv s /\ cold s /\ fpi_hist h0 s));
    [|done].
  clear. intros s s' (Hi & Hc & Hh) H.
  apply bind_Ok in H as (s0 & s1 & Hg & H). apply get_Ok in Hg as [-> ->].
  apply end_fpi_Ok in H as (e & rest & Hst & ->).
  match goal with
  | |- fpi_inv ?x /\ _ =>
      destruct (fpi_close_one s x e rest Hi Hc Hst eq_refl eq_refl
                  eq_refl eq_refl) as [Hi' Hc']
  end.
  split_and!; [done..|]. by eapply fpi_hist_close_one.
Qed.

Lemma fpi_emit_insts h0 f code s s' :
  Forall (fun i => inst_fpi_ok i = true) code ->
  fpi_inv s -> fpi_hist h0 s ->
  for_each code (emit_inst f) s = Ok (tt, s') ->
  fpi_inv s' /\ fpi_hist h0 s' /\
  (forall i, last code = Some i -> isFPush (op i) = false -> cold s').
Proof.
  intros Hok. revert s.
  induction Hok as [|a code Ha Hok IH]; intros s Hi Hh H.
  - apply mret_Ok in H as [_ ->]. by split_and!.
  - simpl in H. apply bind_Ok in H as ([] & s1 & H1 & H).
    destruct (fpi_emit_inst h0 f a s s1 Hi Hh Ha H1) as (Hi1 & Hh1 & Hc1).
    destruct (IH s1 Hi1 Hh1 H) as (Hi' & Hh' & Hc').
    split_and!; [done..|].
    destruct code as [|a' code]; [|by rewrite last_cons_cons].
    apply mret_Ok in H as [_ ->]. simpl. intros i [= <-]. done.
Qed.

Lemma fpi_wellformed_block f b blk :
  fpi_wellformed f = true -> blocks f !! b = Some blk ->
  isFPush OpJmp = false /\ isFPush OpJmpNS = false /\
  block_closes blk = true /\
  Forall (fun i => inst_fpi_ok i = true) (hhbcs blk).
Proof.
  unfold fpi_wellformed.
  intros [[H1%negb_true_iff H2%negb_true_iff]%andb_true_iff H]%andb_true_iff Hb.
  rewrite forallb_forall in H.
  apply list_elem_of_lookup_2, list_elem_of_In, H in Hb.
  apply andb_true_iff in Hb as [Hc Hi].
  split_and!; [done..|].
  apply Forall_forall. intros i Hin.
  rewrite forallb_forall in Hi. by apply Hi, list_elem_of_In.
Qed.

Lemma fpi_block_end h0 f b blk next s s' :
  isFPush OpJmp = false -> isFPush OpJmpNS = false ->
  fpi_inv s -> fpi_hist h0 s ->
  (fallthrough blk = None -> cold s) ->
  block_end f b blk next s s' ->
  fpi_inv s' /\ fpi_hist h0 s' /\ ready s' next.
Proof.
  intros HJ HJNS Hi Hh Hcold (info & Hinfo & H). cbv zeta in H.
  remember (set_block b (set_past (bcPos (ue s)) info) s) as s9 eqn:E9.
  assert (calm s s9) as C9 by (subst s9; by apply calm_same).
  pose proof (fpi_inv_calm _ _ Hi C9) as Hi9.
  pose proof (fpi_hist_calm _ _ _ Hh C9) as Hh9.
  destruct (fallthrough blk) as [ft|].
  - destruct H as (s10 & H10 & H).
    pose proof (calm_expect _ _ _ H10) as C10.
    pose proof (fpi_inv_calm _ _ Hi9 C10) as Hi10.
    pose proof (fpi_hist_calm _ _ _ Hh9 C10) as Hh10.
    destruct (bool_decide (next <> Some ft)) eqn:En.
    + destruct H as (s11 & info11 & k & H11 & _ & _ & ->).
      set (jmp := if fallthroughNS blk then JmpNS ft else Jmp ft) in *.
      assert (isFPush (op jmp) = false) as Hp
        by (subst jmp; by destruct (fallthroughNS blk)).
      assert (inst_fpi_ok jmp = true) as Hok
        by (unfold inst_fpi_ok; by rewrite Hp).
      destruct (fpi_emit_inst h0 f jmp s10 s11 Hi10 Hh10 Hok H11)
        as (Hi11 & Hh11 & Hc11).
      match goal with
      | |- fpi_inv ?x /\ _ => assert (calm s11 x) as C by (by apply calm_same)
      end.
      split_and!; [by eapply fpi_inv_calm|by eapply fpi_hist_calm|].
      left. eapply cold_calm; [|exact C]. by apply Hc11.
    + subst s'. split_and!; [done..|]. right.
      apply bool_decide_eq_false in En. apply dec_stable in En.
      apply set_expected_depth_Ok in H10 as (ift & Hft & _ & _ & ->).
      exists ft, (expect_info (currentStackDepth s9) (fpiStack_size s9) ift).
      split_and!; [done| |done].
      simpl. apply list_lookup_insert_eq. by eapply lookup_lt_Some.
  - subst s'. split_and!; [done..|]. left.
    eapply cold_calm; [|exact C9]. by apply Hcold.
Qed.

Lemma fpi_emit_block h0 f b next s s' :
  fpi_wellformed f = true -> fpi_inv s -> fpi_hist h0 s -> ready s (Some b) ->
  emit_block f b next s = Ok (tt, s') ->
  fpi_inv s' /\ fpi_hist h0 s' /\ ready s' next.
Proof.
  intros Hwf Hi Hh Hready
    (blk & info & u & s6 & s8 & Hblk & Hinfo & Hu & Hle & H6 & H8 & Hend)%emit_block_Ok.
  destruct (fpi_wellformed_block f b blk Hwf Hblk) as (HJ & HJNS & Hcl & Hok).
  apply apply_fixups_length in Hu.
  remember (block_begin_state b info u s) as s0 eqn:E0.
  assert (calm s s0) as C0 by (subst s0; by apply calm_same).
  pose proof (fpi_inv_calm _ _ Hi C0) as Hi0.
  pose proof (fpi_hist_calm _ _ _ Hh C0) as Hh0.
  assert (fpi_inv s6 /\ fpi_hist h0 s6) as [Hi6 Hh6].
  { destruct Hready as [Hc|(b' & info' & [= <-] & Hinfo' & Hexp)].
    - pose proof (cold_calm _ _ Hc C0) as Hc0.
      destruct (fpi_close_loop h0 _ s0 s6 Hi0 Hc0 Hh0 H6) as (? & ? & ?).
      done.
    - rewrite Hinfo in Hinfo'. injection Hinfo' as <-.
      rewrite Hexp in H6. simpl in H6. rewrite Z.sub_diag in H6.
      simpl in H6. by apply mret_Ok in H6 as [_ ->]. }
  remember (log (EvBlock b (bcPos (ue s)) (currentStackDepth s6)
                   (fpiStack_size s6)) s6) as s7 eqn:E7.
  assert (calm s6 s7) as C7.
  { subst s7. split_and!; [done..|simpl; lia|].
    eexists [_]. split; [done|].
    repeat first [apply List.Forall_nil | apply List.Forall_cons; [simpl; tauto|]]. }
  pose proof (fpi_inv_calm _ _ Hi6 C7) as Hi7.
  pose proof (fpi_hist_calm _ _ _ Hh6 C7) as Hh7.
  destruct (fpi_emit_insts h0 f (hhbcs blk) s7 s8 Hok Hi7 Hh7 H8)
    as (Hi8 & Hh8 & Hc8).
  eapply fpi_block_end; [done..| |exact Hend].
  intros Hft. unfold block_closes in Hcl. rewrite Hft in Hcl.
  destruct (last (hhbcs blk)) as [i|] eqn:El; [|done].
  apply (Hc8 i); [done|]. by apply negb_true_iff.
Qed.

Lemma fpi_emit_blocks h0 f order s s' :
  fpi_wellformed f = true -> fpi_inv s -> fpi_hist h0 s ->
  ready s (head order) ->
  emit_blocks f order s = Ok (tt, s') ->
  fpi_inv s' /\ fpi_hist h0 s' /\ cold s'.
Proof.
  intros Hwf. revert s.
  induction order as [|b order IH]; intros s Hi Hh Hr H.
  - apply mret_Ok in H as [_ ->]. split_and!; [done..|].
    by destruct Hr as [?|(? & ? & ? & _)].
  - simpl in H. apply bind_Ok in H as ([] & s1 & H1 & H).
    destruct (fpi_emit_block h0 f b (head order) s s1 Hwf Hi Hh Hr H1)
      as (Hi1 & Hh1 & Hr1).
    by eapply IH.
Qed.

Lemma fpi_enter f order s :
  let s0 := enter_func f order s in
  fpi_inv s0 /\ fpi_hist (history s) s0 /\ cold s0.
Proof.
  split_and!.
  - apply mk_fpi_inv; simpl.
    + unfold bcPos. lia.
    + constructor.
    + constructor.
    + constructor.
    + intros i j r1 r2 _ Hi. by rewrite lookup_nil in Hi.
    + intros r e Hr. by apply elem_of_nil in Hr.
  - exists []. split_and!; [done| |].
    + intros ??? Hin. by apply elem_of_nil in Hin.
    + intros off Hin. by apply elem_of_nil in Hin.
  - constructor.
Qed.

(** C5: after [emit_bytecode] on a function whose blocks end properly, the
    FPI stack is empty; every region of the result has
    [fpushOff < fpiEndOff]; the regions are well-parenthesized (a region
    closed earlier ends before a later one starts or lies inside it); the
    regions are exactly the FPush instructions written; a call closes the top
    entry at its own start offset, and the loop run at a block start and at
    the end of the function closes entries at [lastOff]. *)
Theorem fpi_regions_wellformed f s r f' s' :
  emit_bytecode f s = Ok ((r, f'), s') ->
  fpi_wellformed f' = true ->
  fpiStack s' = [] /\
  Forall (fun e => fpushOff e < fpiEndOff e) (fpiRegions r) /\
  well_parenthesized (fpiRegions r) /\
  (exists new, history s' = new ++ history s /\
     (forall off inst d,
        EvOp off inst d ∈ new -> isFPush (op inst) = true ->
        exists e, e ∈ fpiRegions r /\ fpushOff e = off) /\
     (forall e, e ∈ fpiRegions r ->
        exists inst d, EvOp (fpushOff e) inst d ∈ new /\
          isFPush (op inst) = true)) /\
  (forall so st st',
     fcall so st = Ok (tt, st') ->
     exists e rest, fpiStack st = e :: rest /\ fpiStack st' = rest /\
       fpiRegions (ret st')
         = fpiRegions (ret st) ++ [mkFPI (fpushOff e) so (fpDelta e)]) /\
  (forall n st st',
     repeat_n n (s ← get; end_fpi (lastOff s)) st = Ok (tt, st') ->
     exists closed rest, fpiStack st = closed ++ rest /\ length closed = n /\
       fpiStack st' = rest /\
       fpiRegions (ret st')
         = fpiRegions (ret st) ++ closed_at (lastOff st) closed).
Proof.
  intros (order & s1 & _ & Hblocks & Hfinal & ->)%emit_bytecode_Ok Hwf.
  destruct (fpi_enter f' order s) as (Hi0 & Hh0 & Hc0).
  destruct (fpi_emit_blocks (history s) f' order _ s1 Hwf Hi0 Hh0
              (or_introl Hc0) Hblocks) as (Hi1 & Hh1 & Hc1).
  destruct (fpi_close_loop (history s) _ s1 s' Hi1 Hc1 Hh1 Hfinal)
    as ([_ _ _ Hcl Hnest _] & _ & (new & Hh & Hin & Hout)).
  assert (fpiStack s' = []) as Hst.
  { apply repeat_end_fpi_Ok in Hfinal as (closed & rest & Hst & Hlen & ->).
    simpl. rewrite Hst, length_app in Hlen.
    destruct rest; [done|simpl in Hlen; lia]. }
  assert (opens s' = fpushOff <$> fpiRegions (ret s')) as Ho
    by (unfold opens; by rewrite Hst).
  rewrite Ho in Hin, Hout.
  split_and!; [done| |done| | |].
  - eapply Forall_impl; [exact Hcl|]. simpl. intros e ?. lia.
  - exists new. split_and!; [done| |].
    + intros off inst d Hev Hp.
      apply (Hin _ _ _ Hev), list_elem_of_fmap in Hp as (e & -> & He).
      by exists e.
    + intros e He. apply Hout, list_elem_of_fmap. by exists e.
  - intros so st st' (e & rest & Hs & ->)%end_fpi_Ok. by exists e, rest.
  - intros n st st' (closed & rest & Hs & Hlen & ->)%repeat_end_fpi_Ok.
    by exists closed, rest.
Qed.

End FpiRegions.

Lemma fpi_regions_wellformed_witness :
  let s' := Demo.final (emit_bytecode Demo.f_calls Demo.state0) in
  let r := fst (Demo.result_of Demo.f_calls) in
  fpiStack s' = [] /\
  Forall (fun e => fpushOff e < fpiEndOff e) (fpiRegions r) /\
  well_parenthesized (fpiRegions r) /\
  (exists new, history s' = new ++ history Demo.state0 /\
     (forall off inst d,
        EvOp off inst d ∈ new -> isFPush (op inst) = true ->
        exists e, e ∈ fpiRegions r /\ fpushOff e = off) /\
     (forall e, e ∈ fpiRegions r ->
        exists inst d, EvOp (fpushOff e) inst d ∈ new /\
          isFPush (op inst) = true)) /\
  (forall so st st',
     fcall so st = Ok (tt, st') ->
     exists e rest, fpiStack st = e :: rest /\ fpiStack st' = rest /\
       fpiRegions (ret st')
         = fpiRegions (ret st) ++ [mkFPI (fpushOff e) so (fpDelta e)]) /\
  (forall n st st',
     repeat_n n (s ← get; end_fpi (lastOff s)) st = Ok (tt, st') ->
     exists closed rest, fpiStack st = closed ++ rest /\ length closed = n /\
       fpiStack st' = rest /\
       fpiRegions (ret st')
         = fpiRegions (ret st) ++ closed_at (lastOff st) closed).
Proof.
  apply (fpi_regions_wellformed Demo.f_calls Demo.state0
           (fst (Demo.result_of Demo.f_calls))
           (snd (Demo.result_of Demo.f_calls))).
  - vm_compute. reflexivity.
  - vm_compute. reflexivity.
Defined.

(** ** Reading back what was written to the stream *)

Section StreamBytes.

Lemma byte_at_spec k v : 0 <= k -> byte_at k v = (v / 2 ^ (8 * k)) mod 256.
Proof.
  intros Hk. unfold byte_at. rewrite Z.shiftr_div_pow2 by lia.
  change 255 with (Z.ones 8). by rewrite Z.land_ones by lia.
Qed.

Lemma le_uint32_int32_bytes v : le_uint32 (int32_bytes v) = v mod 2 ^ 32.
Proof.
  unfold int32_bytes, le_uint32. rewrite !byte_at_spec by lia.
  change (2 ^ (8 * 0)) with 1. change (2 ^ (8 * 1)) with 256.
  change (2 ^ (8 * 2)) with (256 * 256).
  change (2 ^ (8 * 3)) with (256 * (256 * 256)).
  change (2 ^ 8) with 256. change (2 ^ 16) with 65536.
  change (2 ^ 24) with 16777216. change (2 ^ 32) with 4294967296.
  rewrite Z.div_1_r, <- !Z.div_div by lia.
  set (q1 := v / 256). set (q2 := q1 / 256). set (q3 := q2 / 256).
  pose proof (Z.div_mod v 256 ltac:(lia)) as E0.
  pose proof (Z.div_mod q1 256 ltac:(lia)) as E1.
  pose proof (Z.div_mod q2 256 ltac:(lia)) as E2.
  pose proof (Z.div_mod q3 256 ltac:(lia)) as E3.
  pose proof (Z.mod_pos_bound v 256 ltac:(lia)).
  pose proof (Z.mod_pos_bound q1 256 ltac:(lia)).
  pose proof (Z.mod_pos_bound q2 256 ltac:(lia)).
  pose proof (Z.mod_pos_bound q3 256 ltac:(lia)).
  fold q1 in E0. fold q2 in E1. fold q3 in E2.
  apply (Z.mod_unique v 4294967296 (q3 / 256)); lia.
Qed.

Lemma to_int32_mod v : - 2 ^ 31 <= v < 2 ^ 31 -> to_int32 (v mod 2 ^ 32) = v.
Proof.
  intros Hv. unfold to_int32.
  rewrite Z.add_mod_idemp_l by lia. rewrite Z.mod_small; lia.
Qed.

(** Two streams that agree on the four bytes from [pos] on hold the same
    value there. *)
Lemma read_int32_ext bc bc' pos :
  (forall i, (i < 4)%nat -> bc !! (Z.to_nat pos + i)%nat = bc' !! (Z.to_nat pos + i)%nat) ->
  read_int32 bc pos = read_int32 bc' pos.
Proof.
  intros H. unfold read_int32. do 2 f_equal. apply list_eq. intros i.
  destruct (decide (i < 4)%nat) as [Hi|Hi].
  - rewrite !lookup_take_lt, !lookup_drop by done. by apply H.
  - by rewrite !lookup_take_ge by lia.
Qed.

Lemma read_int32_app bc bs pos :
  0 <= pos -> pos + 4 <= Z.of_nat (length bc) ->
  read_int32 (bc ++ bs) pos = read_int32 bc pos.
Proof.
  intros H0 H4. apply read_int32_ext. intros i Hi.
  apply lookup_app_l. lia.
Qed.

Lemma read_int32_written bc v rest :
  - 2 ^ 31 <= v < 2 ^ 31 ->
  read_int32 (bc ++ int32_bytes v ++ rest) (Z.of_nat (length bc)) = v.
Proof.
  intros Hv. unfold read_int32. rewrite Nat2Z.id, drop_app_length.
  change (take 4 (int32_bytes v ++ rest)) with (int32_bytes v).
  by rewrite le_uint32_int32_bytes, to_int32_mod.
Qed.

Lemma overwrite_lookup_other pos new (bc : list Z) i :
  (pos + length new <= length bc)%nat ->
  (i < pos \/ pos + length new <= i)%nat ->
  overwrite pos new bc !! i = bc !! i.
Proof.
  intros Hlen Hi. unfold overwrite. destruct Hi as [Hi|Hi].
  - rewrite lookup_app_l by (rewrite length_take; lia).
    by rewrite lookup_take_lt.
  - rewrite lookup_app_r by (rewrite length_take; lia).
    rewrite lookup_app_r by (rewrite length_take; lia).
    rewrite lookup_drop, length_take. f_equal. lia.
Qed.

Lemma read_int32_overwrite_same bc v pos :
  0 <= pos -> pos + 4 <= Z.of_nat (length bc) -> - 2 ^ 31 <= v < 2 ^ 31 ->
  read_int32 (overwrite (Z.to_nat pos) (int32_bytes v) bc) pos = v.
Proof.
  intros H0 H4 Hv. unfold overwrite.
  replace pos with (Z.of_nat (length (take (Z.to_nat pos) bc))) at 3
    by (rewrite length_take; lia).
  by apply read_int32_written.
Qed.

Lemma read_int32_overwrite_other bc v pos q :
  0 <= pos -> pos + 4 <= Z.of_nat (length bc) -> 0 <= q ->
  q + 4 <= pos \/ pos + 4 <= q ->
  read_int32 (overwrite (Z.to_nat pos) (int32_bytes v) bc) q = read_int32 bc q.
Proof.
  intros H0 H4 Hq Hd. apply read_int32_ext. intros i Hi.
  apply overwrite_lookup_other; simpl; lia.
Qed.

End StreamBytes.

(** ** Branch immediates *)

Section BranchFixups.

Context {tbl : OpcodeTable} {cfg : Cfg}.

Lemma mild_refl s : mild s s.
Proof.
  split_and!; [exists []; by rewrite app_nil_r|done|]. exists []. by split.
Qed.

Lemma mild_trans s1 s2 s3 : mild s1 s2 -> mild s2 s3 -> mild s1 s3.
Proof.
  intros ([bs1 Hb1] & Hv1 & evs1 & Hh1 & He1) ([bs2 Hb2] & Hv2 & evs2 & Hh2 & He2).
  split_and!.
  - exists (bs1 ++ bs2). by rewrite Hb2, Hb1, app_assoc.
  - congruence.
  - exists (evs2 ++ evs1). split; [by rewrite Hh2, Hh1, app_assoc|].
    by apply Forall_app.
Qed.

Lemma mild_same s s' :
  m_bc (ue s') = m_bc (ue s) -> jump_view s' = jump_view s ->
  history s' = history s -> mild s s'.
Proof.
  intros Hb Hv Hh. split_and!; [exists []; by rewrite app_nil_r|done|].
  exists []. by split.
Qed.

Lemma jump_view_set_block id info info' s :
  blockInfo (ret s) !! id = Some info ->
  offset info' = offset info -> forwardJumps info' = forwardJumps info ->
  jump_view (set_block id info' s) = jump_view s.
Proof.
  intros Hid Ho Hf. unfold jump_view.
  change (blockInfo (ret (set_block id info' s)))
    with (<[id := info']> (blockInfo (ret s))).
  rewrite list_fmap_insert, Ho, Hf.
  apply list_insert_id. rewrite list_lookup_fmap.
  unfold BlockId in *. by rewrite Hid.
Qed.

Lemma jump_view_lookup s s' T info' :
  jump_view s' = jump_view s -> blockInfo (ret s') !! T = Some info' ->
  exists info, blockInfo (ret s) !! T = Some info /\
    offset info = offset info' /\ forwardJumps info = forwardJumps info'.
Proof.
  intros Hv HT. unfold BlockId in *.
  assert (jump_view s' !! T = Some (offset info', forwardJumps info')) as H
    by (unfold jump_view; by rewrite list_lookup_fmap, HT).
  rewrite Hv in H. unfold jump_view in H. rewrite list_lookup_fmap in H.
  destruct (blockInfo (ret s) !! T) as [info|]; [|done].
  injection H as Ho Hf. by exists info.
Qed.

Lemma mild_sink bs s s' : sink_appends bs s s' -> mild s s'.
Proof.
  intros (u & -> & Hu). split_and!; [by exists bs|done|]. exists []. by split.
Qed.

Lemma mild_expect id s s' : set_expected_depth id s = Ok (tt, s') -> mild s s'.
Proof.
  intros (info & Hinfo & _ & _ & ->)%set_expected_depth_Ok.
  split_and!; [exists []; by rewrite app_nil_r| |].
  - unfold after_expect. by erewrite jump_view_set_block.
  - eexists [_]. split; [done|].
    repeat first [apply List.Forall_nil | apply List.Forall_cons; [simpl; tauto|]].
Qed.

Lemma mild_pop n s s' : pop n s = Ok (tt, s') -> mild s s'.
Proof. intros [-> _]%pop_Ok. by apply mild_same. Qed.

Lemma mild_push n s s' : push n s = Ok (tt, s') -> mild s s'.
Proof. intros [-> _]%push_Ok. by apply mild_same. Qed.

Lemma mild_end_fpi off s s' : end_fpi off s = Ok (tt, s') -> mild s s'.
Proof. intros (? & ? & _ & ->)%end_fpi_Ok. by apply mild_same. Qed.

Lemma mild_for_each {A : Type} (l : list A) (body : A -> M unit) s s' :
  (forall a s s', body a s = Ok (tt, s') -> mild s s') ->
  for_each l body s = Ok (tt, s') -> mild s s'.
Proof.
  intros Hbody. apply (for_each_rel mild).
  - apply mild_refl.
  - apply mild_trans.
  - intros. by eapply Hbody.
Qed.

Lemma mild_defcls b so inst s s' :
  when b (defcls so inst) s = Ok (tt, s') -> mild s s'.
Proof.
  intros [[_ [_ ->]%defcls_Ok]|[_ ->]]%when_Ok; [by apply mild_same|].
  apply mild_refl.
Qed.

Lemma mild_op_emitted inst s : mild s (op_emitted inst s).
Proof.
  split_and!; [by eexists|done|].
  eexists [_]. split; [done|].
  repeat first [apply List.Forall_nil | apply List.Forall_cons; [simpl; tauto|]].
Qed.

Lemma mild_tail f so inst s7 s' :
  emit_srcloc f so inst
    (let s8 := if op_TF (op inst) then set_currentStackDepth 0 s7 else s7 in
     if is_call_op (op inst)
     then set_ret (set_containsCalls true (ret s8)) s8 else s8)
    = Ok (tt, s') ->
  mild s7 s'.
Proof.
  intros H%emit_srcloc_Ok%mild_sink.
  eapply mild_trans; [|exact H]. cbv zeta.
  destruct (op_TF (op inst)), (is_call_op (op inst)); by apply mild_same.
Qed.

Lemma mild_bcPos s s' : mild s s' -> bcPos (ue s) <= bcPos (ue s').
Proof. intros ([bs Hb] & _). unfold bcPos. rewrite Hb, length_app. lia. Qed.

Lemma branch_state_mild h0 D L s s' :
  branch_state h0 D L s -> mild s s' -> branch_state h0 D L s'.
Proof.
  intros (new & Hh & [H1 H2 H3 H4 H5 H6 H7 H8]) Hm.
  pose proof (mild_bcPos _ _ Hm) as Hpos.
  destruct Hm as ([bs Hb] & Hv & evs & Hh' & Hevs).
  rewrite Forall_forall in Hevs.
  assert (forall ev, is_jump_event ev -> ev ∈ evs ++ new -> ev ∈ new) as Hold.
  { intros ev Hj [Hin|Hin]%elem_of_app; [|done]. by destruct (Hevs _ Hin). }
  assert (forall T info, blockInfo (ret s) !! T = Some info ->
            exists info', blockInfo (ret s') !! T = Some info' /\
              offset info' = offset info /\
              forwardJumps info' = forwardJumps info) as Hfw.
  { intros T info HT. by apply (jump_view_lookup s' s). }
  assert (forall T info', blockInfo (ret s') !! T = Some info' ->
            exists info, blockInfo (ret s) !! T = Some info /\
              offset info = offset info' /\
              forwardJumps info = forwardJumps info') as Hbw.
  { intros T info HT. by apply (jump_view_lookup s s'). }
  exists (evs ++ new). split; [by rewrite Hh', Hh, app_assoc|].
  constructor.
  - intros io po T Hin%Hold; [|done].
    destruct (H1 _ _ _ Hin). split; [done|lia].
  - intros io po T Hin%Hold; [|done].
    destruct (H1 _ _ _ Hin) as [Hio Hpo].
    destruct (H2 _ _ _ Hin) as (info & HT & Hpend & Hres).
    destruct (Hfw _ _ HT) as (info' & HT' & Ho & Hf).
    exists info'. rewrite Ho, Hf. split_and!; [done..|].
    intros Hne Hlt. rewrite Hb, read_int32_app by (unfold bcPos in Hpo; lia).
    apply Hres; [done|lia].
  - intros T info' fx HT' Hfx. apply elem_of_app. right.
    destruct (Hbw _ _ HT') as (info & HT & Ho & Hf).
    apply (H3 T info); [done|]. by rewrite Hf.
  - intros T info' HT'. destruct (Hbw _ _ HT') as (info & HT & Ho & Hf).
    rewrite <- Ho. destruct (H4 _ _ HT); [by left|right; lia].
  - intros T info' HT HT'. destruct (Hbw _ _ HT') as (info & HT0 & Ho & Hf).
    rewrite <- Ho. by eapply H5.
  - intros b off d fd Hin%Hold; [|done].
    destruct (H6 _ _ _ _ Hin) as (Hb' & info & HT & Ho & Hr).
    destruct (Hfw _ _ HT) as (info' & HT' & Ho' & Hf).
    split; [done|]. exists info'. split_and!; [done|congruence|lia..].
  - intros b Hb'. destruct (H7 _ Hb') as (off & d & fd & Hin).
    exists off, d, fd. apply elem_of_app. by right.
  - intros ev1 ev2 [Hi1|Hi1]%elem_of_app [Hi2|Hi2]%elem_of_app.
    + right. specialize (Hevs _ Hi1). by destruct ev1.
    + right. specialize (Hevs _ Hi1). by destruct ev1.
    + right. specialize (Hevs _ Hi2). destruct ev1, ev2; simpl in *; tauto.
    + by apply H8.
Qed.

(** A branch written at the end of the stream: its target is resolved and
    the view of the blocks is unchanged, or it is not and one fixup is
    appended to the target's list. *)
Lemma branch_inv_branch new D L so id info v s s' :
  branch_inv new D L s -> 0 <= so <= bcPos (ue s) ->
  blockInfo (ret s) !! id = Some info ->
  m_bc (ue s') = m_bc (ue s) ++ int32_bytes v ->
  (offset info <> kInvalidOffset /\ v = offset info - so /\
   jump_view s' = jump_view s) \/
  (offset info = kInvalidOffset /\
   jump_view s'
     = <[id := (offset info,
                forwardJumps info ++ [mkJmpFixup so (bcPos (ue s))])]>
         (jump_view s)) ->
  branch_inv (EvBranch so (bcPos (ue s)) id :: new) D L s'.
Proof.
  intros [H1 H2 H3 H4 H5 H6 H7 H8] Hso Hid Hb Hcase.
  set (fx := mkJmpFixup so (bcPos (ue s))).
  assert (bcPos (ue s') = bcPos (ue s) + 4) as Hpos
    by (unfold bcPos; rewrite Hb, length_app; simpl; lia).
  assert (forall T info', blockInfo (ret s') !! T = Some info' ->
            exists info0, blockInfo (ret s) !! T = Some info0 /\
              offset info0 = offset info' /\
              (forwardJumps info' = forwardJumps info0 \/
               (T = id /\ forwardJumps info' = forwardJumps info0 ++ [fx])))
    as Hbw.
  { intros T info' HT'. unfold BlockId in *.
    assert (jump_view s' !! T = Some (offset info', forwardJumps info')) as Hv
      by (unfold jump_view; by rewrite list_lookup_fmap, HT').
    destruct Hcase as [(_ & _ & Hview)|(_ & Hview)].
    - destruct (jump_view_lookup s s' T info' Hview HT') as (i0 & ? & ? & ?).
      exists i0. split_and!; [done..|by left].
    - rewrite Hview in Hv. destruct (decide (T = id)) as [->|Hne].
      + rewrite list_lookup_insert_eq in Hv
          by (unfold jump_view; rewrite length_fmap; by eapply lookup_lt_Some).
        injection Hv as Ho Hf. exists info. split_and!; [done..|]. right. done.
      + rewrite list_lookup_insert_ne in Hv by done.
        unfold jump_view in Hv. rewrite list_lookup_fmap in Hv.
        destruct (blockInfo (ret s) !! T) as [i0|]; [|done].
        injection Hv as Ho Hf. exists i0. split_and!; [done..|by left]. }
  assert (forall T info0, blockInfo (ret s) !! T = Some info0 ->
            exists info', blockInfo (ret s') !! T = Some info' /\
              offset info' = offset info0 /\
              (forall x, x ∈ forwardJumps info0 -> x ∈ forwardJumps info') /\
              (T = id -> offset info0 = kInvalidOffset ->
               fx ∈ forwardJumps info')) as Hfw.
  { intros T info0 HT. unfold BlockId in *.
    assert (is_Some (blockInfo (ret s') !! T)) as [info' HT'].
    { apply lookup_lt_is_Some.
      assert (length (jump_view s') = length (jump_view s)) as Hl.
      { destruct Hcase as [(_ & _ & ->)|(_ & ->)]; [done|].
        by rewrite length_insert. }
      unfold jump_view in Hl. rewrite !length_fmap in Hl. rewrite Hl.
      by eapply lookup_lt_Some. }
    exists info'. destruct (Hbw _ _ HT') as (i0 & HT0 & Ho & Hf).
    rewrite HT in HT0. injection HT0 as <-.
    split_and!; [done..| |].
    - intros x Hx. destruct Hf as [->|[_ ->]]; [done|].
      apply elem_of_app. by left.
    - intros -> Hk. rewrite Hid in HT. injection HT as <-.
      destruct Hcase as [(Hne & _)|(_ & Hview)]; [done|].
      assert (jump_view s' !! id = Some (offset info', forwardJumps info')) as Hv
        by (unfold jump_view; by rewrite list_lookup_fmap, HT').
      rewrite Hview, list_lookup_insert_eq in Hv
        by (unfold jump_view; rewrite length_fmap; by eapply lookup_lt_Some).
      injection Hv as _ <-. apply elem_of_app. right. by left. }
  constructor.
  - intros io po T [[= -> -> ->]|Hin]%elem_of_cons; [lia|].
    destruct (H1 _ _ _ Hin). split; [done|lia].
  - intros io po T [[= -> -> ->]|Hin]%elem_of_cons.
    + destruct (Hfw _ _ Hid) as (info' & HT' & Ho & Hf & Hnew).
      exists info'. rewrite Ho. split_and!; [done| |].
      * intros Hk. by apply Hnew.
      * intros Hne Hlt.
        destruct Hcase as [(_ & -> & _)|(Hk & _)]; [|done].
        rewrite Hb.
        replace (m_bc (ue s) ++ int32_bytes (offset info - so))
          with (m_bc (ue s) ++ int32_bytes (offset info - so) ++ [])
          by (by rewrite app_nil_r).
        apply read_int32_written.
        destruct (H4 _ _ Hid) as [?|Hr]; [done|]. lia.
    + destruct (H1 _ _ _ Hin) as [Hio Hpo].
      destruct (H2 _ _ _ Hin) as (info0 & HT & Hpend & Hres).
      destruct (Hfw _ _ HT) as (info' & HT' & Ho & Hf & _).
      exists info'. rewrite Ho. split_and!; [done| |].
      * intros Hk. by apply Hf, Hpend.
      * intros Hne Hlt.
        rewrite Hb, read_int32_app by (unfold bcPos in Hpo; lia).
        apply Hres; [done|lia].
  - intros T info' x HT' Hx.
    destruct (Hbw _ _ HT') as (i0 & HT0 & Ho & [Hf|[-> Hf]]);
      rewrite Hf in Hx.
    + apply elem_of_cons. right. by eapply H3.
    + apply elem_of_app in Hx as [Hx|Hx].
      * apply elem_of_cons. right. by eapply H3.
      * apply list_elem_of_singleton in Hx as ->. apply elem_of_cons. by left.
  - intros T info' HT'. destruct (Hbw _ _ HT') as (i0 & HT0 & Ho & _).
    rewrite <- Ho. destruct (H4 _ _ HT0); [by left|right; lia].
  - intros T info' HT HT'. destruct (Hbw _ _ HT') as (i0 & HT0 & Ho & _).
    rewrite <- Ho. by eapply H5.
  - intros b off d fd [[=]|Hin]%elem_of_cons.
    destruct (H6 _ _ _ _ Hin) as (Hb' & i0 & HT & Ho & Hr).
    destruct (Hfw _ _ HT) as (info' & HT' & Ho' & _).
    split; [done|]. exists info'. split_and!; [done|congruence|lia..].
  - intros b Hb'. destruct (H7 _ Hb') as (off & d & fd & Hin).
    exists off, d, fd. apply elem_of_cons. by right.
  - intros ev1 ev2 [->|Hi1]%elem_of_cons [->|Hi2]%elem_of_cons.
    + by left.
    + right. destruct ev2 as [| | |io po T]; try done. simpl.
      destruct (H1 _ _ _ Hi2). lia.
    + right. destruct ev1 as [| | |io po T]; try done. simpl.
      destruct (H1 _ _ _ Hi1). lia.
    + by apply H8.
Qed.

Lemma mild_after_expect id info s :
  blockInfo (ret s) !! id = Some info -> mild s (after_expect id info s).
Proof.
  intros Hinfo. split_and!; [exists []; by rewrite app_nil_r| |].
  - unfold after_expect. by erewrite jump_view_set_block.
  - eexists [_]. split; [done|].
    repeat first [apply List.Forall_nil | apply List.Forall_cons; [simpl; tauto|]].
Qed.

Lemma branch_state_branch h0 D L so id s s' :
  branch_state h0 D L s -> 0 <= so <= bcPos (ue s) ->
  emit_branch so id s = Ok (tt, s') -> branch_state h0 D L s'.
Proof.
  intros Hs Hso (info & Hinfo & _ & _ & H)%emit_branch_Ok. cbv zeta in H.
  destruct (branch_state_mild _ _ _ _ _ Hs (mild_after_expect id info s Hinfo))
    as (new & Hh & Hinv).
  remember (after_expect id info s) as s1 eqn:E1.
  remember (expect_info (currentStackDepth s) (fpiStack_size s) info)
    as info1 eqn:Ei1.
  assert (blockInfo (ret s1) !! id = Some info1) as Hinfo1.
  { subst s1 info1. simpl. apply list_lookup_insert_eq.
    by eapply lookup_lt_Some. }
  assert (ue s1 = ue s) as Hue by (by subst s1).
  assert (offset info1 = offset info) as Ho by (by subst info1).
  assert (forwardJumps info1 = forwardJumps info) as Hf by (by subst info1).
  exists (EvBranch so (bcPos (ue s)) id :: new). split.
  - destruct H as [[_ ->]|[_ ->]]; simpl; by rewrite Hh.
  - rewrite <- Hue.
    destruct H as [[Hne ->]|[Hk ->]].
    + apply (branch_inv_branch new D L so id info1 (offset info - so) s1);
        [done|by rewrite Hue|done|by rewrite Hue|].
      left. by rewrite Ho.
    + apply (branch_inv_branch new D L so id info1 0 s1);
        [done|by rewrite Hue|done|by rewrite Hue|].
      right. split; [by rewrite Ho|].
      unfold jump_view.
      change (blockInfo (ret (set_ue (emitInt32 0 (ue s))
                (set_block id
                   (push_forwardJump (mkJmpFixup so (bcPos (ue s))) info1)
                   (log (EvBranch so (bcPos (ue s)) id) s1)))))
        with (<[id := push_forwardJump (mkJmpFixup so (bcPos (ue s))) info1]>
                (blockInfo (ret s1))).
      rewrite list_fmap_insert. by rewrite Hue.
Qed.

Lemma branch_state_imm_steps h0 D L so s s' :
  imm_steps so s s' -> branch_state h0 D L s -> 0 <= so <= bcPos (ue s) ->
  branch_state h0 D L s'.
Proof.
  induction 1 as [|s1 s2 s3 Hstep _ IH]; [done|]. intros Hs Hso.
  assert (quiet s1 s2) as (_ & Hpos & _).
  { destruct Hstep; [by eapply quiet_sink|by eapply quiet_branch]. }
  apply IH; [|lia]. destruct Hstep.
  - eapply branch_state_mild; [done|]. by eapply mild_sink.
  - by eapply branch_state_branch.
Qed.

Lemma branch_state_emit_inst h0 D L f inst s s' :
  branch_state h0 D L s -> emit_inst f inst s = Ok (tt, s') ->
  branch_state h0 D L s'.
Proof.
  intros Hs H.
  assert (mild s (inst_begin s)) as Mb by (by apply mild_same).
  apply emit_inst_Ok in H as [[_ ->]|[_ H]];
    [by eapply branch_state_mild|].
  apply emit_opcode_Ok in H
    as (s1 & s2 & s3 & s4 & s5 & s6 & s7 & H1 & H2 & _ & _
        & H3 & H4 & H5 & H6 & H7 & H8).
  apply mild_tail in H8.
  assert (mild s s4) as M4.
  { eapply mild_trans; [exact Mb|].
    eapply mild_trans; [by eapply mild_defcls|].
    eapply mild_trans; [by eapply mild_defcls|].
    eapply mild_trans; [apply mild_op_emitted|].
    eapply mild_trans; [by eapply (mild_for_each _ _ _ _ mild_pop), H3|].
    by eapply (mild_for_each _ _ _ _ mild_push), H4. }
  pose proof (mild_bcPos _ _ M4) as Hpos.
  assert (branch_state h0 D L s5) as Hs5.
  { eapply (branch_state_imm_steps h0 D L (lastOff (inst_begin s)) s4).
    - eapply for_each_steps; [|exact H5]. intros. by eapply emit_imm_steps.
    - by eapply branch_state_mild.
    - simpl. unfold bcPos in *. lia. }
  eapply branch_state_mild; [exact Hs5|].
  eapply (mild_trans _ s6).
  { apply when_Ok in H6 as [[_ ->%fpush_Ok]|[_ ->]]; [by apply mild_same|].
    apply mild_refl. }
  eapply (mild_trans _ s7); [|done].
  apply when_Ok in H7 as [[_ H7]|[_ ->]]; [by eapply mild_end_fpi|].
  apply mild_refl.
Qed.

Lemma emitInt32_at_Ok v pos u u' :
  emitInt32_at v pos u = Ok u' ->
  0 <= pos /\ pos + 4 <= bcPos u /\
  m_bc u' = overwrite (Z.to_nat pos) (int32_bytes v) (m_bc u).
Proof.
  unfold emitInt32_at.
  destruct ((0 <=? pos) && (pos + 4 <=? bcPos u)) eqn:E; [|done].
  apply andb_true_iff in E as [H0%Z.leb_le H4%Z.leb_le].
  by intros [= <-].
Qed.

(** A slot that no fixup touches keeps its value. *)
Lemma apply_fixups_other off fj u u' q :
  apply_fixups off fj u = Ok u' -> 0 <= q ->
  (forall fx, fx ∈ fj ->
     q + 4 <= jmpImmedOff fx \/ jmpImmedOff fx + 4 <= q) ->
  read_int32 (m_bc u') q = read_int32 (m_bc u) q.
Proof.
  revert u. induction fj as [|fx fj IH]; intros u H Hq Hfj.
  - by injection H as <-.
  - simpl in H. apply res_bind_Ok in H as (u1 & H1 & H).
    apply emitInt32_at_Ok in H1 as (H0 & H4 & Hb).
    rewrite (IH u1 H Hq) by (intros; apply Hfj, elem_of_cons; by right).
    rewrite Hb. apply read_int32_overwrite_other; [done| |done|].
    + unfold bcPos in H4. lia.
    + apply Hfj, elem_of_cons. by left.
Qed.

(** A slot that holds the final value already, or that has a fixup, holds
    the final value after the fixups. *)
Lemma apply_fixups_same off fj u u' fx :
  apply_fixups off fj u = Ok u' ->
  0 <= jmpImmedOff fx -> jmpImmedOff fx + 4 <= bcPos u ->
  - 2 ^ 31 <= off - instrOff fx < 2 ^ 31 ->
  (forall fx', fx' ∈ fj ->
     fx' = fx \/ jmpImmedOff fx + 4 <= jmpImmedOff fx'
     \/ jmpImmedOff fx' + 4 <= jmpImmedOff fx) ->
  read_int32 (m_bc u) (jmpImmedOff fx) = off - instrOff fx \/ fx ∈ fj ->
  read_int32 (m_bc u') (jmpImmedOff fx) = off - instrOff fx.
Proof.
  revert u. induction fj as [|fx0 fj IH]; intros u H H0 H4 Hfits Hfj Hcase.
  - injection H as <-. destruct Hcase as [?|Hin]; [done|].
    by apply elem_of_nil in Hin.
  - simpl in H. apply res_bind_Ok in H as (u1 & H1 & H).
    pose proof (emitInt32_at_length _ _ _ _ H1) as Hlen.
    apply emitInt32_at_Ok in H1 as (Hp0 & Hp4 & Hb).
    apply (IH u1); [done|done|lia|done| |].
    { intros. apply Hfj, elem_of_cons. by right. }
    destruct (Hfj fx0) as [->|Hapart]; [apply elem_of_cons; by left| |].
    + left. rewrite Hb. apply read_int32_overwrite_same; [done| |done].
      unfold bcPos in H4. lia.
    + destruct Hcase as [Hval|[->|Hin]%elem_of_cons]; [|lia|by right].
      left. rewrite Hb, read_int32_overwrite_other; [done..| |done|lia].
      unfold bcPos in Hp4. lia.
Qed.

Lemma JmpFixup_eta fx : mkJmpFixup (instrOff fx) (jmpImmedOff fx) = fx.
Proof. by destruct fx. Qed.

(** The start of block [b]: its offset is set and its fixups are applied. *)
Lemma branch_inv_block_begin new D L b info u s :
  branch_inv new D (b :: L) s -> b ∉ L ->
  blockInfo (ret s) !! b = Some info ->
  apply_fixups (bcPos (ue s)) (forwardJumps info) (ue s) = Ok u ->
  branch_inv new D L (block_begin_state b info u s).
Proof.
  intros [H1 H2 H3 H4 H5 H6 H7 H8] HbL Hinfo Hu.
  pose proof (apply_fixups_length _ _ _ _ Hu) as Hlen.
  set (B := bcPos (ue s)) in *.
  set (info' := block_entry_info B info).
  assert (offset info = kInvalidOffset) as Hk
    by (apply (H5 b); [apply elem_of_cons; by left|done]).
  assert (forall T i, blockInfo (ret (block_begin_state b info u s)) !! T = Some i ->
            (T = b /\ i = info') \/ (T <> b /\ blockInfo (ret s) !! T = Some i))
    as Hbw.
  { intros T i HT. simpl in HT. destruct (decide (T = b)) as [->|Hne].
    - rewrite list_lookup_insert_eq in HT by (by eapply lookup_lt_Some).
      injection HT as <-. by left.
    - rewrite list_lookup_insert_ne in HT by done. by right. }
  assert (blockInfo (ret (block_begin_state b info u s)) !! b = Some info')
    as Hb'.
  { simpl. apply list_lookup_insert_eq. by eapply lookup_lt_Some. }
  assert (forall T i, T <> b -> blockInfo (ret s) !! T = Some i ->
            blockInfo (ret (block_begin_state b info u s)) !! T = Some i)
    as Hfw.
  { intros T i Hne HT. simpl. by rewrite list_lookup_insert_ne. }
  assert (0 <= B) as HB0 by (unfold B, bcPos; lia).
  constructor; change (ue (block_begin_state b info u s)) with u;
    rewrite ?Hlen.
  - done.
  - intros io po T Hin.
    destruct (H1 _ _ _ Hin) as [Hio Hpo].
    destruct (H2 _ _ _ Hin) as (i0 & HT & Hpend & Hres).
    destruct (decide (T = b)) as [->|Hne].
    + rewrite Hinfo in HT. injection HT as <-.
      exists info'. split_and!; [done|by intros _; apply Hpend|].
      intros _ Hlt.
      apply (apply_fixups_same B (forwardJumps info) (ue s) u (mkJmpFixup io po));
        simpl; [done|lia|done|lia| |right; by apply Hpend].
      intros fx' Hfx'.
      destruct (H8 _ _ (H3 _ _ _ Hinfo Hfx') Hin) as [[= <- <-]|Hap].
      * left. symmetry. apply JmpFixup_eta.
      * right. simpl in Hap. lia.
    + exists i0. split_and!; [by apply Hfw|done|].
      intros Hne' Hlt.
      rewrite (apply_fixups_other B (forwardJumps info) (ue s) u po Hu);
        [by apply Hres|lia|].
      intros fx' Hfx'.
      destruct (H8 _ _ (H3 _ _ _ Hinfo Hfx') Hin) as [[= _ _ <-]|Hap];
        [done|]. simpl in Hap. lia.
  - intros T i fx HT Hfx. destruct (Hbw _ _ HT) as [[-> ->]|[Hne HT0]].
    + by apply (H3 b info).
    + by apply (H3 T i).
  - intros T i HT. destruct (Hbw _ _ HT) as [[-> ->]|[Hne HT0]].
    + right. simpl. lia.
    + by apply (H4 T).
  - intros T i HTL HT. destruct (Hbw _ _ HT) as [[-> ->]|[Hne HT0]]; [done|].
    apply (H5 T); [apply elem_of_cons; by right|done].
  - intros b' off d fd Hin.
    destruct (H6 _ _ _ _ Hin) as (Hnot & i0 & HT & Ho & Hr).
    apply not_elem_of_cons in Hnot as [Hne HnL].
    split; [done|]. exists i0. split_and!; [by apply Hfw|done|lia..].
  - done.
  - done.
Qed.

Lemma branch_inv_log_block new D L b off d fd info s :
  branch_inv new D L s -> b ∉ L ->
  blockInfo (ret s) !! b = Some info -> offset info = off ->
  0 <= off <= bcPos (ue s) ->
  branch_inv (EvBlock b off d fd :: new) (b :: D) L
             (log (EvBlock b off d fd) s).
Proof.
  intros [H1 H2 H3 H4 H5 H6 H7 H8] HbL Hinfo Ho Hoff.
  constructor.
  - intros io po T [[=]|Hin]%elem_of_cons. by apply (H1 io po T).
  - intros io po T [[=]|Hin]%elem_of_cons. by apply (H2 io po T).
  - intros T i fx HT Hfx. apply elem_of_cons. right. by apply (H3 T i).
  - done.
  - done.
  - intros b' off' d' fd' [[= -> -> -> ->]|Hin]%elem_of_cons.
    + split; [done|]. by exists info.
    + by apply (H6 b' off' d' fd').
  - intros b' [->|Hin]%elem_of_cons.
    + exists off, d, fd. apply elem_of_cons. by left.
    + destruct (H7 _ Hin) as (off' & d' & fd' & Hev).
      exists off', d', fd'. apply elem_of_cons. by right.
  - intros ev1 ev2 [->|Hi1]%elem_of_cons [->|Hi2]%elem_of_cons.
    + by left.
    + by right.
    + right. by destruct ev1.
    + by apply H8.
Qed.

Lemma branch_state_block_end h0 D L f b blk next s s' :
  branch_state h0 D L s -> block_end f b blk next s s' ->
  branch_state h0 D L s'.
Proof.
  intros Hs (info & Hinfo & H). cbv zeta in H.
  remember (set_block b (set_past (bcPos (ue s)) info) s) as s9 eqn:E9.
  assert (mild s s9) as M9.
  { subst s9. apply mild_same; [done| |done].
    by apply (jump_view_set_block b info). }
  pose proof (branch_state_mild _ _ _ _ _ Hs M9) as Hs9.
  destruct (fallthrough blk) as [ft|]; [|by subst s'].
  destruct H as (s10 & H10 & H).
  pose proof (branch_state_mild _ _ _ _ _ Hs9 (mild_expect _ _ _ H10)) as Hs10.
  destruct (bool_decide (next <> Some ft)); [|by subst s'].
  destruct H as (s11 & info11 & k & H11 & Hinfo11 & _ & ->).
  pose proof (branch_state_emit_inst _ _ _ _ _ _ _ Hs10 H11) as Hs11.
  eapply branch_state_mild; [exact Hs11|].
  apply mild_same; [done| |done].
  by apply (jump_view_set_block b info11).
Qed.

Lemma branch_state_emit_insts h0 D L f code s s' :
  branch_state h0 D L s -> for_each code (emit_inst f) s = Ok (tt, s') ->
  branch_state h0 D L s'.
Proof.
  apply (for_each_inv (branch_state h0 D L)).
  intros inst sa sb _. apply branch_state_emit_inst.
Qed.

Lemma branch_state_emit_block h0 D L f b next s s' :
  branch_state h0 D (b :: L) s -> b ∉ L ->
  emit_block f b next s = Ok (tt, s') ->
  branch_state h0 (b :: D) L s'.
Proof.
  intros (new & Hh & Hinv) HbL
    (blk & info & u & s6 & s8 & Hblk & Hinfo & Hu & Hle & H6 & H8 & Hend)%emit_block_Ok.
  pose proof (apply_fixups_length _ _ _ _ Hu) as Hlen.
  pose proof (branch_inv_block_begin _ _ _ _ _ _ _ Hinv HbL Hinfo Hu) as Hinv0.
  apply repeat_end_fpi_Ok in H6 as (closed & rest & _ & _ & ->).
  eapply branch_state_block_end; [|exact Hend].
  eapply branch_state_emit_insts; [|exact H8].
  match goal with
  | |- branch_state _ _ _ (log _ ?x) =>
      assert (branch_state h0 D L x) as (new6 & Hh6 & Hinv6)
  end.
  { apply (branch_state_mild h0 D L (block_begin_state b info u s));
      [exists new; split; [exact Hh|exact Hinv0]|].
    by apply mild_same. }
  eexists (_ :: new6). split.
  { unfold log at 1. cbn [history]. rewrite Hh6. reflexivity. }
  apply (branch_inv_log_block new6 D L b _ _ _
           (block_entry_info (bcPos (ue s)) info)); [done|done| |done|].
  - simpl. apply list_lookup_insert_eq. by eapply lookup_lt_Some.
  - simpl. unfold bcPos in *. lia.
Qed.

Lemma branch_state_emit_blocks h0 f order :
  forall D s s',
    NoDup order -> branch_state h0 D order s ->
    emit_blocks f order s = Ok (tt, s') ->
    exists D', branch_state h0 D' [] s' /\
      forall b, b ∈ D \/ b ∈ order -> b ∈ D'.
Proof.
  induction order as [|b order IH]; intros D s s' Hnd Hs H.
  - apply mret_Ok in H as [_ ->]. exists D. split; [done|].
    intros b [?|Hb]; [done|]. by apply elem_of_nil in Hb.
  - simpl in H. apply bind_Ok in H as ([] & s1 & H1 & H).
    apply NoDup_cons in Hnd as [Hb Hnd].
    pose proof (branch_state_emit_block _ _ _ _ _ _ _ _ Hs Hb H1) as Hs1.
    destruct (IH (b :: D) s1 s' Hnd Hs1 H) as (D' & Hs' & Hsub).
    exists D'. split; [done|]. intros b' Hb'. apply Hsub.
    rewrite !elem_of_cons in *. tauto.
Qed.

Lemma branch_state_enter f order s :
  branch_state (history s) [] order (enter_func f order s).
Proof.
  exists []. split; [done|].
  assert (forall T info,
            blockInfo (ret (enter_func f order s)) !! T = Some info ->
            info = default_BlockInfo) as Hdef.
  { intros T info HT. simpl in HT. by apply lookup_replicate in HT as [-> _]. }
  constructor.
  - intros ??? Hin. by apply elem_of_nil in Hin.
  - intros ??? Hin. by apply elem_of_nil in Hin.
  - intros T info fx ->%Hdef Hfx. by apply elem_of_nil in Hfx.
  - intros T info ->%Hdef. by left.
  - by intros T info _ ->%Hdef.
  - intros ???? Hin. by apply elem_of_nil in Hin.
  - intros b Hin. by apply elem_of_nil in Hin.
  - intros ?? Hin. by apply elem_of_nil in Hin.
Qed.

Lemma new_events_app s s' new :
  history s' = new ++ history s -> new_events s s' = new.
Proof.
  intros Hh. unfold new_events. rewrite Hh, length_app.
  replace (length new + length (history s) - length (history s))%nat
    with (length new) by lia.
  by rewrite take_app_length.
Qed.


End BranchFixups.


(** ** More about the block order *)

Section BlockOrderMore.

Context {tbl : OpcodeTable} {cfg : Cfg}.

Lemma erase_from_absent x l : x ∉ l -> erase_from x l = l.
Proof.
  induction l as [|y l IH]; [done|]. intros [Hne Hl]%not_elem_of_cons.
  simpl. rewrite decide_False by done. by rewrite IH.
Qed.

Lemma filter_sections_perm f l :
  filter (in_section f Main) l ++ filter (in_section f Fault) l ≡ₚ l.
Proof.
  induction l as [|b l IH]; [done|]. rewrite !filter_cons.
  destruct (block_section f b) eqn:Hb.
  - rewrite decide_True by done.
    rewrite decide_False by (unfold in_section; congruence).
    simpl. by rewrite IH.
  - rewrite decide_False by (unfold in_section; congruence).
    rewrite decide_True by done.
    rewrite <- Permutation_middle. by rewrite IH.
Qed.

Lemma order_blocks_Ok f order f' :
  order_blocks f = Ok (order, f') ->
  exists front rest b l blk,
    rpoSortFromMain f = front :: rest /\
    order = b :: l /\
    order
    = stable_sort_by_section f
        ((front :: rest) ++ erase_from front (rpoSortAddDVs f)) /\
    blocks f !! b = Some blk /\
    f' = if is_single_nop blk
         then set_blocks f (<[b := set_hhbcs blk [EntryNop]]> (blocks f))
         else f.
Proof.
  unfold order_blocks, order_blocks_unsorted.
  destruct (rpoSortFromMain f) as [|front rest] eqn:HM; [done|].
  destruct (stable_sort_by_section f _) as [|b l] eqn:Hs; [done|].
  destruct (blocks f !! b) as [blk|] eqn:Hb; [|done].
  intros H. exists front, rest, b, l, blk.
  destruct (is_single_nop blk); injection H as <- <-; by split_and!.
Qed.

(** X1: the sort of [order_blocks] loses and duplicates nothing: the layout
    is a permutation of the main reverse postorder followed by the kept DV
    blocks, and when the main entry does not occur in the second reverse
    postorder, [std::find] returns [end()] and all of its blocks are
    kept. *)
Theorem order_blocks_permutation f order f' :
  order_blocks f = Ok (order, f') ->
  exists front dv,
    head (rpoSortFromMain f) = Some front /\
    dv = erase_from front (rpoSortAddDVs f) /\
    order ≡ₚ rpoSortFromMain f ++ dv /\
    length order = (length (rpoSortFromMain f) + length dv)%nat /\
    (forall b, b ∈ rpoSortFromMain f -> b ∈ order) /\
    (front ∉ rpoSortAddDVs f -> dv = rpoSortAddDVs f).
Proof.
  intros (front & rest & b & l & blk & HM & _ & Hord & _)%order_blocks_Ok.
  exists front, (erase_from front (rpoSortAddDVs f)).
  assert (order ≡ₚ rpoSortFromMain f ++ erase_from front (rpoSortAddDVs f))
    as Hperm.
  { rewrite Hord, HM, stable_sort_by_section_filter.
    apply filter_sections_perm. }
  split_and!; [by rewrite HM|done|done| | |].
  - by rewrite Hperm, length_app.
  - intros x Hx. rewrite Hperm. apply elem_of_app. by left.
  - apply erase_from_absent.
Qed.

(** X2: [order_blocks] changes the function in one place at most: when the
    first block of the layout is a single [Nop], its code becomes
    [EntryNop]; every other block, the block's other fields and the rest of
    the function stay as they are. *)
Theorem order_blocks_entry f order f' :
  order_blocks f = Ok (order, f') ->
  exists front blk,
    head order = Some front /\ blocks f !! front = Some blk /\
    blocks f' !! front
    = Some (if is_single_nop blk then set_hhbcs blk [EntryNop] else blk) /\
    (forall b, b <> front -> blocks f' !! b = blocks f !! b) /\
    length (blocks f') = length (blocks f) /\
    func_name f' = func_name f /\ locals f' = locals f /\
    params f' = params f /\ srcLocs f' = srcLocs f /\
    (is_single_nop blk = false -> f' = f).
Proof.
  intros (front & rest & b & l & blk & _ & -> & _ & Hb & ->)%order_blocks_Ok.
  exists b, blk. destruct (is_single_nop blk) eqn:E; simpl.
  - split_and!; try done.
    + apply list_lookup_insert_eq. by eapply lookup_lt_Some.
    + intros b' Hne. by apply list_lookup_insert_ne.
    + by rewrite length_insert.
  - by split_and!.
Qed.

End BlockOrderMore.

Lemma order_blocks_permutation_witness :
  exists front dv,
    head (rpoSortFromMain Demo.f_dv) = Some front /\
    dv = erase_from front (rpoSortAddDVs Demo.f_dv) /\
    [0; 1; 2]%nat ≡ₚ rpoSortFromMain Demo.f_dv ++ dv /\
    length [0; 1; 2]%nat
    = (length (rpoSortFromMain Demo.f_dv) + length dv)%nat /\
    (forall b, b ∈ rpoSortFromMain Demo.f_dv -> b ∈ [0; 1; 2]%nat) /\
    (front ∉ rpoSortAddDVs Demo.f_dv -> dv = rpoSortAddDVs Demo.f_dv).
Proof.
  exact (order_blocks_permutation Demo.f_dv [0; 1; 2]%nat Demo.f_dv eq_refl).
Defined.

Lemma order_blocks_entry_witness :
  let f := Demo.f_nop in
  let order := fst (Demo.layout_of f) in
  let f' := snd (Demo.layout_of f) in
  exists front blk,
    head order = Some front /\ blocks f !! front = Some blk /\
    blocks f' !! front
    = Some (if is_single_nop blk then set_hhbcs blk [EntryNop] else blk) /\
    (forall b, b <> front -> blocks f' !! b = blocks f !! b) /\
    length (blocks f') = length (blocks f) /\
    func_name f' = func_name f /\ locals f' = locals f /\
    params f' = params f /\ srcLocs f' = srcLocs f /\
    (is_single_nop blk = false -> f' = f).
Proof.
  apply (order_blocks_entry Demo.f_nop). vm_compute. reflexivity.
Defined.

(** ** Exception trees *)

Section ExnTrees.

Context {tbl : OpcodeTable} {cfg : Cfg}.

Lemma ExnNode_chain_ind (P : ExnNode -> Prop) :
  (forall i d inf, P (mkExnNode i d None inf)) ->
  (forall i d p inf, P p -> P (mkExnNode i d (Some p) inf)) ->
  forall n, P n.
Proof.
  intros H0 H1. fix IH 1. intros [i d [p|] inf].
  - apply H1, IH.
  - apply H0.
Qed.

Lemma handleEquivalent_loop_refl n : handleEquivalent_loop n n = Ok true.
Proof.
  induction n as [i d inf|i d p inf IH] using ExnNode_chain_ind; simpl;
    by rewrite bool_decide_eq_true_2.
Qed.

Lemma bool_decide_eq_sym {A : Type} `{EqDecision A} (x y : A) :
  bool_decide (x = y) = bool_decide (y = x).
Proof. apply bool_decide_ext. split; congruence. Qed.

Lemma handleEquivalent_loop_eq n1 n2 :
  handleEquivalent_loop n1 n2
  = if bool_decide (entry n1 = entry n2) then
      match parent n1, parent n2 with
      | None, None => Ok true
      | Some p1, Some p2 => handleEquivalent_loop p1 p2
      | _, _ => Fatal UndefinedBehaviour
      end
    else Ok false.
Proof. by destruct n1 as [? ? [?|] ?], n2 as [? ? [?|] ?]. Qed.

Lemma handleEquivalent_loop_sym n1 :
  forall n2, handleEquivalent_loop n1 n2 = handleEquivalent_loop n2 n1.
Proof.
  induction n1 as [i d inf|i d p inf IH] using ExnNode_chain_ind; intros n2;
    rewrite (handleEquivalent_loop_eq _ n2), (handleEquivalent_loop_eq n2);
    rewrite (bool_decide_eq_sym (entry n2)); cbn [parent];
    destruct (parent n2); try done.
  by rewrite IH.
Qed.

(** X3: [handleEquivalent] is reflexive and symmetric, on null pointers
    too. *)
Theorem handleEquivalent_equiv :
  (forall eh, handleEquivalent eh eh = Ok true) /\
  (forall eh1 eh2, handleEquivalent eh1 eh2 = handleEquivalent eh2 eh1).
Proof.
  split.
  - intros [n|]; simpl; [|done].
    rewrite bool_decide_eq_true_2 by done. apply handleEquivalent_loop_refl.
  - intros [n1|] [n2|]; simpl; try done.
    rewrite (bool_decide_eq_sym (depth n1)).
    by rewrite handleEquivalent_loop_sym.
Qed.

Lemma ascend_to_depth_here n d : depth n <= d -> ascend_to_depth n d = Ok n.
Proof.
  intros Hd. destruct n as [i dn [p|] inf]; simpl in *;
    by rewrite (proj2 (Z.ltb_ge _ _)) by done.
Qed.

(** X4: the common parent of a node and itself is the node: a jump inside
    one region pops no region. *)
Theorem commonParent_self eh : commonParent eh eh = Ok eh.
Proof.
  destruct eh as [n|]; [|done]. unfold commonParent.
  rewrite ascend_to_depth_here by lia. rewrite ascend_to_depth_here by lia.
  assert (handleEquivalent (Some n) (Some n) = Ok true) as H
    by apply handleEquivalent_equiv.
  destruct n as [i d [p|] inf]; unfold commonParent_loop; fold commonParent_loop;
    by rewrite H.
Qed.

Lemma depths_ordered_nonneg n : depths_ordered n = true -> 0 <= depth n.
Proof.
  induction n as [i d inf|i d p inf IH] using ExnNode_chain_ind; simpl.
  - by intros ?%Z.leb_le.
  - intros [Hp%Z.leb_le Ho]%andb_true_iff. specialize (IH Ho). lia.
Qed.

Lemma ascend_to_depth_Ok n d n' :
  ascend_to_depth n d = Ok n' -> depths_ordered n = true ->
  depths_ordered n' = true /\ depth n' <= depth n /\ depth n' <= d.
Proof.
  revert n'. induction n as [i dn inf|i dn p inf IH] using ExnNode_chain_ind;
    intros n'; simpl.
  - destruct (d <? dn) eqn:E; [done|]. intros [= <-] Ho.
    apply Z.ltb_ge in E. simpl. split_and!; [done|lia..].
  - destruct (d <? dn) eqn:E.
    + intros H [Hp%Z.leb_le Ho]%andb_true_iff.
      destruct (IH _ H Ho) as (? & ? & ?). split_and!; [done|lia..].
    + intros [= <-] Ho. apply Z.ltb_ge in E. simpl. split_and!; [done|lia..].
Qed.

Lemma commonParent_loop_Ok n :
  forall e2 q, commonParent_loop n e2 = Ok (Some q) ->
    depths_ordered n = true -> depth q <= depth n.
Proof.
  induction n as [i d inf|i d p inf IH] using ExnNode_chain_ind;
    intros e2 q; unfold commonParent_loop; fold commonParent_loop.
  - destruct (handleEquivalent _ e2) as [[|]|]; [|destruct e2 as [n2|]|done].
    + intros [= <-] _. lia.
    + by destruct (parent n2).
    + done.
  - destruct (handleEquivalent _ e2) as [[|]|]; [|destruct e2 as [n2|]|done].
    + intros [= <-] _. lia.
    + intros H [Hp%Z.leb_le Ho]%andb_true_iff.
      specialize (IH _ _ H Ho). simpl. lia.
    + done.
Qed.

(** X5: in a tree whose depths do not grow towards the root, the common
    parent is not deeper than either node, so the number of regions a jump
    pops, the depth of the block's node minus the depth of the common
    parent, is not negative. *)
Theorem commonParent_depth n1 n2 p :
  commonParent (Some n1) (Some n2) = Ok p ->
  depths_ordered n1 = true -> 0 <= depth n2 ->
  exn_depth p <= depth n1 /\ exn_depth p <= depth n2 /\
  0 <= depth n2 - exn_depth p.
Proof.
  unfold commonParent. intros H Ho Hn2.
  destruct (ascend_to_depth n1 (depth n2)) as [n1'|] eqn:E1; [|done].
  destruct (ascend_to_depth n2 (depth n1')) as [n2'|] eqn:E2; [|done].
  destruct (ascend_to_depth_Ok _ _ _ E1 Ho) as (Ho' & Hle1 & Hle2).
  destruct p as [q|]; simpl.
  - pose proof (commonParent_loop_Ok _ _ _ H Ho'). lia.
  - pose proof (depths_ordered_nonneg _ Ho). lia.
Qed.

Lemma exn_path_from_snoc n :
  exn_path_from n = exn_path (parent n) ++ [n].
Proof. by destruct n as [i d [p|] inf]. Qed.

(** X6: [exn_path] lists the chain of a node from the root down: it ends
    with the node, its first element has no parent, and every other element
    has its predecessor as parent; the path of a null pointer is empty. *)
Theorem exn_path_chain n :
  exn_path None = [] /\
  last (exn_path (Some n)) = Some n /\
  (forall r, head (exn_path (Some n)) = Some r -> parent r = None) /\
  (forall i a b, exn_path (Some n) !! i = Some a ->
     exn_path (Some n) !! S i = Some b -> parent b = Some a).
Proof.
  split; [done|]. simpl.
  induction n as [i d inf|i d p inf IH] using ExnNode_chain_ind.
  - split_and!; [done|by intros r [= <-]|]. by intros [|k] a b.
  - destruct IH as (Hlast & Hhead & Hchain).
    change (exn_path_from (mkExnNode i d (Some p) inf))
      with (exn_path_from p ++ [mkExnNode i d (Some p) inf]).
    split_and!.
    + by rewrite last_snoc.
    + intros r Hr. apply Hhead.
      destruct (exn_path_from p); [done|by simpl in *].
    + intros k a b Ha Hb.
      destruct (decide (S k < length (exn_path_from p))%nat) as [Hlt|Hge].
      * rewrite lookup_app_l in Ha, Hb by lia. by eapply Hchain.
      * apply lookup_lt_Some in Hb as Hb'. rewrite length_app in Hb'.
        simpl in Hb'.
        assert (S k = length (exn_path_from p)) as Hk by lia.
        rewrite lookup_app_r in Hb by lia.
        rewrite Hk, Nat.sub_diag in Hb. injection Hb as <-.
        rewrite lookup_app_l in Ha by lia.
        rewrite last_lookup, <- Hk in Hlast. simpl in Hlast.
        simpl. congruence.
Qed.

(** X7: [shared_prefix] is the length of the longest common prefix of two
    node lists: the lists agree on that many nodes and differ at the next
    position, if both have one. *)
Theorem shared_prefix_spec r1 r2 :
  (shared_prefix r1 r2 <= length r1)%nat /\
  (shared_prefix r1 r2 <= length r2)%nat /\
  map exn_id (take (shared_prefix r1 r2) r1)
  = map exn_id (take (shared_prefix r1 r2) r2) /\
  (forall a b, r1 !! shared_prefix r1 r2 = Some a ->
     r2 !! shared_prefix r1 r2 = Some b -> exn_id a <> exn_id b).
Proof.
  revert r2. induction r1 as [|a r1 IH]; intros [|b r2]; simpl;
    try (split_and!; [lia|lia|done|done]).
  destruct (Nat.eqb (exn_id a) (exn_id b)) eqn:E.
  - apply Nat.eqb_eq in E. destruct (IH r2) as (H1 & H2 & H3 & H4).
    simpl. split_and!; [lia|lia|by rewrite E, H3|done].
  - apply Nat.eqb_neq in E. simpl.
    split_and!; [lia|lia|done|]. by intros ?? [= <-] [= <-].
Qed.

End ExnTrees.

Lemma commonParent_depth_witness :
  exn_depth (Some Demo.exn_fault) <= depth Demo.exn_catch /\
  exn_depth (Some Demo.exn_fault) <= depth Demo.exn_fault /\
  0 <= depth Demo.exn_fault - exn_depth (Some Demo.exn_fault).
Proof.
  apply (commonParent_depth Demo.exn_catch Demo.exn_fault
           (Some Demo.exn_fault)).
  - vm_compute. reflexivity.
  - vm_compute. reflexivity.
  - vm_compute. discriminate.
Defined.

(** ** More about local ids *)

Section LocalIdsMore.

Context {tbl : OpcodeTable} {cfg : Cfg}.

(** X8: what [map_local] does after [emit_init_func]: out of range it reads
    past the vector, on a killed local it fails its assertion, and on a live
    local it returns the number of live locals before it and never fails
    the check [loc.id <= id]. *)
Theorem map_local_outcome f id :
  map_local (emit_init_func f) id
  = match locals f !! N.to_nat id with
    | None => Fatal UndefinedBehaviour
    | Some loc =>
        if killed loc then Fatal AssertionFailed
        else Ok (live_before (locals f) (N.to_nat id))
    end.
Proof.
  destruct (locals f !! N.to_nat id) as [loc|] eqn:E.
  - destruct (killed loc) eqn:Hk; [|by apply (map_local_init f id loc)].
    unfold map_local, emit_init_func. simpl.
    rewrite (assign_local_ids_lookup _ _ _ _ E). simpl. by rewrite Hk.
  - unfold map_local, emit_init_func. simpl.
    destruct (assign_local_ids 0 (locals f) !! N.to_nat id) as [loc'|] eqn:E';
      [|done].
    apply assign_local_ids_lookup_inv in E' as (loc & Hl & _). congruence.
Qed.

Lemma live_before_reach ls v :
  (v < live_before ls (length ls))%N ->
  exists i loc, ls !! i = Some loc /\ killed loc = false /\
    live_before ls i = v.
Proof.
  revert v. induction ls as [|l ls IH]; intros v; simpl; [lia|].
  destruct (killed l) eqn:Hk.
  - intros Hv. destruct (IH v ltac:(lia)) as (i & loc & Hi & Hl & Hb).
    exists (S i), loc. simpl. rewrite Hk. split_and!; [done..|lia].
  - intros Hv. destruct (decide (v = 0%N)) as [->|Hne].
    + exists O, l. by split_and!.
    + destruct (IH (v - 1)%N ltac:(lia)) as (i & loc & Hi & Hl & Hb).
      exists (S i), loc. simpl. rewrite Hk. split_and!; [done..|lia].
Qed.

(** X9: after [emit_init_func] the ids of the live locals are dense:
    distinct live locals get distinct ids, every id is below the number of
    live locals, and every number below it is the id of a live local. *)
Theorem local_ids_dense f :
  (forall id1 id2 v,
     map_local (emit_init_func f) id1 = Ok v ->
     map_local (emit_init_func f) id2 = Ok v -> id1 = id2) /\
  (forall id v,
     map_local (emit_init_func f) id = Ok v ->
     (v < live_before (locals f) (length (locals f)))%N) /\
  (forall v,
     (v < live_before (locals f) (length (locals f)))%N ->
     exists id, map_local (emit_init_func f) id = Ok v).
Proof.
  assert (forall id v, map_local (emit_init_func f) id = Ok v ->
            (live_before (locals f) (S (N.to_nat id)) = v + 1)%N) as Hnext.
  { intros id v (loc & Hl & Hk & ->)%map_local_init_inv.
    by apply live_before_S with loc. }
  split_and!.
  - intros id1 id2 v H1 H2.
    pose proof (Hnext _ _ H1) as E1. pose proof (Hnext _ _ H2) as E2.
    apply map_local_init_inv in H1 as (_ & _ & _ & V1).
    apply map_local_init_inv in H2 as (_ & _ & _ & V2).
    destruct (decide (N.to_nat id1 = N.to_nat id2)) as [|Hne]; [lia|].
    exfalso. destruct (decide (N.to_nat id1 < N.to_nat id2)%nat).
    + pose proof (live_before_mono (locals f) (S (N.to_nat id1)) (N.to_nat id2)
                    ltac:(lia)). lia.
    + pose proof (live_before_mono (locals f) (S (N.to_nat id2)) (N.to_nat id1)
                    ltac:(lia)). lia.
  - intros id v H. pose proof (Hnext _ _ H) as E.
    apply map_local_init_inv in H as (loc & Hl & _ & _).
    apply lookup_lt_Some in Hl.
    pose proof (live_before_mono (locals f) (S (N.to_nat id))
                  (length (locals f)) ltac:(lia)). lia.
  - intros v (i & loc & Hi & Hk & <-)%live_before_reach.
    exists (N.of_nat i). rewrite map_local_outcome, Nat2N.id, Hi, Hk. done.
Qed.

End LocalIdsMore.

(** ** The order of the exception regions *)

Section RegionOrderMore.

Context {tbl : OpcodeTable} {cfg : Cfg}.

(** X10: in an arena where parents precede their children, the comparator
    of the region sort is a strict order: irreflexive, asymmetric and
    transitive; and whenever the debug build of the comparator returns, it
    returns what the release build returns. *)
Theorem eh_less_strict_order arena :
  wf_arena arena ->
  (forall a, eh_less arena a a = false) /\
  (forall a b, eh_less arena a b = true -> eh_less arena b a = false) /\
  (forall a b c, eh_less arena a b = true -> eh_less arena b c = true ->
     eh_less arena a c = true) /\
  (forall a b v, eh_compare arena a b = Ok v -> v = eh_less arena a b).
Proof.
  intros Hwf. split_and!.
  - apply eh_less_irrefl.
  - intros a b. by apply eh_less_asym.
  - intros a b c. by apply eh_less_trans.
  - apply eh_compare_Ok.
Qed.

End RegionOrderMore.

Lemma eh_less_strict_order_witness :
  let arena := [mkEHRegion Demo.exn_fault None 0 20;
                mkEHRegion Demo.exn_catch (Some 0%nat) 0 20] in
  (forall a, eh_less arena a a = false) /\
  (forall a b, eh_less arena a b = true -> eh_less arena b a = false) /\
  (forall a b c, eh_less arena a b = true -> eh_less arena b c = true ->
     eh_less arena a c = true) /\
  (forall a b v, eh_compare arena a b = Ok v -> v = eh_less arena a b).
Proof.
  apply eh_less_strict_order.
  intros r reg p Hr Hp. destruct r as [|[|r]]; simpl in Hr; [| |done].
  - injection Hr as <-. discriminate Hp.
  - injection Hr as <-. injection Hp as <-. lia.
Defined.

(** ** What an instruction leaves alone *)

Section Steady.

Context {tbl : OpcodeTable} {cfg : Cfg}.

Lemma steady_refl s : steady s s.
Proof.
  split_and!; [exists []; by rewrite app_nil_r|done|done|].
  intros T info fx HT Hfx. left. by exists info.
Qed.

Lemma steady_bcPos s s' : steady s s' -> bcPos (ue s) <= bcPos (ue s').
Proof. intros ([bs Hb] & _). unfold bcPos. rewrite Hb, length_app. lia. Qed.

Lemma steady_trans s1 s2 s3 : steady s1 s2 -> steady s2 s3 -> steady s1 s3.
Proof.
  intros H12 H23.
  pose proof (steady_bcPos _ _ H12) as P12.
  pose proof (steady_bcPos _ _ H23) as P23.
  destruct H12 as ([bs1 Hb1] & Hv1 & Ho1 & Hf1).
  destruct H23 as ([bs2 Hb2] & Hv2 & Ho2 & Hf2).
  split_and!.
  - exists (bs1 ++ bs2). by rewrite Hb2, Hb1, app_assoc.
  - congruence.
  - congruence.
  - intros T info3 fx HT Hfx.
    destruct (Hf2 _ _ _ HT Hfx) as [(info2 & HT2 & Hfx2)|[Hlo Hhi]].
    + destruct (Hf1 _ _ _ HT2 Hfx2) as [?|[Hlo Hhi]]; [by left|].
      right. lia.
    + right. lia.
Qed.

(** A change that appends to the stream and leaves the block table and the
    layout alone. *)
Lemma steady_plain s s' bs :
  m_bc (ue s') = m_bc (ue s) ++ bs ->
  blockInfo (ret s') = blockInfo (ret s) ->
  blockOrder (ret s') = blockOrder (ret s) -> steady s s'.
Proof.
  intros Hb Hi Ho. split_and!; [by exists bs| |done|].
  - unfold range_view. by rewrite Hi.
  - intros T info fx HT Hfx. left. exists info. by rewrite <- Hi.
Qed.

Lemma steady_same s s' :
  m_bc (ue s') = m_bc (ue s) ->
  blockInfo (ret s') = blockInfo (ret s) ->
  blockOrder (ret s') = blockOrder (ret s) -> steady s s'.
Proof. intros Hb. apply (steady_plain s s' []). by rewrite app_nil_r. Qed.

Lemma steady_sink bs s s' : sink_appends bs s s' -> steady s s'.
Proof. intros (u & -> & Hu). by apply (steady_plain _ _ bs). Qed.

Lemma range_view_set_block id info info' s :
  blockInfo (ret s) !! id = Some info ->
  offset info' = offset info -> past info' = past info ->
  regionsToPop info' = regionsToPop info ->
  range_view (set_block id info' s) = range_view s.
Proof.
  intros Hid Ho Hp Hr. unfold range_view.
  change (blockInfo (ret (set_block id info' s)))
    with (<[id := info']> (blockInfo (ret s))).
  rewrite list_fmap_insert, Ho, Hp, Hr.
  apply list_insert_id. rewrite list_lookup_fmap.
  unfold BlockId in *. by rewrite Hid.
Qed.

(** A change of one entry of the block table that keeps its place in the
    stream and its fixups. *)
Lemma steady_set_block id info info' s :
  blockInfo (ret s) !! id = Some info ->
  offset info' = offset info -> past info' = past info ->
  regionsToPop info' = regionsToPop info ->
  forwardJumps info' = forwardJumps info ->
  steady s (set_block id info' s).
Proof.
  intros Hid Ho Hp Hr Hf.
  split_and!; [exists []; by rewrite app_nil_r| |done|].
  - by apply (range_view_set_block id info).
  - intros T i fx HT Hfx. left. simpl in HT.
    destruct (decide (T = id)) as [->|Hne].
    + rewrite list_lookup_insert_eq in HT by (by eapply lookup_lt_Some).
      injection HT as <-. exists info. by rewrite <- Hf.
    + rewrite list_lookup_insert_ne in HT by done. by exists i.
Qed.

Lemma steady_after_expect id info s :
  blockInfo (ret s) !! id = Some info -> steady s (after_expect id info s).
Proof.
  intros Hid. unfold after_expect.
  apply (steady_trans _ (log (EvExpect id (currentStackDepth s)
                                (fpiStack_size s)) s)).
  - by apply steady_same.
  - by apply (steady_set_block id info).
Qed.

Lemma steady_expect id s s' :
  set_expected_depth id s = Ok (tt, s') -> steady s s'.
Proof.
  intros (info & Hid & _ & _ & ->)%set_expected_depth_Ok.
  by apply steady_after_expect.
Qed.

Lemma steady_branch so id s s' :
  emit_branch so id s = Ok (tt, s') -> steady s s'.
Proof.
  intros (info & Hid & _ & _ & H)%emit_branch_Ok. cbv zeta in H.
  pose proof (steady_after_expect id info s Hid) as H1.
  eapply steady_trans; [exact H1|].
  remember (after_expect id info s) as s1 eqn:E1.
  remember (expect_info (currentStackDepth s) (fpiStack_size s) info)
    as info1 eqn:Ei1.
  assert (blockInfo (ret s1) !! id = Some info1) as Hid1.
  { subst s1 info1. simpl. apply list_lookup_insert_eq.
    by eapply lookup_lt_Some. }
  assert (ue s1 = ue s) as Hue by (by subst s1).
  destruct H as [[_ ->]|[_ ->]].
  - apply (steady_plain _ _ (int32_bytes (offset info - so)));
      [by rewrite <- Hue|done..].
  - split_and!; [exists (int32_bytes 0); simpl; by rewrite Hue| |done|].
    + unfold range_view.
      change (blockInfo (ret (set_ue (emitInt32 0 (ue s))
                (set_block id
                   (push_forwardJump (mkJmpFixup so (bcPos (ue s))) info1)
                   (log (EvBranch so (bcPos (ue s)) id) s1)))))
        with (<[id := push_forwardJump (mkJmpFixup so (bcPos (ue s))) info1]>
                (blockInfo (ret s1))).
      rewrite list_fmap_insert. apply list_insert_id.
      rewrite list_lookup_fmap. unfold BlockId in *. by rewrite Hid1.
    + intros T i fx HT Hfx. simpl in HT.
      destruct (decide (T = id)) as [->|Hne].
      * rewrite list_lookup_insert_eq in HT by (by eapply lookup_lt_Some).
        injection HT as <-. simpl in Hfx.
        apply elem_of_app in Hfx as [Hfx|Hfx]; [left; by exists info1|].
        apply list_elem_of_singleton in Hfx as ->. right. simpl.
        rewrite Hue. unfold bcPos. simpl. rewrite length_app. simpl. lia.
      * rewrite list_lookup_insert_ne in HT by done. left. by exists i.
Qed.

Lemma steady_imm_steps so s s' : imm_steps so s s' -> steady s s'.
Proof.
  induction 1 as [|s1 s2 s3 Hstep _ IH]; [apply steady_refl|].
  eapply steady_trans; [|done]. destruct Hstep.
  - by eapply steady_sink.
  - by eapply steady_branch.
Qed.

Lemma steady_for_each {A : Type} (l : list A) (body : A -> M unit) s s' :
  (forall a s s', body a s = Ok (tt, s') -> steady s s') ->
  for_each l body s = Ok (tt, s') -> steady s s'.
Proof.
  intros Hbody. apply (for_each_rel steady).
  - apply steady_refl.
  - apply steady_trans.
  - intros. by eapply Hbody.
Qed.

Lemma steady_pop n s s' : pop n s = Ok (tt, s') -> steady s s'.
Proof. intros [-> _]%pop_Ok. by apply steady_same. Qed.

Lemma steady_push n s s' : push n s = Ok (tt, s') -> steady s s'.
Proof. intros [-> _]%push_Ok. by apply steady_same. Qed.

Lemma steady_end_fpi off s s' : end_fpi off s = Ok (tt, s') -> steady s s'.
Proof. intros (? & ? & _ & ->)%end_fpi_Ok. by apply steady_same. Qed.

Lemma steady_defcls b so inst s s' :
  when b (defcls so inst) s = Ok (tt, s') -> steady s s'.
Proof.
  intros [[_ [_ ->]%defcls_Ok]|[_ ->]]%when_Ok; [by apply steady_same|].
  apply steady_refl.
Qed.

Lemma steady_tail f so inst s7 s' :
  emit_srcloc f so inst
    (let s8 := if op_TF (op inst) then set_currentStackDepth 0 s7 else s7 in
     if is_call_op (op inst)
     then set_ret (set_containsCalls true (ret s8)) s8 else s8)
    = Ok (tt, s') ->
  steady s7 s'.
Proof.
  intros H%emit_srcloc_Ok%steady_sink.
  eapply steady_trans; [|exact H]. cbv zeta.
  destruct (op_TF (op inst)), (is_call_op (op inst)); by apply steady_same.
Qed.

Lemma steady_emit_inst f inst s s' :
  emit_inst f inst s = Ok (tt, s') -> steady s s'.
Proof.
  intros H.
  assert (steady s (inst_begin s)) as Mb by (by apply steady_same).
  apply emit_inst_Ok in H as [[_ ->]|[_ H]]; [done|].
  apply emit_opcode_Ok in H
    as (s1 & s2 & s3 & s4 & s5 & s6 & s7 & H1 & H2 & _ & _
        & H3 & H4 & H5 & H6 & H7 & H8).
  apply steady_tail in H8.
  eapply steady_trans; [exact Mb|].
  eapply steady_trans; [by eapply steady_defcls|].
  eapply steady_trans; [by eapply steady_defcls|].
  eapply (steady_trans _ (op_emitted inst s2));
    [by eapply (steady_plain _ _ [byte_at 0 (op_byte (op inst))])|].
  eapply steady_trans; [by eapply (steady_for_each _ _ _ _ steady_pop), H3|].
  eapply steady_trans; [by eapply (steady_for_each _ _ _ _ steady_push), H4|].
  eapply steady_trans.
  { eapply steady_imm_steps, for_each_steps; [|exact H5].
    intros. by eapply emit_imm_steps. }
  eapply (steady_trans _ s6).
  { apply when_Ok in H6 as [[_ ->%fpush_Ok]|[_ ->]]; [by apply steady_same|].
    apply steady_refl. }
  eapply (steady_trans _ s7); [|done].
  apply when_Ok in H7 as [[_ H7]|[_ ->]]; [by eapply steady_end_fpi|].
  apply steady_refl.
Qed.

(** X11: emitting an instruction only appends to the stream: the bytes
    written before stay as they are; no block's offset, past or
    [regionsToPop] changes; the block order stays; and every fixup the
    instruction records points at four of the bytes it appended. *)
Theorem emit_inst_appends f inst s s' :
  emit_inst f inst s = Ok (tt, s') ->
  take (length (m_bc (ue s))) (m_bc (ue s')) = m_bc (ue s) /\
  bcPos (ue s) <= bcPos (ue s') /\
  (forall b, (fun i => (offset i, past i, regionsToPop i)) <$> (blockInfo (ret s') !! b)
             = (fun i => (offset i, past i, regionsToPop i)) <$> (blockInfo (ret s) !! b)) /\
  blockOrder (ret s') = blockOrder (ret s) /\
  (forall T info' fx,
     blockInfo (ret s') !! T = Some info' -> fx ∈ forwardJumps info' ->
     (exists info, blockInfo (ret s) !! T = Some info /\
                   fx ∈ forwardJumps info) \/
     (bcPos (ue s) <= jmpImmedOff fx /\ jmpImmedOff fx + 4 <= bcPos (ue s'))).
Proof.
  intros H%steady_emit_inst. pose proof (steady_bcPos _ _ H) as Hpos.
  destruct H as ([bs Hb] & Hv & Ho & Hf).
  split_and!; [|done| |done|done].
  - by rewrite Hb, take_app_length.
  - intros b. unfold range_view in Hv. by rewrite <- !list_lookup_fmap, Hv.
Qed.

End Steady.

Lemma emit_inst_appends_witness :
  let s := enter_func Demo.f_branch [0; 1; 2]%nat Demo.state0 in
  let inst := Demo.bc Demo.Jmp [BA 2%nat] in
  let s' := Demo.final (emit_inst Demo.f_branch inst s) in
  take (length (m_bc (ue s))) (m_bc (ue s')) = m_bc (ue s) /\
  bcPos (ue s) <= bcPos (ue s') /\
  (forall b, (fun i => (offset i, past i, regionsToPop i)) <$> (blockInfo (ret s') !! b)
             = (fun i => (offset i, past i, regionsToPop i)) <$> (blockInfo (ret s) !! b)) /\
  blockOrder (ret s') = blockOrder (ret s) /\
  (forall T info' fx,
     blockInfo (ret s') !! T = Some info' -> fx ∈ forwardJumps info' ->
     (exists info, blockInfo (ret s) !! T = Some info /\
                   fx ∈ forwardJumps info) \/
     (bcPos (ue s) <= jmpImmedOff fx /\ jmpImmedOff fx + 4 <= bcPos (ue s'))).
Proof.
  apply (emit_inst_appends Demo.f_branch (Demo.bc Demo.Jmp [BA 2%nat])).
  vm_compute. reflexivity.
Defined.

(** ** Earlier bytes *)

Section EarlierBytes.

Context {tbl : OpcodeTable} {cfg : Cfg}.

Lemma kept_steady start bc0 s s' :
  kept start bc0 s -> steady s s' -> kept start bc0 s'.
Proof.
  intros (Hstart & Htake & Hfix) Hst.
  pose proof (steady_bcPos _ _ Hst) as Hpos.
  destruct Hst as ([bs Hb] & _ & _ & Hf).
  split_and!; [lia| |].
  - rewrite Hb, take_app_le; [done|]. unfold bcPos in Hstart. lia.
  - intros T info fx HT Hfx.
    destruct (Hf _ _ _ HT Hfx) as [(info0 & HT0 & Hfx0)|[Hlo _]]; [|lia].
    by eapply Hfix.
Qed.

Lemma kept_mild start bc0 s s' :
  kept start bc0 s -> mild s s' -> kept start bc0 s'.
Proof.
  intros (Hstart & Htake & Hfix) Hm.
  pose proof (mild_bcPos _ _ Hm) as Hpos.
  destruct Hm as ([bs Hb] & Hv & _).
  split_and!; [lia| |].
  - rewrite Hb, take_app_le; [done|]. unfold bcPos in Hstart. lia.
  - intros T info' fx HT Hfx.
    destruct (jump_view_lookup s s' T info' Hv HT) as (info & HT0 & _ & Hf).
    apply (Hfix T info); [done|]. by rewrite Hf.
Qed.

Lemma apply_fixups_take off fj u u' n :
  apply_fixups off fj u = Ok u' ->
  (forall fx, fx ∈ fj -> Z.of_nat n <= jmpImmedOff fx) ->
  take n (m_bc u') = take n (m_bc u).
Proof.
  revert u. induction fj as [|fx fj IH]; intros u H Hfj.
  - by injection H as <-.
  - simpl in H. apply res_bind_Ok in H as (u1 & H1 & H).
    apply emitInt32_at_Ok in H1 as (H0 & H4 & Hb).
    rewrite (IH u1 H) by (intros; apply Hfj, elem_of_cons; by right).
    rewrite Hb. unfold overwrite.
    assert (Z.of_nat n <= jmpImmedOff fx) as Hn
      by (apply Hfj, elem_of_cons; by left).
    rewrite take_app_le by (rewrite length_take; unfold bcPos in H4; lia).
    rewrite take_take. f_equal. lia.
Qed.

Lemma kept_block_begin start bc0 b info u s :
  kept start bc0 s -> blockInfo (ret s) !! b = Some info ->
  apply_fixups (bcPos (ue s)) (forwardJumps info) (ue s) = Ok u ->
  kept start bc0 (block_begin_state b info u s).
Proof.
  intros (Hstart & Htake & Hfix) Hinfo Hu.
  pose proof (apply_fixups_length _ _ _ _ Hu) as Hlen.
  unfold kept. change (ue (block_begin_state b info u s)) with u.
  split_and!; [lia| |].
  - destruct (decide (0 <= start)) as [H0|H0].
    + rewrite (apply_fixups_take _ _ _ _ _ Hu); [done|].
      intros fx Hfx. rewrite Z2Nat.id by done. by eapply Hfix.
    + replace (Z.to_nat start) with O in * by lia. done.
  - intros T i fx HT Hfx. simpl in HT.
    destruct (decide (T = b)) as [->|Hne].
    + rewrite list_lookup_insert_eq in HT by (by eapply lookup_lt_Some).
      injection HT as <-. by eapply Hfix.
    + rewrite list_lookup_insert_ne in HT by done. by eapply Hfix.
Qed.

Lemma kept_block_end start bc0 f b blk next s s' :
  kept start bc0 s -> block_end f b blk next s s' -> kept start bc0 s'.
Proof.
  intros Hs (info & Hinfo & H). cbv zeta in H.
  remember (set_block b (set_past (bcPos (ue s)) info) s) as s9 eqn:E9.
  assert (mild s s9) as M9.
  { subst s9. apply mild_same; [done| |done].
    by apply (jump_view_set_block b info). }
  pose proof (kept_mild _ _ _ _ Hs M9) as Hs9.
  destruct (fallthrough blk) as [ft|]; [|by subst s'].
  destruct H as (s10 & H10 & H).
  pose proof (kept_steady _ _ _ _ Hs9 (steady_expect _ _ _ H10)) as Hs10.
  destruct (bool_decide (next <> Some ft)); [|by subst s'].
  destruct H as (s11 & info11 & k & H11 & Hinfo11 & _ & ->).
  pose proof (kept_steady _ _ _ _ Hs10 (steady_emit_inst _ _ _ _ H11)) as Hs11.
  eapply kept_mild; [exact Hs11|].
  apply mild_same; [done| |done].
  by apply (jump_view_set_block b info11).
Qed.

Lemma kept_emit_block start bc0 f b next s s' :
  kept start bc0 s -> emit_block f b next s = Ok (tt, s') ->
  kept start bc0 s'.
Proof.
  intros Hs
    (blk & info & u & s6 & s8 & Hblk & Hinfo & Hu & Hle & H6 & H8 & Hend)%emit_block_Ok.
  pose proof (kept_block_begin _ _ _ _ _ _ Hs Hinfo Hu) as Hs0.
  apply repeat_end_fpi_Ok in H6 as (closed & rest & _ & _ & ->).
  eapply kept_block_end; [|exact Hend].
  eapply kept_steady;
    [|exact (steady_for_each _ _ _ _ (steady_emit_inst f) H8)].
  eapply kept_steady; [exact Hs0|]. by apply steady_same.
Qed.

Lemma kept_emit_blocks start bc0 f order s s' :
  kept start bc0 s -> emit_blocks f order s = Ok (tt, s') ->
  kept start bc0 s'.
Proof.
  revert s. induction order as [|b order IH]; intros s Hs H.
  - by apply mret_Ok in H as [_ ->].
  - simpl in H. apply bind_Ok in H as ([] & s1 & H1 & H).
    eapply IH; [|done]. by eapply kept_emit_block.
Qed.

(** X12: [emit_bytecode] leaves what was in the stream alone: the bytes of
    the functions emitted before are the same afterwards, the stream has not
    become shorter, and every fixup the function recorded lies in its own
    bytes. *)
Theorem emit_bytecode_keeps_prefix f s r f' s' :
  emit_bytecode f s = Ok ((r, f'), s') ->
  take (length (m_bc (ue s))) (m_bc (ue s')) = m_bc (ue s) /\
  bcPos (ue s) <= bcPos (ue s') /\
  (forall T info fx, blockInfo r !! T = Some info -> fx ∈ forwardJumps info ->
     bcPos (ue s) <= jmpImmedOff fx).
Proof.
  intros (order & s1 & _ & Hblocks & Hfinal & ->)%emit_bytecode_Ok.
  assert (kept (bcPos (ue s)) (m_bc (ue s)) (enter_func f' order s)) as H0.
  { split_and!; [simpl; lia| |].
    - simpl. unfold bcPos. by rewrite Nat2Z.id, firstn_all.
    - intros T info fx HT. simpl in HT.
      apply lookup_replicate in HT as [-> _]. intros Hfx.
      by apply elem_of_nil in Hfx. }
  pose proof (kept_emit_blocks _ _ _ _ _ _ H0 Hblocks) as H1.
  assert (kept (bcPos (ue s)) (m_bc (ue s)) s') as (Hpos & Htake & Hfix).
  { eapply kept_steady; [exact H1|].
    apply repeat_end_fpi_Ok in Hfinal as (closed & rest & _ & _ & ->).
    by apply steady_same. }
  split_and!; [|done|done].
  unfold bcPos in Htake. by rewrite Nat2Z.id in Htake.
Qed.

End EarlierBytes.

Lemma emit_bytecode_keeps_prefix_witness :
  let s := Demo.after_dv in
  let s' := Demo.final (emit_bytecode Demo.f_branch s) in
  let r := fst (Demo.result_from s Demo.f_branch) in
  take (length (m_bc (ue s))) (m_bc (ue s')) = m_bc (ue s) /\
  bcPos (ue s) <= bcPos (ue s') /\
  (forall T info fx, blockInfo r !! T = Some info -> fx ∈ forwardJumps info ->
     bcPos (ue s) <= jmpImmedOff fx).
Proof.
  apply (emit_bytecode_keeps_prefix Demo.f_branch Demo.after_dv
           (fst (Demo.result_from Demo.after_dv Demo.f_branch))
           (snd (Demo.result_from Demo.after_dv Demo.f_branch))).
  vm_compute. reflexivity.
Defined.

(** ** The layout of the blocks *)

Section BlockLayout.

Context {tbl : OpcodeTable} {cfg : Cfg}.

Lemma ranges_same start hi D r r' :
  (forall b, b ∈ D -> block_range r' b = block_range r b) ->
  ranges start hi D r -> ranges start hi D r'.
Proof.
  intros Hsame (H1 & H2 & H3). split_and!.
  - intros b Hb. rewrite Hsame by done. by apply H1.
  - intros i b b' o p o' p' Hi Hi'.
    rewrite (Hsame b) by (by apply (list_elem_of_lookup_2 D i)).
    rewrite (Hsame b') by (by apply (list_elem_of_lookup_2 D (S i))).
    by apply (H2 i).
  - intros b o p Hb. rewrite Hsame; [by apply H3|].
    destruct D; [done|]. injection Hb as ->. apply elem_of_cons. by left.
Qed.

Lemma ranges_hi start hi hi' D r :
  hi <= hi' -> ranges start hi D r -> ranges start hi' D r.
Proof.
  intros Hle (H1 & H2 & H3). split_and!; [|done..].
  intros b Hb. destruct (H1 _ Hb) as (o & p & ? & ? & ? & ?).
  exists o, p. split_and!; [done..|lia].
Qed.

Lemma block_range_steady s s' b :
  steady s s' -> block_range (ret s') b = block_range (ret s) b.
Proof.
  intros (_ & Hv & _). unfold block_range.
  assert (range_view s' !! b = range_view s !! b) as H by (by rewrite Hv).
  unfold range_view in H. rewrite !list_lookup_fmap in H. unfold BlockId in *.
  destruct (blockInfo (ret s') !! b), (blockInfo (ret s) !! b);
    simpl in *; congruence.
Qed.

Lemma lay_steady order len start hi D s s' :
  lay order len start hi D s -> steady s s' -> lay order len start hi D s'.
Proof.
  intros (Ho & Hl & Hhi & Hr) Hst.
  pose proof (steady_bcPos _ _ Hst) as Hpos.
  split_and!.
  - destruct Hst as (_ & _ & -> & _). done.
  - destruct Hst as (_ & Hv & _).
    apply (f_equal length) in Hv. unfold range_view in Hv.
    rewrite !length_fmap in Hv. lia.
  - lia.
  - eapply ranges_same; [|exact Hr]. intros b _. by apply block_range_steady.
Qed.

(** A change of the table entry of [b0] that does not move a block of [D]. *)
Lemma lay_set_block order len start hi D b0 info info' s :
  lay order len start hi D s -> blockInfo (ret s) !! b0 = Some info ->
  (b0 ∉ D) \/ (offset info' = offset info /\ past info' = past info) ->
  lay order len start hi D (set_block b0 info' s).
Proof.
  intros (Ho & Hl & Hhi & Hr) Hinfo Hcase.
  split_and!; [done|simpl; by rewrite length_insert|done|].
  eapply ranges_same; [|exact Hr]. intros b Hb. unfold block_range. simpl.
  destruct (decide (b = b0)) as [->|Hne].
  - rewrite list_lookup_insert_eq by (by eapply lookup_lt_Some).
    unfold BlockId in *. rewrite Hinfo. simpl.
    destruct Hcase as [Hn|[-> ->]]; [done|done].
  - by rewrite list_lookup_insert_ne.
Qed.

(** Block [b], which lies at [[o, p)], is done. *)
Lemma ranges_done start hi D b o p r :
  ranges start hi D r -> b ∉ D -> block_range r b = Some (o, p) ->
  hi <= o -> o <= p -> start <= o -> (D = [] -> o = start) ->
  ranges start p (D ++ [b]) r.
Proof.
  intros (H1 & H2 & H3) Hb Hrange Hhi Hop Hstart Hfirst. split_and!.
  - intros b' [Hb'|Hb']%elem_of_app.
    + destruct (H1 _ Hb') as (o' & p' & ? & ? & ? & ?).
      exists o', p'. split_and!; [done..|lia].
    + apply list_elem_of_singleton in Hb' as ->.
      exists o, p. split_and!; [done..|lia].
  - intros i b1 b2 o1 p1 o2 p2 Hi Hi' Hr1 Hr2.
    destruct (decide (S i < length D)%nat) as [Hlt|Hge].
    + rewrite lookup_app_l in Hi, Hi' by lia.
      exact (H2 i b1 b2 o1 p1 o2 p2 Hi Hi' Hr1 Hr2).
    + apply lookup_lt_Some in Hi' as Hlen. rewrite length_app in Hlen.
      simpl in Hlen. assert (S i = length D) as Hk by lia.
      rewrite lookup_app_r in Hi' by lia.
      rewrite Hk, Nat.sub_diag in Hi'. injection Hi' as <-.
      rewrite lookup_app_l in Hi by lia.
      destruct (H1 b1) as (o' & p' & Hr' & ? & ? & ?);
        [by eapply list_elem_of_lookup_2|].
      rewrite Hrange in Hr2. injection Hr2 as <- <-.
      rewrite Hr1 in Hr'. injection Hr' as <- <-. lia.
  - intros b' o' p' Hhead Hr'. destruct D as [|d D]; simpl in Hhead.
    + injection Hhead as <-. rewrite Hrange in Hr'. injection Hr' as <- <-.
      by apply Hfirst.
    + by eapply H3.
Qed.

Lemma lay_emit_block order len start hi D f b next s s' :
  lay order len start hi D s -> b ∉ D -> start <= bcPos (ue s) ->
  (D = [] -> bcPos (ue s) = start) ->
  emit_block f b next s = Ok (tt, s') ->
  exists hi', lay order len start hi' (D ++ [b]) s'.
Proof.
  intros Hlay Hb Hstart Hfirst
    (blk & info & u & s6 & s8 & Hblk & Hinfo & Hu & Hle & H6 & H8 & Hend)%emit_block_Ok.
  pose proof (apply_fixups_length _ _ _ _ Hu) as Hlen.
  set (B := bcPos (ue s)) in *.
  assert (lay order len start B D (block_begin_state b info u s)) as H0.
  { destruct Hlay as (Ho & Hl & Hhi & Hr).
    split_and!; [done|simpl; by rewrite length_insert|simpl; lia|].
    eapply ranges_same; [|exact (ranges_hi _ _ _ _ _ Hhi Hr)]. intros b' Hb'.
    unfold block_range. simpl.
    rewrite list_lookup_insert_ne; [done|]. by intros ->. }
  assert (block_range (ret (block_begin_state b info u s)) b
          = Some (B, past info)) as Hr0.
  { unfold block_range. simpl.
    rewrite list_lookup_insert_eq by (by eapply lookup_lt_Some). done. }
  apply repeat_end_fpi_Ok in H6 as (closed & rest & _ & _ & ->).
  match type of H8 with
  | for_each _ _ ?x = _ =>
      assert (steady (block_begin_state b info u s) x) as S7
        by (by apply steady_same)
  end.
  pose proof (steady_for_each _ _ _ _ (steady_emit_inst f) H8) as S8.
  pose proof (steady_trans _ _ _ S7 S8) as S08. clear S7 S8 H8.
  pose proof (lay_steady _ _ _ _ _ _ _ H0 S08) as H8.
  rewrite <- (block_range_steady _ _ b S08) in Hr0.
  pose proof (steady_bcPos _ _ S08) as Hpos8.
  change (bcPos (ue (block_begin_state b info u s))) with (bcPos u) in Hpos8.
  destruct Hend as (info8 & Hinfo8 & H). cbv zeta in H.
  assert (offset info8 = B) as Ho8.
  { unfold block_range in Hr0. unfold BlockId in *. rewrite Hinfo8 in Hr0.
    simpl in Hr0. congruence. }
  set (P := bcPos (ue s8)) in *.
  remember (set_block b (set_past P info8) s8) as s9 eqn:E9.
  assert (lay order len start P (D ++ [b]) s9) as H9.
  { pose proof (lay_set_block _ _ _ _ _ b info8 (set_past P info8) s8 H8 Hinfo8
                  (or_introl Hb)) as (Ho & Hl & Hhi & Hr).
    rewrite <- E9 in *.
    split_and!; [done|done|subst s9; simpl; lia|].
    apply (ranges_done start B D b B P); [done|done| |lia|lia|lia|done].
    subst s9. unfold block_range. simpl.
    rewrite list_lookup_insert_eq by (by eapply lookup_lt_Some).
    simpl. by rewrite Ho8. }
  exists P.
  destruct (fallthrough blk) as [ft|]; [|by subst s'].
  destruct H as (s10 & H10 & H).
  pose proof (lay_steady _ _ _ _ _ _ _ H9 (steady_expect _ _ _ H10)) as H10'.
  destruct (bool_decide (next <> Some ft)); [|by subst s'].
  destruct H as (s11 & info11 & k & H11 & Hinfo11 & _ & ->).
  pose proof (lay_steady _ _ _ _ _ _ _ H10' (steady_emit_inst _ _ _ _ H11))
    as H11'.
  apply (lay_set_block _ _ _ _ _ b info11); [done|done|by right].
Qed.

Lemma lay_emit_blocks order len start f todo :
  forall hi D s s',
    lay order len start hi D s -> NoDup (D ++ todo) ->
    start <= bcPos (ue s) -> (D = [] -> bcPos (ue s) = start) ->
    emit_blocks f todo s = Ok (tt, s') ->
    exists hi', lay order len start hi' (D ++ todo) s'.
Proof.
  induction todo as [|b todo IH]; intros hi D s s' Hlay Hnd Hstart Hfirst H.
  - apply mret_Ok in H as [_ ->]. exists hi. by rewrite app_nil_r.
  - simpl in H. apply bind_Ok in H as ([] & s1 & H1 & H).
    assert (b ∉ D) as Hb.
    { apply NoDup_app in Hnd as (_ & Hdis & _). intros HbD.
      apply (Hdis b HbD). apply elem_of_cons. by left. }
    destruct (lay_emit_block _ _ _ _ _ _ _ _ _ _ Hlay Hb Hstart Hfirst H1)
      as (hi1 & Hlay1).
    rewrite cons_middle, app_assoc in Hnd |- *.
    apply (IH hi1 (D ++ [b]) s1 s' Hlay1 Hnd); [|by destruct D|done].
    destruct Hlay1 as (_ & _ & Hhi1 & (Hr & _)).
    destruct (Hr b) as (o & p & _ & ? & ? & ?);
      [apply elem_of_app; right; by apply list_elem_of_singleton|]. lia.
Qed.

(** X13: the blocks of a function lie in the stream in the order of the
    layout, one after the other: the result's [blockOrder] is the layout of
    [order_blocks], there is one [BlockInfo] per block, every block of the
    layout starts at or after the start of the function and ends at or
    before its end with [offset <= past], a block ends before the next one
    of the layout starts, and the first block starts where the function
    starts. *)
Theorem block_layout f s r f' s' order :
  emit_bytecode f s = Ok ((r, f'), s') ->
  order_blocks f = Ok (order, f') ->
  NoDup order ->
  blockOrder r = order /\
  length (blockInfo r) = length (blocks f') /\
  (forall b, b ∈ order ->
     exists info, blockInfo r !! b = Some info /\
       bcPos (ue s) <= offset info /\ offset info <= past info /\
       past info <= bcPos (ue s')) /\
  (forall i b b' info info',
     order !! i = Some b -> order !! S i = Some b' ->
     blockInfo r !! b = Some info -> blockInfo r !! b' = Some info' ->
     past info <= offset info') /\
  (forall b info, head order = Some b -> blockInfo r !! b = Some info ->
     offset info = bcPos (ue s)).
Proof.
  intros (order0 & s1 & Hord & Hblocks & Hfinal & ->)%emit_bytecode_Ok
         Hord' Hnd.
  rewrite Hord in Hord'. injection Hord' as ->.
  assert (lay order (length (blocks f')) (bcPos (ue s)) (bcPos (ue s)) []
              (enter_func f' order s)) as H0.
  { split_and!; [done|simpl; by rewrite length_replicate|simpl; lia|].
    split_and!.
    - intros b Hb. by apply elem_of_nil in Hb.
    - intros i b b' o p o' p' Hi. by rewrite lookup_nil in Hi.
    - by intros b o p. }
  destruct (lay_emit_blocks _ _ _ f' order _ [] _ s1 H0 Hnd) as (hi & H1);
    [simpl; lia|done|done|].
  simpl in H1.
  assert (lay order (length (blocks f')) (bcPos (ue s)) hi order s')
    as (Ho & Hl & Hhi & (R1 & R2 & R3)).
  { eapply lay_steady; [exact H1|].
    apply repeat_end_fpi_Ok in Hfinal as (closed & rest & _ & _ & ->).
    by apply steady_same. }
  assert (forall b info, blockInfo (ret s') !! b = Some info ->
            block_range (ret s') b = Some (offset info, past info)) as Hbr.
  { intros b info Hb. unfold block_range. unfold BlockId in *.
    by rewrite Hb. }
  split_and!; [done|done| | |].
  - intros b Hb. destruct (R1 _ Hb) as (o & p & Hr & ? & ? & ?).
    unfold block_range in Hr.
    destruct (blockInfo (ret s') !! b) as [info|] eqn:E; [|done].
    injection Hr as <- <-. exists info. split_and!; [done..|lia].
  - intros i b b' info info' Hi Hi' Hb Hb'.
    by apply (R2 i b b' _ _ _ _ Hi Hi' (Hbr _ _ Hb) (Hbr _ _ Hb')).
  - intros b info Hh Hb. by apply (R3 b _ _ Hh (Hbr _ _ Hb)).
Qed.

End BlockLayout.

Lemma block_layout_witness :
  let s := Demo.after_dv in
  let s' := Demo.final (emit_bytecode Demo.f_branch s) in
  let r := fst (Demo.result_from s Demo.f_branch) in
  let f' := snd (Demo.result_from s Demo.f_branch) in
  let order := [0; 1; 2]%nat in
  blockOrder r = order /\
  length (blockInfo r) = length (blocks f') /\
  (forall b, b ∈ order ->
     exists info, blockInfo r !! b = Some info /\
       bcPos (ue s) <= offset info /\ offset info <= past info /\
       past info <= bcPos (ue s')) /\
  (forall i b b' info info',
     order !! i = Some b -> order !! S i = Some b' ->
     blockInfo r !! b = Some info -> blockInfo r !! b' = Some info' ->
     past info <= offset info') /\
  (forall b info, head order = Some b -> blockInfo r !! b = Some info ->
     offset info = bcPos (ue s)).
Proof.
  apply (block_layout Demo.f_branch Demo.after_dv
           (fst (Demo.result_from Demo.after_dv Demo.f_branch))
           (snd (Demo.result_from Demo.after_dv Demo.f_branch))).
  - vm_compute. reflexivity.
  - vm_compute. reflexivity.
  - apply (bool_decide_eq_true_1 (NoDup [0; 1; 2]%nat)). vm_compute.
    reflexivity.
Defined.

(** ** The functions of a unit *)

Section UnitFunctions.

Context {tbl : OpcodeTable} {cfg : Cfg}.

Lemma emit_bytecode_name f s r f' s' :
  emit_bytecode f s = Ok ((r, f'), s') -> func_name f' = func_name f.
Proof.
  intros (order & s1 & Hord & _)%emit_bytecode_Ok.
  apply order_blocks_Ok in Hord
    as (front & rest & b & l & blk & HM & Ho & Hs & Hb & ->).
  by destruct (is_single_nop blk).
Qed.

Lemma emit_body_names f us us' :
  emit_body f us = Ok us' ->
  map fe_name (funcEmitters us')
  = map fe_name (funcEmitters us) ++ [func_name f] /\
  preClassOffsets us' = preClassOffsets us.
Proof.
  unfold emit_body.
  destruct (emit_bytecode f (us_emit us)) as [[[info f'] s]|] eqn:E; [|done].
  apply emit_bytecode_name in E.
  intros (fe & Hfe & [= <-])%res_bind_Ok. simpl. split; [|done].
  unfold emit_finish_func in Hfe.
  apply res_bind_Ok in Hfe as (offs & Hoffs & Hfe).
  apply res_bind_Ok in Hfe as (t & Ht & [= <-]).
  rewrite map_app. simpl. by rewrite E.
Qed.

Lemma emit_methods_names cls ms :
  forall us us',
    fold_res (fun m us =>
                if negb (needs86cinit cls) && String.eqb (func_name m) s_86cinit
                then Ok us else emit_func m us) ms us = Ok us' ->
    map fe_name (funcEmitters us')
    = map fe_name (funcEmitters us)
      ++ map func_name
           (List.filter (fun m => negb (negb (needs86cinit cls)
                                        && String.eqb (func_name m) s_86cinit))
                        ms) /\
    preClassOffsets us' = preClassOffsets us.
Proof.
  induction ms as [|m ms IH]; intros us us' H.
  - injection H as <-. simpl. by rewrite app_nil_r.
  - simpl in H. apply res_bind_Ok in H as (us1 & H1 & H).
    destruct (IH _ _ H) as [Hn Hp]. rewrite Hn, Hp. simpl.
    destruct (negb (needs86cinit cls) && String.eqb (func_name m) s_86cinit).
    + injection H1 as <-. done.
    + apply emit_body_names in H1 as [Hn1 Hp1]. simpl.
      rewrite Hn1, Hp1, <- app_assoc. done.
Qed.

Lemma emit_class_names cls us us' :
  emit_class cls us = Ok us' ->
  map fe_name (funcEmitters us')
  = map fe_name (funcEmitters us) ++ map func_name (emitted_methods cls) /\
  preClassOffsets us'
  = preClassOffsets us ++ [bcPos (ue (us_emit us))].
Proof.
  unfold emit_class. intros H. by apply emit_methods_names in H as [-> ->].
Qed.

Lemma emit_classes_names cs :
  forall us us',
    fold_res emit_class cs us = Ok us' ->
    map fe_name (funcEmitters us')
    = map fe_name (funcEmitters us)
      ++ concat (map (fun c => map func_name (emitted_methods c)) cs) /\
    length (preClassOffsets us')
    = (length (preClassOffsets us) + length cs)%nat.
Proof.
  induction cs as [|c cs IH]; intros us us' H.
  - injection H as <-. simpl. rewrite app_nil_r. split; [done|lia].
  - simpl in H. apply res_bind_Ok in H as (us1 & H1 & H).
    destruct (IH _ _ H) as [Hn Hp]. rewrite Hn, Hp.
    apply emit_class_names in H1 as [-> ->].
    rewrite length_app. simpl. rewrite <- app_assoc. split; [done|lia].
Qed.

Lemma emit_funcs_names fs :
  forall us us',
    fold_res emit_func fs us = Ok us' ->
    map fe_name (funcEmitters us')
    = map fe_name (funcEmitters us) ++ map func_name fs /\
    preClassOffsets us' = preClassOffsets us.
Proof.
  induction fs as [|f fs IH]; intros us us' H.
  - injection H as <-. simpl. by rewrite app_nil_r.
  - simpl in H. apply res_bind_Ok in H as (us1 & H1 & H).
    destruct (IH _ _ H) as [Hn Hp]. rewrite Hn, Hp.
    apply emit_body_names in H1 as [-> ->]. simpl.
    by rewrite <- app_assoc.
Qed.

(** X14: [emit_unit] makes the function emitters in a fixed order: the
    pseudomain, then the methods of each class in class order, leaving
    [86cinit] out of a class whose constants do not need it, then the
    free functions; and it makes one pre-class per class. *)
Theorem emit_unit_functions u us :
  emit_unit u = Ok us ->
  map fe_name (funcEmitters us)
  = func_name (pseudomain u)
    :: concat (map (fun c => map func_name (emitted_methods c)) (classes u))
    ++ map func_name (funcs u) /\
  length (preClassOffsets us) = length (classes u).
Proof.
  unfold emit_unit. intros (us1 & H1 & H)%res_bind_Ok.
  apply res_bind_Ok in H as (us2 & H2 & H).
  apply res_bind_Ok in H as (us3 & H3 & [= <-]). simpl.
  apply emit_body_names in H1 as [N1 P1].
  apply emit_classes_names in H2 as [N2 P2].
  apply emit_funcs_names in H3 as [N3 P3].
  split.
  - rewrite N3, N2, N1. done.
  - assert (forall m pces, length (set_preclass_offsets m pces) = length pces)
      as Hlen.
    { clear. induction m as [|o m IH]; intros [|p pces]; simpl; try done.
      by rewrite IH. }
    rewrite Hlen, P3, P2, P1. simpl. lia.
Qed.

End UnitFunctions.

Lemma emit_unit_functions_witness :
  let u := Demo.unit_funcs in
  let us := Demo.unit_of u in
  map fe_name (funcEmitters us) = ["branch"; "plain"; "86cinit"; "calls"] /\
  map fe_name (funcEmitters us)
  = func_name (pseudomain u)
    :: concat (map (fun c => map func_name (emitted_methods c)) (classes u))
    ++ map func_name (funcs u) /\
  length (preClassOffsets us) = length (classes u).
Proof.
  split; [vm_compute; reflexivity|].
  apply (emit_unit_functions Demo.unit_funcs). vm_compute. reflexivity.
Defined.

(** ** More about the exception regions *)

Section RegionsMore.

Context {tbl : OpcodeTable} {cfg : Cfg}.

Lemma emit_eh_region_handler arena bis r t t' :
  Forall (handler_ok arena bis) (ehtab t) ->
  emit_eh_region arena r bis t = Ok t' ->
  Forall (handler_ok arena bis) (ehtab t').
Proof.
  intros Ht. unfold emit_eh_region.
  destruct (arena !! r) as [reg|] eqn:Hr; [|done].
  destruct (eh_start reg =? eh_past reg); [by intros [= <-]|].
  destruct (negb (eh_start reg <=? eh_past reg)); [done|].
  destruct (bool_decide (eh_start reg = kInvalidOffset)
            || bool_decide (eh_past reg = kInvalidOffset)); [done|].
  intros (parentIndex & Hpi & H)%res_bind_Ok.
  apply res_bind_Ok in H as ([[[ty entryBlock] iterId] itRef] & Hinfo & H).
  injection Hinfo as Hinfo.
  destruct (bis !! entryBlock) as [bi|] eqn:Hbi; [|done].
  injection H as <-. simpl. apply Forall_app. split; [done|].
  apply List.Forall_cons; [|apply List.Forall_nil].
  exists r, reg, bi. simpl. split_and!; try done.
  - unfold entry. destruct (info (eh_node reg)); by simplify_eq.
  - destruct (info (eh_node reg)); by simplify_eq.
Qed.

(** X15: every entry of the EH table is the entry of a region of the walk:
    it has the region's extent, its handler is the offset of the catch or
    fault entry block of the region's node, its kind and iterator are the
    node's, and its end offset is the invalid offset. *)
Theorem eh_table_handlers f info t :
  emit_ehent_tree f info = Ok t ->
  exists arena regions,
    eh_regions f info = Ok (arena, regions) /\
    Forall (handler_ok arena (blockInfo info)) (ehtab t).
Proof.
  intros (arena & regions & Hreg & Hfold)%emit_ehent_tree_regions.
  exists arena, regions. split; [done|].
  eapply (fold_res_inv (fun t => Forall (handler_ok arena (blockInfo info))
                                        (ehtab t))); [| |exact Hfold].
  - intros r t0 t1. apply emit_eh_region_handler.
  - constructor.
Qed.

Lemma fold_res_inv_elem {A B : Type} (I : A -> Prop)
    (step : B -> A -> Res A) l a a' :
  (forall b a a', b ∈ l -> I a -> step b a = Ok a' -> I a') ->
  I a -> fold_res step l a = Ok a' -> I a'.
Proof.
  revert a. induction l as [|b l IH]; intros a Hstep Ha H.
  - by injection H as <-.
  - simpl in H. apply res_bind_Ok in H as (a1 & H1 & H).
    apply (IH a1); [|eapply Hstep; [apply elem_of_cons; by left|done..]|done].
    intros b' x x' Hb'. apply Hstep. apply elem_of_cons. by right.
Qed.

Lemma pop_active_Ok past st st' :
  pop_active past st = Ok st' ->
  activeList st' = removelast (activeList st) /\ activeList st <> [] /\
  exists r reg, regions_arena st !! r = Some reg /\
    regions_arena st' = <[r := set_eh_past past reg]> (regions_arena st).
Proof.
  unfold pop_active.
  destruct (last (activeList st)) as [p|] eqn:El; [|done].
  destruct (last (exnMap_find (exn_id p) (exnMap st))) as [r|]; [|done].
  destruct (regions_arena st !! r) as [reg|] eqn:Hr; [|done].
  intros [= <-]. simpl. split_and!; [done| |by exists r, reg].
  intros E. by rewrite E in El.
Qed.

Lemma pops_length n past st st' :
  iter_res n (pop_active past) st = Ok st' ->
  (length (activeList st') + n = length (activeList st))%nat.
Proof.
  revert st. induction n as [|n IH]; intros st H.
  - injection H as <-. lia.
  - simpl in H. apply res_bind_Ok in H as (st1 & H1 & H).
    apply IH in H. apply pop_active_Ok in H1 as (Ha & Hne & _).
    rewrite Ha in H.
    destruct (activeList st) as [|a l] using rev_ind; [done|].
    rewrite removelast_last in H. rewrite length_app. simpl. lia.
Qed.

Lemma pop_active_starts f info past st st' :
  Forall (region_starts f info) (regions_arena st) ->
  pop_active past st = Ok st' ->
  Forall (region_starts f info) (regions_arena st').
Proof.
  intros Hall (_ & _ & r & reg & Hr & ->)%pop_active_Ok.
  apply Forall_insert; [done|].
  rewrite Forall_lookup in Hall. exact (Hall _ _ Hr).
Qed.

Lemma push_active_starts f info p start st st' :
  Forall (region_starts f info) (regions_arena st) ->
  region_starts f info (mkEHRegion p None start kInvalidOffset) ->
  push_active p start st = Ok st' ->
  Forall (region_starts f info) (regions_arena st').
Proof.
  intros Hall Hnew. unfold push_active.
  intros (parent & _ & [= <-])%res_bind_Ok. simpl.
  apply Forall_app. split; [done|].
  apply List.Forall_cons; [|apply List.Forall_nil].
  destruct Hnew as (b & blk & bi & ? & ? & ? & ? & ?).
  by exists b, blk, bi.
Qed.

Lemma eh_walk_block_starts f info b st st' :
  b ∈ blockOrder info ->
  Forall (region_starts f info) (regions_arena st) ->
  eh_walk_block f info b st = Ok st' ->
  Forall (region_starts f info) (regions_arena st').
Proof.
  intros Hb Hall. unfold eh_walk_block.
  destruct (blocks f !! b) as [blk|] eqn:Hblk; [|done].
  destruct (blockInfo info !! b) as [bi|] eqn:Hbi; [|done].
  assert (forall past n s1 s2,
            Forall (region_starts f info) (regions_arena s1) ->
            iter_res n (pop_active past) s1 = Ok s2 ->
            Forall (region_starts f info) (regions_arena s2)) as Hpops.
  { intros past n s1 s2 H1 H.
    eapply (iter_res_inv (fun s => Forall (region_starts f info)
                                          (regions_arena s))); [| |exact H];
      [|done].
    intros ? ?. apply pop_active_starts. }
  destruct (exnNode blk) as [n|] eqn:Hn; [|by apply Hpops].
  intros (st1 & H1 & H)%res_bind_Ok.
  apply res_bind_Ok in H as (st2 & H2 & H).
  apply res_bind_Ok in H as (st3 & H3 & H).
  assert (Forall (region_starts f info) (regions_arena st3)) as H3'.
  { apply (Hpops _ _ _ _) in H3; [done|].
    eapply (fold_res_inv_elem
              (fun s => Forall (region_starts f info) (regions_arena s)));
      [| |exact H2].
    - intros p s1 s2 Hp Hs1. apply push_active_starts; [done|].
      exists b, blk, bi. simpl. split_and!; [done..|].
      rewrite Hn. apply list_elem_of_fmap_2.
      apply list_elem_of_lookup in Hp as [i Hi].
      rewrite lookup_drop in Hi. by eapply list_elem_of_lookup_2.
    - by eapply Hpops. }
  destruct (last (activeList st3)); [|by injection H as <-].
  destruct (same_nodes _ _); [by injection H as <-|done].
Qed.

(** X16: after the walk over the layout no region is left active, and every
    region that was created starts at the offset of a block of the layout
    whose exception node is the region's node or a node below it. *)
Theorem eh_walk_regions f info st :
  eh_walk f info = Ok st ->
  activeList st = [] /\
  Forall (region_starts f info) (regions_arena st).
Proof.
  unfold eh_walk. intros (st1 & H1 & H)%res_bind_Ok.
  assert (Forall (region_starts f info) (regions_arena st1)) as Hall.
  { eapply (fold_res_inv_elem
              (fun s => Forall (region_starts f info) (regions_arena s)));
      [| |exact H1].
    - intros b s1 s2 Hb. by apply eh_walk_block_starts.
    - constructor. }
  destruct (activeList st1) as [|a l] eqn:Ea; [by injection H as <-|].
  destruct (last (blockOrder info)); [|done].
  destruct (blockInfo info !! _); [|done].
  split.
  - apply pops_length in H. rewrite Ea in H.
    destruct (activeList st); [done|simpl in H; lia].
  - eapply (iter_res_inv (fun s => Forall (region_starts f info)
                                          (regions_arena s))); [| |exact H];
      [|done].
    intros ? ?. apply pop_active_starts.
Qed.

End RegionsMore.

Lemma eh_table_handlers_witness :
  let f := Demo.f_regions in
  exists arena regions,
    eh_regions f (Demo.info_of f) = Ok (arena, regions) /\
    Forall (handler_ok arena (blockInfo (Demo.info_of f)))
           (ehtab (Demo.table_of f)).
Proof.
  apply (eh_table_handlers Demo.f_regions (Demo.info_of Demo.f_regions)).
  vm_compute. reflexivity.
Defined.

Lemma eh_walk_regions_witness :
  let f := Demo.f_regions in
  length (regions_arena (Demo.walk_of f)) = 3%nat /\
  activeList (Demo.walk_of f) = [] /\
  Forall (region_starts f (Demo.info_of f)) (regions_arena (Demo.walk_of f)).
Proof.
  split; [vm_compute; reflexivity|].
  apply (eh_walk_regions Demo.f_regions (Demo.info_of Demo.f_regions)).
  vm_compute. reflexivity.
Defined.

(** ** Jump tables *)

Section JumpTables.

Context {tbl : OpcodeTable} {cfg : Cfg}.

Lemma emit_branch_slot so id s s' :
  emit_branch so id s = Ok (tt, s') ->
  bcPos (ue s') = bcPos (ue s) + 4 /\
  take (length (m_bc (ue s))) (m_bc (ue s')) = m_bc (ue s) /\
  exists d fd,
    history s' = EvBranch so (bcPos (ue s)) id :: EvExpect id d fd :: history s.
Proof.
  intros (info & Hinfo & _ & _ & H)%emit_branch_Ok. cbv zeta in H.
  destruct H as [[_ ->]|[_ ->]]; simpl.
  all: split_and!;
    [unfold bcPos; simpl; rewrite length_app; simpl; lia
    |by rewrite take_app_length
    |by eexists _, _].
Qed.

Lemma emit_branches_slots so targets :
  forall s s',
    for_each targets (emit_branch so) s = Ok (tt, s') ->
    bcPos (ue s') = bcPos (ue s) + 4 * Z.of_nat (length targets) /\
    take (length (m_bc (ue s))) (m_bc (ue s')) = m_bc (ue s) /\
    exists new, history s' = new ++ history s /\
      rev (branch_events new)
      = imap (fun i t => (so, bcPos (ue s) + 4 * Z.of_nat i, t)) targets.
Proof.
  induction targets as [|t targets IH]; intros s s' H.
  - apply mret_Ok in H as [_ ->]. simpl.
    split_and!; [lia|by rewrite firstn_all|]. by exists [].
  - simpl in H. apply bind_Ok in H as ([] & s1 & H1 & H).
    apply emit_branch_slot in H1 as (Hpos1 & Htake1 & d & fd & Hh1).
    destruct (IH _ _ H) as (Hpos & Htake & new & Hh & Hnew).
    split_and!.
    + rewrite Hpos, Hpos1. simpl length. lia.
    + assert (length (m_bc (ue s)) <= length (m_bc (ue s1)))%nat as Hle
        by (unfold bcPos in Hpos1; lia).
      transitivity (take (length (m_bc (ue s)))
                      (take (length (m_bc (ue s1))) (m_bc (ue s')))).
      { rewrite take_take. f_equal. lia. }
      by rewrite Htake.
    + exists (new ++ [EvBranch so (bcPos (ue s)) t; EvExpect t d fd]).
      split; [by rewrite Hh, Hh1, <- app_assoc|].
      unfold branch_events in *. rewrite omap_app, rev_app_distr. simpl.
      rewrite Hnew. f_equal; [f_equal; f_equal; lia|].
      apply imap_ext. intros i x _. simpl. rewrite Hpos1. f_equal. f_equal.
      lia.
Qed.

(** X17: a switch immediate is its number of cases followed by one 32-bit
    slot per case, in the order of the table; every case is a branch of the
    switch instruction itself, so all offsets of the table are relative to
    the start of that instruction; nothing written before is changed. *)
Theorem emit_switch_layout so targets s s' :
  emit_switch so targets s = Ok (tt, s') ->
  bcPos (ue s') = bcPos (ue s) + 4 + 4 * Z.of_nat (length targets) /\
  take (length (m_bc (ue s)) + 4) (m_bc (ue s'))
  = m_bc (ue s) ++ int32_bytes (Z.of_nat (length targets)) /\
  exists new, history s' = new ++ history s /\
    rev (branch_events new)
    = imap (fun i t => (so, bcPos (ue s) + 4 + 4 * Z.of_nat i, t)) targets.
Proof.
  unfold emit_switch. intros H.
  apply bind_Ok in H as ([] & s1 & H1 & H).
  apply modify_Ok in H1 as ->.
  destruct (emit_branches_slots _ _ _ _ H) as (Hpos & Htake & new & Hh & Hnew).
  assert (bcPos (ue (set_ue (emitInt32 (Z.of_nat (length targets)) (ue s)) s))
          = bcPos (ue s) + 4) as Hpos1
    by (unfold bcPos; simpl; rewrite length_app; simpl; lia).
  split_and!.
  - rewrite Hpos, Hpos1. lia.
  - assert (m_bc (ue (set_ue (emitInt32 (Z.of_nat (length targets)) (ue s)) s))
            = m_bc (ue s) ++ int32_bytes (Z.of_nat (length targets))) as Hbc
      by reflexivity.
    rewrite Hbc in Htake. rewrite length_app in Htake. exact Htake.
  - exists new. split; [done|]. rewrite Hnew. apply imap_ext.
    intros i x _. cbv beta. rewrite Hpos1. f_equal.
Qed.

End JumpTables.

Lemma emit_switch_layout_witness :
  let s := enter_func Demo.f_branch [0; 1; 2]%nat Demo.state0 in
  let targets := [2; 1; 2]%nat in
  let s' := Demo.final (emit_switch 0 targets s) in
  bcPos (ue s') = bcPos (ue s) + 4 + 4 * Z.of_nat (length targets) /\
  take (length (m_bc (ue s)) + 4) (m_bc (ue s'))
  = m_bc (ue s) ++ int32_bytes (Z.of_nat (length targets)) /\
  exists new, history s' = new ++ history s /\
    rev (branch_events new)
    = imap (fun i t => (0, bcPos (ue s) + 4 + 4 * Z.of_nat i, t)) targets.
Proof.
  apply (emit_switch_layout 0 [2; 1; 2]%nat). vm_compute. reflexivity.
Defined.

(** ** Peak depths *)

Section PeakStack.

Context {tbl : OpcodeTable} {cfg : Cfg}.

Lemma stack_state_grow h0 s s' :
  stack_state h0 s -> history s' = history s ->
  0 <= currentStackDepth s' < 2 ^ 31 ->
  currentStackDepth s' <= maxStackDepth (ret s') ->
  maxStackDepth (ret s) <= maxStackDepth (ret s') ->
  expected_view s' = expected_view s ->
  stack_state h0 s'.
Proof.
  intros (new & Hh & [Hr Hd He Hv]) Hh' Hr' Hd' Hm Hview.
  exists new. split; [by rewrite Hh'|]. constructor; [done..| |].
  - intros b esd efd d Hb ->. rewrite Hview in Hb.
    destruct (He _ _ _ _ Hb eq_refl). lia.
  - intros ev d Hin Hev. specialize (Hv _ _ Hin Hev). lia.
Qed.

Lemma stack_state_frame h0 s s' :
  stack_state h0 s -> history s' = history s ->
  currentStackDepth s' = currentStackDepth s ->
  maxStackDepth (ret s') = maxStackDepth (ret s) ->
  expected_view s' = expected_view s ->
  stack_state h0 s'.
Proof.
  intros Hs Hh Hd Hm Hview.
  pose proof Hs as (new & _ & [Hr Hd' _ _]).
  apply (stack_state_grow h0 s); [done..|lia|lia|lia|done].
Qed.

Lemma stack_state_log h0 ev s :
  stack_state h0 s ->
  (forall d, stack_depth_of ev = Some d -> d <= maxStackDepth (ret s)) ->
  stack_state h0 (log ev s).
Proof.
  intros (new & Hh & [Hr Hd He Hv]) Hev.
  exists (ev :: new). split; [simpl; by rewrite Hh|]. constructor; [done..|].
  intros ev' d [->|Hin]%elem_of_cons Hd'; [by apply Hev|by eapply Hv].
Qed.

Lemma stack_state_sink h0 bs s s' :
  stack_state h0 s -> sink_appends bs s s' -> stack_state h0 s'.
Proof. intros Hs (u & -> & _). by apply (stack_state_frame h0 s). Qed.

Lemma stack_state_after_expect h0 id info s :
  stack_state h0 s -> blockInfo (ret s) !! id = Some info ->
  stack_state h0 (after_expect id info s).
Proof.
  intros (new & Hh & [Hr Hd He Hv]) Hinfo.
  exists (EvExpect id (currentStackDepth s) (fpiStack_size s) :: new).
  split; [simpl; by rewrite Hh|].
  pose proof (expected_view_lookup _ _ _ Hinfo) as Hview.
  constructor; [done..| |].
  - intros b esd efd d Hb ->. unfold after_expect in Hb.
    rewrite expected_view_set_block in Hb.
    change (expected_view (log _ s)) with (expected_view s) in Hb.
    simpl in Hb.
    destruct (decide (id = b)) as [<-|Hne].
    + rewrite list_lookup_insert_eq in Hb by by eapply lookup_lt_Some.
      injection Hb as <- _. rewrite to_uint32_small by lia.
      simpl. lia.
    + rewrite list_lookup_insert_ne in Hb by done. by eapply He.
  - intros ev d [->|Hin]%elem_of_cons Hd'.
    + simpl in Hd'. injection Hd' as <-. done.
    + by eapply Hv.
Qed.

Lemma stack_state_expect h0 id s s' :
  stack_state h0 s -> set_expected_depth id s = Ok (tt, s') -> stack_state h0 s'.
Proof.
  intros Hs (info & Hinfo & _ & _ & ->)%set_expected_depth_Ok.
  by apply stack_state_after_expect.
Qed.

Lemma stack_state_branch h0 so id s s' :
  stack_state h0 s -> emit_branch so id s = Ok (tt, s') -> stack_state h0 s'.
Proof.
  intros Hs (info & Hinfo & _ & _ & H)%emit_branch_Ok. cbv zeta in H.
  pose proof (stack_state_after_expect h0 id info s Hs Hinfo) as H1.
  apply (stack_state_log h0 (EvBranch so (bcPos (ue s)) id)) in H1; [|done].
  destruct H as [[_ ->]|[_ ->]].
  - by eapply stack_state_frame; [exact H1|..].
  - eapply stack_state_frame; [exact H1|done..|].
    apply (expected_view_set_block_same _
             (expect_info (currentStackDepth s) (fpiStack_size s) info));
      [|done..].
    simpl. apply list_lookup_insert_eq. by eapply lookup_lt_Some.
Qed.

Lemma stack_state_imm_steps h0 so s s' :
  imm_steps so s s' -> stack_state h0 s -> stack_state h0 s'.
Proof.
  induction 1 as [|s1 s2 s3 Hstep _ IH]; [done|].
  intros Hs. apply IH. destruct Hstep.
  - by eapply stack_state_sink.
  - by eapply stack_state_branch.
Qed.

Lemma stack_state_pop h0 n s s' :
  0 <= n -> stack_state h0 s -> pop n s = Ok (tt, s') -> stack_state h0 s'.
Proof.
  intros Hn Hs [-> Hd]%pop_Ok.
  pose proof Hs as (new & _ & [Hr Hd' _ _]).
  apply (stack_state_grow h0 s); [done..|simpl; lia|simpl; lia|done].
Qed.

Lemma stack_state_push h0 n s s' :
  0 <= n -> stack_state h0 s -> push n s = Ok (tt, s') -> stack_state h0 s'.
Proof.
  intros Hn Hs [-> Hd]%push_Ok.
  pose proof Hs as (new & _ & [Hr Hd' _ _]).
  apply (stack_state_grow h0 s); [done|done|simpl; lia|simpl|simpl; lia|done].
  rewrite to_uint32_small by lia. lia.
Qed.

Lemma stack_state_when_defcls h0 b so inst s s' :
  stack_state h0 s -> when b (defcls so inst) s = Ok (tt, s') ->
  stack_state h0 s'.
Proof.
  intros Hs [[_ [_ ->]%defcls_Ok]|[_ ->]]%when_Ok; [|done].
  by apply (stack_state_frame h0 s).
Qed.

Lemma stack_state_end_fpi h0 off s s' :
  stack_state h0 s -> end_fpi off s = Ok (tt, s') -> stack_state h0 s'.
Proof.
  intros Hs (fpi & rest & _ & ->)%end_fpi_Ok.
  by apply (stack_state_frame h0 s).
Qed.

Lemma stack_state_emit_inst h0 f inst s s' :
  Forall (fun n => 0 <= n) (pops inst) ->
  stack_state h0 s -> emit_inst f inst s = Ok (tt, s') -> stack_state h0 s'.
Proof.
  intros Hpops Hs [[_ ->]|[Hop H]]%emit_inst_Ok;
    [by apply (stack_state_frame h0 s)|].
  assert (stack_state h0 (inst_begin s)) as Hb
    by by apply (stack_state_frame h0 s).
  clear Hs.
  apply emit_opcode_Ok in H
    as (s1 & s2 & s3 & s4 & s5 & s6 & s7 & H1 & H2 & Hret & Hlast
        & H3 & H4 & H5 & H6 & H7 & H8).
  apply (stack_state_when_defcls h0) in H1; [|done]. clear Hb.
  apply (stack_state_when_defcls h0) in H2; [|done]. clear H1.
  assert (stack_state h0 (op_emitted inst s2)) as Hop2.
  { unfold op_emitted. eapply stack_state_frame;
      [apply (stack_state_log h0 (EvOp (lastOff s2) inst (currentStackDepth s2)) s2);
       [done|]|done..].
    intros d [= <-]. by destruct H2 as (new & _ & []). }
  clear H2.
  apply (for_each_inv (stack_state h0)) in H3; [| |done].
  2: { intros n ? ? Hn ? ?. eapply stack_state_pop; [|done..].
       rewrite Forall_forall in Hpops. by apply Hpops. }
  clear Hop2.
  apply (for_each_inv (stack_state h0)) in H4; [| |done].
  2: { intros n ? ? Hn ? ?. eapply stack_state_push; [|done..].
       by eapply pushes_nonneg. }
  clear H3.
  apply (for_each_steps (lastOff (inst_begin s))) in H5;
    [|by intros; eapply emit_imm_steps].
  apply (stack_state_imm_steps h0) in H5; [|done]. clear H4.
  assert (stack_state h0 s6) as Hs6.
  { apply when_Ok in H6 as [[_ ->%fpush_Ok]|[_ ->]]; [|done].
    by apply (stack_state_frame h0 s5). }
  clear H5.
  assert (stack_state h0 s7) as Hs7.
  { apply when_Ok in H7 as [[_ H7]|[_ ->]]; [|done].
    by eapply stack_state_end_fpi. }
  clear Hs6.
  simpl in H8. apply emit_srcloc_Ok in H8.
  eapply stack_state_sink; [|done].
  assert (stack_state h0 (if op_TF (op inst) then set_currentStackDepth 0 s7 else s7))
    as Hs8.
  { destruct (op_TF (op inst)); [|done].
    pose proof Hs7 as (new & _ & [Hr Hd' _ _]).
    apply (stack_state_grow h0 s7); [done..|simpl; lia|simpl; lia|done|done]. }
  destruct (is_call_op (op inst)); [|done].
  by eapply stack_state_frame; [exact Hs8|..].
Qed.

Lemma jump_pops_nonneg ft ns :
  Forall (fun n => 0 <= n) (pops (if ns : bool then JmpNS ft else Jmp ft)).
Proof.
  apply Forall_forall. intros n. unfold pops.
  destruct ns; simpl; destruct (op_inputs _);
    rewrite ?elem_of_cons, ?elem_of_nil; intros H; intuition (subst; done).
Qed.

Lemma stack_state_block_end h0 f b blk next s s' :
  stack_state h0 s -> block_end f b blk next s s' -> stack_state h0 s'.
Proof.
  intros Hs (info & Hinfo & H). simpl in H.
  assert (stack_state h0 (set_block b (set_past (bcPos (ue s)) info) s)) as Hs9.
  { apply (stack_state_frame h0 s); [done..|].
    by apply (expected_view_set_block_same _ info). }
  destruct (fallthrough blk) as [ft|]; [|by subst].
  destruct H as (s10 & H10 & H).
  apply (stack_state_expect h0) in H10; [|done].
  destruct (bool_decide (next <> Some ft)); [|by subst].
  destruct H as (s11 & info11 & n & H11 & Hinfo11 & _ & ->).
  apply (stack_state_emit_inst h0) in H11; [|apply jump_pops_nonneg|done].
  apply (stack_state_frame h0 s11); [done..|].
  by apply (expected_view_set_block_same _ info11).
Qed.

Lemma stack_state_emit_block h0 f b next s s' :
  pops_nonneg f ->
  stack_state h0 s -> emit_block f b next s = Ok (tt, s') -> stack_state h0 s'.
Proof.
  intros Hpops Hs
    (blk & info & u & s6 & s8 & Hblk & Hinfo & Hu & Hle & H6 & H8 & Hend)%emit_block_Ok.
  eapply stack_state_block_end; [|done].
  eapply (for_each_inv (stack_state h0)); [| |exact H8].
  { intros inst sa sb Hin. apply stack_state_emit_inst.
    unfold pops_nonneg in Hpops. rewrite Forall_forall in Hpops.
    specialize (Hpops blk (list_elem_of_lookup_2 _ _ _ Hblk)).
    rewrite Forall_forall in Hpops. by apply Hpops. }
  apply repeat_end_fpi_Ok in H6 as (closed & rest & Hst & Hlen & ->).
  destruct Hs as (new & Hh & [Hr Hd He Hv]).
  pose proof (expected_view_lookup _ _ _ Hinfo) as Hview.
  assert (0 <= default 0 (expectedStackDepth info) < 2 ^ 31 /\
          default 0 (expectedStackDepth info) <= maxStackDepth (ret s)) as [Hrange Hmax].
  { destruct (expectedStackDepth info) as [v|] eqn:E; simpl; [|lia].
    by eapply He. }
  exists (EvBlock b (bcPos (ue s)) (default 0 (expectedStackDepth info))
                  (Z.of_nat (length rest)) :: new).
  split.
  { simpl. unfold fpiStack_size. simpl.
    rewrite (to_int32_small (default 0 (expectedStackDepth info))) by lia.
    by rewrite Hh. }
  constructor.
  - simpl. rewrite to_int32_small by lia. done.
  - simpl. rewrite to_int32_small by lia. done.
  - intros b' esd efd d Hb' ->.
    change (expected_view _) with
      (expected_view (set_block b (block_entry_info (bcPos (ue s)) info) s)) in Hb'.
    rewrite expected_view_set_block in Hb'. simpl in Hb'.
    destruct (decide (b = b')) as [<-|Hne].
    + rewrite list_lookup_insert_eq in Hb' by by eapply lookup_lt_Some.
      injection Hb' as <- _. done.
    + rewrite list_lookup_insert_ne in Hb' by done. by eapply He.
  - intros ev d [->|Hin]%elem_of_cons Hd'.
    + simpl in Hd'. injection Hd' as <-. done.
    + by eapply Hv.
Qed.

Lemma stack_state_emit_blocks h0 f order s s' :
  pops_nonneg f ->
  stack_state h0 s -> emit_blocks f order s = Ok (tt, s') -> stack_state h0 s'.
Proof.
  intros Hpops. revert s. induction order as [|b order IH]; intros s Hs H.
  - by apply mret_Ok in H as [_ ->].
  - simpl in H. apply bind_Ok in H as ([] & s1 & H1 & H).
    eapply IH; [|done]. by eapply stack_state_emit_block.
Qed.

Lemma stack_state_enter h0 f order s :
  history s = h0 -> stack_state h0 (enter_func f order s).
Proof.
  intros Hh. exists []. split; [done|]. constructor.
  - simpl. lia.
  - done.
  - intros b esd efd d [-> _]%expected_view_enter. done.
  - intros ev d Hin. by apply elem_of_nil in Hin.
Qed.

Lemma pops_nonneg_check f :
  forallb (fun blk =>
             forallb (fun inst => forallb (Z.leb 0) (pops inst)) (hhbcs blk))
          (blocks f) = true ->
  pops_nonneg f.
Proof.
  intros H. unfold pops_nonneg. rewrite forallb_forall in H.
  apply Forall_forall. intros blk Hblk%list_elem_of_In. specialize (H _ Hblk).
  rewrite forallb_forall in H.
  apply Forall_forall. intros inst Hinst%list_elem_of_In. specialize (H _ Hinst).
  rewrite forallb_forall in H.
  apply Forall_forall. intros n Hn%list_elem_of_In. specialize (H _ Hn).
  by apply Z.leb_le.
Qed.

(** X18: when no instruction of the function pops a negative number of
    cells, [maxStackDepth] is at least every depth of the run: the depth at
    every opcode written, at every block start and at every
    [set_expected_depth], the depth at the end and the expected depth stored
    for each block. *)
Theorem max_stack_depth_bound f s r f' s' :
  emit_bytecode f s = Ok ((r, f'), s') ->
  pops_nonneg f' ->
  (exists new, history s' = new ++ history s /\
     forall ev d, ev ∈ new -> stack_depth_of ev = Some d ->
       d <= maxStackDepth r) /\
  currentStackDepth s' <= maxStackDepth r /\
  (forall b info d, blockInfo r !! b = Some info ->
     expectedStackDepth info = Some d -> d <= maxStackDepth r).
Proof.
  intros (order & s1 & _ & H1 & H2 & ->)%emit_bytecode_Ok Hpops.
  apply (stack_state_emit_blocks (history s)) in H1;
    [|done|by apply stack_state_enter].
  apply repeat_end_fpi_Ok in H2 as (closed & rest & _ & _ & ->).
  assert (stack_state (history s)
            (set_fpiStack rest
               (set_ret (set_fpiRegions
                           (fpiRegions (ret s1) ++ closed_at (lastOff s1) closed)
                           (ret s1)) s1))) as (new & Hh & [Hr Hd He Hv])
    by by apply (stack_state_frame _ s1).
  split_and!.
  - by exists new.
  - done.
  - intros b info d Hb Hd'.
    by eapply He; [by apply expected_view_lookup|].
Qed.

End PeakStack.

Lemma max_stack_depth_bound_witness :
  let s := Demo.after_dv in
  let s' := Demo.final (emit_bytecode Demo.f_branch s) in
  let r := fst (Demo.result_from s Demo.f_branch) in
  (exists new, history s' = new ++ history s /\
     forall ev d, ev ∈ new -> stack_depth_of ev = Some d ->
       d <= maxStackDepth r) /\
  currentStackDepth s' <= maxStackDepth r /\
  (forall b info d, blockInfo r !! b = Some info ->
     expectedStackDepth info = Some d -> d <= maxStackDepth r).
Proof.
  apply (max_stack_depth_bound Demo.f_branch Demo.after_dv
           (fst (Demo.result_from Demo.after_dv Demo.f_branch))
           (snd (Demo.result_from Demo.after_dv Demo.f_branch))).
  - vm_compute. reflexivity.
  - apply pops_nonneg_check. vm_compute. reflexivity.
Defined.

Section PeakFpi.

Context {tbl : OpcodeTable} {cfg : Cfg}.

Lemma fpi_state_grow h0 s s' :
  fpi_state h0 s -> history s' = history s ->
  fpiStack_size s' <= maxFpiDepth (ret s') ->
  maxFpiDepth (ret s) <= maxFpiDepth (ret s') ->
  fpi_state h0 s'.
Proof.
  intros (new & Hh & [Hd Hv]) Hh' Hd' Hm.
  exists new. split; [by rewrite Hh'|]. constructor; [done|].
  intros ev d Hin Hev. specialize (Hv _ _ Hin Hev). lia.
Qed.

Lemma fpi_state_frame h0 s s' :
  fpi_state h0 s -> history s' = history s ->
  fpiStack s' = fpiStack s ->
  maxFpiDepth (ret s') = maxFpiDepth (ret s) ->
  fpi_state h0 s'.
Proof.
  intros Hs Hh Hst Hm. pose proof Hs as (new & _ & [Hd _]).
  apply (fpi_state_grow h0 s); [done..| |lia].
  unfold fpiStack_size in *. rewrite Hst, Hm. done.
Qed.

Lemma fpi_state_log h0 ev s :
  fpi_state h0 s ->
  (forall d, fpi_depth_of ev = Some d -> d <= maxFpiDepth (ret s)) ->
  fpi_state h0 (log ev s).
Proof.
  intros (new & Hh & [Hd Hv]) Hev.
  exists (ev :: new). split; [simpl; by rewrite Hh|]. constructor; [done|].
  intros ev' d [->|Hin]%elem_of_cons Hd'; [by apply Hev|by eapply Hv].
Qed.

Lemma fpi_state_sink h0 bs s s' :
  fpi_state h0 s -> sink_appends bs s s' -> fpi_state h0 s'.
Proof. intros Hs (u & -> & _). by apply (fpi_state_frame h0 s). Qed.

Lemma fpi_state_after_expect h0 id info s :
  fpi_state h0 s -> fpi_state h0 (after_expect id info s).
Proof.
  intros Hs. unfold after_expect.
  eapply fpi_state_frame;
    [apply (fpi_state_log h0 (EvExpect id (currentStackDepth s) (fpiStack_size s)) s);
     [done|]|done..].
  intros d [= <-]. by destruct Hs as (new & _ & []).
Qed.

Lemma fpi_state_branch h0 so id s s' :
  fpi_state h0 s -> emit_branch so id s = Ok (tt, s') -> fpi_state h0 s'.
Proof.
  intros Hs (info & Hinfo & _ & _ & H)%emit_branch_Ok. cbv zeta in H.
  pose proof (fpi_state_after_expect h0 id info s Hs) as H1.
  apply (fpi_state_log h0 (EvBranch so (bcPos (ue s)) id)) in H1; [|done].
  destruct H as [[_ ->]|[_ ->]]; by eapply fpi_state_frame; [exact H1|..].
Qed.

Lemma fpi_state_imm_steps h0 so s s' :
  imm_steps so s s' -> fpi_state h0 s -> fpi_state h0 s'.
Proof.
  induction 1 as [|s1 s2 s3 Hstep _ IH]; [done|].
  intros Hs. apply IH. destruct Hstep.
  - by eapply fpi_state_sink.
  - by eapply fpi_state_branch.
Qed.

Lemma fpi_state_when_defcls h0 b so inst s s' :
  fpi_state h0 s -> when b (defcls so inst) s = Ok (tt, s') -> fpi_state h0 s'.
Proof.
  intros Hs [[_ [_ ->]%defcls_Ok]|[_ ->]]%when_Ok; [|done].
  by apply (fpi_state_frame h0 s).
Qed.

Lemma fpi_state_closed h0 s closed rest regions :
  fpi_state h0 s -> fpiStack s = closed ++ rest ->
  fpi_state h0 (set_fpiStack rest
                  (set_ret (set_fpiRegions regions (ret s)) s)).
Proof.
  intros Hs Hst. pose proof Hs as (new & _ & [Hd _]).
  apply (fpi_state_grow h0 s); [done..| |done].
  unfold fpiStack_size in *. simpl. rewrite Hst, length_app in Hd. lia.
Qed.

Lemma fpi_state_end_fpi h0 off s s' :
  fpi_state h0 s -> end_fpi off s = Ok (tt, s') -> fpi_state h0 s'.
Proof.
  intros Hs (fpi & rest & Hst & ->)%end_fpi_Ok.
  by apply (fpi_state_closed h0 s [fpi]).
Qed.

Lemma fpi_state_emit_inst h0 f inst s s' :
  fpi_state h0 s -> emit_inst f inst s = Ok (tt, s') -> fpi_state h0 s'.
Proof.
  intros Hs [[_ ->]|[Hop H]]%emit_inst_Ok;
    [by apply (fpi_state_frame h0 s)|].
  assert (fpi_state h0 (inst_begin s)) as Hb
    by by apply (fpi_state_frame h0 s).
  clear Hs.
  apply emit_opcode_Ok in H
    as (s1 & s2 & s3 & s4 & s5 & s6 & s7 & H1 & H2 & Hret & Hlast
        & H3 & H4 & H5 & H6 & H7 & H8).
  apply (fpi_state_when_defcls h0) in H1; [|done]. clear Hb.
  apply (fpi_state_when_defcls h0) in H2; [|done]. clear H1.
  assert (fpi_state h0 (op_emitted inst s2)) as Hop2.
  { unfold op_emitted. eapply fpi_state_frame;
      [apply (fpi_state_log h0 (EvOp (lastOff s2) inst (currentStackDepth s2)) s2);
       done|done..]. }
  clear H2.
  apply (for_each_inv (fpi_state h0)) in H3; [| |done].
  2: { intros n sa sb _ Hsa [-> _]%pop_Ok. by apply (fpi_state_frame h0 sa). }
  clear Hop2.
  apply (for_each_inv (fpi_state h0)) in H4; [| |done].
  2: { intros n sa sb _ Hsa [-> _]%push_Ok. by apply (fpi_state_frame h0 sa). }
  clear H3.
  apply (for_each_steps (lastOff (inst_begin s))) in H5;
    [|by intros; eapply emit_imm_steps].
  apply (fpi_state_imm_steps h0) in H5; [|done]. clear H4.
  assert (fpi_state h0 s6) as Hs6.
  { apply when_Ok in H6 as [[_ ->%fpush_Ok]|[_ ->]]; [|done].
    pose proof H5 as (new & _ & [Hd _]).
    apply (fpi_state_grow h0 s5); [done|done| |simpl; lia].
    unfold fpiStack_size in *. simpl. lia. }
  clear H5.
  assert (fpi_state h0 s7) as Hs7.
  { apply when_Ok in H7 as [[_ H7]|[_ ->]]; [|done].
    by eapply fpi_state_end_fpi. }
  clear Hs6.
  simpl in H8. apply emit_srcloc_Ok in H8.
  eapply fpi_state_sink; [|done].
  assert (fpi_state h0 (if op_TF (op inst) then set_currentStackDepth 0 s7 else s7))
    as Hs8.
  { destruct (op_TF (op inst)); [|done]. by apply (fpi_state_frame h0 s7). }
  destruct (is_call_op (op inst)); [|done].
  by eapply fpi_state_frame; [exact Hs8|..].
Qed.

Lemma fpi_state_block_end h0 f b blk next s s' :
  fpi_state h0 s -> block_end f b blk next s s' -> fpi_state h0 s'.
Proof.
  intros Hs (info & Hinfo & H). simpl in H.
  assert (fpi_state h0 (set_block b (set_past (bcPos (ue s)) info) s)) as Hs9
    by by apply (fpi_state_frame h0 s).
  destruct (fallthrough blk) as [ft|]; [|by subst].
  destruct H as (s10 & H10 & H).
  apply set_expected_depth_Ok in H10 as (info10 & _ & _ & _ & ->).
  apply (fpi_state_after_expect h0 ft info10) in Hs9.
  destruct (bool_decide (next <> Some ft)); [|by subst].
  destruct H as (s11 & info11 & n & H11 & Hinfo11 & _ & ->).
  apply (fpi_state_emit_inst h0) in H11; [|done].
  by apply (fpi_state_frame h0 s11).
Qed.

Lemma fpi_state_emit_block h0 f b next s s' :
  fpi_state h0 s -> emit_block f b next s = Ok (tt, s') -> fpi_state h0 s'.
Proof.
  intros Hs
    (blk & info & u & s6 & s8 & Hblk & Hinfo & Hu & Hle & H6 & H8 & Hend)%emit_block_Ok.
  eapply fpi_state_block_end; [|done].
  eapply (for_each_inv (fpi_state h0)); [| |exact H8].
  { intros inst sa sb _. apply fpi_state_emit_inst. }
  apply repeat_end_fpi_Ok in H6 as (closed & rest & Hst & Hlen & ->).
  assert (fpi_state h0 (block_begin_state b info u s)) as Hb
    by by apply (fpi_state_frame h0 s).
  apply (fpi_state_closed h0 _ closed rest
           (fpiRegions (ret (block_begin_state b info u s))
              ++ closed_at (lastOff (block_begin_state b info u s)) closed))
    in Hb; [|done].
  apply fpi_state_log; [done|].
  intros d [= <-]. by destruct Hb as (new & _ & []).
Qed.

Lemma fpi_state_emit_blocks h0 f order s s' :
  fpi_state h0 s -> emit_blocks f order s = Ok (tt, s') -> fpi_state h0 s'.
Proof.
  revert s. induction order as [|b order IH]; intros s Hs H.
  - by apply mret_Ok in H as [_ ->].
  - simpl in H. apply bind_Ok in H as ([] & s1 & H1 & H).
    eapply IH; [|done]. by eapply fpi_state_emit_block.
Qed.

Lemma fpi_state_enter h0 f order s :
  history s = h0 -> fpi_state h0 (enter_func f order s).
Proof.
  intros Hh. exists []. split; [done|]. constructor; [done|].
  intros ev d Hin. by apply elem_of_nil in Hin.
Qed.

(** X19: [maxFpiDepth] is at least the size of the FPI stack at every block
    start and at every [set_expected_depth] of the run; when [emit_bytecode]
    returns the FPI stack is empty. *)
Theorem max_fpi_depth_bound f s r f' s' :
  emit_bytecode f s = Ok ((r, f'), s') ->
  (exists new, history s' = new ++ history s /\
     forall ev d, ev ∈ new -> fpi_depth_of ev = Some d -> d <= maxFpiDepth r) /\
  fpiStack s' = [] /\ 0 <= maxFpiDepth r.
Proof.
  intros (order & s1 & _ & H1 & H2 & ->)%emit_bytecode_Ok.
  apply (fpi_state_emit_blocks (history s)) in H1; [|by apply fpi_state_enter].
  apply repeat_end_fpi_Ok in H2 as (closed & rest & Hst & Hlen & ->).
  assert (rest = []) as ->.
  { apply (f_equal length) in Hst. rewrite length_app in Hst.
    apply length_zero_iff_nil. lia. }
  apply (fpi_state_closed (history s) _ closed []
           (fpiRegions (ret s1) ++ closed_at (lastOff s1) closed)) in H1;
    [|done].
  destruct H1 as (new & Hh & [Hd Hv]). split_and!; [by exists new|done|].
  unfold fpiStack_size in Hd. simpl in Hd. simpl. lia.
Qed.

End PeakFpi.

Lemma max_fpi_depth_bound_witness :
  let s := Demo.state0 in
  let s' := Demo.final (emit_bytecode Demo.f_calls s) in
  let r := fst (Demo.result_of Demo.f_calls) in
  (exists new, history s' = new ++ history s /\
     forall ev d, ev ∈ new -> fpi_depth_of ev = Some d -> d <= maxFpiDepth r) /\
  fpiStack s' = [] /\ 0 <= maxFpiDepth r.
Proof.
  apply (max_fpi_depth_bound Demo.f_calls Demo.state0
           (fst (Demo.result_of Demo.f_calls))
           (snd (Demo.result_of Demo.f_calls))).
  vm_compute. reflexivity.
Defined.

(** ** Calls *)

Section Calls.

Context {tbl : OpcodeTable} {cfg : Cfg}.

Lemma calls_state_frame p h0 s s' :
  calls_state p h0 s -> history s' = history s ->
  containsCalls (ret s') = containsCalls (ret s) ->
  calls_state p h0 s'.
Proof. intros (new & Hh & Hc) Hh' Hc'. exists new. by rewrite Hh', Hc'. Qed.

Lemma calls_state_log p h0 ev s :
  calls_state p h0 s -> is_call_event ev = false ->
  calls_state p h0 (log ev s).
Proof.
  intros (new & Hh & Hc) Hev. exists (ev :: new).
  split; [simpl; by rewrite Hh|]. simpl. by rewrite Hev.
Qed.

Lemma calls_state_sink p h0 bs s s' :
  calls_state p h0 s -> sink_appends bs s s' -> calls_state p h0 s'.
Proof. intros Hs (u & -> & _). by apply (calls_state_frame p h0 s). Qed.

Lemma calls_state_after_expect p h0 id info s :
  calls_state p h0 s -> calls_state p h0 (after_expect id info s).
Proof.
  intros Hs. unfold after_expect.
  eapply calls_state_frame;
    [apply (calls_state_log p h0
              (EvExpect id (currentStackDepth s) (fpiStack_size s)) s);
     done|done..].
Qed.

Lemma calls_state_branch p h0 so id s s' :
  calls_state p h0 s -> emit_branch so id s = Ok (tt, s') -> calls_state p h0 s'.
Proof.
  intros Hs (info & Hinfo & _ & _ & H)%emit_branch_Ok. cbv zeta in H.
  pose proof (calls_state_after_expect p h0 id info s Hs) as H1.
  apply (calls_state_log p h0 (EvBranch so (bcPos (ue s)) id)) in H1; [|done].
  destruct H as [[_ ->]|[_ ->]]; by eapply calls_state_frame; [exact H1|..].
Qed.

Lemma calls_state_imm_steps p h0 so s s' :
  imm_steps so s s' -> calls_state p h0 s -> calls_state p h0 s'.
Proof.
  induction 1 as [|s1 s2 s3 Hstep _ IH]; [done|].
  intros Hs. apply IH. destruct Hstep.
  - by eapply calls_state_sink.
  - by eapply calls_state_branch.
Qed.

Lemma calls_state_when_defcls p h0 b so inst s s' :
  calls_state p h0 s -> when b (defcls so inst) s = Ok (tt, s') ->
  calls_state p h0 s'.
Proof.
  intros Hs [[_ [_ ->]%defcls_Ok]|[_ ->]]%when_Ok; [|done].
  by apply (calls_state_frame p h0 s).
Qed.

Lemma calls_state_end_fpi p h0 off s s' :
  calls_state p h0 s -> end_fpi off s = Ok (tt, s') -> calls_state p h0 s'.
Proof.
  intros Hs (fpi & rest & _ & ->)%end_fpi_Ok.
  by apply (calls_state_frame p h0 s).
Qed.

Lemma calls_state_emit_inst h0 f inst s s' :
  calls_state false h0 s -> emit_inst f inst s = Ok (tt, s') ->
  calls_state false h0 s'.
Proof.
  intros Hs [[_ ->]|[Hop H]]%emit_inst_Ok;
    [by apply (calls_state_frame false h0 s)|].
  assert (calls_state false h0 (inst_begin s)) as Hb
    by by apply (calls_state_frame false h0 s).
  clear Hs.
  apply emit_opcode_Ok in H
    as (s1 & s2 & s3 & s4 & s5 & s6 & s7 & H1 & H2 & Hret & Hlast
        & H3 & H4 & H5 & H6 & H7 & H8).
  apply (calls_state_when_defcls false h0) in H1; [|done]. clear Hb.
  apply (calls_state_when_defcls false h0) in H2; [|done]. clear H1.
  set (p := is_call_op (op inst)) in *.
  assert (calls_state p h0 (op_emitted inst s2)) as Hop2.
  { destruct H2 as (new & Hh & Hc).
    exists (EvOp (lastOff s2) inst (currentStackDepth s2) :: new).
    split; [simpl; by rewrite Hh|]. simpl. rewrite <- Hc. fold p.
    by destruct (containsCalls (ret s2)), p. }
  clear H2.
  apply (for_each_inv (calls_state p h0)) in H3; [| |done].
  2: { intros n sa sb _ Hsa [-> _]%pop_Ok. by apply (calls_state_frame p h0 sa). }
  clear Hop2.
  apply (for_each_inv (calls_state p h0)) in H4; [| |done].
  2: { intros n sa sb _ Hsa [-> _]%push_Ok. by apply (calls_state_frame p h0 sa). }
  clear H3.
  apply (for_each_steps (lastOff (inst_begin s))) in H5;
    [|by intros; eapply emit_imm_steps].
  apply (calls_state_imm_steps p h0) in H5; [|done]. clear H4.
  assert (calls_state p h0 s6) as Hs6.
  { apply when_Ok in H6 as [[_ ->%fpush_Ok]|[_ ->]]; [|done].
    by apply (calls_state_frame p h0 s5). }
  clear H5.
  assert (calls_state p h0 s7) as Hs7.
  { apply when_Ok in H7 as [[_ H7]|[_ ->]]; [|done].
    by eapply calls_state_end_fpi. }
  clear Hs6.
  simpl in H8. apply emit_srcloc_Ok in H8.
  eapply calls_state_sink; [|done].
  assert (calls_state p h0 (if op_TF (op inst) then set_currentStackDepth 0 s7 else s7))
    as Hs8.
  { destruct (op_TF (op inst)); [|done]. by apply (calls_state_frame p h0 s7). }
  fold p. destruct p; [|done].
  destruct Hs8 as (new & Hh & Hc). exists new. split; [done|].
  simpl. rewrite <- Hc. by rewrite orb_true_r.
Qed.

Lemma calls_state_block_end h0 f b blk next s s' :
  calls_state false h0 s -> block_end f b blk next s s' ->
  calls_state false h0 s'.
Proof.
  intros Hs (info & Hinfo & H). simpl in H.
  assert (calls_state false h0 (set_block b (set_past (bcPos (ue s)) info) s))
    as Hs9 by by apply (calls_state_frame false h0 s).
  destruct (fallthrough blk) as [ft|]; [|by subst].
  destruct H as (s10 & H10 & H).
  apply set_expected_depth_Ok in H10 as (info10 & _ & _ & _ & ->).
  apply (calls_state_after_expect false h0 ft info10) in Hs9.
  destruct (bool_decide (next <> Some ft)); [|by subst].
  destruct H as (s11 & info11 & n & H11 & Hinfo11 & _ & ->).
  apply (calls_state_emit_inst h0) in H11; [|done].
  by apply (calls_state_frame false h0 s11).
Qed.

Lemma calls_state_emit_block h0 f b next s s' :
  calls_state false h0 s -> emit_block f b next s = Ok (tt, s') ->
  calls_state false h0 s'.
Proof.
  intros Hs
    (blk & info & u & s6 & s8 & Hblk & Hinfo & Hu & Hle & H6 & H8 & Hend)%emit_block_Ok.
  eapply calls_state_block_end; [|done].
  eapply (for_each_inv (calls_state false h0)); [| |exact H8].
  { intros inst sa sb _. apply calls_state_emit_inst. }
  apply repeat_end_fpi_Ok in H6 as (closed & rest & Hst & Hlen & ->).
  apply calls_state_log; [|done].
  by apply (calls_state_frame false h0 s).
Qed.

Lemma calls_state_emit_blocks h0 f order s s' :
  calls_state false h0 s -> emit_blocks f order s = Ok (tt, s') ->
  calls_state false h0 s'.
Proof.
  revert s. induction order as [|b order IH]; intros s Hs H.
  - by apply mret_Ok in H as [_ ->].
  - simpl in H. apply bind_Ok in H as ([] & s1 & H1 & H).
    eapply IH; [|done]. by eapply calls_state_emit_block.
Qed.

(** X20: [containsCalls] is set exactly when the opcode of an [FCall] or an
    [FCallD] was written in the run. *)
Theorem contains_calls_iff f s r f' s' :
  emit_bytecode f s = Ok ((r, f'), s') ->
  exists new, history s' = new ++ history s /\
    (containsCalls r = true <->
     exists off inst d, EvOp off inst d ∈ new /\
       (op inst = OpFCall \/ op inst = OpFCallD)).
Proof.
  intros (order & s1 & _ & H1 & H2 & ->)%emit_bytecode_Ok.
  apply (calls_state_emit_blocks (history s)) in H1; [|by exists []].
  apply repeat_end_fpi_Ok in H2 as (closed & rest & _ & _ & ->).
  destruct H1 as (new & Hh & Hc). exists new. split; [done|].
  simpl. rewrite orb_false_r in Hc. rewrite Hc, existsb_exists. split.
  - intros (ev & Hin%list_elem_of_In & Hev).
    destruct ev as [| |off inst d|]; try done.
    exists off, inst, d. split; [done|]. simpl in Hev. unfold is_call_op in Hev.
    apply orb_true_iff in Hev as [?%bool_decide_eq_true|?%bool_decide_eq_true];
      [by left|by right].
  - intros (off & inst & d & Hin%list_elem_of_In & Hop).
    exists (EvOp off inst d). split; [done|]. simpl. unfold is_call_op.
    apply orb_true_iff.
    destruct Hop; [left|right]; by apply bool_decide_eq_true.
Qed.

End Calls.

Lemma contains_calls_iff_witness :
  let s := Demo.state0 in
  let s' := Demo.final (emit_bytecode Demo.f_calls s) in
  let r := fst (Demo.result_of Demo.f_calls) in
  exists new, history s' = new ++ history s /\
    (containsCalls r = true <->
     exists off inst d, EvOp off inst d ∈ new /\
       (op inst = OpFCall \/ op inst = OpFCallD)).
Proof.
  apply (contains_calls_iff Demo.f_calls Demo.state0
           (fst (Demo.result_of Demo.f_calls))
           (snd (Demo.result_of Demo.f_calls))).
  vm_compute. reflexivity.
Defined.

(** ** String jump tables *)

Section StringJumpTables.

Context {tbl : OpcodeTable} {cfg : Cfg}.

Lemma sink_appends_pos bs s s' :
  sink_appends bs s s' ->
  bcPos (ue s') = bcPos (ue s) + Z.of_nat (length bs) /\
  history s' = history s.
Proof.
  intros (u & -> & Hu). split; [|done].
  unfold bcPos. simpl. rewrite Hu, length_app. lia.
Qed.

Lemma emit_label_slot so v id s s' :
  (ue_do (emitInt32 v);; emit_branch so id) s = Ok (tt, s') ->
  bcPos (ue s') = bcPos (ue s) + 8 /\
  exists d fd,
    history s' = EvBranch so (bcPos (ue s) + 4) id :: EvExpect id d fd :: history s.
Proof.
  intros H. apply bind_Ok in H as ([] & s1 & H1 & H).
  apply ue_do_emitBytes_appends, sink_appends_pos in H1 as [Hp1 Hh1].
  apply emit_branch_slot in H as (Hp & _ & d & fd & Hh).
  split; [simpl in Hp1; lia|]. exists d, fd. rewrite Hh, Hh1, Hp1. done.
Qed.

Lemma emit_case_slot so (t : string * BlockId) s s' :
  (i ← ue_merge (mergeLitstr (fst t));
   ue_do (emitInt32 i);; emit_branch so (snd t)) s = Ok (tt, s') ->
  bcPos (ue s') = bcPos (ue s) + 8 /\
  exists d fd,
    history s' = EvBranch so (bcPos (ue s) + 4) (snd t)
                 :: EvExpect (snd t) d fd :: history s.
Proof.
  intros H. apply bind_Ok in H as (i & s1 & H1 & H).
  apply ue_merge_mergeLitstr_appends, sink_appends_pos in H1 as [Hp1 Hh1].
  apply emit_label_slot in H as (Hp & d & fd & Hh).
  split; [simpl in Hp1; lia|]. exists d, fd. rewrite Hh, Hh1, Hp1.
  simpl. by rewrite Z.add_0_r.
Qed.

Lemma emit_cases_slots so (cases : list (string * BlockId)) :
  forall s s',
    for_each cases (fun t =>
      i ← ue_merge (mergeLitstr (fst t));
      ue_do (emitInt32 i);; emit_branch so (snd t)) s = Ok (tt, s') ->
    bcPos (ue s') = bcPos (ue s) + 8 * Z.of_nat (length cases) /\
    exists new, history s' = new ++ history s /\
      rev (branch_events new)
      = imap (fun i t => (so, bcPos (ue s) + 4 + 8 * Z.of_nat i, snd t)) cases.
Proof.
  induction cases as [|t cases IH]; intros s s' H.
  - apply mret_Ok in H as [_ ->]. simpl. split; [lia|]. by exists [].
  - simpl in H. apply bind_Ok in H as ([] & s1 & H1 & H).
    apply emit_case_slot in H1 as (Hpos1 & d & fd & Hh1).
    destruct (IH _ _ H) as (Hpos & new & Hh & Hnew).
    split; [rewrite Hpos, Hpos1; simpl length; lia|].
    exists (new ++ [EvBranch so (bcPos (ue s) + 4) (snd t);
                    EvExpect (snd t) d fd]).
    split; [by rewrite Hh, Hh1, <- app_assoc|].
    unfold branch_events in *. rewrite omap_app, rev_app_distr. simpl.
    rewrite Hnew. f_equal; [f_equal; f_equal; lia|].
    apply imap_ext. intros i x _. simpl. rewrite Hpos1. f_equal. f_equal.
    lia.
Qed.

(** X21: a string switch with an empty table is not emitted; otherwise the
    immediate is the number of cases, then for each case a 32-bit label and
    a 32-bit branch slot, the label of the last case being -1: it takes
    [4 + 8 * n] bytes, and the branch of case [i] is written [8 + 8 * i]
    bytes into the immediate, relative to the start of the instruction. *)
Theorem emit_sswitch_layout so targets s s' :
  emit_sswitch so targets s = Ok (tt, s') ->
  targets <> [] /\
  bcPos (ue s') = bcPos (ue s) + 4 + 8 * Z.of_nat (length targets) /\
  exists new, history s' = new ++ history s /\
    rev (branch_events new)
    = imap (fun i t => (so, bcPos (ue s) + 8 + 8 * Z.of_nat i, snd t)) targets.
Proof.
  unfold emit_sswitch. intros H.
  apply bind_Ok in H as ([] & s1 & H1 & H).
  apply ue_do_emitBytes_appends, sink_appends_pos in H1 as [Hp1 Hh1].
  simpl in Hp1.
  destruct (last targets) as [dflt|] eqn:Hlast; [|done].
  apply last_Some in Hlast as [cases ->].
  rewrite removelast_last in H.
  apply bind_Ok in H as ([] & s2 & H2 & H).
  apply emit_cases_slots in H2 as (Hp2 & new & Hh2 & Hnew).
  apply emit_label_slot in H as (Hp & d & fd & Hh).
  split_and!.
  - by destruct cases.
  - rewrite Hp, Hp2, Hp1, length_app. simpl. lia.
  - exists ([EvBranch so (bcPos (ue s2) + 4) (snd dflt);
             EvExpect (snd dflt) d fd] ++ new).
    split; [by rewrite Hh, Hh2, Hh1, <- app_assoc|].
    unfold branch_events in *. rewrite omap_app, rev_app_distr, Hnew, imap_app.
    f_equal.
    + apply imap_ext. intros i x _. simpl. rewrite Hp1. f_equal. f_equal. lia.
    + simpl. rewrite Hp2, Hp1. f_equal. f_equal. f_equal. lia.
Qed.

End StringJumpTables.

Lemma emit_sswitch_layout_witness :
  let s := enter_func Demo.f_branch [0; 1; 2]%nat Demo.state0 in
  let targets := [("a"%string, 2%nat); ("b"%string, 1%nat); (EmptyString, 2%nat)] in
  let s' := Demo.final (emit_sswitch 0 targets s) in
  targets <> [] /\
  bcPos (ue s') = bcPos (ue s) + 4 + 8 * Z.of_nat (length targets) /\
  exists new, history s' = new ++ history s /\
    rev (branch_events new)
    = imap (fun i t => (0, bcPos (ue s) + 8 + 8 * Z.of_nat i, snd t)) targets.
Proof.
  apply (emit_sswitch_layout 0
           [("a"%string, 2%nat); ("b"%string, 1%nat); (EmptyString, 2%nat)]).
  vm_compute. reflexivity.
Defined.

(** ** Local ranges *)

Section LocalRanges.

Context {tbl : OpcodeTable} {cfg : Cfg}.

Lemma live_before_step ls i :
  live_before ls (S i)
  = (live_before ls i
     + match ls !! i with
       | Some l => if killed l then 0 else 1
       | None => 0
       end)%N.
Proof.
  revert ls; induction i as [|i IH]; intros [|l ls]; try done.
  - simpl. destruct ls; lia.
  - change (live_before (l :: ls) (S (S i)))
      with ((if killed l then 0 else 1) + live_before ls (S i))%N.
    change (live_before (l :: ls) (S i))
      with ((if killed l then 0 else 1) + live_before ls i)%N.
    rewrite IH. simpl. lia.
Qed.

Lemma live_before_lip ls n k :
  (live_before ls (n + k) <= live_before ls n + N.of_nat k)%N.
Proof.
  induction k as [|k IH]; [rewrite Nat.add_0_r; lia|].
  rewrite Nat.add_succ_r, live_before_step.
  destruct (ls !! (n + k)%nat) as [l|]; [destruct (killed l)|]; lia.
Qed.

Lemma live_before_gap ls a n i :
  live_before ls (a + n) = (live_before ls a + N.of_nat n)%N ->
  (a <= i < a + n)%nat ->
  exists loc, ls !! i = Some loc /\ killed loc = false.
Proof.
  intros Heq Hi.
  pose proof (live_before_step ls i) as Hstep.
  pose proof (live_before_lip ls a (i - a)) as H1.
  pose proof (live_before_lip ls (S i) (a + n - S i)) as H2.
  replace (a + (i - a))%nat with i in H1 by lia.
  replace (S i + (a + n - S i))%nat with (a + n)%nat in H2 by lia.
  destruct (ls !! i) as [loc|]; [destruct (killed loc) eqn:Hk|]; [lia| |lia].
  by exists loc.
Qed.

(** X22: after [emit_init_func], a local range that does not wrap around is
    emitted only when every local from its first to its last one exists and
    is live: with a killed local in the range the emission does not
    succeed. *)
Theorem emit_lar_live f range s s' :
  emit_lar (emit_init_func f) range s = Ok (tt, s') ->
  (lr_first range + lr_restCount range < 2 ^ 32)%N ->
  forall i,
    (N.to_nat (lr_first range) <= i
     <= N.to_nat (lr_first range + lr_restCount range))%nat ->
    exists loc, locals f !! i = Some loc /\ killed loc = false.
Proof.
  unfold emit_lar. intros H Hwrap i Hi. cbv zeta in H.
  rewrite N.mod_small in H by done.
  apply bind_Ok in H as ([] & s1 & _ & H).
  apply bind_Ok in H as (first & s2 & [Hfirst _]%lift_Ok & H).
  apply bind_Ok in H as (last & s3 & [Hlast _]%lift_Ok & H).
  apply bind_Ok in H as ([] & s4 & [Hd _]%assert_Ok & _).
  apply bool_decide_eq_true in Hd.
  apply map_local_init_inv in Hfirst as (loc1 & Hl1 & Hk1 & ->).
  apply map_local_init_inv in Hlast as (loc2 & Hl2 & Hk2 & ->).
  set (a := N.to_nat (lr_first range)) in *.
  set (n := N.to_nat (lr_restCount range)).
  assert (N.to_nat (lr_first range + lr_restCount range) = (a + n)%nat) as Han
    by (unfold a, n; lia).
  assert (N.of_nat n = lr_restCount range) as Hn by (unfold n; lia).
  rewrite Han in *. clearbody a n.
  pose proof (live_before_mono (locals f) a (a + n) ltac:(lia)) as Hmono.
  pose proof (live_before_lip (locals f) a n) as Hlip.
  assert (Z.of_N (lr_restCount range) < 2 ^ 32) as Hrest.
  { change (2 ^ 32) with (Z.of_N (2 ^ 32)%N). lia. }
  rewrite to_uint32_small in Hd by lia.
  destruct (decide (i = (a + n)%nat)) as [->|Hne]; [by exists loc2|].
  apply (live_before_gap (locals f) a n); lia.
Qed.

End LocalRanges.

Lemma emit_lar_live_witness :
  exists loc, locals Demo.f_locals !! 3%nat = Some loc /\ killed loc = false.
Proof.
  apply (emit_lar_live Demo.f_locals (mkLocalRange 2%N 1%N) Demo.state0
           (Demo.final (emit_lar (emit_init_func Demo.f_locals)
                          (mkLocalRange 2%N 1%N) Demo.state0))).
  - vm_compute. reflexivity.
  - vm_compute. reflexivity.
  - simpl. lia.
Defined.
